(** * german-verbs-db: the scraper pipeline, embedded and verified

    A shallow embedding of the JavaScript sources of the repository
    (parser.js, scrape.js, api.js, db.js, state.js and schema.sql):

    - JavaScript strings are sequences of UTF-16 code units ([list N]);
    - the regular expressions of parser.js are terms of a small regex
      type, run by a backtracking matcher that lists the possible
      outcomes in ECMAScript priority order;
    - effects (network, clock, checkpoint file, database, console) are
      threaded through a state-and-exception monad over a [World]. *)

From Stdlib Require Import String Ascii ZArith NArith Bool Lia Arith DecimalString List.
Import ListNotations.

(* ===================================================================== *)
(** * JavaScript strings                                                   *)
(* ===================================================================== *)

Module JS.

(** A UTF-16 code unit. *)
Definition cu := N.

(** A JavaScript string. *)
Definition jsstring := list cu.

(** ASCII literals of the source text. *)
Definition lit (s : string) : jsstring :=
  List.map N_of_ascii (list_ascii_of_string s).

Definition LF : cu := 10%N.
Definition SPACE : cu := 32%N.
Definition COMMA : cu := 44%N.
Definition DQUOTE : cu := 34%N.
(** U+2014 EM DASH, the placeholder of an unattested form. *)
Definition EMDASH : cu := 8212%N.
(** The non-ASCII letter of the tense labels as it stands in parser.js
    (bytes EC B1 84, that is U+CC44). *)
Definition LABEL_LETTER : cu := 52292%N.

Definition inRange (lo hi c : cu) : bool := (lo <=? c)%N && (c <=? hi)%N.
Arguments inRange (lo hi c)%_N.

(** LineTerminator: LF, CR, LS, PS. *)
Definition isLineTerminator (c : cu) : bool :=
  (c =? 10)%N || (c =? 13)%N || (c =? 8232)%N || (c =? 8233)%N.

(** WhiteSpace or LineTerminator: the class [\s], also what [trim] strips. *)
Definition isSpace (c : cu) : bool :=
  inRange 9 13 c || (c =? 32)%N || (c =? 160)%N || (c =? 5760)%N
  || inRange 8192 8202 c || (c =? 8232)%N || (c =? 8233)%N
  || (c =? 8239)%N || (c =? 8287)%N || (c =? 12288)%N || (c =? 65279)%N.

Definition isDigit (c : cu) : bool := inRange 48 57 c.

(** The class [\w]. *)
Definition isWordChar (c : cu) : bool :=
  inRange 97 122 c || inRange 65 90 c || isDigit c || (c =? 95)%N.

(** Canonicalize of the [i] flag.  Every case-insensitive pattern of the
    sources is made of ASCII characters, and a non-ASCII code unit never
    canonicalizes to an ASCII one, so folding a-z onto A-Z decides the
    comparison exactly. *)
Definition canon (c : cu) : cu :=
  if inRange 97 122 c then (c - 32)%N else c.

Definition cu_eqb (ci : bool) (a b : cu) : bool :=
  if ci then (canon a =? canon b)%N else (a =? b)%N.

Fixpoint str_eqb (a b : jsstring) : bool :=
  match a, b with
  | [], [] => true
  | x :: a', y :: b' => (x =? y)%N && str_eqb a' b'
  | _, _ => false
  end.

(** [s.startsWith(p)], returning what follows the prefix. *)
Fixpoint stripPrefix (ci : bool) (p s : jsstring) : option jsstring :=
  match p with
  | [] => Some s
  | a :: p' =>
      match s with
      | [] => None
      | b :: s' => if cu_eqb ci a b then stripPrefix ci p' s' else None
      end
  end.

Definition startsWith (s p : jsstring) : bool :=
  match stripPrefix false p s with Some _ => true | None => false end.

(** [s.includes(c)] for a one-character needle. *)
Definition includes (s : jsstring) (c : cu) : bool :=
  existsb (N.eqb c) s.

Fixpoint trimStart (s : jsstring) : jsstring :=
  match s with
  | c :: t => if isSpace c then trimStart t else s
  | [] => []
  end.

Definition trimEnd (s : jsstring) : jsstring := rev (trimStart (rev s)).

Definition trim (s : jsstring) : jsstring := trimEnd (trimStart s).

(** [s.split(sep)] for a one-character separator: never the empty list. *)
Fixpoint split (sep : cu) (s : jsstring) : list jsstring :=
  match s with
  | [] => [[]]
  | c :: t =>
      if (c =? sep)%N then [] :: split sep t
      else match split sep t with
           | p :: ps => (c :: p) :: ps
           | [] => [[c]]
           end
  end.

(** [parts.join(sep)]. *)
Fixpoint join (sep : jsstring) (parts : list jsstring) : jsstring :=
  match parts with
  | [] => []
  | [p] => p
  | p :: ps => p ++ sep ++ join sep ps
  end.

(** Truthiness of a string: [Boolean(s)]. *)
Definition truthy (s : jsstring) : bool :=
  match s with [] => false | _ => true end.

End JS.
Import JS.

(* ===================================================================== *)
(** * Regular expressions                                                  *)
(* ===================================================================== *)

Module Regex.

(** The fragment of ECMAScript regular expressions parser.js is written
    in.  Every quantifier of the sources ranges over a one-character
    class, so repetition takes a class. *)
Inductive regex : Type :=
| RLit (ci : bool) (l : jsstring)        (* a literal run; [ci] is the i flag *)
| RClass (p : cu -> bool)                (* one character of a class *)
| RStar (greedy : bool) (p : cu -> bool) (* p* when greedy, p*? otherwise *)
| RSeq (a b : regex)
| RAlt (a b : regex)
| RGroup (n : nat) (a : regex)           (* the n-th capturing group *)
| RBegin                                 (* ^ without the m flag *)
| REnd                                   (* $ without the m flag *)
| RWordB.                                (* \b *)

(** [.] without the s flag, [.] with it, and [p+]. *)
Definition notLT (c : cu) : bool := negb (isLineTerminator c).
Definition dot : regex := RClass notLT.
Definition anyCu (c : cu) : bool := true.
Definition RPlus (p : cu -> bool) : regex := RSeq (RClass p) (RStar true p).
Definition isNot (x : cu) (c : cu) : bool := negb (c =? x)%N.

(** The matcher's position: the code unit before it (for [^] and [\b]),
    the input still ahead, and the captures made so far. *)
Record mstate : Type := MState {
  m_prev : option cu;
  m_rest : jsstring;
  m_caps : list (nat * jsstring)
}.

Definition isWordOpt (o : option cu) : bool :=
  match o with Some c => isWordChar c | None => false end.

(** All the ways [p*] can stop, in backtracking order. *)
Fixpoint star (greedy : bool) (p : cu -> bool) (prev : option cu)
  (s : jsstring) : list (option cu * jsstring) :=
  match s with
  | [] => [(prev, [])]
  | c :: t =>
      if p c then
        if greedy then star greedy p (Some c) t ++ [(prev, s)]
        else (prev, s) :: star greedy p (Some c) t
      else [(prev, s)]
  end.

Definition lastOr (prev : option cu) (l : jsstring) : option cu :=
  match rev l with c :: _ => Some c | [] => prev end.

(** What was consumed between two positions of the same input. *)
Definition consumed (before after : jsstring) : jsstring :=
  firstn (length before - length after) before.

(** The outcomes of matching [r] at a position, most preferred first:
    the head is the match ECMAScript's backtracking finds. *)
Fixpoint rmatch (r : regex) (st : mstate) : list mstate :=
  match r with
  | RLit ci l =>
      match stripPrefix ci l (m_rest st) with
      | Some rest' => [MState (lastOr (m_prev st) (consumed (m_rest st) rest'))
                              rest' (m_caps st)]
      | None => []
      end
  | RClass p =>
      match m_rest st with
      | c :: t => if p c then [MState (Some c) t (m_caps st)] else []
      | [] => []
      end
  | RStar g p =>
      List.map (fun '(pv, s) => MState pv s (m_caps st))
               (star g p (m_prev st) (m_rest st))
  | RSeq a b => flat_map (rmatch b) (rmatch a st)
  | RAlt a b => rmatch a st ++ rmatch b st
  | RGroup n a =>
      List.map (fun st' => MState (m_prev st') (m_rest st')
                        ((n, consumed (m_rest st) (m_rest st')) :: m_caps st'))
               (rmatch a st)
  | RBegin => match m_prev st with None => [st] | Some _ => [] end
  | REnd => match m_rest st with [] => [st] | _ :: _ => [] end
  | RWordB =>
      if xorb (isWordOpt (m_prev st)) (isWordOpt (hd_error (m_rest st)))
      then [st] else []
  end.

(** A match object: [index], the matched text ([m[0]]) and the groups. *)
Record matchResult : Type := MatchResult {
  mr_index : nat;
  mr_text : jsstring;
  mr_caps : list (nat * jsstring)
}.

(** [m[n]] for n >= 1; [None] is [undefined]. *)
Fixpoint group (n : nat) (caps : list (nat * jsstring)) : option jsstring :=
  match caps with
  | [] => None
  | (k, v) :: rest => if Nat.eqb k n then Some v else group n rest
  end.

(** The match at exactly this position, if any. *)
Definition matchHere (r : regex) (prev : option cu) (s : jsstring)
  : option mstate :=
  hd_error (rmatch r (MState prev s [])).

(** [s.match(r)] without the g flag (and [r.exec(s)]): the leftmost match. *)
Fixpoint searchFrom (r : regex) (idx : nat) (prev : option cu) (s : jsstring)
  : option matchResult :=
  match matchHere r prev s with
  | Some st' => Some (MatchResult idx (consumed s (m_rest st')) (m_caps st'))
  | None =>
      match s with
      | [] => None
      | c :: t => searchFrom r (S idx) (Some c) t
      end
  end.

Definition exec (r : regex) (s : jsstring) : option matchResult :=
  searchFrom r 0 None s.

(** [r.test(s)]. *)
Definition test (r : regex) (s : jsstring) : bool :=
  match exec r s with Some _ => true | None => false end.

(** [s.match(r)] with the g flag: the successive matches, each search
    resuming where the previous match ended (one further after an empty
    match).  [skip] counts the code units of the previous match still to
    be passed over. *)
Fixpoint matchAllFrom (r : regex) (skip : nat) (prev : option cu)
  (s : jsstring) : list jsstring :=
  match skip with
  | S k =>
      match s with
      | [] => []
      | c :: t => matchAllFrom r k (Some c) t
      end
  | O =>
      match matchHere r prev s with
      | Some st' =>
          let m := consumed s (m_rest st') in
          m :: match s with
               | [] => []
               | c :: t => matchAllFrom r (pred (length m)) (Some c) t
               end
      | None =>
          match s with
          | [] => []
          | c :: t => matchAllFrom r 0 (Some c) t
          end
      end
  end.

(** [s.match(r)] with the g flag returns [null] when nothing matches. *)
Definition matchAll (r : regex) (s : jsstring) : option (list jsstring) :=
  match matchAllFrom r 0 None s with
  | [] => None
  | ms => Some ms
  end.

(** [s.replace(r, repl)] with the g flag and a replacement free of [$]. *)
Fixpoint replaceFrom (r : regex) (repl : jsstring) (skip : nat)
  (prev : option cu) (s : jsstring) : jsstring :=
  match skip with
  | S k =>
      match s with
      | [] => []
      | c :: t => replaceFrom r repl k (Some c) t
      end
  | O =>
      match matchHere r prev s with
      | Some st' =>
          let n := length (consumed s (m_rest st')) in
          repl ++ match s with
                  | [] => []
                  | c :: t =>
                      (if Nat.eqb n 0 then [c] else [])
                        ++ replaceFrom r repl (pred n) (Some c) t
                  end
      | None =>
          match s with
          | [] => []
          | c :: t => c :: replaceFrom r repl 0 (Some c) t
          end
      end
  end.

Definition replaceAll (r : regex) (repl : jsstring) (s : jsstring) : jsstring :=
  replaceFrom r repl 0 None s.

(** [s.split(r)] for a regular expression without capturing groups:
    the pieces between the successive matches, each match looked for
    where the previous one ended.  [piece] holds, reversed, the code
    units passed since then; a match that is empty right where the
    previous one ended is not one. *)
Fixpoint splitFrom (r : regex) (skip : nat) (prev : option cu)
  (piece : jsstring) (s : jsstring) : list jsstring :=
  match s with
  | [] => [rev piece]
  | c :: t =>
      match skip with
      | S k => splitFrom r k (Some c) [] t
      | O =>
          match matchHere r prev s with
          | None => splitFrom r 0 (Some c) (c :: piece) t
          | Some st' =>
              match length (consumed s (m_rest st')) with
              | O =>
                  match piece with
                  | [] => splitFrom r 0 (Some c) [c] t
                  | _ :: _ => rev piece :: splitFrom r 0 (Some c) [c] t
                  end
              | S k => rev piece :: splitFrom r k (Some c) [] t
              end
          end
      end
  end.

Definition splitRe (r : regex) (s : jsstring) : list jsstring :=
  match s with
  | [] => match matchHere r None [] with
          | Some _ => []
          | None => [[]]
          end
  | _ :: _ => splitFrom r 0 None [] s
  end.

End Regex.
Import Regex.

(* ===================================================================== *)
(** * Exceptions                                                           *)
(* ===================================================================== *)

(** A thrown [Error]: its constructor name and its [message]. *)
Record JsError : Type := MkError {
  err_name : string;
  err_message : jsstring
}.

(** The outcome of a synchronous computation that may throw. *)
Inductive completion (A : Type) : Type :=
| Normal (a : A)
| Thrown (e : JsError).
Arguments Normal {A} a.
Arguments Thrown {A} e.

Definition cbind {A B} (c : completion A) (k : A -> completion B)
  : completion B :=
  match c with
  | Normal a => k a
  | Thrown e => Thrown e
  end.

Notation "x <-! c ;; k" := (cbind c (fun x => k))
  (at level 61, c at next level, right associativity).

(** Reading a property of [null] or [undefined]. *)
Definition TypeError_null : JsError :=
  MkError "TypeError" (lit "Cannot read properties of null").

(* ===================================================================== *)
(** * parser.js                                                            *)
(* ===================================================================== *)

Module Parser.

Fixpoint seqs (l : list regex) : regex :=
  match l with
  | [] => RLit false []
  | [r] => r
  | r :: l' => RSeq r (seqs l')
  end.

Fixpoint alts (l : list regex) : regex :=
  match l with
  | [] => RClass (fun _ => false)
  | [r] => r
  | r :: l' => RAlt r (alts l')
  end.

Definition GT : cu := 62%N.

(** [/^Flexion:(.+)$/] *)
Definition titleRe : regex :=
  seqs [RBegin; RLit false (lit "Flexion:"); RGroup 1 (RPlus notLT); REnd].

(** [pageTitle?.match(...)]; [None] as argument is [undefined], as result
    [null]. *)
Definition extractInfinitiveFromTitle (pageTitle : option jsstring)
  : option jsstring :=
  match pageTitle with
  | None => None
  | Some t =>
      match exec titleRe t with
      | Some m => group 1 (mr_caps m)
      | None => None
      end
  end.

(** [/<sup[^>]*>.*?<\/sup>/gi] *)
Definition supRe : regex :=
  seqs [RLit true (lit "<sup"); RStar true (isNot GT); RLit true (lit ">");
        RStar false notLT; RLit true (lit "</sup>")].

(** [/<[^>]+>/g] *)
Definition tagRe : regex :=
  seqs [RLit false (lit "<"); RPlus (isNot GT); RLit false (lit ">")].

(** [/&[^;]+;/g] *)
Definition entityRe : regex :=
  seqs [RLit false (lit "&"); RPlus (isNot 59%N); RLit false (lit ";")].

(** [/\s+/g] *)
Definition spacesRe : regex := RPlus isSpace.

(** [/\ber\/sie\/es\b/gi] *)
Definition thirdPersonRe : regex :=
  seqs [RWordB; RLit true (lit "er/sie/es"); RWordB].

(** [/\b(ich|du|wir|ihr|sie)\b/gi] *)
Definition pronounRe : regex :=
  seqs [RWordB;
        RGroup 1 (alts [RLit true (lit "ich"); RLit true (lit "du");
                        RLit true (lit "wir"); RLit true (lit "ihr");
                        RLit true (lit "sie")]);
        RWordB].

Definition reflexiveAlts : regex :=
  RGroup 1 (alts [RLit true (lit "mich"); RLit true (lit "dich");
                  RLit true (lit "sich"); RLit true (lit "uns");
                  RLit true (lit "euch")]).

(** [/\b(mich|dich|sich|uns|euch)\b/gi] *)
Definition reflexiveRe : regex := seqs [RWordB; reflexiveAlts; RWordB].

(** [/^(mich|dich|sich|uns|euch)$/i] *)
Definition reflexive : regex := seqs [RBegin; reflexiveAlts; REnd].

(** extractTextFromCell, first statement: the cell without markup. *)
Definition cellText (cell : jsstring) : jsstring :=
  trim (replaceAll spacesRe [SPACE]
         (replaceAll entityRe [SPACE]
           (replaceAll tagRe [SPACE]
             (replaceAll supRe [] cell)))).

(** extractTextFromCell, second statement up to [.split(",")]. *)
Definition cellPieces (text : jsstring) : list jsstring :=
  split COMMA
    (replaceAll spacesRe [SPACE]
      (replaceAll reflexiveRe []
        (replaceAll pronounRe [COMMA]
          (replaceAll thirdPersonRe [COMMA] text)))).

Definition extractTextFromCell (cell : jsstring) : jsstring :=
  let text := cellText cell in
  let cleaned :=
    join [COMMA; SPACE] (filter truthy (List.map trim (cellPieces text))) in
  cleaned.

(** The six slots of a tense; [None] is a missing property, so [{}] is
    [emptyForms]. *)
Record Forms : Type := MkForms {
  sg1 : option jsstring;
  sg2 : option jsstring;
  sg3 : option jsstring;
  pl1 : option jsstring;
  pl2 : option jsstring;
  pl3 : option jsstring
}.

Definition emptyForms : Forms := MkForms None None None None None None.

(** [/<td>(.*?)\n<\/td>/] *)
Definition cellRe : regex :=
  seqs [RLit false (lit "<td>"); RGroup 1 (RStar false notLT);
        RLit false (LF :: lit "</td>")].

(** [extractTextFromCell(rows[k].match(/<td>(.*?)\n<\/td>/)[1])] *)
Definition cellOfRow (rows : list jsstring) (k : nat) : completion jsstring :=
  match nth_error rows k with
  | None => Thrown TypeError_null
  | Some row =>
      match exec cellRe row with
      | None => Thrown TypeError_null
      | Some m =>
          match group 1 (mr_caps m) with
          | None => Thrown TypeError_null
          | Some cell => Normal (extractTextFromCell cell)
          end
      end
  end.

(** [rows] is the result of a global match: [None] is [null]. *)
Definition parseConjugationRows (rows : option (list jsstring))
  : completion Forms :=
  match rows with
  | None => Normal emptyForms
  | Some rs =>
      if (length rs <? 6)%nat then Normal emptyForms
      else
        f1 <-! cellOfRow rs 0 ;;
        f2 <-! cellOfRow rs 1 ;;
        f3 <-! cellOfRow rs 2 ;;
        f4 <-! cellOfRow rs 3 ;;
        f5 <-! cellOfRow rs 4 ;;
        f6 <-! cellOfRow rs 5 ;;
        Normal (MkForms (Some f1) (Some f2) (Some f3)
                        (Some f4) (Some f5) (Some f6))
  end.

Record ParsedVerb : Type := MkParsed {
  separablePrefix : jsstring;
  infinitive : jsstring;
  praesens : Forms;
  praeteritum : Forms;
  perfekt : Forms;
  plusquamperfekt : Forms;
  futur1 : Forms;
  futur2 : Forms
}.

(** [/<h2[^>]*>(.*?)<\/h2>/] *)
Definition h2Re : regex :=
  seqs [RLit false (lit "<h2"); RStar true (isNot GT); RLit false (lit ">");
        RGroup 1 (RStar false notLT); RLit false (lit "</h2>")].

Definition notSpaceNorParen (c : cu) : bool :=
  negb (isSpace c) && negb (c =? 40)%N.

(** [/^([^\s(]+)\s*\(Konjugation\)/] *)
Definition infinitiveRe : regex :=
  seqs [RBegin; RGroup 1 (RPlus notSpaceNorParen); RStar true isSpace;
        RLit false (lit "(Konjugation)")].

(** [<td colspan="\d+"[^>]*>] *)
Definition tdColspan : list regex :=
  [RLit false (lit "<td colspan=" ++ [DQUOTE]); RPlus isDigit;
   RLit false [DQUOTE]; RStar true (isNot GT); RLit false (lit ">")].

(** How a tense region ends: at the next heading cell, or at the end of
    the table. *)
Definition untilNextHeading : list regex :=
  [RLit false (lit "<td colspan=" ++ [DQUOTE]); RPlus isDigit;
   RLit false [DQUOTE]; RStar true (isNot GT); RLit false (lit "><span")].

Definition untilTableEnd : list regex :=
  [RLit false (lit "</tbody></table>")].

(** [/<td colspan="\d+"[^>]*>.*?<b>.*?LABEL<\/a><\/b>\n<\/td><\/tr>(.*?)END/s] *)
Definition sectionRe (label : jsstring) (closing : list regex) : regex :=
  seqs (tdColspan ++
        [RStar false anyCu; RLit false (lit "<b>"); RStar false anyCu;
         RLit false (label ++ lit "</a></b>" ++ [LF] ++ lit "</td></tr>");
         RGroup 1 (RStar false anyCu)] ++ closing).

(** [/<tr>\n<td[^>]*><small>(.*?)<\/small>\n<\/td>\n<td>(.*?)\n<\/td>/g] *)
Definition rowRe : regex :=
  seqs [RLit false (lit "<tr>" ++ [LF] ++ lit "<td");
        RStar true (isNot GT);
        RLit false (lit "><small>");
        RGroup 1 (RStar false notLT);
        RLit false (lit "</small>" ++ [LF] ++ lit "</td>" ++ [LF] ++ lit "<td>");
        RGroup 2 (RStar false notLT);
        RLit false (LF :: lit "</td>")].

Definition label_praesens : jsstring := lit "Pr" ++ [LABEL_LETTER] ++ lit "sens".
Definition label_praeteritum : jsstring :=
  lit "Pr" ++ [LABEL_LETTER] ++ lit "teritum".

(** One tense table: the section is located, its rows matched and read;
    a tense whose section is not found keeps its [{}]. *)
Definition parseSection (text : jsstring) (label : jsstring)
  (closing : list regex) : completion Forms :=
  match exec (sectionRe label closing) text with
  | None => Normal emptyForms
  | Some sec =>
      match group 1 (mr_caps sec) with
      | None => Thrown TypeError_null
      | Some body => parseConjugationRows (matchAll rowRe body)
      end
  end.

(** The infinitive of the h2 heading, the empty string when there is none. *)
Definition parseInfinitive (text : jsstring) : jsstring :=
  match exec h2Re text with
  | None => []
  | Some h2Match =>
      match group 1 (mr_caps h2Match) with
      | None => []
      | Some g =>
          let h2Text := replaceAll tagRe [] g in
          match exec infinitiveRe h2Text with
          | None => []
          | Some infinitiveMatch =>
              match group 1 (mr_caps infinitiveMatch) with
              | Some i => i
              | None => []
              end
          end
      end
  end.

Definition isReflexiveToken (p : jsstring) : bool := test reflexive p.

(** The last block of parseConjugations, as a function of the
    present-tense first-person slot: the value assigned to
    [result.separablePrefix], which starts as the empty string. *)
Definition detectSeparablePrefix (slot : option jsstring) : jsstring :=
  match slot with
  | None => []
  | Some s =>
      if truthy s then
        let firstForm := trim (hd [] (split COMMA s)) in
        if includes firstForm SPACE then
          let parts := split SPACE firstForm in
          if (2 <=? length parts)%nat then
            join [SPACE]
                 (filter (fun p => negb (isReflexiveToken p)) (tl parts))
          else []
        else []
      else []
  end.

(** The record before the separable prefix is detected. *)
Definition parseTables (text : jsstring) : completion ParsedVerb :=
  let inf := parseInfinitive text in
  t1 <-! parseSection text label_praesens untilNextHeading ;;
  t2 <-! parseSection text label_praeteritum untilNextHeading ;;
  t3 <-! parseSection text (lit "Perfekt") untilNextHeading ;;
  t4 <-! parseSection text (lit "Plusquamperfekt") untilTableEnd ;;
  t5 <-! parseSection text (lit "Futur I") untilNextHeading ;;
  t6 <-! parseSection text (lit "Futur II") untilTableEnd ;;
  Normal (MkParsed [] inf t1 t2 t3 t4 t5 t6).

Definition withSeparablePrefix (result : ParsedVerb) : ParsedVerb :=
  MkParsed (detectSeparablePrefix (sg1 (praesens result)))
           (infinitive result) (praesens result) (praeteritum result)
           (perfekt result) (plusquamperfekt result) (futur1 result)
           (futur2 result).

(** [parseConjugations(text)]: [None] as argument and as result is [null]. *)
Definition parseConjugations (text : option jsstring)
  : completion (option ParsedVerb) :=
  match text with
  | None => Normal None
  | Some t =>
      if negb (truthy t) then Normal None
      else
        result <-! parseTables t ;;
        Normal (Some (withSeparablePrefix result))
  end.

End Parser.
Import Parser.

(* ===================================================================== *)
(** * schema.sql and db.js                                                 *)
(* ===================================================================== *)

Module Db.

(** A row of [verbs]. *)
Record VerbRow : Type := MkVerbRow {
  v_id : Z;
  v_infinitive : jsstring;
  v_separable_prefix : option jsstring;   (* [None] is NULL *)
  v_is_irregular : Z;
  v_usage_popularity : Z;
  v_created_at : Z;
  v_updated_at : Z
}.

(** A row of [verb_conjugations]; primary key [(verb_id, tense)]. *)
Record ConjRow : Type := MkConjRow {
  c_verb_id : Z;
  c_tense : string;
  c_sg1 : jsstring;
  c_sg2 : jsstring;
  c_sg3 : jsstring;
  c_pl1 : jsstring;
  c_pl2 : jsstring;
  c_pl3 : jsstring;
  c_notes : option jsstring
}.

(** A row of [verb_translations]. *)
Record TranslationRow : Type := MkTranslationRow {
  t_id : Z;
  t_verb_id : Z;
  t_locale : jsstring;
  t_text : jsstring;
  t_sense_order : Z;
  t_notes : option jsstring;
  t_created_at : Z
}.

(** The database file: the three tables and the AUTOINCREMENT counter
    that sqlite_sequence keeps for [verbs]. *)
Record Database : Type := MkDatabase {
  verbs : list VerbRow;
  verb_conjugations : list ConjRow;
  verb_translations : list TranslationRow;
  seq_verbs : Z
}.

Definition emptyDatabase : Database := MkDatabase [] [] [] 0.

(** What [stmt.run] returns. *)
Record RunResult : Type := MkRunResult {
  changes : Z;
  lastInsertRowid : Z
}.

Definition memZ (x : Z) (l : list Z) : bool := existsb (Z.eqb x) l.

Definition maxId (rows : list VerbRow) : Z :=
  fold_right (fun v m => Z.max (v_id v) m) 0%Z rows.

(** [INSERT OR REPLACE INTO verbs (infinitive, separable_prefix,
    is_irregular, usage_popularity) VALUES (?, ?, ?, ?)] under
    [PRAGMA foreign_keys = ON].  The id is not given, so the only
    constraint the new row can violate is [UNIQUE (infinitive)]: REPLACE
    deletes the rows in conflict, the deletion cascades to the tables
    that reference [verbs(id)], and the row is inserted under a fresh
    AUTOINCREMENT id, larger than any id the table ever held. *)
Definition insertOrReplaceVerb (now : Z) (db : Database)
  (inf : jsstring) (prefix : option jsstring) (irregular popularity : Z)
  : RunResult * Database :=
  let conflicting := filter (fun v => str_eqb (v_infinitive v) inf) (verbs db) in
  let deleted := List.map v_id conflicting in
  let kept := filter (fun v => negb (str_eqb (v_infinitive v) inf)) (verbs db) in
  let newId := (Z.max (seq_verbs db) (maxId (verbs db)) + 1)%Z in
  let row := MkVerbRow newId inf prefix irregular popularity now now in
  (MkRunResult 1 newId,
   MkDatabase
     (kept ++ [row])
     (filter (fun c => negb (memZ (c_verb_id c) deleted)) (verb_conjugations db))
     (filter (fun t => negb (memZ (t_verb_id t) deleted)) (verb_translations db))
     newId).

(** [SELECT id FROM verbs WHERE infinitive = ?], [.get(...)]. *)
Definition selectIdByInfinitive (db : Database) (inf : jsstring)
  : option Z :=
  option_map v_id (find (fun v => str_eqb (v_infinitive v) inf) (verbs db)).

(** The argument object of insertVerb, destructured with its defaults. *)
Record VerbArgs : Type := MkVerbArgs {
  a_infinitive : jsstring;
  a_separablePrefix : option jsstring;
  a_isIrregular : bool;
  a_usagePopularity : Z
}.

Definition insertVerb (now : Z) (db : Database) (verb : VerbArgs)
  : completion Z * Database :=
  let '(result, db') :=
    insertOrReplaceVerb now db (a_infinitive verb) (a_separablePrefix verb)
      (if a_isIrregular verb then 1 else 0)%Z (a_usagePopularity verb) in
  if (changes result =? 0)%Z then
    match selectIdByInfinitive db' (a_infinitive verb) with
    | Some id => (Normal id, db')
    | None => (Thrown TypeError_null, db')
    end
  else (Normal (lastInsertRowid result), db').

(** The argument object of insertConjugation: [verbId], [tense] and the
    spread of a forms object, whose properties may be missing. *)
Record ConjArgs : Type := MkConjArgs {
  a_verbId : Z;
  a_tense : string;
  a_forms : Forms;
  a_notes : option jsstring
}.

Definition SqliteError (msg : string) : JsError :=
  MkError "SqliteError" (lit msg).

(** [INSERT OR REPLACE INTO verb_conjugations (...) VALUES (...)]: the
    slots are NOT NULL, the verb must exist, and a row with the same
    [(verb_id, tense)] is replaced. *)
Definition insertConjugation (db : Database) (c : ConjArgs)
  : completion unit * Database :=
  match sg1 (a_forms c), sg2 (a_forms c), sg3 (a_forms c),
        pl1 (a_forms c), pl2 (a_forms c), pl3 (a_forms c) with
  | Some f1, Some f2, Some f3, Some f4, Some f5, Some f6 =>
      if memZ (a_verbId c) (List.map v_id (verbs db)) then
        let row := MkConjRow (a_verbId c) (a_tense c) f1 f2 f3 f4 f5 f6
                             (a_notes c) in
        (Normal tt,
         MkDatabase
           (verbs db)
           (filter (fun r => negb ((c_verb_id r =? a_verbId c)%Z
                                   && String.eqb (c_tense r) (a_tense c)))
                   (verb_conjugations db) ++ [row])
           (verb_translations db)
           (seq_verbs db))
      else (Thrown (SqliteError "FOREIGN KEY constraint failed"), db)
  | _, _, _, _, _, _ =>
      (Thrown (SqliteError "NOT NULL constraint failed"), db)
  end.

(** Code-unit order of two strings (the BINARY collation on the Basic
    Multilingual Plane). *)
Fixpoint str_leb (a b : jsstring) : bool :=
  match a, b with
  | [], _ => true
  | _ :: _, [] => false
  | x :: a', y :: b' =>
      if (x <? y)%N then true
      else if (y <? x)%N then false
      else str_leb a' b'
  end.

Fixpoint insertSorted (v : VerbRow) (l : list VerbRow) : list VerbRow :=
  match l with
  | [] => [v]
  | u :: l' =>
      if str_leb (v_infinitive v) (v_infinitive u) then v :: l
      else u :: insertSorted v l'
  end.

Definition orderByInfinitive (l : list VerbRow) : list VerbRow :=
  fold_right insertSorted [] l.

Definition hasTense (db : Database) (id : Z) (tense : string) : bool :=
  existsb (fun c => (c_verb_id c =? id)%Z && String.eqb (c_tense c) tense)
          (verb_conjugations db).

(** [SELECT COUNT(DISTINCT vc.tense) ... AND vc.tense IN ('praesens',
    'praeteritum', 'perfekt')] *)
Definition requiredTenseCount (db : Database) (id : Z) : nat :=
  length (filter (hasTense db id) ["praesens"; "praeteritum"; "perfekt"]%string).

(** getIncompleteVerbs: the [(id, infinitive)] of the verbs that lack one
    of the three tenses, ordered by infinitive. *)
Definition getIncompleteVerbs (db : Database) : list (Z * jsstring) :=
  List.map (fun v => (v_id v, v_infinitive v))
    (orderByInfinitive
       (filter (fun v => (requiredTenseCount db (v_id v) <? 3)%nat)
               (verbs db))).

(** getVerbIdByInfinitive: [None] is [null]. *)
Definition getVerbIdByInfinitive (db : Database) (infinitive : jsstring)
  : option Z :=
  match selectIdByInfinitive db infinitive with
  | Some id => Some id
  | None => None
  end.

(** [DELETE FROM verbs WHERE id = ?] under [PRAGMA foreign_keys = ON]:
    the rows that refer to a deleted verb go with it. *)
Definition deleteVerbById (db : Database) (id : Z) : Database :=
  let deleted :=
    List.map v_id (filter (fun v => (v_id v =? id)%Z) (verbs db)) in
  MkDatabase
    (filter (fun v => negb (v_id v =? id)%Z) (verbs db))
    (filter (fun c => negb (memZ (c_verb_id c) deleted)) (verb_conjugations db))
    (filter (fun t => negb (memZ (t_verb_id t) deleted)) (verb_translations db))
    (seq_verbs db).

End Db.
Import Db.

(* ===================================================================== *)
(** * The world the scraper runs in                                        *)
(* ===================================================================== *)

Module Sys.

(** state.js: the checkpointed state.  [lastUpdated] is kept as the clock
    reading rather than its ISO rendering. *)
Inductive Phase : Type := fetching_verbs | fetching_conjugations | completed.

Record ScraperState : Type := MkState {
  phase : Phase;
  verbListContinueToken : option jsstring;
  verbList : list jsstring;
  processedVerbIndex : Z;
  lastUpdated : Z
}.

Definition phase_eqb (a b : Phase) : bool :=
  match a, b with
  | fetching_verbs, fetching_verbs => true
  | fetching_conjugations, fetching_conjugations => true
  | completed, completed => true
  | _, _ => false
  end.

(** The two requests api.js builds. *)
Inductive Request : Type :=
| CategoryMembers (lang : string) (cmtitle : jsstring)
                  (cmcontinue : option jsstring)
| ParsePage (lang : string) (page : jsstring) (prop : string).

(** The parts of a response body the client reads:
    [data.query?.categorymembers] (the titles), [data.continue?.cmcontinue],
    [data.parse?.text?.["*"]] and [data.parse?.wikitext?.["*"]]. *)
Record ApiData : Type := MkApiData {
  d_categorymembers : option (list jsstring);
  d_cmcontinue : option jsstring;
  d_parse_text : option jsstring;
  d_parse_wikitext : option jsstring
}.

(** What [fetch] comes back with: a rejection, or a response whose
    [json()] may itself fail. *)
Inductive Reply : Type :=
| NetworkError (e : JsError)
| Response (status : N) (statusText : jsstring) (body : completion ApiData).

Record Exchange : Type := MkExchange {
  x_latency : N;       (* milliseconds until the reply *)
  x_reply : Reply
}.

(** Console output, kept structured.  Banners are left out. *)
Inductive LogLine : Type :=
| LogNoSavedState
| LogResuming (st : ScraperState)
| LogFetched (members total : nat) (continuing : bool)
| LogTotalFound (n : nat)
| LogSkipping (i : Z) (total : nat) (infinitive : option jsstring)
| LogProcessing (i : Z) (total : nat) (infinitive : jsstring)
| LogNoPage (infinitive : jsstring)
| LogCouldNotParse (infinitive : jsstring)
| LogTooFewTenses (valid : nat)
| LogTense (label : jsstring)
| LogRateLimit
| LogErrorProcessing (infinitive : jsstring) (message : jsstring)
| LogUnexpected (e : JsError)
| LogCompleted (total verb_count conjugation_count : nat).

(** What a run does to the outside, in order. *)
Inductive Event : Type :=
| EFetch (time : Z) (req : Request)     (* an outbound call and its start *)
| ESave (st : ScraperState)             (* the checkpoint file rewritten *)
| EInsertVerb (args : VerbArgs)
| EInsertConjugation (args : ConjArgs)
| ELog (line : LogLine).

Record World : Type := MkWorld {
  w_net : nat -> Request -> Exchange;   (* the remote side, per call number *)
  w_timerSlack : nat -> N;              (* how late a timer fires *)
  w_clock : Z;                          (* Date.now() *)
  w_lastRequestTime : Z;                (* api.js, module variable *)
  w_requests : nat;                     (* calls issued so far *)
  w_file : option (option ScraperState);(* the state file: absent, or
                                           present and parseable or not *)
  w_db : Database;
  w_state : ScraperState;               (* the [state] object of main *)
  w_trace : list Event                  (* oldest first *)
}.

Definition setClock (t : Z) (w : World) : World :=
  MkWorld (w_net w) (w_timerSlack w) t (w_lastRequestTime w) (w_requests w)
          (w_file w) (w_db w) (w_state w) (w_trace w).
Definition setLastRequestTime (t : Z) (w : World) : World :=
  MkWorld (w_net w) (w_timerSlack w) (w_clock w) t (w_requests w)
          (w_file w) (w_db w) (w_state w) (w_trace w).
Definition setRequests (n : nat) (w : World) : World :=
  MkWorld (w_net w) (w_timerSlack w) (w_clock w) (w_lastRequestTime w) n
          (w_file w) (w_db w) (w_state w) (w_trace w).
Definition setFile (f : option (option ScraperState)) (w : World) : World :=
  MkWorld (w_net w) (w_timerSlack w) (w_clock w) (w_lastRequestTime w)
          (w_requests w) f (w_db w) (w_state w) (w_trace w).
Definition setDb (d : Database) (w : World) : World :=
  MkWorld (w_net w) (w_timerSlack w) (w_clock w) (w_lastRequestTime w)
          (w_requests w) (w_file w) d (w_state w) (w_trace w).
Definition setState (s : ScraperState) (w : World) : World :=
  MkWorld (w_net w) (w_timerSlack w) (w_clock w) (w_lastRequestTime w)
          (w_requests w) (w_file w) (w_db w) s (w_trace w).
Definition emit (e : Event) (w : World) : World :=
  MkWorld (w_net w) (w_timerSlack w) (w_clock w) (w_lastRequestTime w)
          (w_requests w) (w_file w) (w_db w) (w_state w) (w_trace w ++ [e]).

(** How a computation ends: a value, an exception, [process.exit], or
    the fuel of an unbounded loop running out. *)
Inductive Result (A : Type) : Type :=
| Ret (a : A)
| Throw (e : JsError)
| Exit (code : Z)
| OutOfFuel.
Arguments Ret {A} a.
Arguments Throw {A} e.
Arguments Exit {A} code.
Arguments OutOfFuel {A}.

Definition M (A : Type) : Type := World -> Result A * World.

Definition ret {A} (a : A) : M A := fun w => (Ret a, w).

Definition bind {A B} (m : M A) (k : A -> M B) : M B :=
  fun w =>
    match m w with
    | (Ret a, w') => k a w'
    | (Throw e, w') => (Throw e, w')
    | (Exit c, w') => (Exit c, w')
    | (OutOfFuel, w') => (OutOfFuel, w')
    end.

Definition throw {A} (e : JsError) : M A := fun w => (Throw e, w).
Definition exit {A} (code : Z) : M A := fun w => (Exit code, w).
Definition outOfFuel {A} : M A := fun w => (OutOfFuel, w).

(** [try { body } catch (error) { handler }] *)
Definition tryCatch {A} (body : M A) (handler : JsError -> M A) : M A :=
  fun w =>
    match body w with
    | (Throw e, w') => handler e w'
    | other => other
    end.

Definition get {A} (f : World -> A) : M A := fun w => (Ret (f w), w).
Definition update (f : World -> World) : M unit := fun w => (Ret tt, f w).
Definition lift {A} (c : completion A) : M A :=
  match c with
  | Normal a => ret a
  | Thrown e => throw e
  end.

Definition log (l : LogLine) : M unit := update (emit (ELog l)).

Definition modifyState (f : ScraperState -> ScraperState) : M unit :=
  update (fun w => setState (f (w_state w)) w).

End Sys.
Import Sys.

Notation "x <- c ;; k" := (bind c (fun x => k))
  (at level 61, c at next level, right associativity).
Notation "c ;;; k" := (bind c (fun _ => k))
  (at level 61, right associativity).

(* ===================================================================== *)
(** * api.js                                                               *)
(* ===================================================================== *)

Module Api.

Definition RATE_LIMIT_MS : Z := 100.

(** [await new Promise((resolve) => setTimeout(resolve, waitTime))]: the
    flow resumes once the timer has fired, [waitTime] later or more. *)
Definition sleep (waitTime : Z) : M unit :=
  update (fun w =>
    setClock (w_clock w + waitTime + Z.of_N (w_timerSlack w (w_requests w))) w).

Definition waitForRateLimit : M unit :=
  now <- get w_clock ;;
  lastRequestTime <- get w_lastRequestTime ;;
  let timeSinceLastRequest := (now - lastRequestTime)%Z in
  (if (timeSinceLastRequest <? RATE_LIMIT_MS)%Z then
     let waitTime := (RATE_LIMIT_MS - timeSinceLastRequest)%Z in
     sleep waitTime
   else ret tt) ;;;
  now' <- get w_clock ;;
  update (setLastRequestTime now').

(** [await fetch(url)]: the call starts now, the reply arrives after the
    latency the remote side takes. *)
Definition fetch (req : Request) : M (N * jsstring * completion ApiData) :=
  fun w =>
    let x := w_net w (w_requests w) req in
    let w' := setRequests (S (w_requests w))
                (setClock (w_clock w + Z.of_N (x_latency x))
                   (emit (EFetch (w_clock w) req) w)) in
    match x_reply x with
    | NetworkError e => (Throw e, w')
    | Response status statusText body => (Ret (status, statusText, body), w')
    end.

Definition RATE_LIMIT_error : JsError :=
  MkError "Error" (lit "RATE_LIMIT: Too many requests. Please wait and try again.").

Definition decimal (n : N) : jsstring :=
  lit (DecimalString.NilZero.string_of_uint (N.to_uint n)).

Definition HTTP_error (status : N) (statusText : jsstring) : JsError :=
  MkError "Error" (lit "HTTP error: " ++ decimal status ++ [SPACE] ++ statusText).

(** [response.ok] *)
Definition ok (status : N) : bool := inRange 200 299 status.

Definition apiRequest (req : Request) : M ApiData :=
  waitForRateLimit ;;;
  response <- fetch req ;;
  let '(status, statusText, body) := response in
  if (status =? 429)%N then throw RATE_LIMIT_error
  else if negb (ok status) then throw (HTTP_error status statusText)
  else lift body.

(** [x || null] on a string that may be missing. *)
Definition orNull (x : option jsstring) : option jsstring :=
  match x with
  | Some s => if truthy s then Some s else None
  | None => None
  end.

Definition getCategoryMembers (category : jsstring)
  (resumeToken : option jsstring) (lang : string)
  : M (list jsstring * option jsstring) :=
  let cmcontinue := orNull resumeToken in
  data <- apiRequest
            (CategoryMembers lang (lit "Kategorie:" ++ category) cmcontinue) ;;
  let members := match d_categorymembers data with
                 | Some ms => ms
                 | None => []
                 end in
  let continueToken := orNull (d_cmcontinue data) in
  ret (members, continueToken).

(** The do-while loop of getAllCategoryMembers; [fuel] bounds the number
    of pages, which the remote side alone decides. *)
Fixpoint getAllCategoryMembersLoop (fuel : nat) (category : jsstring)
  (onProgress : option (list jsstring -> option jsstring -> M unit))
  (continueToken : option jsstring) (lang : string)
  (allMembers : list jsstring) : M (list jsstring) :=
  match fuel with
  | O => outOfFuel
  | S fuel' =>
      page <- getCategoryMembers category continueToken lang ;;
      let '(members, nextToken) := page in
      let allMembers' := allMembers ++ members in
      (match onProgress with
       | Some f => f members nextToken
       | None => ret tt
       end) ;;;
      log (LogFetched (length members) (length allMembers')
                      (match nextToken with Some _ => true | None => false end)) ;;;
      match nextToken with
      | Some _ =>
          getAllCategoryMembersLoop fuel' category onProgress nextToken lang
                                    allMembers'
      | None => ret allMembers'
      end
  end.

Definition getAllCategoryMembers (fuel : nat) (category : jsstring)
  (onProgress : option (list jsstring -> option jsstring -> M unit))
  (continueToken : option jsstring) : M (list jsstring) :=
  getAllCategoryMembersLoop fuel category onProgress continueToken "de" [].

Definition getPageText (pageTitle : jsstring) (prop lang : string)
  : M (option jsstring) :=
  data <- apiRequest (ParsePage lang pageTitle prop) ;;
  if String.eqb prop "wikitext" then ret (orNull (d_parse_wikitext data))
  else ret (orNull (d_parse_text data)).

End Api.
Import Api.

(* ===================================================================== *)
(** * state.js                                                             *)
(* ===================================================================== *)

Module StateFile.

Definition getDefaultState : M ScraperState :=
  now <- get w_clock ;;
  ret (MkState fetching_verbs None [] (-1) now).

(** loadState: a missing or unparseable file gives the default state. *)
Definition loadState : M ScraperState :=
  file <- get w_file ;;
  match file with
  | None => getDefaultState
  | Some None => getDefaultState
  | Some (Some st) => ret st
  end.

(** saveState(state), on the state object of main. *)
Definition saveState : M unit :=
  now <- get w_clock ;;
  modifyState (fun st => MkState (phase st) (verbListContinueToken st)
                                 (verbList st) (processedVerbIndex st) now) ;;;
  st <- get w_state ;;
  update (fun w => emit (ESave st) (setFile (Some (Some st)) w)).

Definition hasState : M bool :=
  file <- get w_file ;;
  ret (match file with Some _ => true | None => false end).

(** clearState: the file is deleted if it is there. *)
Definition clearState : M unit :=
  file <- get w_file ;;
  match file with
  | Some _ => update (setFile None)
  | None => ret tt
  end.

End StateFile.
Import StateFile.

(* ===================================================================== *)
(** * scrape.js                                                            *)
(* ===================================================================== *)

Module Scrape.

(** "Verbkonjugation_unregelmäßig_(Deutsch)" *)
Definition CATEGORY_NAME : jsstring :=
  lit "Verbkonjugation_unregelm" ++ [228%N; 223%N] ++ lit "ig_(Deutsch)".

(** A slot passes when it is truthy, is not the dash, and is not blank
    once trimmed. *)
Definition formPresent (v : option jsstring) : bool :=
  match v with
  | None => false
  | Some s =>
      truthy s && negb (str_eqb s [EMDASH]) && negb (str_eqb (trim s) [])
  end.

Definition hasAllForms (forms : Forms) : bool :=
  forallb formPresent
    [sg1 forms; sg2 forms; sg3 forms; pl1 forms; pl2 forms; pl3 forms].

(** An entry of [validTenses]. *)
Record ValidTense : Type := MkValidTense {
  vt_tense : string;
  vt_forms : Forms;
  vt_label : jsstring
}.

Definition label_Praesens : jsstring := lit "Pr" ++ [228%N] ++ lit "sens".
Definition label_Praeteritum : jsstring := lit "Pr" ++ [228%N] ++ lit "teritum".

(** The three pushes onto [validTenses]. *)
Definition validTensesOf (conjugations : ParsedVerb) : list ValidTense :=
  (if hasAllForms (praesens conjugations)
   then [MkValidTense "praesens" (praesens conjugations) label_Praesens]
   else []) ++
  (if hasAllForms (praeteritum conjugations)
   then [MkValidTense "praeteritum" (praeteritum conjugations) label_Praeteritum]
   else []) ++
  (if hasAllForms (perfekt conjugations)
   then [MkValidTense "perfekt" (perfekt conjugations) (lit "Perfekt")]
   else []).

Definition dbInsertVerb (args : VerbArgs) : M Z :=
  fun w =>
    let '(r, db') := insertVerb (w_clock w) (w_db w) args in
    lift r (setDb db' (emit (EInsertVerb args) w)).

Definition dbInsertConjugation (args : ConjArgs) : M unit :=
  fun w =>
    let '(r, db') := insertConjugation (w_db w) args in
    lift r (setDb db' (emit (EInsertConjugation args) w)).

(** [for (const { tense, forms, label } of validTenses) { ... }] *)
Fixpoint insertValidTenses (verbId : Z) (validTenses : list ValidTense)
  : M unit :=
  match validTenses with
  | [] => ret tt
  | vt :: rest =>
      dbInsertConjugation (MkConjArgs verbId (vt_tense vt) (vt_forms vt) None) ;;;
      log (LogTense (vt_label vt)) ;;;
      insertValidTenses verbId rest
  end.

(** [state.processedVerbIndex = i; saveState(state);] *)
Definition checkpoint (i : Z) : M unit :=
  modifyState (fun st => MkState (phase st) (verbListContinueToken st)
                                 (verbList st) i (lastUpdated st)) ;;;
  saveState.

(** How the body of the for loop leaves its try block: by [continue], or
    by reaching the statements after it. *)
Inductive Flow : Type := Continue | FallThrough.

(** [state.verbList[i]]: [undefined] outside the list. *)
Definition titleAt (l : list jsstring) (i : Z) : option jsstring :=
  if (i <? 0)%Z then None else nth_error l (Z.to_nat i).

(** The try block of the loop body, for the title at index [i]. *)
Definition fetchAndStore (i : Z) (infinitive : jsstring) : M Flow :=
  wikitext <- getPageText (lit "Flexion:" ++ infinitive) "text" "de" ;;
  match wikitext with
  | None =>
      log (LogNoPage infinitive) ;;;
      checkpoint i ;;;
      ret Continue
  | Some _ =>
      parsed <- lift (parseConjugations wikitext) ;;
      match parsed with
      | None =>
          log (LogCouldNotParse infinitive) ;;;
          checkpoint i ;;;
          ret Continue
      | Some conjugations =>
          let validTenses := validTensesOf conjugations in
          if (length validTenses <? 3)%nat then
            log (LogTooFewTenses (length validTenses)) ;;;
            checkpoint i ;;;
            ret Continue
          else
            verbId <- dbInsertVerb
                        (MkVerbArgs infinitive
                                    (Some (separablePrefix conjugations))
                                    true 0) ;;
            insertValidTenses verbId validTenses ;;;
            ret FallThrough
      end
  end.

(** The catch clause of the loop body. *)
Definition onTitleError (i : Z) (infinitive : jsstring) (error : JsError)
  : M Flow :=
  if startsWith (err_message error) (lit "RATE_LIMIT") then
    log LogRateLimit ;;;
    modifyState (fun st => MkState (phase st) (verbListContinueToken st)
                                   (verbList st) (i - 1) (lastUpdated st)) ;;;
    saveState ;;;
    exit 1
  else
    log (LogErrorProcessing infinitive (err_message error)) ;;;
    ret FallThrough.

(** One iteration of the for loop. *)
Definition processTitle (i : Z) (totalVerbs : nat) : M unit :=
  st <- get w_state ;;
  let verbTitle := titleAt (verbList st) i in
  let infinitive := extractInfinitiveFromTitle verbTitle in
  match infinitive with
  | None =>
      log (LogSkipping i totalVerbs None) ;;;
      checkpoint i
  | Some inf =>
      if negb (truthy inf) || includes inf SPACE then
        log (LogSkipping i totalVerbs infinitive) ;;;
        checkpoint i
      else
        log (LogProcessing i totalVerbs inf) ;;;
        flow <- tryCatch (fetchAndStore i inf) (onTitleError i inf) ;;
        match flow with
        | Continue => ret tt
        | FallThrough => checkpoint i
        end
  end.

(** [for (let i = startIndex; i < totalVerbs; i++)], with [n] the number
    of iterations left. *)
Fixpoint processTitles (n : nat) (i : Z) (totalVerbs : nat) : M unit :=
  match n with
  | O => ret tt
  | S n' =>
      processTitle i totalVerbs ;;;
      processTitles n' (i + 1)%Z totalVerbs
  end.

Definition setPhase (p : Phase) : M unit :=
  modifyState (fun st => MkState p (verbListContinueToken st) (verbList st)
                                 (processedVerbIndex st) (lastUpdated st)).

(** The callback main passes to getAllCategoryMembers. *)
Definition onPage (newMembers : list jsstring) (continueToken : option jsstring)
  : M unit :=
  modifyState (fun st => MkState (phase st) continueToken
                                 (verbList st ++ newMembers)
                                 (processedVerbIndex st) (lastUpdated st)) ;;;
  saveState.

(** Phase 1 of main. *)
Definition fetchVerbList (fuel : nat) (incompleteMode : bool) : M unit :=
  (if incompleteMode then
     db <- get w_db ;;
     let incompleteVerbs := getIncompleteVerbs db in
     modifyState (fun st =>
       MkState (phase st) (verbListContinueToken st)
               (List.map (fun v => lit "Flexion:" ++ snd v) incompleteVerbs)
               (processedVerbIndex st) (lastUpdated st)) ;;;
     st <- get w_state ;;
     log (LogTotalFound (length (verbList st)))
   else
     token <- get (fun w => verbListContinueToken (w_state w)) ;;
     getAllCategoryMembers fuel CATEGORY_NAME (Some onPage) token ;;;
     st <- get w_state ;;
     log (LogTotalFound (length (verbList st)))) ;;;
  setPhase fetching_conjugations ;;;
  saveState.

(** Phase 2 of main. *)
Definition fetchConjugations : M unit :=
  st <- get w_state ;;
  let startIndex := (processedVerbIndex st + 1)%Z in
  let totalVerbs := length (verbList st) in
  processTitles (Z.to_nat (Z.of_nat totalVerbs - startIndex)) startIndex
                totalVerbs ;;;
  setPhase completed ;;;
  saveState.

(** Phase 3 of main: the closing report. *)
Definition report : M unit :=
  st <- get w_state ;;
  db <- get w_db ;;
  log (LogCompleted (length (verbList st)) (length (verbs db))
                    (length (verb_conjugations db))).

Definition whenPhase (p : Phase) (m : M unit) : M unit :=
  st <- get w_state ;;
  if phase_eqb (phase st) p then m else ret tt.

(** The catch clause of main. *)
Definition onFatal (error : JsError) : M unit :=
  (if startsWith (err_message error) (lit "RATE_LIMIT")
   then log LogRateLimit
   else log (LogUnexpected error)) ;;;
  saveState ;;;
  exit 1.

(** [main(resume, incompleteMode)].  initDatabase re-runs a schema made of
    CREATE ... IF NOT EXISTS statements and db.close() ends the
    connection: neither changes the stored rows. *)
Definition main (fuel : nat) (resume incompleteMode : bool) : M unit :=
  resume' <- (if resume then
                present <- hasState ;;
                if negb present then log LogNoSavedState ;;; ret false
                else ret true
              else ret false) ;;
  state <- (if resume' : bool then loadState else getDefaultState) ;;
  update (setState state) ;;;
  (if resume' : bool then log (LogResuming state) else ret tt) ;;;
  tryCatch
    (whenPhase fetching_verbs (fetchVerbList fuel incompleteMode) ;;;
     whenPhase fetching_conjugations fetchConjugations ;;;
     whenPhase completed report)
    onFatal.

End Scrape.
Import Scrape.

(* ===================================================================== *)
(** * cleanup.js                                                           *)
(* ===================================================================== *)

Module Cleanup.

(** What the script prints. *)
Inductive Line : Type :=
| Deleting (infinitive : jsstring)
| Completed (deletedCount : Z)
| Remaining (verb_count conjugation_count : nat).

(** [for (const verb of incompleteVerbs) { ...; deleteStmt.run(verb.id); }] *)
Fixpoint deleteEach (incompleteVerbs : list (Z * jsstring)) (db : Database)
  : list Line * Database :=
  match incompleteVerbs with
  | [] => ([], db)
  | verb :: rest =>
      let '(lines, db') := deleteEach rest (deleteVerbById db (fst verb)) in
      (Deleting (snd verb) :: lines, db')
  end.

(** deleteIncompleteVerbs: the number returned, the lines printed and
    the database left. *)
Definition deleteIncompleteVerbs (db : Database)
  : Z * list Line * Database :=
  let incompleteVerbs := getIncompleteVerbs db in
  if (length incompleteVerbs =? 0)%nat then (0%Z, [], db)
  else
    let '(lines, db') := deleteEach incompleteVerbs db in
    (Z.of_nat (length incompleteVerbs), lines, db').

(** [main()] of the script, banners left out. *)
Definition main (db : Database) : list Line * Database :=
  let '(deletedCount, lines, db') := deleteIncompleteVerbs db in
  (lines ++ [Completed deletedCount;
             Remaining (length (verbs db')) (length (verb_conjugations db'))],
   db').

End Cleanup.

(* ===================================================================== *)
(** * api.js: the frequency list, and frequency.js                         *)
(* ===================================================================== *)

Module Frequency.

(** [/^(\d+)\s+\[\[([^\]]+)\]\]/] *)
Definition lineRe : regex :=
  seqs [RBegin; RGroup 1 (RPlus isDigit); RPlus isSpace; RLit false (lit "[[");
        RGroup 2 (RPlus (isNot 93%N)); RLit false (lit "]]")].

(** [/\r?\n/] *)
Definition lineBreakRe : regex :=
  seqs [RAlt (RLit false [13%N]) (RLit false []); RLit false [LF]].

(** [/\./g] *)
Definition dotRe : regex := RLit false (lit ".").

Fixpoint takeDigits (s : jsstring) : jsstring :=
  match s with
  | c :: t => if isDigit c then c :: takeDigits t else []
  | [] => []
  end.

Definition decimalValue (digits : jsstring) : Z :=
  fold_left (fun acc c => (acc * 10 + Z.of_N (c - 48))%Z) digits 0%Z.

(** [parseInt(s, 10)]; [None] is NaN.  A Number is taken as the integer
    it stands for, which it is below 2^53. *)
Definition parseInt10 (s : jsstring) : option Z :=
  let s1 := trimStart s in
  let '(sign, s2) :=
    match s1 with
    | c :: t =>
        if (c =? 45)%N then ((-1)%Z, t)
        else if (c =? 43)%N then (1%Z, t)
        else (1%Z, s1)
    | [] => (1%Z, [])
    end in
  match takeDigits s2 with
  | [] => None
  | digits => Some (sign * decimalValue digits)%Z
  end.

(** A [Map] from words to counts, in insertion order. *)
Definition FreqMap : Type := list (jsstring * option Z).

(** [map.set(key, value)] *)
Fixpoint mapSet (key : jsstring) (value : option Z) (map : FreqMap) : FreqMap :=
  match map with
  | [] => [(key, value)]
  | (k, v) :: rest =>
      if str_eqb k key then (k, value) :: rest
      else (k, v) :: mapSet key value rest
  end.

(** [map.get(key)], [None] when [map.has(key)] is false. *)
Definition mapGet (key : jsstring) (map : FreqMap) : option (option Z) :=
  option_map snd (find (fun e => str_eqb (fst e) key) map).

(** The body of the loop over the lines. *)
Definition addLine (line : jsstring) (map : FreqMap) : completion FreqMap :=
  match exec lineRe line with
  | None => Normal map
  | Some m =>
      match group 1 (mr_caps m), group 2 (mr_caps m) with
      | Some m1, Some m2 =>
          let count := parseInt10 (replaceAll dotRe [] m1) in
          let word := trim m2 in
          if negb (truthy word) then Normal map
          else Normal (mapSet word count map)
      | _, _ => Thrown TypeError_null
      end
  end.

Fixpoint addLines (lines : list jsstring) (map : FreqMap) : completion FreqMap :=
  match lines with
  | [] => Normal map
  | line :: rest =>
      map' <-! addLine line map ;;
      addLines rest map'
  end.

Definition titles : list jsstring :=
  [lit "User:Matthias_Buchmeier/German_frequency_list-1-5000";
   lit "User:Matthias_Buchmeier/German_frequency_list-5001-10000"].

(** The loop over the titles. *)
Fixpoint addPages (titles : list jsstring) (map : FreqMap) : M FreqMap :=
  match titles with
  | [] => ret map
  | title :: rest =>
      wikitext <- getPageText title "wikitext" "en" ;;
      match wikitext with
      | None => addPages rest map
      | Some text =>
          map' <- lift (addLines (splitRe lineBreakRe text) map) ;;
          addPages rest map'
      end
  end.

Definition getGermanWordsFrequences : M FreqMap := addPages titles [].

(** [UPDATE verbs SET usage_popularity = ? WHERE id = ?] *)
Definition updatePopularity (count id : Z) (db : Database) : Database :=
  MkDatabase
    (List.map (fun v =>
       if (v_id v =? id)%Z
       then MkVerbRow (v_id v) (v_infinitive v) (v_separable_prefix v)
                      (v_is_irregular v) count (v_created_at v) (v_updated_at v)
       else v) (verbs db))
    (verb_conjugations db) (verb_translations db) (seq_verbs db).

(** The transaction over the pairs of an id and a count.  A count that
    is not a number would be stored as NULL, which the rows of this
    development do not hold: [None] stands for that case. *)
Fixpoint updateMany (items : list (Z * option Z)) (db : Database)
  : option Database :=
  match items with
  | [] => Some db
  | (id, Some count) :: rest => updateMany rest (updatePopularity count id db)
  | (_, None) :: _ => None
  end.

(** The pairs main collects: the verbs whose infinitive the map has. *)
Definition toUpdate (freqMap : FreqMap) (db : Database) : list (Z * option Z) :=
  flat_map (fun v =>
              match mapGet (v_infinitive v) freqMap with
              | Some count => [(v_id v, count)]
              | None => []
              end) (verbs db).

(** [main()] of frequency.js: the number of verbs matched, which it
    prints, or [None] in the case [updateMany] leaves out. *)
Definition main : M (option nat) :=
  freqMap <- getGermanWordsFrequences ;;
  db <- get w_db ;;
  let items := toUpdate freqMap db in
  if (0 <? length items)%nat then
    match updateMany items db with
    | Some db' => update (setDb db') ;;; ret (Some (length items))
    | None => ret None
    end
  else ret (Some (length items)).

End Frequency.

(* ===================================================================== *)
(** * Specification-level notions                                          *)
(* ===================================================================== *)

Module Spec.

(** The strings a regex can consume, whatever surrounds them: the
    assertions consume nothing. *)
Fixpoint lang (r : regex) (m : jsstring) : Prop :=
  match r with
  | RLit ci l => stripPrefix ci l m = Some []
  | RClass p => exists c, m = [c] /\ p c = true
  | RStar _ p => forallb p m = true
  | RSeq a b => exists m1 m2, m = m1 ++ m2 /\ lang a m1 /\ lang b m2
  | RAlt a b => lang a m \/ lang b m
  | RGroup _ a => lang a m
  | RBegin => m = []
  | REnd => m = []
  | RWordB => m = []
  end.

(** A regex without assertions matches the same whatever precedes. *)
Fixpoint assertionFree (r : regex) : bool :=
  match r with
  | RLit _ _ | RClass _ | RStar _ _ => true
  | RSeq a b | RAlt a b => assertionFree a && assertionFree b
  | RGroup _ a => assertionFree a
  | RBegin | REnd | RWordB => false
  end.

(** Group [n] is set on every path through the regex. *)
Fixpoint defines (n : nat) (r : regex) : bool :=
  match r with
  | RGroup k a => Nat.eqb k n || defines n a
  | RSeq a b => defines n a || defines n b
  | RAlt a b => defines n a && defines n b
  | _ => false
  end.

(** What [replace(/\s+/g, " ")] computes: every run of white space
    becomes one space.  [inRun] tells that the previous code unit was
    white space. *)
Fixpoint collapseSpaces (inRun : bool) (s : jsstring) : jsstring :=
  match s with
  | [] => []
  | c :: t =>
      if isSpace c then
        if inRun then collapseSpaces true t else SPACE :: collapseSpaces true t
      else c :: collapseSpaces false t
  end.

(** No white space but single spaces between other code units. *)
Fixpoint tidy (s : jsstring) : bool :=
  match s with
  | [] => true
  | c :: t =>
      (if isSpace c then
         (c =? SPACE)%N && match t with
                           | d :: _ => negb (isSpace d)
                           | [] => true
                           end
       else true) && tidy t
  end.

(** The white-space-delimited tokens of a string. *)
Fixpoint words (s : jsstring) : list jsstring :=
  match s with
  | [] => []
  | c :: t =>
      if isSpace c then words t
      else match t with
           | [] => [[c]]
           | d :: _ =>
               if isSpace d then [c] :: words t
               else match words t with
                    | w :: ws => (c :: w) :: ws
                    | [] => [[c]]
                    end
           end
  end.

Definition eq_ignoring_case (a b : jsstring) : bool :=
  match stripPrefix true a b with
  | Some [] => true
  | _ => false
  end.

(** mich, dich, sich, uns, euch. *)
Definition reflexivePronouns : list jsstring :=
  [lit "mich"; lit "dich"; lit "sich"; lit "uns"; lit "euch"].

Definition isReflexivePronoun (token : jsstring) : bool :=
  existsb (fun p => eq_ignoring_case p token) reflexivePronouns.

(** The first comma-delimited alternative of a slot. *)
Definition firstAlternative (s : jsstring) : jsstring := hd [] (split COMMA s).

(** A space inside the alternative, not at its ends. *)
Definition hasInternalSpace (a : jsstring) : bool := includes (trim a) SPACE.

(** Separable-prefix detection as the specification words it: the tokens
    after the stem, reflexive pronouns left out, joined by spaces. *)
Definition spec_separablePrefix (slot : option jsstring) : jsstring :=
  match slot with
  | None => []
  | Some s =>
      let a := firstAlternative s in
      if hasInternalSpace a then
        join [SPACE] (filter (fun t => negb (isReflexivePronoun t))
                             (tl (words a)))
      else []
  end.

(** A slot is missing, or is the text extracted from some cell. *)
Definition extracted (v : option jsstring) : Prop :=
  v = None \/ exists cell, v = Some (extractTextFromCell cell).

(** A forms object is [{}], or holds six extracted cells. *)
Definition formsExtracted (f : Forms) : Prop :=
  f = emptyForms \/
  exists c1 c2 c3 c4 c5 c6,
    f = MkForms (Some (extractTextFromCell c1)) (Some (extractTextFromCell c2))
                (Some (extractTextFromCell c3)) (Some (extractTextFromCell c4))
                (Some (extractTextFromCell c5)) (Some (extractTextFromCell c6)).

(** How many code units of white space a string starts with. *)
Definition leading (s : jsstring) : nat := (length s - length (trimStart s))%nat.

Definition startsClean (s : jsstring) : Prop :=
  match s with d :: _ => isSpace d = false | [] => True end.

(** Tidy, and without white space at either end. *)
Definition clean (p : jsstring) : Prop :=
  tidy p = true /\ startsClean p /\ startsClean (rev p).

(** Every conjugation row refers to a stored verb (the foreign key). *)
Definition foreignKeysHold (db : Database) : Prop :=
  forall c, In c (verb_conjugations db) ->
            exists v, In v (verbs db) /\ v_id v = c_verb_id c.

(** ** The world after each operation *)

(** The world once [saveState(state)] has run. *)
Definition saved (w : World) : World := snd (saveState w).

(** The world once [state.processedVerbIndex = i; saveState(state)] has run. *)
Definition checkpointed (i : Z) (w : World) : World := snd (checkpoint i w).

Definition logged (l : LogLine) (w : World) : World := emit (ELog l) w.

(** The reply the remote side gives to the next request. *)
Definition replyTo (req : Request) (w : World) : Reply :=
  x_reply (w_net w (w_requests w) req).

(** What apiRequest makes of a reply. *)
Definition replyOutcome (r : Reply) : Result ApiData :=
  match r with
  | NetworkError e => Throw e
  | Response status statusText body =>
      if (status =? 429)%N then Throw RATE_LIMIT_error
      else if negb (ok status) then Throw (HTTP_error status statusText)
      else match body with
           | Normal d => Ret d
           | Thrown e => Throw e
           end
  end.

(** The world once [apiRequest(req)] has settled. *)
Definition requested (req : Request) (w : World) : World :=
  snd (apiRequest req w).

(** The request main issues for a verb. *)
Definition pageRequest (infinitive : jsstring) : Request :=
  ParsePage "de" (lit "Flexion:" ++ infinitive) "text".

(** The infinitive main derives from the title at index [i]. *)
Definition titleInfinitive (i : Z) (w : World) : option jsstring :=
  extractInfinitiveFromTitle (titleAt (verbList (w_state w)) i).

(** The test that sends a title to the "Skipping" branch. *)
Definition skipped (infinitive : option jsstring) : bool :=
  match infinitive with
  | None => true
  | Some inf => negb (truthy inf) || includes inf SPACE
  end.

(** The checkpoints of a stretch of events, in order. *)
Fixpoint saves (evs : list Event) : list ScraperState :=
  match evs with
  | [] => []
  | ESave st :: rest => st :: saves rest
  | _ :: rest => saves rest
  end.

(** The id AUTOINCREMENT gives the next verb. *)
Definition nextVerbId (db : Database) : Z :=
  (Z.max (seq_verbs db) (maxId (verbs db)) + 1)%Z.

(** The argument main passes to insertVerb. *)
Definition verbArgs (inf : jsstring) (r : ParsedVerb) : VerbArgs :=
  MkVerbArgs inf (Some (separablePrefix r)) true 0.

(** The world once an accepted verb and its tenses are written. *)
Definition stored (inf : jsstring) (r : ParsedVerb) (w : World) : World :=
  snd ((verbId <- dbInsertVerb (verbArgs inf r) ;;
        insertValidTenses verbId (validTensesOf r)) w).

(** The three tenses all pass hasAllForms. *)
Definition trioComplete (r : ParsedVerb) : bool :=
  hasAllForms (praesens r) && hasAllForms (praeteritum r)
  && hasAllForms (perfekt r).

(** The events of writing an accepted verb under id [id]. *)
Definition storeEvents (inf : jsstring) (r : ParsedVerb) (id : Z) : list Event :=
  [EInsertVerb (verbArgs inf r);
   EInsertConjugation (MkConjArgs id "praesens" (praesens r) None);
   ELog (LogTense label_Praesens);
   EInsertConjugation (MkConjArgs id "praeteritum" (praeteritum r) None);
   ELog (LogTense label_Praeteritum);
   EInsertConjugation (MkConjArgs id "perfekt" (perfekt r) None);
   ELog (LogTense (lit "Perfekt"))].

(** The world once the catch clause of the loop body has stopped the run. *)
Definition aborted (i : Z) (w : World) : World :=
  saved (setState (MkState (phase (w_state w)) (verbListContinueToken (w_state w))
                           (verbList (w_state w)) (i - 1) (lastUpdated (w_state w)))
                  (logged LogRateLimit w)).

(** The catch clause of the loop body followed by the rest of the
    iteration. *)
Definition afterError (i : Z) (inf : jsstring) (e : JsError) (w : World)
  : Result unit * World :=
  if startsWith (err_message e) (lit "RATE_LIMIT") then (Exit 1, aborted i w)
  else (Ret tt, checkpointed i (logged (LogErrorProcessing inf (err_message e)) w)).

(** One iteration of the loop for a title that is fetched, from the
    world [w] in which its "Processing" line is already printed. *)
Definition afterAnnounce (i : Z) (inf : jsstring) (w : World)
  : Result unit * World :=
  let w2 := requested (pageRequest inf) w in
  match replyOutcome (replyTo (pageRequest inf) w) with
  | Throw e => afterError i inf e w2
  | Exit c => (Exit c, w2)
  | OutOfFuel => (OutOfFuel, w2)
  | Ret d =>
      match orNull (d_parse_text d) with
      | None => (Ret tt, checkpointed i (logged (LogNoPage inf) w2))
      | Some t =>
          match parseConjugations (Some t) with
          | Thrown e => afterError i inf e w2
          | Normal None =>
              (Ret tt, checkpointed i (logged (LogCouldNotParse inf) w2))
          | Normal (Some r) =>
              if trioComplete r
              then (Ret tt, checkpointed i (stored inf r w2))
              else (Ret tt, checkpointed i
                              (logged (LogTooFewTenses (length (validTensesOf r))) w2))
          end
      end
  end.

(** ** The shape of a run of the processing phase *)

(** The event announces the title at index [i]. *)
Definition announces (i : Z) (e : Event) : Prop :=
  match e with
  | ELog (LogSkipping j _ _) => j = i
  | ELog (LogProcessing j _ _) => j = i
  | _ => False
  end.

(** Neither an announcement, nor a checkpoint, nor the rate-limit notice. *)
Definition quietEvent (e : Event) : bool :=
  match e with
  | ESave _ => false
  | ELog (LogSkipping _ _ _) => false
  | ELog (LogProcessing _ _ _) => false
  | ELog LogRateLimit => false
  | _ => true
  end.

(** The events of a title that was handled: it is announced, and the
    next checkpoint, which closes it, carries its index. *)
Definition handledBlock (i : Z) (evs : list Event) : Prop :=
  exists e mid st,
    evs = e :: mid ++ [ESave st] /\ announces i e /\
    forallb quietEvent mid = true /\ processedVerbIndex st = i.

(** The events of a title on which the rate limit struck: the checkpoint
    that follows the notice carries the index before. *)
Definition abortedBlock (i : Z) (evs : list Event) : Prop :=
  exists e mid st,
    evs = e :: mid ++ [ELog LogRateLimit; ESave st] /\ announces i e /\
    forallb quietEvent mid = true /\ processedVerbIndex st = (i - 1)%Z.

(** [n] titles handled one after the other, from index [i] on. *)
Inductive handledRun : Z -> nat -> list Event -> Prop :=
| handled_none (i : Z) : handledRun i 0 []
| handled_next (i : Z) (n : nat) (b rest : list Event) :
    handledBlock i b -> handledRun (i + 1) n rest ->
    handledRun i (S n) (b ++ rest).

(** The indices of the titles announced, in order. *)
Definition announcedIndices (evs : list Event) : list Z :=
  flat_map (fun e => match e with
                     | ELog (LogSkipping j _ _) => [j]
                     | ELog (LogProcessing j _ _) => [j]
                     | _ => []
                     end) evs.

Definition indicesFrom (i : Z) (n : nat) : list Z :=
  List.map (fun j => (i + Z.of_nat j)%Z) (seq 0 n).

(** The checkpointed fields other than the cursor and the time stamp. *)
Definition sameTitles (w w' : World) : Prop :=
  verbList (w_state w') = verbList (w_state w) /\
  phase (w_state w') = phase (w_state w) /\
  verbListContinueToken (w_state w') = verbListContinueToken (w_state w).

(** What one iteration on the title at index [i] does. *)
Definition titleStep (i : Z) (w : World) (res : Result unit) (w' : World)
  : Prop :=
  sameTitles w w' /\ w_file w' = Some (Some (w_state w')) /\
  exists evs,
    w_trace w' = w_trace w ++ evs /\
    ((res = Ret tt /\ handledBlock i evs /\ processedVerbIndex (w_state w') = i) \/
     (res = Exit 1 /\ abortedBlock i evs
      /\ processedVerbIndex (w_state w') = (i - 1)%Z)).

(** What a stretch of [n] iterations from index [i] does. *)
Definition titlesRun (i : Z) (n : nat) (w : World) (res : Result unit)
  (w' : World) : Prop :=
  sameTitles w w' /\
  exists evs,
    w_trace w' = w_trace w ++ evs /\
    ((res = Ret tt /\ handledRun i n evs) \/
     (res = Exit 1 /\
      exists m blocks last,
        (m < n)%nat /\ evs = blocks ++ last /\ handledRun i m blocks /\
        abortedBlock (i + Z.of_nat m) last /\
        w_file w' = Some (Some (w_state w')) /\
        processedVerbIndex (w_state w') = (i + Z.of_nat m - 1)%Z)).

(** The world when a resumed run enters its try block. *)
Definition resumedWorld (st0 : ScraperState) (w : World) : World :=
  logged (LogResuming st0) (setState st0 w).

(** The world once the processing phase has ended and the report is
    printed. *)
Definition finished (w : World) : World :=
  snd ((setPhase completed ;;; saveState ;;; whenPhase completed report) w).

(** What a run resumed in the processing phase with cursor [k] leaves in
    the trace: the titles from [k+1] on are handled one by one, each
    closed by its checkpoint, up to the end of the list or to the title
    on which the rate limit strikes. *)
Definition resumedTrace (st0 : ScraperState) (res : Result unit)
  (evs : list Event) : Prop :=
  let k := processedVerbIndex st0 in
  let remaining := Z.to_nat (Z.of_nat (length (verbList st0)) - (k + 1)) in
  (res = Ret tt /\
   exists blocks final report,
     evs = ELog (LogResuming st0) :: blocks ++ [ESave final; ELog report] /\
     handledRun (k + 1) remaining blocks /\
     announcedIndices blocks = indicesFrom (k + 1) remaining /\
     phase final = completed)
  \/
  (res = Exit 1 /\
   exists m blocks last,
     (m < remaining)%nat /\
     evs = ELog (LogResuming st0) :: blocks ++ last /\
     handledRun (k + 1) m blocks /\
     announcedIndices blocks = indicesFrom (k + 1) m /\
     abortedBlock (k + 1 + Z.of_nat m) last).

(** The request for the title at index [i] is answered with status 429. *)
Definition rateLimitedAt (i : Z) (w : World) : Prop :=
  exists inf statusText body,
    titleInfinitive i w = Some inf /\ skipped (Some inf) = false /\
    replyTo (pageRequest inf) w = Response 429 statusText body.

(** The request for the title at index [i] fails with the error [e]. *)
Definition failsAt (i : Z) (w : World) (inf : jsstring) (e : JsError) : Prop :=
  titleInfinitive i w = Some inf /\ skipped (Some inf) = false /\
  replyOutcome (replyTo (pageRequest inf) w) = Throw e.

(** The page of the title at index [i] is fetched and parsed as [r]. *)
Definition parsedAt (i : Z) (w : World) (inf : jsstring) (r : ParsedVerb) : Prop :=
  exists d t,
    titleInfinitive i w = Some inf /\ skipped (Some inf) = false /\
    replyOutcome (replyTo (pageRequest inf) w) = Ret d /\
    orNull (d_parse_text d) = Some t /\
    parseConjugations (Some t) = Normal (Some r).

(** The calls to the persistence layer among some events. *)
Definition dbWrites (evs : list Event) : list Event :=
  filter (fun e => match e with
                   | EInsertVerb _ | EInsertConjugation _ => true
                   | _ => false
                   end) evs.

(** The writes main issues for an accepted verb stored under [id]. *)
Definition acceptedWrites (inf : jsstring) (r : ParsedVerb) (id : Z) : list Event :=
  [EInsertVerb (verbArgs inf r);
   EInsertConjugation (MkConjArgs id "praesens" (praesens r) None);
   EInsertConjugation (MkConjArgs id "praeteritum" (praeteritum r) None);
   EInsertConjugation (MkConjArgs id "perfekt" (perfekt r) None)].

(** A slot that is populated and not the placeholder. *)
Definition attested (slot : option jsstring) : Prop :=
  exists s, slot = Some s /\ s <> [] /\ s <> [EMDASH] /\ trim s <> [].

(** The six-slot completeness check, as the specification words it. *)
Definition isSlotSetComplete (f : Forms) : Prop :=
  attested (sg1 f) /\ attested (sg2 f) /\ attested (sg3 f) /\
  attested (pl1 f) /\ attested (pl2 f) /\ attested (pl3 f).

(** No separable prefix is there to detect in a slot. *)
Definition noPrefixIn (slot : option jsstring) : Prop :=
  match slot with
  | None => True
  | Some s =>
      hasInternalSpace (firstAlternative s) = false \/
      forallb isReflexivePronoun (tl (words (firstAlternative s))) = true
  end.

(** ** The rate limiter *)

(** The start times of the outbound calls among some events, in order. *)
Fixpoint fetchTimes (evs : list Event) : list Z :=
  match evs with
  | [] => []
  | EFetch t _ :: rest => t :: fetchTimes rest
  | _ :: rest => fetchTimes rest
  end.

(** Consecutive times are at least the minimum interval apart. *)
Fixpoint spaced (ts : list Z) : Prop :=
  match ts with
  | a :: ((b :: _) as rest) => (a + RATE_LIMIT_MS <= b)%Z /\ spaced rest
  | _ => True
  end.

(** Time passing between two calls, spent on anything else. *)
Definition idle (d : N) : M unit :=
  update (fun w => setClock (w_clock w + Z.of_N d) w).

(** A client of api.js: any sequence of calls, of either kind, each
    after some pause and whatever its outcome. *)
Fixpoint issueAll (calls : list (N * Request)) : M unit :=
  match calls with
  | [] => ret tt
  | (pause, req) :: rest =>
      idle pause ;;;
      tryCatch (apiRequest req ;;; ret tt) (fun _ => ret tt) ;;;
      issueAll rest
  end.

(** What the limiter maintains: the calls made so far are spaced, and
    none started after the time it remembers. *)
Definition limiterOk (w : World) : Prop :=
  spaced (fetchTimes (w_trace w)) /\
  Forall (fun t => (t <= w_lastRequestTime w)%Z) (fetchTimes (w_trace w)).

(** A computation keeps a property of the world, however it ends. *)
Definition preserves {A} (I : World -> Prop) (m : M A) : Prop :=
  forall w, I w -> I (snd (m w)).

(** ** The invariant of the checkpointed state *)

(** The cursor is inside the list, and a continuation token is kept
    only while the titles are being enumerated. *)
Definition stateInv (st : ScraperState) : Prop :=
  (processedVerbIndex st < Z.of_nat (length (verbList st)))%Z /\
  (verbListContinueToken st <> None -> phase st = fetching_verbs).

Definition phaseRank (p : Phase) : nat :=
  match p with
  | fetching_verbs => 0
  | fetching_conjugations => 1
  | completed => 2
  end.

(** From one checkpoint to a later one: the phase does not go back, the
    list only grows while titles are enumerated, and is frozen after. *)
Definition evolves (a b : ScraperState) : Prop :=
  (phaseRank (phase a) <= phaseRank (phase b))%nat /\
  (phase a = fetching_verbs -> exists more, verbList b = verbList a ++ more) /\
  (phase a <> fetching_verbs -> verbList b = verbList a).

Fixpoint chain (l : list ScraperState) : Prop :=
  match l with
  | a :: ((b :: _) as rest) => evolves a b /\ chain rest
  | _ => True
  end.

(** The state a run starts from: the checkpoint when resuming from a
    readable file, the default state otherwise. *)
Definition initialState (resume : bool) (w : World) : ScraperState :=
  match resume, w_file w with
  | true, Some (Some st) => st
  | _, _ => MkState fetching_verbs None [] (-1) (w_clock w)
  end.

(** The checkpoints written since the trace was [tr0] keep the
    invariant and evolve from [init] to the state in memory, which
    could be checkpointed as it is. *)
Definition checkpointsOk (tr0 : list Event) (init : ScraperState) (w : World)
  : Prop :=
  exists evs,
    w_trace w = tr0 ++ evs /\
    Forall stateInv (saves evs) /\
    stateInv (w_state w) /\
    chain (init :: saves evs ++ [w_state w]).

(** A computation that neither checkpoints nor touches the state. *)
Definition quiet {A} (m : M A) : Prop :=
  forall w,
    w_state (snd (m w)) = w_state w /\
    exists evs, w_trace (snd (m w)) = w_trace w ++ evs /\ saves evs = [].

(** A property that only looks at the state and at the checkpoints. *)
Definition stateful (I : World -> Prop) : Prop :=
  forall w w',
    w_state w' = w_state w ->
    (exists evs, w_trace w' = w_trace w ++ evs /\ saves evs = []) ->
    I w -> I w'.

(** The invariant while titles are enumerated. *)
Definition enumeratingOk (tr0 : list Event) (init : ScraperState) (w : World)
  : Prop :=
  checkpointsOk tr0 init w /\ phase (w_state w) = fetching_verbs.

(** The invariant while the [total] titles are processed. *)
Definition processingOk (tr0 : list Event) (init : ScraperState) (total : nat)
  (w : World) : Prop :=
  checkpointsOk tr0 init w /\ phase (w_state w) = fetching_conjugations /\
  length (verbList (w_state w)) = total.

(** The body of the try block of main. *)
Definition mainBody (fuel : nat) (incompleteMode : bool) : M unit :=
  whenPhase fetching_verbs (fetchVerbList fuel incompleteMode) ;;;
  whenPhase fetching_conjugations fetchConjugations ;;;
  whenPhase completed report.

(** The database-driven enumeration starts from an empty list and no
    token, as a run that is not resumed does. *)
Definition freshForIncomplete (incompleteMode : bool) (st : ScraperState) : Prop :=
  incompleteMode = true -> phase st = fetching_verbs ->
  verbListContinueToken st = None /\ verbList st = [].

(** The world in which main enters its try block: the state is loaded
    or created, and the opening lines are printed. *)
Definition tryEntry (resume : bool) (w : World) : World :=
  match resume, w_file w with
  | true, Some (Some st) => logged (LogResuming st) (setState st w)
  | true, Some None =>
      let st := MkState fetching_verbs None [] (-1) (w_clock w) in
      logged (LogResuming st) (setState st w)
  | true, None =>
      setState (MkState fetching_verbs None [] (-1) (w_clock w))
               (logged LogNoSavedState w)
  | false, _ => setState (MkState fetching_verbs None [] (-1) (w_clock w)) w
  end.

(** ** The constraints of schema.sql *)

(** The primary key of [verb_conjugations]. *)
Definition conjKey (c : ConjRow) : Z * string := (c_verb_id c, c_tense c).

(** PRIMARY KEY and UNIQUE of [verbs], PRIMARY KEY of
    [verb_conjugations], and the two foreign keys. *)
Definition schemaOk (db : Database) : Prop :=
  NoDup (List.map v_id (verbs db)) /\
  NoDup (List.map v_infinitive (verbs db)) /\
  NoDup (List.map conjKey (verb_conjugations db)) /\
  foreignKeysHold db /\
  (forall t, In t (verb_translations db) ->
             exists v, In v (verbs db) /\ v_id v = t_verb_id t).

(** The three tenses a verb must have. *)
Definition requiredTenses : list string :=
  ["praesens"; "praeteritum"; "perfekt"]%string.

(** The verb stored under [id] lacks one of the three tenses. *)
Definition lacksTense (db : Database) (id : Z) : Prop :=
  exists tense, In tense requiredTenses /\
    forall c, In c (verb_conjugations db) ->
              ~ (c_verb_id c = id /\ c_tense c = tense).

(** The six slots of a forms object. *)
Definition slotsOf (f : Forms) : list (option jsstring) :=
  [sg1 f; sg2 f; sg3 f; pl1 f; pl2 f; pl3 f].

(** The forms a stored row holds. *)
Definition formsOfRow (r : ConjRow) : Forms :=
  MkForms (Some (c_sg1 r)) (Some (c_sg2 r)) (Some (c_sg3 r))
          (Some (c_pl1 r)) (Some (c_pl2 r)) (Some (c_pl3 r)).

(** ** The database after an accepted verb *)

(** The database once main has written an accepted verb and its three
    tenses, at time [now]. *)
Definition storedDb (now : Z) (db : Database) (inf : jsstring) (r : ParsedVerb)
  : Database :=
  let id := nextVerbId db in
  let db1 := snd (insertVerb now db (verbArgs inf r)) in
  let db2 := snd (insertConjugation db1 (MkConjArgs id "praesens" (praesens r) None)) in
  let db3 := snd (insertConjugation db2 (MkConjArgs id "praeteritum" (praeteritum r) None)) in
  snd (insertConjugation db3 (MkConjArgs id "perfekt" (perfekt r) None)).

(** A property of the database, as a property of the world. *)
Definition dbInv (P : Database -> Prop) (w : World) : Prop := P (w_db w).

(** A property of the database that writing an accepted verb keeps. *)
Definition keptByStore (P : Database -> Prop) : Prop :=
  forall now db inf r,
    trioComplete r = true -> P db -> P (storedDb now db inf r).

(** The database is consistent and holds no incomplete verb that [db0]
    does not hold. *)
Definition noNewIncomplete (db0 db : Database) : Prop :=
  schemaOk db /\
  forall x, In x (getIncompleteVerbs db) -> In x (getIncompleteVerbs db0).

(** The request for the title at index [i] fails with an error whose
    message starts with RATE_LIMIT. *)
Definition stopsAt (i : Z) (w : World) : Prop :=
  exists inf e,
    titleInfinitive i w = Some inf /\ skipped (Some inf) = false /\
    replyOutcome (replyTo (pageRequest inf) w) = Throw e /\
    startsWith (err_message e) (lit "RATE_LIMIT") = true.

(** ** Crawling the category *)

(** The titles of a page of category members. *)
Definition membersOf (d : ApiData) : list jsstring :=
  match d_categorymembers d with
  | Some ms => ms
  | None => []
  end.

(** The token a page carries for the next one. *)
Definition tokenOf (d : ApiData) : option jsstring := orNull (d_cmcontinue d).

(** The request for the page of a category that follows a token. *)
Definition categoryRequest (category : jsstring) (token : option jsstring)
  : Request :=
  CategoryMembers "de" (lit "Kategorie:" ++ category) (orNull token).

(** The token in hand once [pages] are fetched, starting with [token]. *)
Definition lastToken (token : option jsstring) (pages : list ApiData)
  : option jsstring :=
  fold_left (fun _ d => tokenOf d) pages token.

(** From the call numbered [n] on, the remote side serves [pages] one
    after the other, each under the token of the one before and each
    carrying a token for the next. *)
Fixpoint crawled (net : nat -> Request -> Exchange) (category : jsstring)
  (n : nat) (token : option jsstring) (pages : list ApiData) : Prop :=
  match pages with
  | [] => True
  | d :: rest =>
      replyOutcome (x_reply (net n (categoryRequest category token))) = Ret d /\
      tokenOf d <> None /\
      crawled net category (S n) (tokenOf d) rest
  end.

(** What apiRequest makes of the reply to the request that follows
    [pages]. *)
Definition nextOutcome (net : nat -> Request -> Exchange) (category : jsstring)
  (n : nat) (token : option jsstring) (pages : list ApiData) : Result ApiData :=
  replyOutcome
    (x_reply (net (n + length pages)%nat
                  (categoryRequest category (lastToken token pages)))).

(** The titles and the token checkpointed after each page. *)
Fixpoint pageCheckpoints (titles : list jsstring) (pages : list ApiData)
  : list (list jsstring * option jsstring) :=
  match pages with
  | [] => []
  | d :: rest =>
      (titles ++ membersOf d, tokenOf d)
        :: pageCheckpoints (titles ++ membersOf d) rest
  end.

(** The world once a page is fetched, recorded and reported. *)
Definition pageDone (category : jsstring) (token : option jsstring)
  (d : ApiData) (allMembers : list jsstring) (w : World) : World :=
  let w1 := requested (categoryRequest category token) w in
  logged (LogFetched (length (membersOf d))
                     (length (allMembers ++ membersOf d))
                     (match tokenOf d with Some _ => true | None => false end))
    (snd (onPage (membersOf d) (tokenOf d) w1)).

(** The world once the enumeration has ended: the total is reported,
    the phase changed and the state saved. *)
Definition enumerated (w : World) : World :=
  snd ((st <- get w_state ;;
        log (LogTotalFound (length (verbList st))) ;;;
        setPhase fetching_conjugations ;;;
        saveState) w).

(** The world once the catch clause of main has run. *)
Definition fatal (e : JsError) (w : World) : World := snd (onFatal e w).

(** The line the catch clause of main prints for an error. *)
Definition fatalLine (e : JsError) : LogLine :=
  if startsWith (err_message e) (lit "RATE_LIMIT") then LogRateLimit
  else LogUnexpected e.

(** The state a run starts from when it has none to load. *)
Definition defaultState (w : World) : ScraperState :=
  MkState fetching_verbs None [] (-1) (w_clock w).

(** When the call apiRequest makes in [w] starts: at once if the
    minimum interval has passed since the previous call, else when the
    timer set for the remainder fires. *)
Definition startTime (w : World) : Z :=
  if (w_clock w - w_lastRequestTime w <? RATE_LIMIT_MS)%Z
  then (w_lastRequestTime w + RATE_LIMIT_MS
        + Z.of_N (w_timerSlack w (w_requests w)))%Z
  else w_clock w.

(** A way for a repetition to stop that leaves nothing of the input. *)
Definition atEnd (x : option cu * jsstring) : bool :=
  match snd x with [] => true | _ :: _ => false end.

(** An alternative of a slot: not empty, tidy, without white space at
    its ends and without comma. *)
Definition alternative (p : jsstring) : Prop :=
  p <> [] /\ clean p /\ ~ In COMMA p.

(** The sub-patterns that capture as group [n]. *)
Fixpoint groupsOf (n : nat) (r : regex) : list regex :=
  match r with
  | RGroup k a => (if Nat.eqb k n then [a] else []) ++ groupsOf n a
  | RSeq a b | RAlt a b => groupsOf n a ++ groupsOf n b
  | _ => []
  end.

(** [l] occurs in [s]. *)
Definition occursIn (l s : jsstring) : Prop := exists a b, s = a ++ l ++ b.

(** [s.includes(l)], for any needle. *)
Fixpoint occurs (l s : jsstring) : bool :=
  match stripPrefix false l s with
  | Some _ => true
  | None =>
      match s with
      | [] => false
      | _ :: t => occurs l t
      end
  end.

(** What ends the heading cell of a tense, as the section patterns
    spell it. *)
Definition headingEnd (label : jsstring) : jsstring :=
  label ++ lit "</a></b>" ++ [LF] ++ lit "</td></tr>".

(** ** The lines of the frequency list *)

(** The longest prefix whose code units are all in a class, and what
    follows it. *)
Fixpoint leadingRun (p : cu -> bool) (s : jsstring) : jsstring :=
  match s with
  | c :: t => if p c then c :: leadingRun p t else []
  | [] => []
  end.

Fixpoint afterRun (p : cu -> bool) (s : jsstring) : jsstring :=
  match s with
  | c :: t => if p c then afterRun p t else s
  | [] => []
  end.

(** What the line pattern reads off a line, scanning from the left:
    the digits the line starts with and, after white space and two
    opening brackets, the text up to the first closing bracket, which
    must be doubled. *)
Definition lineFields (line : jsstring) : option (jsstring * jsstring) :=
  match leadingRun isDigit line with
  | [] => None
  | digits =>
      match leadingRun isSpace (afterRun isDigit line) with
      | [] => None
      | _ :: _ =>
          match stripPrefix false (lit "[[")
                            (afterRun isSpace (afterRun isDigit line)) with
          | None => None
          | Some inside =>
              match leadingRun (isNot 93%N) inside with
              | [] => None
              | word =>
                  match stripPrefix false (lit "]]")
                                    (afterRun (isNot 93%N) inside) with
                  | Some _ => Some (digits, word)
                  | None => None
                  end
              end
          end
      end
  end.

(** A line of the frequency list giving [word] the count [digits]: the
    digits, white space, and the word between doubled brackets. *)
Definition frequencyLine (line digits word : jsstring) : Prop :=
  exists spaces rest,
    line = digits ++ spaces ++ lit "[[" ++ word ++ lit "]]" ++ rest /\
    digits <> [] /\ forallb isDigit digits = true /\
    spaces <> [] /\ forallb isSpace spaces = true /\
    word <> [] /\ forallb (isNot 93%N) word = true.

(** ** The popularity of the stored verbs *)

(** Every count of the map is a number. *)
Definition numeric (map : Frequency.FreqMap) : Prop :=
  Forall (fun e => snd e <> None) map.

(** A verb with its [usage_popularity] replaced. *)
Definition withPopularity (count : Z) (v : VerbRow) : VerbRow :=
  MkVerbRow (v_id v) (v_infinitive v) (v_separable_prefix v)
            (v_is_irregular v) count (v_created_at v) (v_updated_at v).

(** The map has the infinitive of the verb. *)
Definition listed (freqMap : Frequency.FreqMap) (v : VerbRow) : bool :=
  match Frequency.mapGet (v_infinitive v) freqMap with
  | Some _ => true
  | None => false
  end.

(** A verb as the frequency map ranks it: with the count the map holds
    for its infinitive, and as it is when the map has none. *)
Definition ranked (freqMap : Frequency.FreqMap) (v : VerbRow) : VerbRow :=
  match Frequency.mapGet (v_infinitive v) freqMap with
  | Some (Some count) => withPopularity count v
  | _ => v
  end.

(** The pair main collects for a verb, if the map has its infinitive. *)
Definition itemOf (freqMap : Frequency.FreqMap) (v : VerbRow)
  : list (Z * option Z) :=
  match Frequency.mapGet (v_infinitive v) freqMap with
  | Some count => [(v_id v, count)]
  | None => []
  end.

(** A verb after the updates of a list of pairs of an id and a count
    with distinct ids. *)
Definition updatedBy (items : list (Z * option Z)) (v : VerbRow) : VerbRow :=
  match find (fun it => (fst it =? v_id v)%Z) items with
  | Some (_, Some count) => withPopularity count v
  | _ => v
  end.

(** The request for the n-th page of the frequency list. *)
Definition listRequest (n : nat) : Request :=
  ParsePage "en" (nth n Frequency.titles []) "wikitext".

(** ** The lines of a page *)

(** A piece without the carriage return it ends with, if any. *)
Definition withoutCR (p : jsstring) : jsstring :=
  match rev p with
  | c :: r => if (c =? 13)%N then rev r else p
  | [] => p
  end.

(** [f] applied to every element but the last. *)
Fixpoint butLast {A} (f : A -> A) (l : list A) : list A :=
  match l with
  | [] => []
  | [x] => [x]
  | x :: rest => f x :: butLast f rest
  end.

(** The pieces of [l], the first one continuing [start]. *)
Definition continuing (start : jsstring) (l : list jsstring) : list jsstring :=
  match l with
  | p :: ps => (start ++ p) :: ps
  | [] => [start]
  end.

End Spec.
Import Spec.

(* ===================================================================== *)
(** * Sample pages and worlds                                              *)
(* ===================================================================== *)

Module Examples.

(** A row of a Flexion table: the pronoun cell and the form cell. *)
Definition row (pronoun form : string) : jsstring :=
  lit "<tr>" ++ [LF] ++ lit "<td class=pron><small>" ++ lit pronoun
  ++ lit "</small>" ++ [LF] ++ lit "</td>" ++ [LF]
  ++ lit "<td>" ++ lit form ++ [LF] ++ lit "</td></tr>" ++ [LF].

(** The heading cell of a tense. *)
Definition heading (label : jsstring) : jsstring :=
  lit "<tr><td colspan=" ++ [DQUOTE] ++ lit "3" ++ [DQUOTE]
  ++ lit " class=head><span><b><a href=tense>" ++ label ++ lit "</a></b>"
  ++ [LF] ++ lit "</td></tr>".

Definition table (label : jsstring) (forms : list string) : jsstring :=
  heading label ++ [LF]
  ++ row "ich" (nth 0 forms EmptyString) ++ row "du" (nth 1 forms EmptyString)
  ++ row "er/sie/es" (nth 2 forms EmptyString) ++ row "wir" (nth 3 forms EmptyString)
  ++ row "ihr" (nth 4 forms EmptyString) ++ row "sie" (nth 5 forms EmptyString).

(** A Flexion page with four complete tenses and a separable prefix. *)
Definition page_aufstehen : jsstring :=
  lit "<h2><span id=top>aufstehen (Konjugation)</span></h2>" ++ [LF]
  ++ lit "<table><tbody>"
  ++ table label_praesens
       ["stehe auf<sup>1</sup>"; "stehst auf"; "steht auf";
        "stehen auf"; "steht auf"; "stehen auf"]%string
  ++ table label_praeteritum
       ["stand auf, stund auf"; "standst auf"; "stand auf";
        "standen auf"; "standet auf"; "standen auf"]%string
  ++ table (lit "Perfekt")
       ["bin aufgestanden"; "bist aufgestanden"; "ist aufgestanden";
        "sind aufgestanden"; "seid aufgestanden"; "sind aufgestanden"]%string
  ++ table (lit "Plusquamperfekt")
       ["war aufgestanden"; "warst aufgestanden"; "war aufgestanden";
        "waren aufgestanden"; "wart aufgestanden"; "waren aufgestanden"]%string
  ++ lit "</tbody></table>".

(** A Flexion page with the three required tenses and no prefix. *)
Definition page_gehen : jsstring :=
  lit "<h2>gehen (Konjugation)</h2>" ++ [LF] ++ lit "<table><tbody>"
  ++ table label_praesens ["gehe"; "gehst"; "geht"; "gehen"; "geht"; "gehen"]%string
  ++ table label_praeteritum ["ging"; "gingst"; "ging"; "gingen"; "gingt"; "gingen"]%string
  ++ table (lit "Perfekt")
       ["bin gegangen"; "bist gegangen"; "ist gegangen";
        "sind gegangen"; "seid gegangen"; "sind gegangen"]%string
  ++ heading (lit "Ende") ++ lit "</tbody></table>".

Definition served (text : jsstring) : Reply :=
  Response 200 (lit "OK") (Normal (MkApiData None None (Some text) None)).

Definition tooManyRequests : Reply :=
  Response 429 (lit "Too Many Requests") (Thrown TypeError_null).

Definition fetchFailed : Reply :=
  NetworkError (MkError "TypeError" (lit "fetch failed")).

Definition missingPage : Reply :=
  Response 200 (lit "OK") (Normal (MkApiData None None None None)).

(** A remote side that answers the calls in the order of a script. *)
Definition scripted (script : list Reply) (n : nat) (req : Request) : Exchange :=
  MkExchange 20 (nth n script missingPage).

(** A process started at time 1000 on a checkpoint file holding [st]. *)
Definition worldOf (script : list Reply) (st : ScraperState) : World :=
  MkWorld (scripted script) (fun _ => 0%N) 1000 0 0 (Some (Some st))
          emptyDatabase st [].

Definition threeTitles : ScraperState :=
  MkState fetching_conjugations None
          [lit "Flexion:sich freuen"; lit "Flexion:gehen"; lit "Flexion:sehen"]
          (-1) 900.

Definition oneTitle : ScraperState :=
  MkState fetching_conjugations None [lit "Flexion:aufstehen"] (-1) 900.

(** The record parseConjugations returns for a page. *)
Definition parsed (text : jsstring) : ParsedVerb :=
  match parseConjugations (Some text) with
  | Normal (Some r) => r
  | _ => MkParsed [] [] emptyForms emptyForms emptyForms emptyForms
                  emptyForms emptyForms
  end.

(** A checkpoint left by a category crawl interrupted after one page. *)
Definition interruptedCrawl : ScraperState :=
  MkState fetching_verbs (Some (lit "page|500")) [lit "Flexion:gehen"] (-1) 900.

(** gehen, stored under id 1 with its three required tenses. *)
Definition gehenRow : VerbRow :=
  MkVerbRow 1 (lit "gehen") None 1 0 1500 1500.

Definition gehenTense (tense : string) (form : string) : ConjRow :=
  MkConjRow 1 tense (lit form) (lit form) (lit form) (lit form) (lit form)
            (lit form) None.

Definition gehenStored : Database :=
  MkDatabase [gehenRow]
             [gehenTense "praesens" "gehe"; gehenTense "praeteritum" "ging";
              gehenTense "perfekt" "gegangen"]
             [] 1.

(** gehen stored without any tense. *)
Definition gehenBare : Database := MkDatabase [gehenRow] [] [] 1.

(** A process started at time 1000 without a checkpoint file. *)
Definition freshWorld (script : list Reply) (db : Database) : World :=
  MkWorld (scripted script) (fun _ => 0%N) 1000 0 0 None db
          (MkState fetching_verbs None [] (-1) 0) [].

(** sehen, stored under id 2 without any tense. *)
Definition sehenRow : VerbRow :=
  MkVerbRow 2 (lit "sehen") None 1 0 1600 1600.

(** gehen complete and sehen bare. *)
Definition twoVerbs : Database :=
  MkDatabase [gehenRow; sehenRow]
             [gehenTense "praesens" "gehe"; gehenTense "praeteritum" "ging";
              gehenTense "perfekt" "gegangen"]
             [] 2.

(** A page of category members, with the token for the next one. *)
Definition categoryPage (titles : list jsstring) (token : option jsstring)
  : ApiData :=
  MkApiData (Some titles) token None None.

Definition firstPage : ApiData :=
  categoryPage [lit "Flexion:gehen"; lit "Flexion:sehen"] (Some (lit "page|2")).

Definition lastPage : ApiData := categoryPage [lit "Flexion:stehen"] None.

Definition answered (d : ApiData) : Reply := Response 200 (lit "OK") (Normal d).

(** A page whose wikitext is [text]. *)
Definition wikitextPage (text : jsstring) : ApiData :=
  MkApiData None None None (Some text).

(** The two pages of a small frequency list: sehen is listed twice. *)
Definition frequencyList1 : jsstring :=
  lit "== 1-5000 ==" ++ [LF] ++ lit "900 [[sehen]]" ++ [13%N; LF]
  ++ lit "1200 [[sein]] [[werden]]" ++ [LF].

Definition frequencyList2 : jsstring :=
  lit "300 [[ sehen ]]" ++ [LF] ++ lit "x 5 [[sein]]" ++ [LF]
  ++ lit "20 [[gehen]]".

(** A process started on the two verbs, the two pages being served. *)
Definition frequencyWorld : World :=
  freshWorld [answered (wikitextPage frequencyList1);
              answered (wikitextPage frequencyList2)] twoVerbs.

End Examples.
Import Examples.

(* ===================================================================== *)
(** * Proofs                                                               *)
(* ===================================================================== *)

Section RegexTheory.
Lemma consumed_app (m rest : jsstring) : consumed (m ++ rest) rest = m.
Proof.
  unfold consumed. rewrite length_app.
  replace (length m + length rest - length rest)%nat with (length m) by lia.
  rewrite firstn_app, Nat.sub_diag, firstn_all. simpl. apply app_nil_r.
Qed.

Lemma stripPrefix_split ci p s r :
  stripPrefix ci p s = Some r ->
  exists m, s = m ++ r /\ stripPrefix ci p m = Some [].
Proof.
  revert s. induction p as [|a p IH]; intros s H; simpl in H.
  - injection H as <-. exists []. split; reflexivity.
  - destruct s as [|b s]; [discriminate|].
    destruct (cu_eqb ci a b) eqn:E; [|discriminate].
    destruct (IH _ H) as (m & -> & Hm).
    exists (b :: m). split; [reflexivity|]. simpl. now rewrite E.
Qed.

Lemma stripPrefix_app ci p m r :
  stripPrefix ci p m = Some [] -> stripPrefix ci p (m ++ r) = Some r.
Proof.
  revert m. induction p as [|a p IH]; intros m H; simpl in *.
  - destruct m; [reflexivity|discriminate].
  - destruct m as [|b m]; [discriminate|]. simpl.
    destruct (cu_eqb ci a b); [now apply IH|discriminate].
Qed.

Lemma stripPrefix_exact p m : stripPrefix false p m = Some [] <-> m = p.
Proof.
  revert m. induction p as [|a p IH]; intros m; simpl.
  - destruct m; split; intros H; try reflexivity; discriminate H.
  - destruct m as [|b m]; simpl; [split; intros H; discriminate H|].
    unfold cu_eqb. destruct (N.eqb_spec a b) as [->|Hne].
    + rewrite IH. split; congruence.
    + split; intros H; [discriminate H|]. injection H as -> _. now destruct Hne.
Qed.

Lemma star_sound g p prev s pv s' :
  In (pv, s') (star g p prev s) ->
  exists m, s = m ++ s' /\ forallb p m = true.
Proof.
  revert prev. induction s as [|c t IH]; intros prev H; simpl in H.
  - destruct H as [H|[]]. injection H as <- <-. now exists [].
  - destruct (p c) eqn:Pc.
    + assert (H' : (pv, s') = (prev, c :: t) \/ In (pv, s') (star g p (Some c) t)).
      { destruct g; [apply in_app_or in H; destruct H as [H|[H|[]]]|destruct H as [H|H]];
          auto. }
      destruct H' as [H'|H'].
      * injection H' as -> ->. now exists [].
      * destruct (IH _ H') as (m & -> & Hm). exists (c :: m). simpl.
        now rewrite Pc.
    + destruct H as [H|[]]. injection H as <- <-. now exists [].
Qed.

Lemma star_complete g p m : forall prev rest,
  forallb p m = true ->
  exists pv, In (pv, rest) (star g p prev (m ++ rest)).
Proof.
  induction m as [|c m IH]; intros prev rest H; simpl in *.
  - destruct rest as [|d rest]; simpl.
    + exists prev. now left.
    + exists prev. destruct (p d); [destruct g|]; simpl; auto.
      apply in_or_app. right. now left.
  - apply andb_prop in H as [Pc Hm]. rewrite Pc.
    destruct (IH (Some c) rest Hm) as (pv & Hin).
    exists pv. destruct g; [apply in_or_app|]; simpl; auto.
Qed.

Lemma rmatch_sound r : forall st st',
  In st' (rmatch r st) ->
  exists m, m_rest st = m ++ m_rest st' /\ lang r m.
Proof.
  induction r as [ci l|p|g p|a IHa b IHb|a IHa b IHb|n a IHa| | |];
    intros st st' H; simpl in H.
  - destruct (stripPrefix ci l (m_rest st)) as [rest'|] eqn:E; [|destruct H].
    destruct H as [<-|[]]. simpl.
    destruct (stripPrefix_split _ _ _ _ E) as (m & Hs & Hm). now exists m.
  - destruct (m_rest st) as [|c t] eqn:E; [destruct H|].
    destruct (p c) eqn:Pc; [|destruct H].
    destruct H as [<-|[]]. simpl. exists [c]. split; [reflexivity|].
    now exists c.
  - apply in_map_iff in H as ([pv s'] & <- & Hin). simpl.
    apply star_sound in Hin as (m & Hs & Hm). now exists m.
  - apply in_flat_map in H as (mid & Ha & Hb).
    destruct (IHa _ _ Ha) as (m1 & E1 & L1).
    destruct (IHb _ _ Hb) as (m2 & E2 & L2).
    exists (m1 ++ m2). split.
    + rewrite E1, E2. now rewrite app_assoc.
    + now exists m1, m2.
  - apply in_app_or in H as [H|H].
    + destruct (IHa _ _ H) as (m & E & L). exists m. simpl. auto.
    + destruct (IHb _ _ H) as (m & E & L). exists m. simpl. auto.
  - apply in_map_iff in H as (mid & <- & Hin). simpl. now apply IHa.
  - destruct (m_prev st); [destruct H|]. destruct H as [<-|[]]. now exists [].
  - destruct (m_rest st) eqn:E; [|destruct H]. destruct H as [<-|[]].
    exists []. now rewrite E.
  - destruct (xorb _ _); [|destruct H]. destruct H as [<-|[]]. now exists [].
Qed.

Lemma rmatch_complete r : assertionFree r = true ->
  forall m, lang r m ->
  forall st rest, m_rest st = m ++ rest ->
  exists st', In st' (rmatch r st) /\ m_rest st' = rest.
Proof.
  induction r as [ci l|p|g p|a IHa b IHb|a IHa b IHb|n a IHa| | |];
    intros AF m L st rest E; simpl in *; try discriminate.
  - rewrite E, (stripPrefix_app _ _ _ rest L). eexists. split; [now left|reflexivity].
  - destruct L as (c & -> & Pc). rewrite E. simpl. rewrite Pc.
    eexists. split; [now left|reflexivity].
  - rewrite E. destruct (star_complete g p m (m_prev st) rest L) as (pv & Hin).
    exists (MState pv rest (m_caps st)). split; [|reflexivity].
    apply in_map_iff. now exists (pv, rest).
  - apply andb_prop in AF as [AFa AFb].
    destruct L as (m1 & m2 & -> & L1 & L2).
    rewrite <- app_assoc in E.
    destruct (IHa AFa _ L1 _ _ E) as (mid & Hmid & Emid).
    destruct (IHb AFb _ L2 _ _ Emid) as (st' & Hst' & Est').
    exists st'. split; [|assumption]. apply in_flat_map. now exists mid.
  - apply andb_prop in AF as [AFa AFb]. destruct L as [L|L].
    + destruct (IHa AFa _ L _ _ E) as (st' & H & E').
      exists st'. split; [apply in_or_app; now left|assumption].
    + destruct (IHb AFb _ L _ _ E) as (st' & H & E').
      exists st'. split; [apply in_or_app; now right|assumption].
  - destruct (IHa AF _ L _ _ E) as (mid & H & E').
    eexists. split; [apply in_map_iff; exists mid; split; [reflexivity|exact H]|].
    exact E'.
Qed.

Lemma group_kept r : forall n st st',
  In st' (rmatch r st) ->
  group n (m_caps st) <> None -> group n (m_caps st') <> None.
Proof.
  induction r as [ci l|p|g p|a IHa b IHb|a IHa b IHb|k a IHa| | |];
    intros n st st' H G; simpl in H.
  - destruct (stripPrefix ci l (m_rest st)); [|destruct H].
    now destruct H as [<-|[]].
  - destruct (m_rest st) as [|c t]; [destruct H|].
    destruct (p c); [|destruct H]. now destruct H as [<-|[]].
  - apply in_map_iff in H as ([pv s'] & <- & _). exact G.
  - apply in_flat_map in H as (mid & Ha & Hb). eauto.
  - apply in_app_or in H as [H|H]; eauto.
  - apply in_map_iff in H as (mid & <- & Hin). simpl.
    destruct (Nat.eqb k n); [discriminate|]. eauto.
  - destruct (m_prev st); [destruct H|]. now destruct H as [<-|[]].
  - destruct (m_rest st); [|destruct H]. now destruct H as [<-|[]].
  - destruct (xorb _ _); [|destruct H]. now destruct H as [<-|[]].
Qed.

Lemma group_defined r : forall n st st',
  defines n r = true ->
  In st' (rmatch r st) -> group n (m_caps st') <> None.
Proof.
  induction r as [ci l|p|g p|a IHa b IHb|a IHa b IHb|k a IHa| | |];
    intros n st st' D H; simpl in D; try discriminate; simpl in H.
  - apply in_flat_map in H as (mid & Ha & Hb).
    apply orb_prop in D as [D|D].
    + eapply group_kept; eauto.
    + eauto.
  - apply andb_prop in D as [Da Db]. apply in_app_or in H as [H|H]; eauto.
  - apply in_map_iff in H as (mid & <- & Hin). simpl.
    destruct (Nat.eqb k n) eqn:E; [discriminate|]. simpl in D. eauto.
Qed.

(** What a successful search returns. *)
Lemma searchFrom_sound r : forall s idx prev mr,
  searchFrom r idx prev s = Some mr ->
  exists pv s' st',
    In st' (rmatch r (MState pv s' [])) /\
    mr_caps mr = m_caps st' /\ mr_text mr = consumed s' (m_rest st').
Proof.
  induction s as [|c t IH]; intros idx prev mr H; simpl in H;
    unfold matchHere in H.
  - destruct (rmatch r (MState prev [] [])) as [|st' l] eqn:E; simpl in H;
      [discriminate|].
    injection H as <-. exists prev, [], st'. rewrite E. simpl. auto.
  - destruct (rmatch r (MState prev (c :: t) [])) as [|st' l] eqn:E; simpl in H.
    + eauto.
    + injection H as <-. exists prev, (c :: t), st'. rewrite E. simpl. auto.
Qed.

(** A search succeeds as soon as some position matches. *)
Lemma searchFrom_complete r pre : forall s' idx prev,
  (forall pv, rmatch r (MState pv s' []) <> []) ->
  searchFrom r idx prev (pre ++ s') <> None.
Proof.
  induction pre as [|c pre IH]; intros s' idx prev H.
  - simpl. destruct s' as [|c t]; simpl; unfold matchHere;
      specialize (H prev);
      destruct (rmatch r (MState prev _ [])); simpl; congruence.
  - simpl. unfold matchHere.
    destruct (rmatch r (MState prev (c :: pre ++ s') [])); simpl;
      [now apply IH|congruence].
Qed.

Lemma matchAllFrom_sound r : forall s skip prev m,
  In m (matchAllFrom r skip prev s) ->
  exists pv s' st',
    In st' (rmatch r (MState pv s' [])) /\ m = consumed s' (m_rest st').
Proof.
  induction s as [|c t IH]; intros skip prev m H; destruct skip as [|k];
    simpl in H; try (now destruct H); unfold matchHere in H.
  - destruct (rmatch r (MState prev [] [])) as [|st' l] eqn:E; simpl in H;
      [destruct H|].
    destruct H as [<-|[]]. exists prev, [], st'. rewrite E. simpl. auto.
  - destruct (rmatch r (MState prev (c :: t) [])) as [|st' l] eqn:E; simpl in H.
    + eauto.
    + destruct H as [<-|H]; [|eauto].
      exists prev, (c :: t), st'. rewrite E. simpl. auto.
  - eauto.
Qed.

End RegexTheory.

(** ** The parser never throws *)

Lemma lang_lit l m : lang (RLit false l) m <-> m = l.
Proof. apply stripPrefix_exact. Qed.

(** A row found by the row pattern ends with a cell the cell pattern
    matches. *)
Lemma row_ends_with_cell m :
  lang rowRe m ->
  exists pre x, m = pre ++ (lit "<td>" ++ x ++ LF :: lit "</td>")
                /\ forallb notLT x = true.
Proof.
  unfold rowRe. cbn [seqs lang].
  intros (m1 & r1 & -> & L1 & m2 & r2 & -> & L2 & m3 & r3 & -> & L3
          & m4 & r4 & -> & L4 & m5 & r5 & -> & L5 & m6 & m7 & -> & L6 & L7).
  apply stripPrefix_exact in L5, L7. subst m5 m7.
  exists (m1 ++ m2 ++ m3 ++ m4 ++ lit "</small>" ++ [LF] ++ lit "</td>" ++ [LF]), m6.
  split; [|exact L6].
  repeat rewrite <- app_assoc. reflexivity.
Qed.

Lemma cell_lang x :
  forallb notLT x = true -> lang cellRe (lit "<td>" ++ x ++ LF :: lit "</td>").
Proof.
  intros H. unfold cellRe. cbn [seqs lang].
  exists (lit "<td>"), (x ++ LF :: lit "</td>"). split; [reflexivity|].
  split; [now apply stripPrefix_exact|].
  exists x, (LF :: lit "</td>"). split; [reflexivity|].
  split; [exact H|now apply stripPrefix_exact].
Qed.

Lemma exec_cell_of_row row skip prev body :
  In row (matchAllFrom rowRe skip prev body) ->
  exists m cell, exec cellRe row = Some m /\ group 1 (mr_caps m) = Some cell.
Proof.
  intros H. apply matchAllFrom_sound in H as (pv & s' & st' & Hin & ->).
  apply rmatch_sound in Hin as (m & E & L). simpl in E. rewrite E, consumed_app.
  apply row_ends_with_cell in L as (pre & x & -> & Hx).
  destruct (exec cellRe (pre ++ lit "<td>" ++ x ++ LF :: lit "</td>")) as [mr|] eqn:Ex.
  - exists mr. apply searchFrom_sound in Ex as (pv' & s'' & st'' & Hin & Hc & _).
    rewrite Hc. apply (group_defined cellRe 1) in Hin; [|reflexivity].
    destruct (group 1 (m_caps st'')) as [cell|]; [now exists cell|congruence].
  - exfalso. revert Ex. apply searchFrom_complete. intros pv' Hnil.
    destruct (rmatch_complete cellRe eq_refl _ (cell_lang x Hx)
                (MState pv' (lit "<td>" ++ x ++ LF :: lit "</td>") []) [])
      as (st'' & Hin & _).
    + simpl. now rewrite app_nil_r.
    + rewrite Hnil in Hin. destruct Hin.
Qed.

Lemma cellOfRow_ok rows k :
  (forall row, In row rows ->
     exists m cell, exec cellRe row = Some m /\ group 1 (mr_caps m) = Some cell) ->
  (k < length rows)%nat ->
  exists cell, cellOfRow rows k = Normal (extractTextFromCell cell).
Proof.
  intros H Hk. unfold cellOfRow.
  destruct (nth_error rows k) as [row|] eqn:E.
  - destruct (H row (nth_error_In _ _ E)) as (m & cell & -> & ->). now exists cell.
  - apply nth_error_None in E. lia.
Qed.

Lemma parseConjugationRows_ok body :
  exists f, parseConjugationRows (matchAll rowRe body) = Normal f /\ formsExtracted f.
Proof.
  unfold matchAll.
  destruct (matchAllFrom rowRe 0 None body) as [|r0 rs] eqn:E.
  - exists emptyForms. split; [reflexivity|now left].
  - assert (H : forall row, In row (r0 :: rs) ->
       exists m cell, exec cellRe row = Some m /\ group 1 (mr_caps m) = Some cell).
    { intros row Hin. rewrite <- E in Hin. eapply exec_cell_of_row; eauto. }
    unfold parseConjugationRows.
    destruct (length (r0 :: rs) <? 6)%nat eqn:Len.
    + exists emptyForms. split; [reflexivity|now left].
    + apply Nat.ltb_ge in Len.
      destruct (cellOfRow_ok _ 0 H ltac:(lia)) as (c1 & ->).
      destruct (cellOfRow_ok _ 1 H ltac:(lia)) as (c2 & ->).
      destruct (cellOfRow_ok _ 2 H ltac:(lia)) as (c3 & ->).
      destruct (cellOfRow_ok _ 3 H ltac:(lia)) as (c4 & ->).
      destruct (cellOfRow_ok _ 4 H ltac:(lia)) as (c5 & ->).
      destruct (cellOfRow_ok _ 5 H ltac:(lia)) as (c6 & ->).
      eexists. split; [reflexivity|]. right. now exists c1, c2, c3, c4, c5, c6.
Qed.

Lemma parseSection_ok text label closing :
  defines 1 (sectionRe label closing) = true ->
  exists f, parseSection text label closing = Normal f /\ formsExtracted f.
Proof.
  intros D. unfold parseSection.
  destruct (exec (sectionRe label closing) text) as [sec|] eqn:E.
  - apply searchFrom_sound in E as (pv & s' & st' & Hin & Hc & _).
    rewrite Hc. apply (group_defined _ 1) in Hin; [|exact D].
    destruct (group 1 (m_caps st')) as [b|]; [|congruence].
    apply parseConjugationRows_ok.
  - exists emptyForms. split; [reflexivity|now left].
Qed.

Lemma parseTables_ok text :
  exists r, parseTables text = Normal r /\
            separablePrefix r = [] /\
            formsExtracted (praesens r) /\ formsExtracted (praeteritum r) /\
            formsExtracted (perfekt r) /\ formsExtracted (plusquamperfekt r) /\
            formsExtracted (futur1 r) /\ formsExtracted (futur2 r).
Proof.
  unfold parseTables.
  destruct (parseSection_ok text label_praesens untilNextHeading eq_refl) as (t1 & -> & H1).
  destruct (parseSection_ok text label_praeteritum untilNextHeading eq_refl) as (t2 & -> & H2).
  destruct (parseSection_ok text (lit "Perfekt") untilNextHeading eq_refl) as (t3 & -> & H3).
  destruct (parseSection_ok text (lit "Plusquamperfekt") untilTableEnd eq_refl) as (t4 & -> & H4).
  destruct (parseSection_ok text (lit "Futur I") untilNextHeading eq_refl) as (t5 & -> & H5).
  destruct (parseSection_ok text (lit "Futur II") untilTableEnd eq_refl) as (t6 & -> & H6).
  eexists. split; [reflexivity|]. simpl. auto 10.
Qed.

Lemma parseConjugations_total (text : option jsstring) :
  exists v, parseConjugations text = Normal v /\
            (v = None <-> text = None \/ text = Some []).
Proof.
  destruct text as [t|]; simpl.
  - destruct t as [|c t]; simpl.
    + exists None. split; [reflexivity|]. split; auto.
    + destruct (parseTables_ok (c :: t)) as (r & -> & _). simpl.
      eexists. split; [reflexivity|].
      split; [discriminate|]. intros [H|H]; discriminate H.
  - exists None. split; [reflexivity|]. split; auto.
Qed.

(** C1 (amended).  parseConjugations never raises, whatever the text:
    it returns [null] on a null or empty text and a record on every
    other text, and reading the rows located in a tense region never
    raises either, whatever the region holds. *)
Theorem parser_never_raises (text : option jsstring) :
  (exists v, parseConjugations text = Normal v /\
             (v = None <-> text = None \/ text = Some [])) /\
  (forall body, exists f,
      parseConjugationRows (matchAll rowRe body) = Normal f).
Proof.
  split; [apply parseConjugations_total|].
  intros body. destruct (parseConjugationRows_ok body) as (f & E & _).
  now exists f.
Qed.

(** C1, as stated, fails on the empty and on the null text: the result
    is [null], not a record. *)
Lemma parser_returns_null_on_empty_text :
  parseConjugations (Some []) = Normal None /\
  parseConjugations None = Normal None.
Proof. split; reflexivity. Qed.

(** ** White space collapsed *)

Lemma trimStart_length s : (length (trimStart s) <= length s)%nat.
Proof.
  induction s as [|c t IH]; simpl; [lia|].
  destruct (isSpace c); simpl; lia.
Qed.

Lemma consumed_length s r :
  length (consumed s r) = (length s - length r)%nat.
Proof. unfold consumed. rewrite length_firstn. lia. Qed.

Lemma star_spaces_head : forall s prev,
  exists pv l, star true isSpace prev s = (pv, trimStart s) :: l.
Proof.
  induction s as [|c t IH]; intros prev; simpl.
  - now exists prev, [].
  - destruct (isSpace c).
    + destruct (IH (Some c)) as (pv & l & ->). simpl. eauto.
    + now exists prev, [].
Qed.

Lemma matchHere_spaces_cons prev c t :
  (isSpace c = true ->
   exists st', matchHere spacesRe prev (c :: t) = Some st'
               /\ m_rest st' = trimStart t) /\
  (isSpace c = false -> matchHere spacesRe prev (c :: t) = None).
Proof.
  unfold matchHere, spacesRe, RPlus. cbn [rmatch m_rest m_prev m_caps].
  split; intros Hc; rewrite Hc; [|reflexivity].
  cbn [flat_map rmatch m_rest m_prev m_caps].
  destruct (star_spaces_head t (Some c)) as (pv & l & ->).
  simpl. eauto.
Qed.

Lemma leading_cons c t :
  leading (c :: t) = if isSpace c then S (leading t) else 0%nat.
Proof.
  unfold leading. pose proof (trimStart_length t). cbn [trimStart].
  destruct (isSpace c); cbn [length]; lia.
Qed.

Lemma replace_spaces : forall s,
  (forall prev, replaceFrom spacesRe [SPACE] 0 prev s = collapseSpaces false s) /\
  (forall prev, replaceFrom spacesRe [SPACE] (leading s) prev s
                = collapseSpaces true s).
Proof.
  induction s as [|c t [IH0 IH1]].
  - split; reflexivity.
  - assert (H0 : forall prev, replaceFrom spacesRe [SPACE] 0 prev (c :: t)
                               = collapseSpaces false (c :: t)).
    { intros prev. cbn [replaceFrom collapseSpaces].
      destruct (matchHere_spaces_cons prev c t) as [Hyes Hno].
      destruct (isSpace c).
      - destruct (Hyes eq_refl) as (st' & -> & Hrest).
        rewrite consumed_length, Hrest. simpl length.
        pose proof (trimStart_length t).
        replace (S (length t) - length (trimStart t))%nat
          with (S (leading t)) by (unfold leading; lia).
        simpl. now rewrite IH1.
      - rewrite (Hno eq_refl). now rewrite IH0. }
    split; [exact H0|].
    intros prev. rewrite leading_cons. cbn [collapseSpaces].
    destruct (isSpace c) eqn:Hc.
    + cbn [replaceFrom]. apply IH1.
    + rewrite H0. cbn [collapseSpaces]. now rewrite Hc.
Qed.

Lemma replaceAll_spaces s :
  replaceAll spacesRe [SPACE] s = collapseSpaces false s.
Proof. apply replace_spaces. Qed.

Lemma isSpace_SPACE : isSpace SPACE = true.
Proof. reflexivity. Qed.

Lemma collapseSpaces_tidy : forall s,
  tidy (collapseSpaces false s) = true /\
  tidy (collapseSpaces true s) = true /\
  match collapseSpaces true s with d :: _ => isSpace d = false | [] => True end.
Proof.
  induction s as [|c t (IH0 & IH1 & IH2)]; simpl; [auto|].
  destruct (isSpace c) eqn:Hc.
  - repeat split; auto. simpl. rewrite IH1.
    destruct (collapseSpaces true t); [reflexivity|]. now rewrite IH2.
  - simpl. rewrite Hc, IH0. auto.
Qed.

(** ** Pieces of a tidy string *)

Lemma tidy_app a : forall b, tidy (a ++ b) = true -> tidy a = true /\ tidy b = true.
Proof.
  induction a as [|c a IH]; intros b H; simpl in *; [auto|].
  apply andb_prop in H as [H1 H2]. destruct (IH _ H2) as [Ha Hb].
  split; [|exact Hb]. rewrite Ha, andb_true_r.
  destruct (isSpace c); [|reflexivity].
  apply andb_prop in H1 as [H1 H3]. rewrite H1. simpl.
  destruct a as [|d a]; [reflexivity|exact H3].
Qed.

Lemma split_nonempty sep s : split sep s <> [].
Proof.
  destruct s as [|c t]; simpl; [discriminate|].
  destruct (c =? sep)%N; [discriminate|].
  destruct (split sep t); discriminate.
Qed.

Lemma split_first_prefix sep : forall s q qs,
  split sep s = q :: qs -> exists b, s = q ++ b.
Proof.
  induction s as [|c t IH]; intros q qs H; simpl in H.
  - injection H as <- <-. now exists [].
  - destruct (c =? sep)%N.
    + injection H as <- <-. now exists (c :: t).
    + destruct (split sep t) as [|q' qs'] eqn:E; injection H as <- <-.
      * now exists t.
      * destruct (IH _ _ eq_refl) as (b & ->). now exists b.
Qed.

Lemma split_tidy sep : forall s,
  tidy s = true -> Forall (fun p => tidy p = true) (split sep s).
Proof.
  induction s as [|c t IH]; intros H.
  - repeat constructor.
  - destruct (tidy_app [c] t H) as [_ Ht]. specialize (IH Ht). simpl.
    destruct (c =? sep)%N; [now constructor|].
    destruct (split sep t) as [|q qs] eqn:E;
      [now destruct (split_nonempty sep t)|].
    inversion IH as [|? ? Hq Hqs]; subst. constructor; [|exact Hqs].
    destruct (split_first_prefix sep t q qs E) as (b & ->).
    now destruct (tidy_app (c :: q) b H).
Qed.

Lemma split_no_sep sep : forall s,
  Forall (fun p => ~ In sep p) (split sep s).
Proof.
  induction s as [|c t IH]; simpl.
  - constructor; [intros []|constructor].
  - destruct (N.eqb_spec c sep) as [->|Hne].
    + constructor; [intros []|exact IH].
    + destruct (split sep t) as [|q qs];
        [constructor; [intros [?|[]]; congruence|constructor]|].
      inversion IH as [|? ? Hq Hqs]; subst. constructor; [|exact Hqs].
      intros [?|?]; [congruence|auto].
Qed.

(** ** trim *)

Lemma trimStart_suffix : forall s, exists a, s = a ++ trimStart s.
Proof.
  induction s as [|c t (a & IH)]; simpl; [now exists []|].
  destruct (isSpace c); [|now exists []].
  exists (c :: a). simpl. now f_equal.
Qed.

Lemma trimStart_clean : forall s, startsClean (trimStart s).
Proof.
  induction s as [|c t IH]; simpl; [exact I|].
  destruct (isSpace c) eqn:E; [exact IH|exact E].
Qed.

Lemma trimStart_id s : startsClean s -> trimStart s = s.
Proof. destruct s as [|c t]; simpl; [reflexivity|]. now intros ->. Qed.

Lemma trimEnd_prefix s : exists b, s = trimEnd s ++ b.
Proof.
  unfold trimEnd. destruct (trimStart_suffix (rev s)) as (a & E).
  exists (rev a). rewrite <- rev_app_distr, <- E. now rewrite rev_involutive.
Qed.

Lemma trimEnd_id s : startsClean (rev s) -> trimEnd s = s.
Proof.
  intros H. unfold trimEnd. rewrite (trimStart_id _ H). apply rev_involutive.
Qed.

Lemma prefix_startsClean a b : startsClean (a ++ b) -> startsClean a.
Proof. destruct a; simpl; auto. Qed.

Lemma trim_clean s : tidy s = true -> clean (trim s).
Proof.
  intros H. unfold trim.
  destruct (trimStart_suffix s) as (a & Ea).
  destruct (trimEnd_prefix (trimStart s)) as (b & Eb).
  repeat split.
  - rewrite Ea in H. apply tidy_app in H as [_ H].
    rewrite Eb in H. now apply tidy_app in H.
  - apply prefix_startsClean with (b := b). rewrite <- Eb. apply trimStart_clean.
  - unfold trimEnd. rewrite rev_involutive. apply trimStart_clean.
Qed.

Lemma trim_id p : clean p -> trim p = p.
Proof.
  intros (_ & H1 & H2). unfold trim. rewrite (trimStart_id _ H1).
  now apply trimEnd_id.
Qed.

Lemma trim_incl x s : In x (trim s) -> In x s.
Proof.
  unfold trim. destruct (trimStart_suffix s) as (a & Ea).
  destruct (trimEnd_prefix (trimStart s)) as (b & Eb).
  intros H. rewrite Ea, Eb. apply in_or_app. right. apply in_or_app. now left.
Qed.

(** ** Tokens of a clean string *)

Lemma clean_tail c d t : clean (c :: d :: t) -> isSpace d = false -> clean (d :: t).
Proof.
  intros (Ht & _ & He) Hd. repeat split.
  - now destruct (tidy_app [c] (d :: t) Ht).
  - exact Hd.
  - simpl in He. rewrite <- app_assoc in He. simpl in *.
    destruct (rev t) as [|x l]; simpl in *; [exact Hd|exact He].
Qed.

Lemma clean_after_space c d t :
  clean (c :: d :: t) -> isSpace d = true ->
  d = SPACE /\ t <> [] /\ clean t.
Proof.
  intros (Ht & _ & He) Hd. simpl in Ht. rewrite Hd in Ht.
  apply andb_prop in Ht as [_ Ht]. apply andb_prop in Ht as [H1 Ht].
  apply andb_prop in H1 as [H1 H2]. apply N.eqb_eq in H1.
  destruct t as [|e t].
  - simpl in He. congruence.
  - repeat split; auto; [discriminate| |].
    + simpl. now apply negb_true_iff in H2.
    + simpl in He. repeat rewrite <- app_assoc in He. simpl in *.
      destruct (rev t) as [|x l]; simpl in *; [|exact He].
      now apply negb_true_iff in H2.
Qed.

Lemma words_split : forall p, p <> [] -> clean p -> words p = split SPACE p.
Proof.
  intros p. remember (length p) as n eqn:Hn. revert p Hn.
  induction n as [n IH] using lt_wf_ind. intros p Hn Hne Hc.
  destruct p as [|c t]; [congruence|].
  assert (Cc : isSpace c = false) by (destruct Hc as (_ & H & _); exact H).
  assert (Nc : (c =? SPACE)%N = false).
  { destruct (N.eqb_spec c SPACE) as [->|]; [discriminate Cc|reflexivity]. }
  cbn [words split]. rewrite Cc, Nc.
  destruct t as [|d t]; [reflexivity|].
  destruct (isSpace d) eqn:Hd.
  - destruct (clean_after_space _ _ _ Hc Hd) as (-> & Hne' & Hc').
    cbn [split]. rewrite N.eqb_refl. f_equal.
    change (words (SPACE :: t)) with (words t).
    apply (IH (length t)); simpl in *; auto; lia.
  - pose proof (clean_tail _ _ _ Hc Hd) as Hc'.
    rewrite (IH (length (d :: t))) with (p := d :: t); simpl in *; auto;
      try lia; discriminate.
Qed.

Lemma split_length_includes sep : forall s,
  includes s sep = true -> (2 <= length (split sep s))%nat.
Proof.
  induction s as [|c t IH]; simpl; [discriminate|].
  rewrite (N.eqb_sym sep c).
  destruct (c =? sep)%N; simpl.
  - intros _. pose proof (split_nonempty sep t).
    destruct (split sep t); simpl; [congruence|lia].
  - intros H. specialize (IH H). destruct (split sep t); simpl in *; lia.
Qed.

(** ** Joining and splitting again *)

Lemma split_no_sep_id sep : forall p, ~ In sep p -> split sep p = [p].
Proof.
  induction p as [|c t IH]; intros H; simpl; [reflexivity|].
  destruct (N.eqb_spec c sep) as [->|Hne]; [exfalso; apply H; now left|].
  rewrite IH; [reflexivity|]. intros Hin. apply H. now right.
Qed.

Lemma split_app_sep sep : forall p rest,
  ~ In sep p -> split sep (p ++ sep :: rest) = p :: split sep rest.
Proof.
  induction p as [|c t IH]; intros rest H; simpl.
  - now rewrite N.eqb_refl.
  - destruct (N.eqb_spec c sep) as [->|Hne]; [exfalso; apply H; now left|].
    rewrite IH; [reflexivity|]. intros Hin. apply H. now right.
Qed.

Lemma firstAlternative_join p ps :
  ~ In COMMA p ->
  firstAlternative (join [COMMA; SPACE] (p :: ps)) = p.
Proof.
  intros H. unfold firstAlternative. destruct ps as [|q qs].
  - simpl. now rewrite split_no_sep_id.
  - change (join [COMMA; SPACE] (p :: q :: qs))
      with (p ++ COMMA :: SPACE :: join [COMMA; SPACE] (q :: qs)).
    now rewrite split_app_sep.
Qed.

(** ** The reflexive-pronoun test *)

Lemma searchFrom_reflexive_later : forall s idx c,
  searchFrom reflexive idx (Some c) s = None.
Proof.
  induction s as [|d t IH]; intros idx c; simpl; [reflexivity|apply IH].
Qed.

Lemma isReflexiveToken_spec t : isReflexiveToken t = isReflexivePronoun t.
Proof.
  unfold isReflexiveToken, test, exec, isReflexivePronoun, reflexivePronouns,
    eq_ignoring_case.
  assert (E : matchHere reflexive None t =
              hd_error (flat_map (fun l =>
                 match stripPrefix true l t with
                 | Some [] => [MState (lastOr None (consumed t [])) [] [(1%nat, consumed t [])]]
                 | _ => []
                 end) reflexivePronouns)).
  { unfold matchHere, reflexive, reflexiveAlts, reflexivePronouns.
    cbn [seqs alts rmatch m_prev m_rest m_caps flat_map List.map app].
    destruct (stripPrefix true (lit "mich") t) as [[|? ?]|];
    destruct (stripPrefix true (lit "dich") t) as [[|? ?]|];
    destruct (stripPrefix true (lit "sich") t) as [[|? ?]|];
    destruct (stripPrefix true (lit "uns") t) as [[|? ?]|];
    destruct (stripPrefix true (lit "euch") t) as [[|? ?]|];
    reflexivity. }
  destruct t as [|c t'].
  - reflexivity.
  - cbn [searchFrom]. rewrite E. unfold reflexivePronouns.
    cbn [flat_map existsb].
    rewrite searchFrom_reflexive_later.
    destruct (stripPrefix true (lit "mich") (c :: t')) as [[|? ?]|];
    destruct (stripPrefix true (lit "dich") (c :: t')) as [[|? ?]|];
    destruct (stripPrefix true (lit "sich") (c :: t')) as [[|? ?]|];
    destruct (stripPrefix true (lit "uns") (c :: t')) as [[|? ?]|];
    destruct (stripPrefix true (lit "euch") (c :: t')) as [[|? ?]|];
    reflexivity.
Qed.

(** ** The separable prefix, as specified *)

Lemma extract_pieces_clean text :
  Forall (fun p => p <> [] /\ clean p /\ ~ In COMMA p)
         (filter truthy (List.map trim (cellPieces text))).
Proof.
  unfold cellPieces. rewrite replaceAll_spaces.
  set (y := collapseSpaces false _).
  assert (Ht : tidy y = true) by apply collapseSpaces_tidy.
  pose proof (split_tidy COMMA y Ht) as H1.
  pose proof (split_no_sep COMMA y) as H2.
  induction (split COMMA y) as [|p ps IH]; simpl; [constructor|].
  inversion H1 as [|? ? Hp Hps]; inversion H2 as [|? ? Hq Hqs]; subst.
  destruct (truthy (trim p)) eqn:T; [|now apply IH].
  constructor; [|now apply IH].
  repeat split.
  - destruct (trim p); [discriminate T|discriminate].
  - now apply trim_clean.
  - now apply trim_clean.
  - now apply trim_clean.
  - intros Hin. apply Hq. now apply trim_incl.
Qed.

Lemma join_nonempty sep p ps : p <> [] -> join sep (p :: ps) <> [].
Proof.
  intros H. destruct ps; simpl; [exact H|].
  destruct p; [congruence|discriminate].
Qed.

Lemma detect_refines_spec cell :
  detectSeparablePrefix (Some (extractTextFromCell cell))
  = spec_separablePrefix (Some (extractTextFromCell cell)).
Proof.
  unfold extractTextFromCell.
  pose proof (extract_pieces_clean (cellText cell)) as H.
  destruct (filter truthy (List.map trim (cellPieces (cellText cell)))) as [|p ps].
  - reflexivity.
  - inversion H as [|? ? (Hne & Hc & Hcomma) _]; subst.
    unfold detectSeparablePrefix, spec_separablePrefix. cbv zeta.
    change (hd [] (split COMMA (join [COMMA; SPACE] (p :: ps))))
      with (firstAlternative (join [COMMA; SPACE] (p :: ps))).
    set (fa := firstAlternative _).
    assert (Hfa : fa = p) by (apply firstAlternative_join; exact Hcomma).
    rewrite Hfa. clear fa Hfa.
    unfold hasInternalSpace. rewrite (trim_id p Hc).
    pose proof (join_nonempty [COMMA; SPACE] p ps Hne) as Hj.
    destruct (join [COMMA; SPACE] (p :: ps)) as [|c t] eqn:Ej;
      [exfalso; apply Hj; exact Ej|].
    cbn [truthy].
    destruct (includes p SPACE) eqn:Hi; [|reflexivity].
    pose proof (split_length_includes SPACE p Hi) as Hlen.
    apply Nat.leb_le in Hlen. rewrite Hlen.
    rewrite (words_split p Hne Hc). f_equal.
    apply filter_ext. intros a. now rewrite isReflexiveToken_spec.
Qed.

Lemma formsExtracted_sg1 f : formsExtracted f -> extracted (sg1 f).
Proof.
  intros [->|(c1 & c2 & c3 & c4 & c5 & c6 & ->)]; [now left|right; now exists c1].
Qed.

Lemma detect_refines_extracted v :
  extracted v -> detectSeparablePrefix v = spec_separablePrefix v.
Proof.
  intros [->|(cell & ->)]; [reflexivity|apply detect_refines_spec].
Qed.

(** What parseConjugations returns on a non-empty text. *)
Lemma parseConjugations_some text r :
  parseConjugations text = Normal (Some r) ->
  exists t tables,
    text = Some t /\ parseTables t = Normal tables /\
    r = withSeparablePrefix tables /\ formsExtracted (praesens tables).
Proof.
  destruct text as [t|]; simpl; [|discriminate].
  destruct (truthy t); simpl; [|discriminate].
  destruct (parseTables_ok t) as (tables & E & _ & H & _). rewrite E. simpl.
  intros [= <-]. now exists t, tables.
Qed.

(** The prefix parseConjugations returns is the specified one for the
    slot it returns. *)
Lemma parsed_prefix_spec text r :
  parseConjugations text = Normal (Some r) ->
  separablePrefix r = spec_separablePrefix (sg1 (praesens r)).
Proof.
  intros H. apply parseConjugations_some in H as (t & tables & -> & E & -> & Hf).
  simpl. apply detect_refines_extracted. now apply formsExtracted_sg1.
Qed.

(** C8.  The separable prefix of every record the parser returns is the
    specified one: the first comma-delimited alternative of the present
    sg1 slot is taken, and if it has an internal space the tokens after
    the first, reflexive pronouns left out, are joined by spaces;
    without a space the prefix is empty.  The slot itself is the one
    read from the table, untouched by the detection. *)
Theorem separable_prefix_detection text r :
  parseConjugations text = Normal (Some r) ->
  separablePrefix r = spec_separablePrefix (sg1 (praesens r)) /\
  exists t tables,
    text = Some t /\ parseTables t = Normal tables /\
    praesens r = praesens tables.
Proof.
  intros H. split; [exact (parsed_prefix_spec text r H)|].
  apply parseConjugations_some in H as (t & tables & -> & E & -> & Hf).
  now exists t, tables.
Qed.

(** No prefix is detected. *)
Lemma spec_no_prefix s :
  hasInternalSpace (firstAlternative s) = false \/
  forallb isReflexivePronoun (tl (words (firstAlternative s))) = true ->
  spec_separablePrefix (Some s) = [].
Proof.
  unfold spec_separablePrefix. intros [->|H]; [reflexivity|].
  destruct (hasInternalSpace _); [|reflexivity].
  induction (tl (words (firstAlternative s))) as [|a l IH]; [reflexivity|].
  simpl in *. apply andb_prop in H as [-> H]. simpl. now apply IH.
Qed.

(** ** db.js *)

Lemma str_eqb_eq : forall a b, str_eqb a b = true <-> a = b.
Proof.
  induction a as [|x a IH]; destruct b as [|y b]; simpl;
    try (split; [discriminate|discriminate]); [split; reflexivity|].
  rewrite andb_true_iff, N.eqb_eq, IH. split.
  - intros [-> ->]. reflexivity.
  - intros [= -> ->]. auto.
Qed.

Lemma str_eqb_refl a : str_eqb a a = true.
Proof. now apply str_eqb_eq. Qed.

Lemma memZ_In x l : memZ x l = true <-> In x l.
Proof.
  unfold memZ. rewrite existsb_exists. split.
  - intros (y & Hy & E). apply Z.eqb_eq in E. now subst.
  - intros H. exists x. split; [exact H|apply Z.eqb_refl].
Qed.

Lemma maxId_ge rows v : In v rows -> (v_id v <= maxId rows)%Z.
Proof.
  induction rows as [|u rows IH]; simpl; [intros []|].
  intros [->|H]; [lia|]. specialize (IH H). lia.
Qed.

Lemma insertVerb_replaces now db verb old :
  In old (verbs db) ->
  v_infinitive old = a_infinitive verb ->
  foreignKeysHold db ->
  exists newId,
    fst (insertVerb now db verb) = Normal newId /\
    let db' := snd (insertVerb now db verb) in
    changes (fst (insertOrReplaceVerb now db (a_infinitive verb)
                    (a_separablePrefix verb)
                    (if a_isIrregular verb then 1 else 0)%Z
                    (a_usagePopularity verb))) = 1%Z /\
    (v_id old < newId)%Z /\
    ~ In old (verbs db') /\
    selectIdByInfinitive db' (a_infinitive verb) = Some newId /\
    (forall c, In c (verb_conjugations db') ->
               c_verb_id c <> v_id old /\ c_verb_id c <> newId) /\
    (forall c, In c (verb_conjugations db) ->
               c_verb_id c = v_id old -> ~ In c (verb_conjugations db')).
Proof.
  intros Hold Hinf FK.
  set (newId := (Z.max (seq_verbs db) (maxId (verbs db)) + 1)%Z).
  exists newId. unfold insertVerb, insertOrReplaceVerb. cbn [changes fst snd].
  change (1 =? 0)%Z with false. cbn [fst snd lastInsertRowid verbs verb_conjugations].
  fold newId.
  assert (Hlt : forall v, In v (verbs db) -> (v_id v < newId)%Z).
  { intros v Hv. pose proof (maxId_ge _ _ Hv). unfold newId. lia. }
  assert (Hdel : In (v_id old)
            (List.map v_id (filter (fun v => str_eqb (v_infinitive v) (a_infinitive verb))
                                   (verbs db)))).
  { apply in_map. apply filter_In. split; [exact Hold|]. rewrite Hinf.
    apply str_eqb_refl. }
  assert (Hmem : memZ (v_id old)
            (List.map v_id (filter (fun v => str_eqb (v_infinitive v) (a_infinitive verb))
                                   (verbs db))) = true) by now apply memZ_In.
  split; [reflexivity|]. split; [reflexivity|]. split; [now apply Hlt|].
  split; [|split; [|split]].
  - intros Hin. apply in_app_or in Hin as [Hin|[Hin|[]]].
    + apply filter_In in Hin as [_ Hin]. rewrite Hinf, str_eqb_refl in Hin.
      discriminate.
    + specialize (Hlt _ Hold). rewrite <- Hin in Hlt. simpl in Hlt. lia.
  - unfold selectIdByInfinitive. cbn [verbs].
    set (row := MkVerbRow newId _ _ _ _ _ _).
    assert (Hk : forall l,
       (forall v, In v l -> str_eqb (v_infinitive v) (a_infinitive verb) = false) ->
       find (fun v => str_eqb (v_infinitive v) (a_infinitive verb)) (l ++ [row])
       = Some row).
    { induction l as [|u l IH]; intros Hl; simpl.
      - now rewrite str_eqb_refl.
      - rewrite (Hl u (or_introl eq_refl)). apply IH. intros v Hv. apply Hl. now right. }
    rewrite Hk; [reflexivity|].
    intros v Hv. apply filter_In in Hv as [_ Hv]. now apply negb_true_iff in Hv.
  - intros c Hc. apply filter_In in Hc as [Hc Hd]. apply negb_true_iff in Hd. split.
    + intros E. rewrite E in Hd. congruence.
    + destruct (FK _ Hc) as (v & Hv & E). specialize (Hlt _ Hv). lia.
  - intros c Hc E Hin. apply filter_In in Hin as [_ Hin].
    apply negb_true_iff in Hin. rewrite E in Hin. congruence.
Qed.

(** C9.  insertVerb is not conjugation-preserving.  Its statement always
    reports one change, so the branch on [changes === 0] is never taken
    and the id returned is the fresh AUTOINCREMENT id.  When a verb with
    the same infinitive is stored, and the foreign keys of the database
    hold, that row is deleted, the new row gets a larger id, and every
    conjugation stored for the old id is gone: none is left for the old
    id, none exists for the new one. *)
Theorem insertVerb_replaces_and_cascades now db verb :
  changes (fst (insertOrReplaceVerb now db (a_infinitive verb)
                  (a_separablePrefix verb)
                  (if a_isIrregular verb then 1 else 0)%Z
                  (a_usagePopularity verb))) = 1%Z /\
  fst (insertVerb now db verb) = Normal (nextVerbId db) /\
  forall old,
    In old (verbs db) ->
    v_infinitive old = a_infinitive verb ->
    foreignKeysHold db ->
    let db' := snd (insertVerb now db verb) in
    (v_id old < nextVerbId db)%Z /\
    ~ In old (verbs db') /\
    selectIdByInfinitive db' (a_infinitive verb) = Some (nextVerbId db) /\
    (forall c, In c (verb_conjugations db') ->
               c_verb_id c <> v_id old /\ c_verb_id c <> nextVerbId db) /\
    (forall c, In c (verb_conjugations db) ->
               c_verb_id c = v_id old -> ~ In c (verb_conjugations db')).
Proof.
  split; [reflexivity|]. split; [reflexivity|].
  intros old Hold Hinf FK.
  destruct (insertVerb_replaces now db verb old Hold Hinf FK)
    as (newId & E & _ & H).
  assert (newId = nextVerbId db) as -> by (cbv [insertVerb insertOrReplaceVerb changes lastInsertRowid fst] in E; change (1 =? 0)%Z with false in E; cbv iota in E; now injection E).
  exact H.
Qed.

(** C9 on a database that holds gehen with its three tenses: after
    insertVerb the verb has id 2 and no conjugation is left. *)
Lemma insertVerb_replaces_and_cascades_witness :
  changes (fst (insertOrReplaceVerb 2000 gehenStored (lit "gehen") None 1 0)) = 1%Z /\
  fst (insertVerb 2000 gehenStored (MkVerbArgs (lit "gehen") None true 0))
  = Normal 2%Z /\
  verb_conjugations
    (snd (insertVerb 2000 gehenStored (MkVerbArgs (lit "gehen") None true 0))) = [] /\
  ~ In gehenRow
       (verbs (snd (insertVerb 2000 gehenStored (MkVerbArgs (lit "gehen") None true 0)))).
Proof.
  destruct (insertVerb_replaces_and_cascades 2000 gehenStored
              (MkVerbArgs (lit "gehen") None true 0)) as (H1 & H2 & H3).
  split; [exact H1|]. split; [exact H2|]. split; [reflexivity|].
  apply (H3 gehenRow).
  - left. reflexivity.
  - reflexivity.
  - intros c Hc. exists gehenRow. split; [left; reflexivity|].
    destruct Hc as [<-|[<-|[<-|[]]]]; reflexivity.
Defined.


(** ** Running the monad *)

Lemma bind_run {A B} (m : M A) (k : A -> M B) w r w' :
  m w = (r, w') ->
  bind m k w = match r with
               | Ret a => k a w'
               | Throw e => (Throw e, w')
               | Exit c => (Exit c, w')
               | OutOfFuel => (OutOfFuel, w')
               end.
Proof. intros H. unfold bind. rewrite H. now destruct r. Qed.

Lemma saveState_run w : saveState w = (Ret tt, saved w).
Proof. reflexivity. Qed.

Lemma checkpoint_run i w : checkpoint i w = (Ret tt, checkpointed i w).
Proof. reflexivity. Qed.

Lemma log_run l w : log l w = (Ret tt, logged l w).
Proof. reflexivity. Qed.

Lemma waitForRateLimit_frame w :
  fst (waitForRateLimit w) = Ret tt /\
  w_state (snd (waitForRateLimit w)) = w_state w /\
  w_file (snd (waitForRateLimit w)) = w_file w /\
  w_db (snd (waitForRateLimit w)) = w_db w /\
  w_net (snd (waitForRateLimit w)) = w_net w /\
  w_requests (snd (waitForRateLimit w)) = w_requests w /\
  w_trace (snd (waitForRateLimit w)) = w_trace w.
Proof.
  unfold waitForRateLimit, bind, get, update, sleep, ret.
  cbn -[Z.add Z.sub Z.ltb RATE_LIMIT_MS].
  destruct (_ <? _)%Z; cbn -[Z.add Z.sub Z.ltb RATE_LIMIT_MS]; repeat split.
Qed.

Lemma apiRequest_run req w :
  apiRequest req w = (replyOutcome (replyTo req w), requested req w).
Proof.
  unfold requested, replyTo, apiRequest.
  unfold bind at 1 3.
  destruct (waitForRateLimit_frame w) as (Hw & _ & _ & _ & Hn1 & Hn2 & _).
  destruct (waitForRateLimit w) as [r w1]. simpl in Hw, Hn1, Hn2. subst r.
  unfold bind, fetch. rewrite Hn1, Hn2.
  destruct (x_reply (w_net w (w_requests w) req)) as [e|status txt body];
    cbn -[Z.add]; [reflexivity|].
  destruct (status =? 429)%N; [reflexivity|].
  destruct (ok status); cbn -[Z.add]; [|reflexivity].
  destruct body; reflexivity.
Qed.

Lemma getPageText_run inf w :
  getPageText (lit "Flexion:" ++ inf) "text" "de" w =
  (match replyOutcome (replyTo (pageRequest inf) w) with
   | Ret d => Ret (orNull (d_parse_text d))
   | Throw e => Throw e
   | Exit c => Exit c
   | OutOfFuel => OutOfFuel
   end, requested (pageRequest inf) w).
Proof.
  unfold getPageText. rewrite (bind_run _ _ _ _ _ (apiRequest_run _ w)).
  fold (pageRequest inf). now destruct (replyOutcome _).
Qed.

Lemma requested_eq req w :
  requested req w =
  let w1 := snd (waitForRateLimit w) in
  setRequests (S (w_requests w1))
    (setClock (w_clock w1 + Z.of_N (x_latency (w_net w1 (w_requests w1) req)))
       (emit (EFetch (w_clock w1) req) w1)).
Proof.
  unfold requested, apiRequest, bind.
  pose proof (waitForRateLimit_frame w) as (Hw & _).
  destruct (waitForRateLimit w) as [r w1]. simpl in Hw. subst r.
  cbv zeta. unfold fetch. cbn [snd].
  destruct (x_reply _) as [e|status txt body]; [reflexivity|].
  destruct (status =? 429)%N; [reflexivity|].
  destruct (ok status); cbn [negb]; [|reflexivity].
  destruct body; reflexivity.
Qed.

(** apiRequest leaves the state, the file and the database alone and
    records one call. *)
Lemma requested_frame req w :
  w_state (requested req w) = w_state w /\
  w_file (requested req w) = w_file w /\
  w_db (requested req w) = w_db w /\
  w_net (requested req w) = w_net w /\
  w_requests (requested req w) = S (w_requests w) /\
  exists t, w_trace (requested req w) = w_trace w ++ [EFetch t req].
Proof.
  rewrite requested_eq. cbv zeta.
  destruct (waitForRateLimit_frame w) as (_ & H1 & H2 & H3 & Hn1 & Hn2 & H4).
  cbn [w_state w_file w_db w_net w_requests w_trace setRequests setClock emit].
  rewrite H1, H2, H3, Hn1, Hn2, H4. repeat split. eexists. reflexivity.
Qed.

Lemma saved_frame w :
  w_state (saved w) = MkState (phase (w_state w)) (verbListContinueToken (w_state w))
                        (verbList (w_state w)) (processedVerbIndex (w_state w))
                        (w_clock w) /\
  w_file (saved w) = Some (Some (w_state (saved w))) /\
  w_db (saved w) = w_db w /\
  w_net (saved w) = w_net w /\
  w_requests (saved w) = w_requests w /\
  w_clock (saved w) = w_clock w /\
  w_lastRequestTime (saved w) = w_lastRequestTime w /\
  w_trace (saved w) = w_trace w ++ [ESave (w_state (saved w))].
Proof. repeat split. Qed.

Lemma checkpointed_frame i w :
  w_state (checkpointed i w) =
    MkState (phase (w_state w)) (verbListContinueToken (w_state w))
            (verbList (w_state w)) i (w_clock w) /\
  w_file (checkpointed i w) = Some (Some (w_state (checkpointed i w))) /\
  w_db (checkpointed i w) = w_db w /\
  w_net (checkpointed i w) = w_net w /\
  w_requests (checkpointed i w) = w_requests w /\
  w_clock (checkpointed i w) = w_clock w /\
  w_lastRequestTime (checkpointed i w) = w_lastRequestTime w /\
  w_trace (checkpointed i w) = w_trace w ++ [ESave (w_state (checkpointed i w))].
Proof. repeat split. Qed.

(** ** Writing an accepted verb *)

Lemma hasAllForms_some f :
  hasAllForms f = true ->
  exists f1 f2 f3 f4 f5 f6,
    f = MkForms (Some f1) (Some f2) (Some f3) (Some f4) (Some f5) (Some f6).
Proof.
  destruct f as [[a|] [b|] [c|] [d|] [e|] [g|]]; unfold hasAllForms; simpl;
    intros H; try discriminate H;
    repeat match goal with
           | H : _ && _ = true |- _ => apply andb_prop in H as [? H]
           | H : false = true |- _ => discriminate H
           end.
  all: try (now exists a, b, c, d, e, g).
  all: rewrite ?andb_false_r in *; try discriminate.
Qed.

Lemma validTensesOf_length r :
  (length (validTensesOf r) <? 3)%nat = negb (trioComplete r).
Proof.
  unfold validTensesOf, trioComplete.
  destruct (hasAllForms (praesens r)), (hasAllForms (praeteritum r)),
    (hasAllForms (perfekt r)); reflexivity.
Qed.

Lemma validTensesOf_complete r :
  trioComplete r = true ->
  validTensesOf r =
  [MkValidTense "praesens" (praesens r) label_Praesens;
   MkValidTense "praeteritum" (praeteritum r) label_Praeteritum;
   MkValidTense "perfekt" (perfekt r) (lit "Perfekt")].
Proof.
  unfold validTensesOf, trioComplete. intros H.
  apply andb_prop in H as [H H3]. apply andb_prop in H as [H1 H2].
  now rewrite H1, H2, H3.
Qed.

Lemma memZ_app_last x l : memZ x (l ++ [x]) = true.
Proof. apply memZ_In. apply in_or_app. right. now left. Qed.

Lemma dbInsertConjugation_run id tense f w :
  hasAllForms f = true ->
  memZ id (List.map v_id (verbs (w_db w))) = true ->
  exists w',
    dbInsertConjugation (MkConjArgs id tense f None) w = (Ret tt, w') /\
    w_trace w' = w_trace w ++ [EInsertConjugation (MkConjArgs id tense f None)] /\
    verbs (w_db w') = verbs (w_db w) /\
    w_state w' = w_state w /\ w_file w' = w_file w /\
    w_net w' = w_net w /\ w_requests w' = w_requests w /\
    w_clock w' = w_clock w /\ w_lastRequestTime w' = w_lastRequestTime w.
Proof.
  intros Hf Hm. destruct (hasAllForms_some f Hf) as (f1 & f2 & f3 & f4 & f5 & f6 & ->).
  unfold dbInsertConjugation, insertConjugation.
  cbn [a_forms a_verbId sg1 sg2 sg3 pl1 pl2 pl3]. rewrite Hm.
  eexists. split; [reflexivity|]. repeat split.
Qed.

Lemma store_run inf r w :
  trioComplete r = true ->
  (verbId <- dbInsertVerb (verbArgs inf r) ;;
   insertValidTenses verbId (validTensesOf r)) w = (Ret tt, stored inf r w) /\
  w_trace (stored inf r w) = w_trace w ++ storeEvents inf r (nextVerbId (w_db w)) /\
  w_state (stored inf r w) = w_state w /\ w_file (stored inf r w) = w_file w /\
  w_net (stored inf r w) = w_net w /\ w_requests (stored inf r w) = w_requests w /\
  w_clock (stored inf r w) = w_clock w /\
  w_lastRequestTime (stored inf r w) = w_lastRequestTime w /\
  In (MkVerbRow (nextVerbId (w_db w)) inf (Some (separablePrefix r)) 1 0
                (w_clock w) (w_clock w))
     (verbs (w_db (stored inf r w))).
Proof.
  intros H. unfold stored. rewrite (validTensesOf_complete r H).
  unfold trioComplete in H.
  apply andb_prop in H as [H H3]. apply andb_prop in H as [H1 H2].
  set (id := nextVerbId (w_db w)).
  assert (E0 : exists w0,
    dbInsertVerb (verbArgs inf r) w = (Ret id, w0) /\
    w_trace w0 = w_trace w ++ [EInsertVerb (verbArgs inf r)] /\
    memZ id (List.map v_id (verbs (w_db w0))) = true /\
    w_state w0 = w_state w /\ w_file w0 = w_file w /\
    w_net w0 = w_net w /\ w_requests w0 = w_requests w /\
    w_clock w0 = w_clock w /\ w_lastRequestTime w0 = w_lastRequestTime w /\
    In (MkVerbRow id inf (Some (separablePrefix r)) 1 0 (w_clock w) (w_clock w))
       (verbs (w_db w0))).
  { unfold dbInsertVerb, insertVerb, insertOrReplaceVerb.
    cbn [changes lastInsertRowid]. change (1 =? 0)%Z with false. cbv iota.
    eexists. split; [reflexivity|]. repeat split.
    - cbn [w_db setDb verbs]. rewrite map_app. apply memZ_app_last.
    - cbn [w_db setDb verbs]. apply in_or_app. right. now left. }
  destruct E0 as (w0 & E0 & T0 & M0 & S0 & F0 & N0 & R0 & C0 & L0 & Row0).
  assert (Row : forall w1 w2 w3,
            verbs (w_db w1) = verbs (w_db w0) ->
            verbs (w_db w2) = verbs (w_db (logged (LogTense label_Praesens) w1)) ->
            verbs (w_db w3) = verbs (w_db (logged (LogTense label_Praeteritum) w2)) ->
            In (MkVerbRow id inf (Some (separablePrefix r)) 1 0 (w_clock w) (w_clock w))
               (verbs (w_db (logged (LogTense (lit "Perfekt")) w3)))).
  { intros w1 w2 w3 V1 V2 V3. cbn [logged emit w_db] in *. now rewrite V3, V2, V1. }
  destruct (dbInsertConjugation_run id "praesens" _ w0 H1 M0)
    as (w1 & E1 & T1 & V1 & S1 & F1 & N1 & R1 & C1 & L1).
  rewrite <- V1 in M0.
  destruct (dbInsertConjugation_run id "praeteritum" _ (logged (LogTense label_Praesens) w1) H2 M0)
    as (w2 & E2 & T2 & V2 & S2 & F2 & N2 & R2 & C2 & L2).
  change (verbs (w_db w1)) with (verbs (w_db (logged (LogTense label_Praesens) w1))) in M0.
  rewrite <- V2 in M0.
  destruct (dbInsertConjugation_run id "perfekt" _ (logged (LogTense label_Praeteritum) w2) H3 M0)
    as (w3 & E3 & T3 & V3 & S3 & F3 & N3 & R3 & C3 & L3).
  assert (E : (verbId <- dbInsertVerb (verbArgs inf r) ;;
     insertValidTenses verbId
       [MkValidTense "praesens" (praesens r) label_Praesens;
        MkValidTense "praeteritum" (praeteritum r) label_Praeteritum;
        MkValidTense "perfekt" (perfekt r) (lit "Perfekt")]) w
     = (Ret tt, logged (LogTense (lit "Perfekt")) w3)).
  { rewrite (bind_run _ _ _ _ _ E0). cbn [insertValidTenses vt_tense vt_forms vt_label].
    rewrite (bind_run _ _ _ _ _ E1).
    rewrite (bind_run _ _ _ _ _ (log_run _ _)).
    rewrite (bind_run _ _ _ _ _ E2).
    rewrite (bind_run _ _ _ _ _ (log_run _ _)).
    rewrite (bind_run _ _ _ _ _ E3).
    rewrite (bind_run _ _ _ _ _ (log_run _ _)).
    reflexivity. }
  rewrite E. cbn [snd]. split; [reflexivity|].
  specialize (Row w1 w2 w3 V1 V2 V3).
  unfold logged in *. cbn [w_trace w_state w_file w_net w_requests w_clock
                           w_lastRequestTime emit] in *.
  rewrite T3, T2, T1, T0, S3, S2, S1, S0, F3, F2, F1, F0, N3, N2, N1, N0,
    R3, R2, R1, R0, C3, C2, C1, C0, L3, L2, L1, L0.
  repeat split; [|exact Row]. unfold storeEvents. fold id.
  repeat rewrite <- app_assoc. reflexivity.
Qed.

(** ** One iteration of the loop *)

Lemma onTitleError_run i inf e w :
  (flow <- onTitleError i inf e ;;
   match flow with
   | Continue => ret tt
   | FallThrough => checkpoint i
   end) w = afterError i inf e w.
Proof.
  unfold onTitleError, afterError.
  destruct (startsWith (err_message e) (lit "RATE_LIMIT")); reflexivity.
Qed.

Lemma processTitle_skip i total w :
  skipped (titleInfinitive i w) = true ->
  processTitle i total w =
  (Ret tt, checkpointed i (logged (LogSkipping i total (titleInfinitive i w)) w)).
Proof.
  unfold processTitle, titleInfinitive, skipped. unfold bind at 1. cbn [get].
  destruct (extractInfinitiveFromTitle _) as [inf|]; [|reflexivity].
  intros ->. reflexivity.
Qed.

Lemma processTitle_fetch i total w inf :
  titleInfinitive i w = Some inf ->
  skipped (Some inf) = false ->
  processTitle i total w = afterAnnounce i inf (logged (LogProcessing i total inf) w).
Proof.
  unfold processTitle, titleInfinitive, skipped. unfold bind at 1. cbn [get].
  intros -> ->.
  rewrite (bind_run _ _ _ _ _ (log_run _ _)).
  set (w1 := logged _ w). unfold afterAnnounce.
  unfold bind at 1. unfold tryCatch, fetchAndStore.
  rewrite (bind_run _ _ _ _ _ (getPageText_run inf w1)).
  destruct (replyOutcome (replyTo (pageRequest inf) w1)) as [d|e|c|]; try reflexivity.
  - destruct (orNull (d_parse_text d)) as [t|]; [|reflexivity].
    unfold bind at 1.
    destruct (parseConjugations (Some t)) as [[r|]|e]; cbn [lift ret throw].
    + rewrite validTensesOf_length.
      destruct (trioComplete r) eqn:T; cbn [negb]; [|reflexivity].
      destruct (store_run inf r (requested (pageRequest inf) w1) T) as (E & _).
      unfold verbArgs in E.
      match goal with
      | |- context [bind (dbInsertVerb ?a) ?k] =>
          change (bind (dbInsertVerb a) k)
            with (bind (bind (dbInsertVerb a)
                          (fun verbId => insertValidTenses verbId (validTensesOf r)))
                       (fun _ => ret FallThrough))
      end.
      rewrite (bind_run _ _ _ _ _ E). reflexivity.
    + reflexivity.
    + apply onTitleError_run.
  - apply onTitleError_run.
Qed.

Lemma replyOutcome_cases r :
  (exists d, replyOutcome r = Ret d) \/ (exists e, replyOutcome r = Throw e).
Proof.
  destruct r as [e|status txt body]; simpl; [eauto|].
  destruct (status =? 429)%N; [eauto|].
  destruct (ok status); simpl; [|eauto].
  destruct body; eauto.
Qed.

Lemma sameTitles_refl w : sameTitles w w.
Proof. repeat split. Qed.

Lemma sameTitles_trans w1 w2 w3 :
  sameTitles w1 w2 -> sameTitles w2 w3 -> sameTitles w1 w3.
Proof.
  intros (A1 & A2 & A3) (B1 & B2 & B3). repeat split; congruence.
Qed.

Lemma step_checkpoint i w w0 e mid :
  w_trace w0 = w_trace w ++ e :: mid ->
  announces i e -> forallb quietEvent mid = true ->
  w_state w0 = w_state w ->
  titleStep i w (Ret tt) (checkpointed i w0).
Proof.
  intros Ht Ha Hq Hs.
  destruct (checkpointed_frame i w0) as (S1 & F1 & _ & _ & _ & _ & _ & T1).
  split; [|split; [exact F1|]].
  - unfold sameTitles. rewrite S1, Hs. repeat split.
  - exists (e :: mid ++ [ESave (w_state (checkpointed i w0))]). split.
    + rewrite T1, Ht, <- app_assoc. reflexivity.
    + left. split; [reflexivity|]. split; [|now rewrite S1].
      exists e, mid, (w_state (checkpointed i w0)). rewrite S1. auto.
Qed.

Lemma step_abort i w w0 e mid :
  w_trace w0 = w_trace w ++ e :: mid ->
  announces i e -> forallb quietEvent mid = true ->
  w_state w0 = w_state w ->
  titleStep i w (Exit 1) (aborted i w0).
Proof.
  intros Ht Ha Hq Hs. unfold aborted.
  match goal with |- titleStep _ _ _ (saved ?x) =>
    destruct (saved_frame x) as (S1 & F1 & _ & _ & _ & _ & _ & T1) end.
  cbn [w_state setState logged emit w_trace w_clock] in S1, T1.
  split; [|split; [exact F1|]].
  - unfold sameTitles. rewrite S1, Hs. repeat split.
  - eexists. split.
    + rewrite T1, Ht. repeat rewrite <- app_assoc. cbn [app]. reflexivity.
    + right. split; [reflexivity|]. rewrite S1. split; [|reflexivity].
      eexists e, mid, _. split; [reflexivity|]. cbn [processedVerbIndex]. auto.
Qed.

Lemma afterError_step i w w0 e0 mid inf e :
  w_trace w0 = w_trace w ++ e0 :: mid ->
  announces i e0 -> forallb quietEvent mid = true ->
  w_state w0 = w_state w ->
  titleStep i w (fst (afterError i inf e w0)) (snd (afterError i inf e w0)).
Proof.
  intros Ht Ha Hq Hs. unfold afterError.
  destruct (startsWith _ _); cbn [fst snd].
  - eapply step_abort; eauto.
  - apply step_checkpoint with (e := e0)
      (mid := mid ++ [ELog (LogErrorProcessing inf (err_message e))]); auto.
    + cbn [logged emit w_trace]. rewrite Ht, <- app_assoc. reflexivity.
    + rewrite forallb_app, Hq. reflexivity.
Qed.

Lemma processTitle_step i total w :
  titleStep i w (fst (processTitle i total w)) (snd (processTitle i total w)).
Proof.
  destruct (skipped (titleInfinitive i w)) eqn:Sk.
  - rewrite (processTitle_skip i total w Sk). cbn [fst snd].
    apply step_checkpoint with (e := ELog (LogSkipping i total (titleInfinitive i w)))
                               (mid := []); auto; reflexivity.
  - destruct (titleInfinitive i w) as [inf|] eqn:Ti; [|discriminate Sk].
    rewrite (processTitle_fetch i total w inf Ti Sk).
    set (w1 := logged (LogProcessing i total inf) w).
    unfold afterAnnounce.
    destruct (requested_frame (pageRequest inf) w1) as (S2 & _ & _ & _ & _ & t & T2).
    set (w2 := requested (pageRequest inf) w1) in *.
    assert (T2' : w_trace w2 = w_trace w ++ ELog (LogProcessing i total inf)
                                 :: [EFetch t (pageRequest inf)]).
    { rewrite T2. unfold w1. cbn [logged emit w_trace]. now rewrite <- app_assoc. }
    assert (S2' : w_state w2 = w_state w) by (rewrite S2; reflexivity).
    assert (An : announces i (ELog (LogProcessing i total inf))) by reflexivity.
    destruct (replyOutcome_cases (replyTo (pageRequest inf) w1)) as [(d & ->)|(e & ->)].
    + destruct (orNull (d_parse_text d)) as [t0|].
      * destruct (parseConjugations_total (Some t0)) as (v & -> & _).
        destruct v as [r|].
        -- destruct (trioComplete r) eqn:T; cbn [fst snd].
           ++ destruct (store_run inf r w2 T) as (_ & T3 & S3 & _).
              apply step_checkpoint with
                (e := ELog (LogProcessing i total inf))
                (mid := EFetch t (pageRequest inf)
                          :: storeEvents inf r (nextVerbId (w_db w2))); auto.
              ** rewrite T3, T2', <- app_assoc. reflexivity.
              ** congruence.
           ++ apply step_checkpoint with
                (e := ELog (LogProcessing i total inf))
                (mid := [EFetch t (pageRequest inf);
                         ELog (LogTooFewTenses (length (validTensesOf r)))]); auto.
              cbn [logged emit w_trace]. rewrite T2', <- app_assoc. reflexivity.
        -- cbn [fst snd]. apply step_checkpoint with
                (e := ELog (LogProcessing i total inf))
                (mid := [EFetch t (pageRequest inf); ELog (LogCouldNotParse inf)]); auto.
           cbn [logged emit w_trace]. rewrite T2', <- app_assoc. reflexivity.
      * cbn [fst snd]. apply step_checkpoint with
                (e := ELog (LogProcessing i total inf))
                (mid := [EFetch t (pageRequest inf); ELog (LogNoPage inf)]); auto.
        cbn [logged emit w_trace]. rewrite T2', <- app_assoc. reflexivity.
    + eapply afterError_step; eauto.
Qed.

(** ** The loop *)

Lemma processTitles_run : forall n i total w,
  titlesRun i n w (fst (processTitles n i total w))
                  (snd (processTitles n i total w)).
Proof.
  induction n as [|n IH]; intros i total w.
  - split; [apply sameTitles_refl|]. exists []. split; [now rewrite app_nil_r|].
    left. split; [reflexivity|constructor].
  - cbn [processTitles]. unfold bind.
    pose proof (processTitle_step i total w) as (St & Hf & evs & Ht & Hcase).
    destruct (processTitle i total w) as [r w1]. cbn [fst snd] in *.
    destruct Hcase as [(-> & Hb & Hi)|(-> & Hb & Hi)].
    + specialize (IH (i + 1)%Z total w1).
      destruct (processTitles n (i + 1) total w1) as [r2 w2]. cbn [fst snd] in *.
      destruct IH as (St2 & evs2 & Ht2 & Hcase2).
      split; [eapply sameTitles_trans; eauto|].
      exists (evs ++ evs2). split; [now rewrite Ht2, Ht, app_assoc|].
      destruct Hcase2 as [(-> & Hr)|(-> & m & blocks & last & Hm & -> & Hr & Ha & Hfile & Hidx)].
      * left. split; [reflexivity|]. now constructor.
      * right. split; [reflexivity|].
        exists (S m), (evs ++ blocks), last. repeat split.
        -- lia.
        -- now rewrite app_assoc.
        -- now constructor.
        -- replace (i + Z.of_nat (S m))%Z with (i + 1 + Z.of_nat m)%Z by lia. exact Ha.
        -- exact Hfile.
        -- rewrite Hidx. lia.
    + cbn [fst snd]. split; [exact St|]. exists evs. split; [exact Ht|].
      right. split; [reflexivity|].
      exists 0%nat, [], evs. repeat split.
      * lia.
      * constructor.
      * now rewrite Z.add_0_r.
      * exact Hf.
      * rewrite Hi. lia.
Qed.

Lemma announcedIndices_app a b :
  announcedIndices (a ++ b) = announcedIndices a ++ announcedIndices b.
Proof. unfold announcedIndices. apply flat_map_app. Qed.

Lemma announcedIndices_quiet mid :
  forallb quietEvent mid = true -> announcedIndices mid = [].
Proof.
  induction mid as [|e mid IH]; [reflexivity|]. simpl. intros H.
  apply andb_prop in H as [He H]. rewrite (IH H).
  destruct e as [| | | |[]]; try reflexivity; discriminate He.
Qed.

Lemma handledBlock_indices i b : handledBlock i b -> announcedIndices b = [i].
Proof.
  intros (e & mid & st & -> & Ha & Hq & _).
  change (e :: mid ++ [ESave st]) with ([e] ++ mid ++ [ESave st]).
  rewrite !announcedIndices_app, (announcedIndices_quiet mid Hq).
  destruct e as [| | | |[]]; simpl in Ha; try contradiction; now subst.
Qed.

Lemma indicesFrom_S i n : indicesFrom i (S n) = i :: indicesFrom (i + 1) n.
Proof.
  unfold indicesFrom. cbn [seq List.map]. rewrite Z.add_0_r. f_equal.
  rewrite <- seq_shift, map_map. apply map_ext. intros j. lia.
Qed.

Lemma handledRun_indices i n evs :
  handledRun i n evs -> announcedIndices evs = indicesFrom i n.
Proof.
  induction 1 as [i|i n b rest Hb _ IH]; [reflexivity|].
  rewrite announcedIndices_app, (handledBlock_indices i b Hb), IH, indicesFrom_S.
  reflexivity.
Qed.

(** ** A run resumed in the processing phase *)

Lemma main_resumed fuel im w st0 :
  w_file w = Some (Some st0) ->
  phase st0 = fetching_conjugations ->
  main fuel true im w =
  match processTitles
          (Z.to_nat (Z.of_nat (length (verbList st0)) - (processedVerbIndex st0 + 1)))
          (processedVerbIndex st0 + 1) (length (verbList st0))
          (resumedWorld st0 w) with
  | (Ret _, w2) => (Ret tt, finished w2)
  | (Throw e, w2) => onFatal e w2
  | (Exit c, w2) => (Exit c, w2)
  | (OutOfFuel, w2) => (OutOfFuel, w2)
  end.
Proof.
  intros Hf Hp.
  destruct w as [net slack clock last reqs file db state trace].
  cbn [w_file] in Hf. subst file.
  unfold resumedWorld, logged.
  cbv beta iota delta [main bind hasState loadState get ret update log tryCatch
                       whenPhase fetchConjugations negb w_file w_state setState
                       emit w_net w_timerSlack w_clock w_lastRequestTime
                       w_requests w_db w_trace].
  rewrite Hp. cbv beta iota delta [phase_eqb w_state].
  rewrite Hp. cbv beta iota zeta delta [phase_eqb w_state].
  destruct (processTitles _ _ _ _) as [[[]|e|c|] w2]; reflexivity.
Qed.

(** ** Resuming *)

Lemma finished_trace w :
  exists final report,
    w_trace (finished w) = w_trace w ++ [ESave final; ELog report] /\
    phase final = completed.
Proof.
  eexists. eexists. unfold finished. split.
  - cbv beta iota delta [bind setPhase modifyState update saveState get whenPhase
                          report log ret snd fst w_state setState emit setFile
                          w_trace phase phase_eqb w_clock w_db].
    rewrite <- app_assoc. reflexivity.
  - reflexivity.
Qed.


(** ** The rate limit *)

Lemma processTitles_app : forall a b i total w,
  processTitles (a + b) i total w =
  match processTitles a i total w with
  | (Ret _, w1) => processTitles b (i + Z.of_nat a) total w1
  | other => other
  end.
Proof.
  induction a as [|a IH]; intros b i total w.
  - cbn [processTitles Nat.add ret]. now rewrite Z.add_0_r.
  - cbn [processTitles Nat.add]. unfold bind.
    destruct (processTitle i total w) as [[[]|e|c|] w1]; try reflexivity.
    rewrite IH. replace (i + 1 + Z.of_nat a)%Z with (i + Z.of_nat (S a))%Z by lia.
    reflexivity.
Qed.

Lemma replyTo_logged req l w : replyTo req (logged l w) = replyTo req w.
Proof. reflexivity. Qed.

Lemma processTitle_rate_limited i total w :
  rateLimitedAt i w ->
  exists w0, processTitle i total w = (Exit 1, aborted i w0) /\
             w_state w0 = w_state w.
Proof.
  intros (inf & txt & body & Ti & Sk & Hr).
  rewrite (processTitle_fetch i total w inf Ti Sk). unfold afterAnnounce.
  rewrite replyTo_logged, Hr. cbn [replyOutcome N.eqb Pos.eqb].
  unfold afterError. cbn [err_message RATE_LIMIT_error].
  change (startsWith _ (lit "RATE_LIMIT")) with true. cbv iota.
  eexists. split; [reflexivity|].
  now destruct (requested_frame (pageRequest inf) (logged (LogProcessing i total inf) w))
    as (-> & _).
Qed.

Lemma aborted_frame i w :
  w_file (aborted i w) = Some (Some (w_state (aborted i w))) /\
  processedVerbIndex (w_state (aborted i w)) = (i - 1)%Z /\
  verbList (w_state (aborted i w)) = verbList (w_state w) /\
  phase (w_state (aborted i w)) = phase (w_state w) /\
  w_trace (aborted i w)
  = w_trace w ++ [ELog LogRateLimit; ESave (w_state (aborted i w))].
Proof.
  unfold aborted. repeat split.
  cbn [saved saveState snd]. unfold saved, saveState, bind, get, modifyState, update.
  cbn [snd w_trace emit setFile setState logged w_state w_clock].
  now rewrite <- app_assoc.
Qed.

(** Where main stands when it enters its try block. *)
Lemma main_enters fuel resume im w :
  main fuel resume im w = tryCatch (mainBody fuel im) onFatal (tryEntry resume w).
Proof.
  unfold main, tryEntry, hasState, loadState, getDefaultState.
  destruct resume; [|reflexivity].
  destruct (w_file w) as [[st|]|] eqn:F;
    cbv beta iota delta [bind get ret update log negb]; rewrite F;
    cbv beta iota delta [bind get ret update log negb]; rewrite ?F; reflexivity.
Qed.

(** C2.  In any run that enters the processing phase, if the titles
    before index i are handled and the request for the title at i is
    answered with status 429, the run exits with code 1, and the last
    thing it does is to checkpoint the state with cursor i - 1, so that
    a resumed run starts with the title at i. *)
Theorem rate_limit_persists_previous_cursor fuel resume im w w_p w_i i :
  whenPhase fetching_verbs (fetchVerbList fuel im) (tryEntry resume w) = (Ret tt, w_p) ->
  phase (w_state w_p) = fetching_conjugations ->
  (processedVerbIndex (w_state w_p) < i
   < Z.of_nat (length (verbList (w_state w_p))))%Z ->
  processTitles (Z.to_nat (i - (processedVerbIndex (w_state w_p) + 1)))
                (processedVerbIndex (w_state w_p) + 1)
                (length (verbList (w_state w_p))) w_p = (Ret tt, w_i) ->
  rateLimitedAt i w_i ->
  fst (main fuel resume im w) = Exit 1 /\
  exists st evs,
    w_file (snd (main fuel resume im w)) = Some (Some st) /\
    w_trace (snd (main fuel resume im w)) = evs ++ [ELog LogRateLimit; ESave st] /\
    processedVerbIndex st = (i - 1)%Z /\
    (processedVerbIndex st + 1)%Z = i /\
    verbList st = verbList (w_state w_p) /\
    phase st = fetching_conjugations.
Proof.
  intros Hphase1 Hp Hi Hreach Hrl.
  set (k := processedVerbIndex (w_state w_p)) in *.
  set (total := length (verbList (w_state w_p))) in *.
  set (a := Z.to_nat (i - (k + 1))) in *.
  destruct (processTitle_rate_limited i total w_i Hrl) as (w0 & Hstep & Hs0).
  assert (E : main fuel resume im w = (Exit 1, aborted i w0)).
  { rewrite main_enters. unfold tryCatch, mainBody.
    rewrite (bind_run _ _ _ _ _ Hphase1). cbv beta iota.
    unfold bind at 1. unfold whenPhase at 1. unfold bind at 1. cbn [get].
    rewrite Hp. cbn [phase_eqb].
    unfold fetchConjugations. unfold bind at 1. cbn [get]. unfold bind at 1.
    fold k total.
    replace (Z.to_nat (Z.of_nat total - (k + 1)))
      with (a + S (Z.to_nat (Z.of_nat total - (i + 1))))%nat by (unfold a; lia).
    rewrite processTitles_app, Hreach.
    replace (k + 1 + Z.of_nat a)%Z with i by (unfold a; lia).
    cbn [processTitles]. unfold bind at 1. rewrite Hstep. reflexivity. }
  rewrite E. cbn [fst snd]. split; [reflexivity|].
  destruct (aborted_frame i w0) as (F & I & V & P & T).
  pose proof (processTitles_run a (k + 1) total w_p) as (St & _).
  rewrite Hreach in St. cbn [fst snd] in St. destruct St as (V' & P' & _).
  exists (w_state (aborted i w0)), (w_trace w0). repeat split; auto.
  - rewrite I. lia.
  - rewrite V, Hs0, V'. reflexivity.
  - rewrite P, Hs0, P'. exact Hp.
Qed.

(** ** Other failures *)

(** C5 (amended).  A failure of the request for a title whose message
    does not start with RATE_LIMIT, be it a transport error or any
    other, is reported and the title is skipped: the cursor moves to
    the title, the state is checkpointed and the loop goes on with the
    next title. *)
Theorem failure_on_title_is_skipped i total n w inf e :
  failsAt i w inf e ->
  startsWith (err_message e) (lit "RATE_LIMIT") = false ->
  exists w' evs,
    processTitle i total w = (Ret tt, w') /\
    processedVerbIndex (w_state w') = i /\
    w_file w' = Some (Some (w_state w')) /\
    w_trace w' = evs ++ [ELog (LogErrorProcessing inf (err_message e));
                         ESave (w_state w')] /\
    processTitles (S n) i total w = processTitles n (i + 1) total w'.
Proof.
  intros (Ti & Sk & Hr) Hm.
  assert (E : processTitle i total w =
              (Ret tt, checkpointed i
                 (logged (LogErrorProcessing inf (err_message e))
                    (requested (pageRequest inf) (logged (LogProcessing i total inf) w))))).
  { rewrite (processTitle_fetch i total w inf Ti Sk). unfold afterAnnounce.
    rewrite replyTo_logged, Hr. unfold afterError. now rewrite Hm. }
  eexists. eexists. split; [exact E|].
  match goal with |- context [checkpointed i ?x] =>
    destruct (checkpointed_frame i x) as (S1 & F1 & _ & _ & _ & _ & _ & T1) end.
  split; [now rewrite S1|]. split; [exact F1|]. split.
  - rewrite T1. cbn [logged emit w_trace]. rewrite <- app_assoc. reflexivity.
  - cbn [processTitles]. unfold bind. now rewrite E.
Qed.

(** ** What is written for a parsed verb *)

Lemma formPresent_attested v : formPresent v = true <-> attested v.
Proof.
  unfold formPresent, attested. destruct v as [s|].
  - rewrite !andb_true_iff, !negb_true_iff. split.
    + intros [[H1 H2] H3]. exists s. repeat split.
      * intros ->. discriminate H1.
      * intros ->. discriminate H2.
      * intros E. rewrite E in H3. discriminate H3.
    + intros (s' & [= <-] & H1 & H2 & H3). repeat split.
      * destruct s; [congruence|reflexivity].
      * destruct (str_eqb s [EMDASH]) eqn:E; [|reflexivity].
        apply str_eqb_eq in E. congruence.
      * destruct (str_eqb (trim s) []) eqn:E; [|reflexivity].
        apply str_eqb_eq in E. congruence.
  - split; [discriminate|]. intros (s & H & _). discriminate H.
Qed.

Lemma hasAllForms_complete f : hasAllForms f = true <-> isSlotSetComplete f.
Proof.
  unfold hasAllForms, isSlotSetComplete. cbn [forallb].
  rewrite !andb_true_iff, !formPresent_attested. tauto.
Qed.

Lemma dbWrites_app a b : dbWrites (a ++ b) = dbWrites a ++ dbWrites b.
Proof. apply filter_app. Qed.

Lemma parsedAt_run i total w inf r :
  parsedAt i w inf r ->
  processTitle i total w =
  let w2 := requested (pageRequest inf) (logged (LogProcessing i total inf) w) in
  if trioComplete r
  then (Ret tt, checkpointed i (stored inf r w2))
  else (Ret tt, checkpointed i
                  (logged (LogTooFewTenses (length (validTensesOf r))) w2)).
Proof.
  intros (d & t & Ti & Sk & Hr & Ht & Hp).
  rewrite (processTitle_fetch i total w inf Ti Sk). unfold afterAnnounce.
  now rewrite replyTo_logged, Hr, Ht, Hp.
Qed.

(** C4 (amended).  For a title whose page is parsed as [r], the calls to
    the persistence layer are: insertVerb and the three conjugations
    praesens, praeteritum, perfekt with the forms parsed, when each of
    the three passes the six-slot check (all six slots populated, not
    the placeholder, not blank); none otherwise, the database being
    left as it was.  The optional tenses are neither checked nor
    written. *)
Theorem accepted_verb_writes_required_trio i total w inf r :
  parsedAt i w inf r ->
  (trioComplete r = true <->
   isSlotSetComplete (praesens r) /\ isSlotSetComplete (praeteritum r)
   /\ isSlotSetComplete (perfekt r)) /\
  exists evs,
    w_trace (snd (processTitle i total w)) = w_trace w ++ evs /\
    dbWrites evs = (if trioComplete r
                    then acceptedWrites inf r (nextVerbId (w_db w))
                    else []) /\
    (trioComplete r = false -> w_db (snd (processTitle i total w)) = w_db w).
Proof.
  intros H. split.
  - unfold trioComplete. rewrite !andb_true_iff, !hasAllForms_complete. tauto.
  - rewrite (parsedAt_run i total w inf r H). cbv zeta.
    set (w1 := logged (LogProcessing i total inf) w).
    destruct (requested_frame (pageRequest inf) w1) as (_ & _ & D2 & _ & _ & t & T2).
    set (w2 := requested (pageRequest inf) w1) in *.
    destruct (trioComplete r) eqn:T; cbn [snd].
    + destruct (store_run inf r w2 T) as (_ & T3 & _).
      destruct (checkpointed_frame i (stored inf r w2)) as (_ & _ & _ & _ & _ & _ & _ & T4).
      eexists. split; [|split].
      * rewrite T4, T3, T2. unfold w1. cbn [logged emit w_trace].
        repeat rewrite <- app_assoc. reflexivity.
      * rewrite D2. reflexivity.
      * discriminate.
    + match goal with |- context [checkpointed i ?x] =>
        destruct (checkpointed_frame i x) as (_ & _ & D4 & _ & _ & _ & _ & T4) end.
      eexists. split; [|split].
      * rewrite T4. cbn [logged emit w_trace]. rewrite T2. unfold w1.
        cbn [logged emit w_trace]. repeat rewrite <- app_assoc. reflexivity.
      * reflexivity.
      * intros _. rewrite D4. cbn [logged emit w_db]. exact D2.
Qed.

(** ** The prefix that is stored *)

(** C10.  When no prefix is there to detect in the present sg1 slot of a
    record the parser returns (no internal space in its first
    alternative, or only reflexive pronouns after the first token), the
    separable prefix is the empty string; and when the verb is
    accepted, insertVerb is called with that empty string, which is
    what the stored row holds, not NULL. *)
Theorem undetected_prefix_is_empty_string text r :
  parseConjugations text = Normal (Some r) ->
  noPrefixIn (sg1 (praesens r)) ->
  separablePrefix r = [] /\
  forall i total w inf,
    parsedAt i w inf r -> trioComplete r = true ->
    In (EInsertVerb (MkVerbArgs inf (Some []) true 0))
       (w_trace (snd (processTitle i total w))) /\
    exists row,
      In row (verbs (w_db (snd (processTitle i total w)))) /\
      v_infinitive row = inf /\ v_separable_prefix row = Some [].
Proof.
  intros Hp Hn.
  assert (E : separablePrefix r = []).
  { rewrite (parsed_prefix_spec text r Hp).
    destruct (sg1 (praesens r)) as [s|]; [|reflexivity].
    now apply spec_no_prefix. }
  split; [exact E|].
  intros i total w inf Hat T.
  rewrite (parsedAt_run i total w inf r Hat). cbv zeta. rewrite T. cbn [snd].
  set (w2 := requested _ _).
  destruct (store_run inf r w2 T) as (_ & T3 & _ & _ & _ & _ & _ & _ & Row).
  destruct (checkpointed_frame i (stored inf r w2)) as (_ & _ & D4 & _ & _ & _ & _ & T4).
  split.
  - rewrite T4, T3. apply in_or_app. left. apply in_or_app. right.
    unfold storeEvents, verbArgs. rewrite E. now left.
  - rewrite D4. eexists. split; [exact Row|]. rewrite E. split; reflexivity.
Qed.

(** C8 on the page of aufstehen: the slot reads "stehe auf", the prefix
    is "auf". *)
Lemma separable_prefix_detection_witness :
  parseConjugations (Some page_aufstehen) = Normal (Some (parsed page_aufstehen)) /\
  sg1 (praesens (parsed page_aufstehen)) = Some (lit "stehe auf") /\
  separablePrefix (parsed page_aufstehen) = lit "auf" /\
  separablePrefix (parsed page_aufstehen)
  = spec_separablePrefix (sg1 (praesens (parsed page_aufstehen))) /\
  exists t tables,
    Some page_aufstehen = Some t /\ parseTables t = Normal tables /\
    praesens (parsed page_aufstehen) = praesens tables.
Proof.
  split; [vm_compute; reflexivity|].
  split; [vm_compute; reflexivity|].
  split; [vm_compute; reflexivity|].
  apply (separable_prefix_detection (Some page_aufstehen) (parsed page_aufstehen)).
  vm_compute. reflexivity.
Defined.


(** C2 with the rate limit striking on the second of three titles. *)
Lemma rate_limit_persists_previous_cursor_witness :
  fst (main 0 true false (worldOf [tooManyRequests] threeTitles)) = Exit 1 /\
  exists st evs,
    w_file (snd (main 0 true false (worldOf [tooManyRequests] threeTitles)))
    = Some (Some st) /\
    w_trace (snd (main 0 true false (worldOf [tooManyRequests] threeTitles)))
    = evs ++ [ELog LogRateLimit; ESave st] /\
    processedVerbIndex st = (1 - 1)%Z /\
    (processedVerbIndex st + 1)%Z = 1%Z /\
    verbList st = verbList threeTitles /\
    phase st = fetching_conjugations.
Proof.
  apply (rate_limit_persists_previous_cursor 0 true false (worldOf [tooManyRequests] threeTitles)
           (tryEntry true (worldOf [tooManyRequests] threeTitles))
           (snd (processTitles 1 0 3
                   (tryEntry true (worldOf [tooManyRequests] threeTitles)))) 1).
  - reflexivity.
  - reflexivity.
  - vm_compute. split; reflexivity.
  - vm_compute. reflexivity.
  - exists (lit "gehen"), (lit "Too Many Requests"), (Thrown TypeError_null).
    vm_compute. repeat split.
Defined.

(** C5 (amended) on a rejected fetch. *)
Lemma failure_on_title_is_skipped_witness :
  exists w' evs,
    processTitle 1 3 (worldOf [fetchFailed; missingPage] threeTitles) = (Ret tt, w') /\
    processedVerbIndex (w_state w') = 1%Z /\
    w_file w' = Some (Some (w_state w')) /\
    w_trace w' = evs ++ [ELog (LogErrorProcessing (lit "gehen") (lit "fetch failed"));
                         ESave (w_state w')] /\
    processTitles 2 1 3 (worldOf [fetchFailed; missingPage] threeTitles)
    = processTitles 1 (1 + 1) 3 w'.
Proof.
  apply (failure_on_title_is_skipped 1 3 1 (worldOf [fetchFailed; missingPage] threeTitles)
           (lit "gehen") (MkError "TypeError" (lit "fetch failed"))).
  - vm_compute. repeat split.
  - vm_compute. reflexivity.
Defined.

(** C5, as stated, fails: the fetch for gehen is rejected, a failure
    that is neither a rate limit nor an HTTP status, and the run goes
    on to the next title and ends normally. *)
Lemma unexpected_failure_does_not_abort :
  replyTo (pageRequest (lit "gehen")) (worldOf [fetchFailed; missingPage] threeTitles)
  = NetworkError (MkError "TypeError" (lit "fetch failed")) /\
  fst (main 0 true false (worldOf [fetchFailed; missingPage] threeTitles)) = Ret tt /\
  List.map processedVerbIndex
    (saves (w_trace (snd (main 0 true false
                            (worldOf [fetchFailed; missingPage] threeTitles)))))
  = [0; 1; 2; 2]%Z /\
  announcedIndices
    (w_trace (snd (main 0 true false
                     (worldOf [fetchFailed; missingPage] threeTitles))))
  = [0; 1; 2]%Z.
Proof. vm_compute. repeat split. Qed.

(** C4 (amended) on the page of aufstehen. *)
Lemma accepted_verb_writes_required_trio_witness :
  (trioComplete (parsed page_aufstehen) = true <->
   isSlotSetComplete (praesens (parsed page_aufstehen))
   /\ isSlotSetComplete (praeteritum (parsed page_aufstehen))
   /\ isSlotSetComplete (perfekt (parsed page_aufstehen))) /\
  exists evs,
    w_trace (snd (processTitle 0 1 (worldOf [served page_aufstehen] oneTitle)))
    = w_trace (worldOf [served page_aufstehen] oneTitle) ++ evs /\
    dbWrites evs
    = (if trioComplete (parsed page_aufstehen)
       then acceptedWrites (lit "aufstehen") (parsed page_aufstehen)
              (nextVerbId (w_db (worldOf [served page_aufstehen] oneTitle)))
       else []) /\
    (trioComplete (parsed page_aufstehen) = false ->
     w_db (snd (processTitle 0 1 (worldOf [served page_aufstehen] oneTitle)))
     = w_db (worldOf [served page_aufstehen] oneTitle)).
Proof.
  apply (accepted_verb_writes_required_trio 0 1 (worldOf [served page_aufstehen] oneTitle)
           (lit "aufstehen") (parsed page_aufstehen)).
  exists (MkApiData None None (Some page_aufstehen) None), page_aufstehen.
  repeat split; vm_compute; reflexivity.
Defined.

(** C4, as stated, fails: the Plusquamperfekt of aufstehen passes the
    six-slot check, and is not among the tenses written. *)
Lemma complete_optional_tense_not_written :
  parseConjugations (Some page_aufstehen) = Normal (Some (parsed page_aufstehen)) /\
  hasAllForms (plusquamperfekt (parsed page_aufstehen)) = true /\
  List.map c_tense
    (verb_conjugations
       (w_db (snd (main 0 true false (worldOf [served page_aufstehen] oneTitle)))))
  = ["praesens"; "praeteritum"; "perfekt"]%string.
Proof. vm_compute. repeat split. Qed.

(** C10 on the page of gehen. *)
Lemma undetected_prefix_is_empty_string_witness :
  noPrefixIn (sg1 (praesens (parsed page_gehen))) /\
  separablePrefix (parsed page_gehen) = [] /\
  forall i total w inf,
    parsedAt i w inf (parsed page_gehen) -> trioComplete (parsed page_gehen) = true ->
    In (EInsertVerb (MkVerbArgs inf (Some []) true 0))
       (w_trace (snd (processTitle i total w))) /\
    exists row,
      In row (verbs (w_db (snd (processTitle i total w)))) /\
      v_infinitive row = inf /\ v_separable_prefix row = Some [].
Proof.
  assert (H : noPrefixIn (sg1 (praesens (parsed page_gehen))))
    by (vm_compute; left; reflexivity).
  split; [exact H|].
  apply (undetected_prefix_is_empty_string (Some page_gehen) (parsed page_gehen)); [|exact H].
  vm_compute. reflexivity.
Defined.

(** ** Invariants of computations *)

Lemma preserves_ret {A} I (a : A) : preserves I (ret a).
Proof. intros w H. exact H. Qed.

Lemma preserves_throw {A} I e : preserves I (@throw A e).
Proof. intros w H. exact H. Qed.

Lemma preserves_exit {A} I c : preserves I (@exit A c).
Proof. intros w H. exact H. Qed.

Lemma preserves_outOfFuel {A} I : preserves I (@outOfFuel A).
Proof. intros w H. exact H. Qed.

Lemma preserves_lift {A} I (c : completion A) : preserves I (lift c).
Proof. intros w H. destruct c; exact H. Qed.

Lemma preserves_get {A} I (f : World -> A) : preserves I (get f).
Proof. intros w H. exact H. Qed.

Lemma preserves_update I f :
  (forall w, I w -> I (f w)) -> preserves I (update f).
Proof. intros Hf w H. now apply Hf. Qed.

Lemma preserves_bind {A B} I (m : M A) (k : A -> M B) :
  preserves I m -> (forall a, preserves I (k a)) -> preserves I (bind m k).
Proof.
  intros Hm Hk w H. unfold bind. specialize (Hm w H).
  destruct (m w) as [[a|e|c|] w1]; cbn [snd] in *; auto. now apply Hk.
Qed.

Lemma preserves_tryCatch {A} I (body : M A) handler :
  preserves I body -> (forall e, preserves I (handler e)) ->
  preserves I (tryCatch body handler).
Proof.
  intros Hb Hh w H. unfold tryCatch. specialize (Hb w H).
  destruct (body w) as [[a|e|c|] w1]; cbn [snd] in *; auto. now apply Hh.
Qed.

(** A value read from the world may be used to choose what comes next. *)
Lemma preserves_get_bind {A B} I (f : World -> A) (k : A -> M B) :
  (forall w, I w -> I (snd (k (f w) w))) -> preserves I (bind (get f) k).
Proof. intros Hk w H. unfold bind. cbn [get]. now apply Hk. Qed.

(** ** The rate limiter *)

Lemma fetchTimes_app a b : fetchTimes (a ++ b) = fetchTimes a ++ fetchTimes b.
Proof.
  induction a as [|e a IH]; [reflexivity|]. simpl.
  destruct e; simpl; now rewrite IH.
Qed.

Lemma spaced_snoc l t :
  spaced l -> Forall (fun a => (a + RATE_LIMIT_MS <= t)%Z) l -> spaced (l ++ [t]).
Proof.
  induction l as [|a l IH]; intros Hs Hf; [exact I|].
  inversion Hf as [|? ? Ha Hl]; subst.
  destruct l as [|b l]; simpl in *; [auto|].
  destruct Hs as [Hab Hs]. split; [exact Hab|]. now apply IH.
Qed.

(** After the wait the clock shows the remembered time, which lies the
    minimum interval or more after the previous one. *)
Lemma waitForRateLimit_clock w :
  w_lastRequestTime (snd (waitForRateLimit w)) = w_clock (snd (waitForRateLimit w)) /\
  (w_lastRequestTime w + RATE_LIMIT_MS <= w_clock (snd (waitForRateLimit w)))%Z.
Proof.
  unfold waitForRateLimit, bind, get, update, sleep, ret.
  cbn -[Z.add Z.sub Z.ltb RATE_LIMIT_MS].
  destruct (Z.ltb_spec (w_clock w - w_lastRequestTime w) RATE_LIMIT_MS);
    cbn -[Z.add Z.sub Z.ltb RATE_LIMIT_MS]; split; try reflexivity; lia.
Qed.

Lemma requested_limiter req w :
  limiterOk w ->
  limiterOk (requested req w) /\
  fetchTimes (w_trace (requested req w))
  = fetchTimes (w_trace w) ++ [w_lastRequestTime (requested req w)] /\
  (w_lastRequestTime w + RATE_LIMIT_MS <= w_lastRequestTime (requested req w))%Z.
Proof.
  intros [Hs Hf]. rewrite requested_eq. cbv zeta.
  destruct (waitForRateLimit_frame w) as (_ & _ & _ & _ & _ & _ & Ht).
  destruct (waitForRateLimit_clock w) as [Hl Hc].
  set (w1 := snd (waitForRateLimit w)) in *.
  unfold limiterOk.
  cbn [w_trace w_lastRequestTime setRequests setClock emit].
  rewrite Ht, fetchTimes_app. cbn [fetchTimes]. rewrite Hl.
  split; [|split; [reflexivity|exact Hc]]. split.
  - apply spaced_snoc; [exact Hs|].
    eapply Forall_impl; [|exact Hf]. cbv beta. intros a Ha. lia.
  - apply Forall_app. split.
    + eapply Forall_impl; [|exact Hf]. cbv beta. intros a Ha.
      unfold RATE_LIMIT_MS in Hc. lia.
    + constructor; [lia|constructor].
Qed.

Lemma apiRequest_limiter req : preserves limiterOk (apiRequest req).
Proof.
  intros w H. rewrite apiRequest_run. cbn [snd]. now apply requested_limiter.
Qed.

Lemma idle_limiter d : preserves limiterOk (idle d).
Proof. apply preserves_update. intros w H. exact H. Qed.

Lemma issueAll_limiter calls : preserves limiterOk (issueAll calls).
Proof.
  induction calls as [|[pause req] rest IH]; [apply preserves_ret|].
  cbn [issueAll]. apply preserves_bind; [apply idle_limiter|]. intros _.
  apply preserves_bind; [|intros _; exact IH].
  apply preserves_tryCatch.
  - apply preserves_bind; [apply apiRequest_limiter|]. intros _. apply preserves_ret.
  - intros e. apply preserves_ret.
Qed.

Lemma issueAll_count : forall calls w,
  length (fetchTimes (w_trace (snd (issueAll calls w))))
  = (length (fetchTimes (w_trace w)) + length calls)%nat.
Proof.
  induction calls as [|[pause req] rest IH]; intros w.
  - cbn. lia.
  - cbn [issueAll]. unfold bind at 1. cbn [idle update].
    set (w0 := setClock _ w).
    unfold bind at 1. unfold tryCatch.
    rewrite (bind_run _ _ _ _ _ (apiRequest_run req w0)).
    destruct (requested_frame req w0) as (_ & _ & _ & _ & _ & t & Ht).
    assert (E : length (fetchTimes (w_trace (requested req w0)))
                = S (length (fetchTimes (w_trace w)))).
    { rewrite Ht, fetchTimes_app, length_app. cbn. lia. }
    destruct (replyOutcome_cases (replyTo req w0)) as [(d & ->)|(e & ->)];
      cbv beta iota delta [ret]; rewrite IH, E; cbn [length]; lia.
Qed.

Lemma issueAll_spaced calls w :
  fetchTimes (w_trace w) = [] ->
  spaced (fetchTimes (w_trace (snd (issueAll calls w)))) /\
  length (fetchTimes (w_trace (snd (issueAll calls w)))) = length calls.
Proof.
  intros H. split.
  - apply issueAll_limiter. unfold limiterOk. rewrite H. split; constructor.
  - rewrite issueAll_count, H. reflexivity.
Qed.

(** ** Checkpoints evolve *)

Lemma saves_app a b : saves (a ++ b) = saves a ++ saves b.
Proof.
  induction a as [|e a IH]; [reflexivity|].
  destruct e; simpl; now rewrite IH.
Qed.

Lemma evolves_refl a : evolves a a.
Proof.
  repeat split; auto. intros _. exists []. now rewrite app_nil_r.
Qed.

Lemma evolves_trans a b c : evolves a b -> evolves b c -> evolves a c.
Proof.
  intros (R1 & G1 & F1) (R2 & G2 & F2). repeat split.
  - lia.
  - intros Ha. destruct (G1 Ha) as (m1 & E1).
    destruct (phase b) eqn:Pb.
    + destruct (G2 eq_refl) as (m2 & E2).
      exists (m1 ++ m2). now rewrite E2, E1, app_assoc.
    + exists m1. rewrite F2; [exact E1|discriminate].
    + exists m1. rewrite F2; [exact E1|discriminate].
  - intros Ha.
    assert (Hb : phase b <> fetching_verbs).
    { intros Hb. rewrite Hb in R1. destruct (phase a); simpl in R1; try lia.
      now apply Ha. }
    rewrite (F2 Hb). now apply F1.
Qed.

Lemma chain_app_last l a b :
  chain (l ++ [a]) -> evolves a b -> chain (l ++ [a; b]).
Proof.
  induction l as [|x l IH]; intros Hc Hab.
  - simpl. auto.
  - destruct l as [|y l].
    + simpl in *. tauto.
    + simpl in Hc. destruct Hc as [Hxy Hc]. simpl. split; [exact Hxy|].
      now apply IH.
Qed.

Lemma chain_replace_last l x a b :
  chain ((x :: l) ++ [a]) -> evolves a b -> chain ((x :: l) ++ [b]).
Proof.
  revert x. induction l as [|y l IH]; intros x Hc Hab.
  - simpl in *. split; [|exact I]. destruct Hc as [Hxa _].
    eapply evolves_trans; eauto.
  - simpl in Hc. destruct Hc as [Hxy Hc]. simpl. split; [exact Hxy|].
    now apply (IH y).
Qed.

Lemma chain_drop_last l a : chain (l ++ [a]) -> chain l.
Proof.
  induction l as [|x l IH]; intros Hc; [exact I|].
  destruct l as [|y l]; [exact I|].
  simpl in Hc. destruct Hc as [Hxy Hc]. simpl. split; [exact Hxy|].
  now apply IH.
Qed.

(** ** Moving the invariant along *)

Lemma checkpointsOk_stateful tr0 init : stateful (checkpointsOk tr0 init).
Proof.
  intros w w' Hs (evs' & Ht & Hq) (evs & Ht0 & Hf & Hi & Hc).
  exists (evs ++ evs'). rewrite Ht, Ht0, <- app_assoc, saves_app, Hq, app_nil_r, Hs.
  auto.
Qed.

Lemma checkpointsOk_setState tr0 init st w :
  checkpointsOk tr0 init w -> stateInv st -> evolves (w_state w) st ->
  checkpointsOk tr0 init (setState st w).
Proof.
  intros (evs & Ht & Hf & Hi & Hc) Hst Hev.
  exists evs. cbn [w_trace w_state setState]. repeat split; auto.
  - apply Hst.
  - apply Hst.
  - change (init :: saves evs ++ [st]) with ((init :: saves evs) ++ [st]).
    eapply chain_replace_last; eauto.
Qed.

Lemma stateInv_stamp st now :
  stateInv st ->
  stateInv (MkState (phase st) (verbListContinueToken st) (verbList st)
                    (processedVerbIndex st) now).
Proof. intros H. exact H. Qed.

Lemma checkpointsOk_saved tr0 init w :
  checkpointsOk tr0 init w -> checkpointsOk tr0 init (saved w).
Proof.
  intros (evs & Ht & Hf & Hi & Hc).
  destruct (saved_frame w) as (S1 & _ & _ & _ & _ & _ & _ & T1).
  exists (evs ++ [ESave (w_state (saved w))]).
  rewrite T1, Ht, <- app_assoc, saves_app, S1. cbn [saves].
  repeat split.
  - apply Forall_app. split; [exact Hf|]. constructor; [exact Hi|constructor].
  - apply Hi.
  - apply Hi.
  - rewrite <- app_assoc. cbn [app].
    change (init :: saves evs ++ [?a; ?b]) with ((init :: saves evs) ++ [a; b]).
    apply chain_app_last; [|apply evolves_refl].
    eapply chain_replace_last; [exact Hc|].
    repeat split; auto. intros _. exists []. now rewrite app_nil_r.
Qed.

(** ** Quiet computations *)

Lemma quiet_preserves {A} (m : M A) I : quiet m -> stateful I -> preserves I m.
Proof. intros Hq Hs w H. destruct (Hq w) as [E Ht]. eapply Hs; eauto. Qed.

Lemma quiet_ret {A} (a : A) : quiet (ret a).
Proof. intros w. split; [reflexivity|]. exists []. now rewrite app_nil_r. Qed.

Lemma quiet_throw {A} e : quiet (@throw A e).
Proof. intros w. split; [reflexivity|]. exists []. now rewrite app_nil_r. Qed.

Lemma quiet_lift {A} (c : completion A) : quiet (lift c).
Proof. destruct c; [apply quiet_ret|apply quiet_throw]. Qed.

Lemma quiet_get {A} (f : World -> A) : quiet (get f).
Proof. intros w. split; [reflexivity|]. exists []. now rewrite app_nil_r. Qed.

Lemma quiet_log l : quiet (log l).
Proof. intros w. split; [reflexivity|]. now exists [ELog l]. Qed.

Lemma quiet_bind {A B} (m : M A) (k : A -> M B) :
  quiet m -> (forall a, quiet (k a)) -> quiet (bind m k).
Proof.
  intros Hm Hk w. unfold bind. destruct (Hm w) as (S1 & e1 & T1 & Q1).
  destruct (m w) as [[a|e|c|] w1]; cbn [snd] in *; eauto.
  destruct (Hk a w1) as (S2 & e2 & T2 & Q2).
  split; [congruence|]. exists (e1 ++ e2).
  rewrite T2, T1, <- app_assoc, saves_app, Q1, Q2. auto.
Qed.

Lemma quiet_apiRequest req : quiet (apiRequest req).
Proof.
  intros w. rewrite apiRequest_run. cbn [snd].
  destruct (requested_frame req w) as (S1 & _ & _ & _ & _ & t & T1).
  split; [exact S1|]. now exists [EFetch t req].
Qed.

Lemma quiet_getPageText title prop lang : quiet (getPageText title prop lang).
Proof.
  unfold getPageText. apply quiet_bind; [apply quiet_apiRequest|].
  intros d. destruct (String.eqb _ _); apply quiet_ret.
Qed.

Lemma quiet_getCategoryMembers category token lang :
  quiet (getCategoryMembers category token lang).
Proof.
  unfold getCategoryMembers. apply quiet_bind; [apply quiet_apiRequest|].
  intros d. apply quiet_ret.
Qed.

Lemma quiet_dbInsertVerb args : quiet (dbInsertVerb args).
Proof.
  intros w. unfold dbInsertVerb.
  destruct (insertVerb (w_clock w) (w_db w) args) as [[id|e] db']; cbn [lift ret throw snd];
    (split; [reflexivity|]; now exists [EInsertVerb args]).
Qed.

Lemma quiet_dbInsertConjugation args : quiet (dbInsertConjugation args).
Proof.
  intros w. unfold dbInsertConjugation.
  destruct (insertConjugation (w_db w) args) as [[id|e] db']; cbn [lift ret throw snd];
    (split; [reflexivity|]; now exists [EInsertConjugation args]).
Qed.

Lemma quiet_insertValidTenses id l : quiet (insertValidTenses id l).
Proof.
  induction l as [|vt l IH]; [apply quiet_ret|]. cbn [insertValidTenses].
  apply quiet_bind; [apply quiet_dbInsertConjugation|]. intros _.
  apply quiet_bind; [apply quiet_log|]. intros _. exact IH.
Qed.

(** ** The processing phase keeps the invariant *)

Lemma processingOk_stateful tr0 init total : stateful (processingOk tr0 init total).
Proof.
  intros w w' Hs Ht (H & Hp & Hl). split; [|rewrite Hs; auto].
  eapply checkpointsOk_stateful; eauto.
Qed.

Lemma enumeratingOk_stateful tr0 init : stateful (enumeratingOk tr0 init).
Proof.
  intros w w' Hs Ht (H & Hp). split; [|rewrite Hs; auto].
  eapply checkpointsOk_stateful; eauto.
Qed.

Lemma processingOk_setIndex tr0 init total i w :
  (i < Z.of_nat total)%Z ->
  processingOk tr0 init total w ->
  processingOk tr0 init total
    (saved (setState (MkState (phase (w_state w)) (verbListContinueToken (w_state w))
                              (verbList (w_state w)) i (lastUpdated (w_state w))) w)).
Proof.
  intros Hi (H & Hp & Hl).
  assert (Hinv : stateInv (w_state w)) by (destruct H as (? & _ & _ & Hinv & _); exact Hinv).
  split; [|split; [exact Hp|exact Hl]].
  apply checkpointsOk_saved. apply checkpointsOk_setState; [exact H| |].
  - split; cbn [processedVerbIndex verbList verbListContinueToken phase].
    + rewrite Hl. exact Hi.
    + apply Hinv.
  - repeat split; cbn [phase verbList]; auto.
    intros _. exists []. now rewrite app_nil_r.
Qed.

Lemma checkpoint_processingOk tr0 init total i :
  (i < Z.of_nat total)%Z -> preserves (processingOk tr0 init total) (checkpoint i).
Proof.
  intros Hi w H. rewrite checkpoint_run. cbn [snd].
  now apply processingOk_setIndex.
Qed.

Lemma onTitleError_processingOk tr0 init total i inf e :
  (i < Z.of_nat total)%Z ->
  preserves (processingOk tr0 init total) (onTitleError i inf e).
Proof.
  intros Hi. unfold onTitleError.
  destruct (startsWith _ _).
  - apply preserves_bind;
      [apply quiet_preserves; [apply quiet_log|apply processingOk_stateful]|].
    intros _ w H.
    change (processingOk tr0 init total
              (saved (setState (MkState (phase (w_state w)) (verbListContinueToken (w_state w))
                                        (verbList (w_state w)) (i - 1) (lastUpdated (w_state w))) w))).
    apply processingOk_setIndex; [lia|exact H].
  - apply quiet_preserves; [|apply processingOk_stateful].
    apply quiet_bind; [apply quiet_log|]. intros _. apply quiet_ret.
Qed.

Lemma fetchAndStore_processingOk tr0 init total i inf :
  (i < Z.of_nat total)%Z ->
  preserves (processingOk tr0 init total) (fetchAndStore i inf).
Proof.
  intros Hi. unfold fetchAndStore.
  pose proof (processingOk_stateful tr0 init total) as St.
  assert (Hskip : forall l, preserves (processingOk tr0 init total)
                              (log l ;;; checkpoint i ;;; ret Continue)).
  { intros l. apply preserves_bind; [apply quiet_preserves; [apply quiet_log|exact St]|].
    intros _. apply preserves_bind; [now apply checkpoint_processingOk|].
    intros _. apply preserves_ret. }
  apply preserves_bind; [apply quiet_preserves; [apply quiet_getPageText|exact St]|].
  intros [t|]; [|apply Hskip].
  apply preserves_bind; [apply preserves_lift|].
  intros [r|]; [|apply Hskip].
  destruct (_ <? _)%nat; [apply Hskip|].
  apply quiet_preserves; [|exact St].
  apply quiet_bind; [apply quiet_dbInsertVerb|]. intros id.
  apply quiet_bind; [apply quiet_insertValidTenses|]. intros _. apply quiet_ret.
Qed.

Lemma processTitle_processingOk tr0 init total i n :
  (i < Z.of_nat total)%Z ->
  preserves (processingOk tr0 init total) (processTitle i n).
Proof.
  intros Hi. unfold processTitle.
  pose proof (processingOk_stateful tr0 init total) as St.
  apply preserves_bind; [apply preserves_get|]. intros st.
  assert (Hskip : forall l, preserves (processingOk tr0 init total)
                              (log l ;;; checkpoint i)).
  { intros l. apply preserves_bind; [apply quiet_preserves; [apply quiet_log|exact St]|].
    intros _. now apply checkpoint_processingOk. }
  destruct (extractInfinitiveFromTitle _) as [inf|]; [|apply Hskip].
  destruct (_ || _); [apply Hskip|].
  apply preserves_bind; [apply quiet_preserves; [apply quiet_log|exact St]|].
  intros _. apply preserves_bind.
  - apply preserves_tryCatch; [now apply fetchAndStore_processingOk|].
    intros e. now apply onTitleError_processingOk.
  - intros [|]; [apply preserves_ret|now apply checkpoint_processingOk].
Qed.

Lemma processTitles_processingOk tr0 init total : forall n i,
  (i + Z.of_nat n <= Z.of_nat total)%Z ->
  preserves (processingOk tr0 init total) (processTitles n i total).
Proof.
  induction n as [|n IH]; intros i Hi; [apply preserves_ret|].
  cbn [processTitles]. apply preserves_bind.
  - apply processTitle_processingOk. lia.
  - intros _. apply IH. lia.
Qed.

Lemma stateInv_token_free st :
  stateInv st -> phase st <> fetching_verbs -> verbListContinueToken st = None.
Proof.
  intros [_ H] Hp. destruct (verbListContinueToken st) as [t|]; [|reflexivity].
  exfalso. apply Hp. apply H. discriminate.
Qed.

(** Leaving a phase for a later one, with no token left. *)
Lemma checkpointsOk_setPhase tr0 init p w :
  checkpointsOk tr0 init w ->
  verbListContinueToken (w_state w) = None ->
  (phaseRank (phase (w_state w)) <= phaseRank p)%nat ->
  checkpointsOk tr0 init
    (saved (setState (MkState p (verbListContinueToken (w_state w))
                              (verbList (w_state w)) (processedVerbIndex (w_state w))
                              (lastUpdated (w_state w))) w)).
Proof.
  intros H Ht Hr.
  assert (Hinv : stateInv (w_state w)) by (destruct H as (? & _ & _ & Hinv & _); exact Hinv).
  apply checkpointsOk_saved. apply checkpointsOk_setState; [exact H| |].
  - split; cbn [processedVerbIndex verbList verbListContinueToken phase].
    + apply Hinv.
    + rewrite Ht. intros C. now destruct C.
  - repeat split; cbn [phase verbList]; auto.
    intros _. exists []. now rewrite app_nil_r.
Qed.

Lemma fetchConjugations_ok tr0 init w :
  checkpointsOk tr0 init w ->
  phase (w_state w) = fetching_conjugations ->
  checkpointsOk tr0 init (snd (fetchConjugations w)).
Proof.
  intros H Hp. unfold fetchConjugations. unfold bind at 1. cbn [get].
  set (total := length (verbList (w_state w))).
  set (start := (processedVerbIndex (w_state w) + 1)%Z).
  assert (Hinv : stateInv (w_state w)) by (destruct H as (? & _ & _ & Hinv & _); exact Hinv).
  assert (Hstart : (start <= Z.of_nat total)%Z) by (destruct Hinv as [Hc _]; unfold start, total; lia).
  pose proof (processTitles_processingOk tr0 init total
                (Z.to_nat (Z.of_nat total - start)) start ltac:(lia) w
                (conj H (conj Hp eq_refl))) as (H2 & Hp2 & _).
  unfold bind at 1.
  destruct (processTitles _ _ _ w) as [[[]|e|c|] w2]; cbn [snd] in *; auto.
  change (checkpointsOk tr0 init
            (saved (setState (MkState completed (verbListContinueToken (w_state w2))
                              (verbList (w_state w2)) (processedVerbIndex (w_state w2))
                              (lastUpdated (w_state w2))) w2))).
  apply checkpointsOk_setPhase; auto.
  - apply stateInv_token_free; [|congruence].
    destruct H2 as (? & _ & _ & Hinv2 & _); exact Hinv2.
  - rewrite Hp2. simpl. lia.
Qed.

(** ** The enumeration phase keeps the invariant *)

Lemma enumeratingOk_onPage tr0 init members token w :
  enumeratingOk tr0 init w ->
  enumeratingOk tr0 init (snd (onPage members token w)) /\
  fst (onPage members token w) = Ret tt /\
  verbListContinueToken (w_state (snd (onPage members token w))) = token.
Proof.
  intros (H & Hp).
  assert (Hinv : stateInv (w_state w)) by (destruct H as (? & _ & _ & Hinv & _); exact Hinv).
  change (snd (onPage members token w))
    with (saved (setState (MkState (phase (w_state w)) token
                                   (verbList (w_state w) ++ members)
                                   (processedVerbIndex (w_state w))
                                   (lastUpdated (w_state w))) w)).
  split; [|split; reflexivity]. split; [|exact Hp].
  apply checkpointsOk_saved. apply checkpointsOk_setState; [exact H| |].
  - split; cbn [processedVerbIndex verbList verbListContinueToken phase].
    + destruct Hinv as [Hc _]. rewrite length_app. lia.
    + intros _. exact Hp.
  - repeat split; cbn [phase verbList]; auto.
    + intros _. now exists members.
    + intros C. now destruct C.
Qed.

Lemma enumeration_loop tr0 init category lang : forall fuel token allMembers w r w',
  enumeratingOk tr0 init w ->
  getAllCategoryMembersLoop fuel category (Some onPage) token lang allMembers w
  = (r, w') ->
  enumeratingOk tr0 init w' /\
  (forall a, r = Ret a -> verbListContinueToken (w_state w') = None).
Proof.
  induction fuel as [|fuel IH]; intros token allMembers w r w' H E.
  - cbn in E. injection E as <- <-. split; [exact H|discriminate].
  - cbn [getAllCategoryMembersLoop] in E. unfold bind at 1 in E.
    pose proof (quiet_preserves _ _ (quiet_getCategoryMembers category token lang)
                  (enumeratingOk_stateful tr0 init) w H) as H1.
    destruct (getCategoryMembers category token lang w) as [[[members next]|e|c|] w1];
      cbn [snd fst] in *;
      try (injection E as <- <-; split; [exact H1|discriminate]).
    unfold bind at 1 in E.
    destruct (enumeratingOk_onPage tr0 init members next w1 H1) as (H2 & R2 & T2).
    destruct (onPage members next w1) as [r2 w2]. cbn [fst snd] in *. subst r2.
    rewrite (bind_run _ _ _ _ _ (log_run _ _)) in E. cbv beta iota in E.
    set (w3 := logged _ w2) in E.
    assert (H3 : enumeratingOk tr0 init w3).
    { eapply enumeratingOk_stateful; [| |exact H2]; [reflexivity|].
      eexists. split; [reflexivity|reflexivity]. }
    destruct next as [t|].
    + eapply IH; eauto.
    + cbn [ret] in E. injection E as <- <-. split; [exact H3|].
      intros _ _. exact T2.
Qed.

Lemma fetchVerbList_category tr0 init fuel w :
  enumeratingOk tr0 init w ->
  checkpointsOk tr0 init (snd (fetchVerbList fuel false w)).
Proof.
  intros H. unfold fetchVerbList, getAllCategoryMembers.
  unfold bind at 1. unfold bind at 1. unfold bind at 1. cbn [get].
  destruct (getAllCategoryMembersLoop _ _ _ _ _ _ w) as [r w1] eqn:E.
  destruct (enumeration_loop tr0 init CATEGORY_NAME "de" fuel
              (verbListContinueToken (w_state w)) [] w r w1 H E) as ((H1 & Hp1) & Tok).
  destruct r as [all|e|c|]; cbn [fst snd] in *; auto.
  specialize (Tok all eq_refl).
  set (w2 := logged (LogTotalFound (length (verbList (w_state w1)))) w1).
  change (checkpointsOk tr0 init
            (saved (setState (MkState fetching_conjugations
                                (verbListContinueToken (w_state w2))
                                (verbList (w_state w2)) (processedVerbIndex (w_state w2))
                                (lastUpdated (w_state w2))) w2))).
  apply checkpointsOk_setPhase.
  - eapply checkpointsOk_stateful; [| |exact H1]; [reflexivity|].
    eexists. split; reflexivity.
  - exact Tok.
  - change (w_state w2) with (w_state w1). rewrite Hp1. simpl. lia.
Qed.

Lemma fetchVerbList_incomplete tr0 init fuel w :
  enumeratingOk tr0 init w ->
  verbListContinueToken (w_state w) = None ->
  verbList (w_state w) = [] ->
  checkpointsOk tr0 init (snd (fetchVerbList fuel true w)).
Proof.
  intros (H & Hp) Ht Hl.
  assert (Hinv : stateInv (w_state w)) by (destruct H as (? & _ & _ & Hinv & _); exact Hinv).
  set (titles := List.map (fun v => lit "Flexion:" ++ snd v) (getIncompleteVerbs (w_db w))).
  set (st1 := MkState (phase (w_state w)) (verbListContinueToken (w_state w)) titles
                      (processedVerbIndex (w_state w)) (lastUpdated (w_state w))).
  set (w2 := logged (LogTotalFound (length titles)) (setState st1 w)).
  change (snd (fetchVerbList fuel true w))
    with (saved (setState (MkState fetching_conjugations
                                (verbListContinueToken (w_state w2))
                                (verbList (w_state w2)) (processedVerbIndex (w_state w2))
                                (lastUpdated (w_state w2))) w2)).
  apply checkpointsOk_setPhase.
  - eapply checkpointsOk_stateful with (w := setState st1 w);
      [reflexivity|eexists; split; reflexivity|].
    apply checkpointsOk_setState; [exact H| |].
    + split; cbn [st1 processedVerbIndex verbList verbListContinueToken phase].
      * destruct Hinv as [Hc _]. rewrite Hl in Hc. simpl in Hc. lia.
      * intros _. exact Hp.
    + repeat split; cbn [st1 phase verbList]; auto.
      * intros _. exists titles. now rewrite Hl.
      * intros C. now destruct C.
  - exact Ht.
  - change (phase (w_state w2)) with (phase (w_state w)). rewrite Hp. simpl. lia.
Qed.

(** ** The whole run keeps the invariant *)

Lemma mainBody_ok tr0 init fuel im w :
  checkpointsOk tr0 init w ->
  freshForIncomplete im (w_state w) ->
  checkpointsOk tr0 init (snd (mainBody fuel im w)).
Proof.
  intros H Hfresh. unfold mainBody.
  assert (H1 : checkpointsOk tr0 init
                 (snd (whenPhase fetching_verbs (fetchVerbList fuel im) w))).
  { unfold whenPhase. unfold bind. cbn [get].
    destruct (phase_eqb (phase (w_state w)) fetching_verbs) eqn:E; [|exact H].
    assert (Hp : phase (w_state w) = fetching_verbs)
      by (destruct (phase (w_state w)); (reflexivity || discriminate E)).
    destruct im.
    - destruct (Hfresh eq_refl Hp) as [Ht Hl].
      apply fetchVerbList_incomplete; auto. now split.
    - apply fetchVerbList_category. now split. }
  unfold bind at 1.
  destruct (whenPhase fetching_verbs (fetchVerbList fuel im) w) as [[[]|e|c|] w1];
    cbn [snd] in *; auto.
  assert (H2 : checkpointsOk tr0 init
                 (snd (whenPhase fetching_conjugations fetchConjugations w1))).
  { unfold whenPhase. unfold bind. cbn [get].
    destruct (phase_eqb (phase (w_state w1)) fetching_conjugations) eqn:E; [|exact H1].
    apply fetchConjugations_ok; [exact H1|].
    destruct (phase (w_state w1)); (reflexivity || discriminate E). }
  unfold bind at 1.
  destruct (whenPhase fetching_conjugations fetchConjugations w1) as [[[]|e|c|] w2];
    cbn [snd] in *; auto.
  apply (quiet_preserves (whenPhase completed report) _); auto;
    [|apply checkpointsOk_stateful].
  unfold whenPhase. apply quiet_bind; [apply quiet_get|]. intros st.
  destruct (phase_eqb _ _); [|apply quiet_ret].
  unfold report. apply quiet_bind; [apply quiet_get|]. intros st'.
  apply quiet_bind; [apply quiet_get|]. intros db. apply quiet_log.
Qed.

Lemma onFatal_ok tr0 init e : preserves (checkpointsOk tr0 init) (onFatal e).
Proof.
  unfold onFatal.
  apply preserves_bind.
  - apply quiet_preserves; [|apply checkpointsOk_stateful].
    destruct (startsWith _ _); apply quiet_log.
  - intros _. apply preserves_bind; [|intros _; apply preserves_exit].
    intros w H. rewrite saveState_run. now apply checkpointsOk_saved.
Qed.

(** Where main stands when it enters its try block. *)
Lemma main_prologue fuel resume im w :
  exists w1 logs,
    main fuel resume im w = tryCatch (mainBody fuel im) onFatal w1 /\
    w_state w1 = initialState resume w /\
    w_trace w1 = w_trace w ++ logs /\ saves logs = [].
Proof.
  unfold main, initialState, hasState, loadState, getDefaultState.
  destruct resume.
  - destruct (w_file w) as [[st|]|] eqn:F.
    + exists (logged (LogResuming st) (setState st w)), [ELog (LogResuming st)].
      repeat split.
      cbv beta iota delta [bind get ret update log negb]. rewrite F.
      cbv beta iota delta [bind get ret update log negb]. rewrite F. reflexivity.
    + eexists (logged (LogResuming _) (setState _ w)), [ELog (LogResuming _)].
      split; [|repeat split].
      cbv beta iota delta [bind get ret update log negb]. rewrite F.
      cbv beta iota delta [bind get ret update log negb]. rewrite F. reflexivity.
    + eexists (setState _ (logged LogNoSavedState w)), [ELog LogNoSavedState].
      split; [|repeat split].
      cbv beta iota delta [bind get ret update log negb]. rewrite F.
      cbv beta iota delta [bind get ret update log negb]. reflexivity.
  - eexists (setState _ w), []. split; [|repeat split].
    + reflexivity.
    + cbn [w_trace setState]. now rewrite app_nil_r.
Qed.

(** C7 (amended).  If the state a run starts from has its cursor inside
    the list and a token only while enumerating, and a database-driven
    enumeration starts without token and with an empty list, then every
    state the run checkpoints has its cursor inside the list and a
    token only while enumerating, and from one checkpoint to the next
    the list only grows during the enumeration and is the same once the
    processing phase is entered. *)
Theorem checkpoints_keep_invariant fuel resume im w :
  stateInv (initialState resume w) ->
  freshForIncomplete im (initialState resume w) ->
  exists evs,
    w_trace (snd (main fuel resume im w)) = w_trace w ++ evs /\
    Forall stateInv (saves evs) /\
    chain (initialState resume w :: saves evs).
Proof.
  intros Hinv Hfresh.
  destruct (main_prologue fuel resume im w) as (w1 & logs & -> & Hs & Ht & Hq).
  set (init := initialState resume w) in *.
  assert (H1 : checkpointsOk (w_trace w) init w1).
  { exists logs. split; [exact Ht|]. rewrite Hq, Hs.
    split; [constructor|]. split; [exact Hinv|].
    simpl. split; [apply evolves_refl|exact I]. }
  assert (H2 : checkpointsOk (w_trace w) init
                 (snd (tryCatch (mainBody fuel im) onFatal w1))).
  { unfold tryCatch.
    pose proof (mainBody_ok (w_trace w) init fuel im w1 H1) as Hb.
    rewrite Hs in Hb. specialize (Hb Hfresh).
    destruct (mainBody fuel im w1) as [[[]|e|c|] w2]; cbn [snd] in *; auto.
    now apply onFatal_ok. }
  destruct H2 as (evs & E & Hf & _ & Hc).
  exists evs. repeat split; auto.
  change (init :: saves evs ++ [?a]) with ((init :: saves evs) ++ [a]) in Hc.
  now apply chain_drop_last in Hc.
Qed.

(** C7, as stated, fails: a database-driven run resumed on the
    checkpoint of an interrupted crawl checkpoints a processing state
    that still holds the token, and whose list is not an extension of
    the crawled one. *)
Lemma incomplete_resume_breaks_invariant :
  stateInv interruptedCrawl /\
  exists st,
    In st (saves (w_trace (snd (main 0 true true (worldOf [] interruptedCrawl))))) /\
    phase st = fetching_conjugations /\
    verbListContinueToken st = Some (lit "page|500") /\
    verbList st = [] /\ verbList interruptedCrawl = [lit "Flexion:gehen"] /\
    ~ stateInv st.
Proof.
  split; [split; [vm_compute; reflexivity|reflexivity]|].
  eexists. split; [vm_compute; left; reflexivity|].
  repeat split. intros [_ Ht].
  assert (E : fetching_conjugations = fetching_verbs) by (apply Ht; discriminate).
  discriminate E.
Qed.

(** ** The whole run is rate limited *)

Lemma limiterOk_frame w w' e :
  w_lastRequestTime w' = w_lastRequestTime w ->
  w_trace w' = w_trace w ++ [e] ->
  fetchTimes [e] = [] ->
  limiterOk w -> limiterOk w'.
Proof.
  intros Hl Ht He [Hs Hf]. unfold limiterOk.
  now rewrite Ht, fetchTimes_app, He, app_nil_r, Hl.
Qed.

Lemma log_limiter l : preserves limiterOk (log l).
Proof. intros w H. now apply limiterOk_frame with (w := w) (e := ELog l). Qed.

Lemma modifyState_limiter f : preserves limiterOk (modifyState f).
Proof. intros w H. exact H. Qed.

Lemma saveState_limiter : preserves limiterOk saveState.
Proof.
  intros w H. rewrite saveState_run. cbn [snd].
  destruct (saved_frame w) as (_ & _ & _ & _ & _ & _ & L & T).
  now apply limiterOk_frame with (w := w) (e := ESave (w_state (saved w))).
Qed.

Lemma dbInsertVerb_limiter a : preserves limiterOk (dbInsertVerb a).
Proof.
  intros w H. unfold dbInsertVerb.
  destruct (insertVerb (w_clock w) (w_db w) a) as [[id|e] db']; cbn [lift ret throw snd];
    now apply limiterOk_frame with (w := w) (e := EInsertVerb a).
Qed.

Lemma dbInsertConjugation_limiter a : preserves limiterOk (dbInsertConjugation a).
Proof.
  intros w H. unfold dbInsertConjugation.
  destruct (insertConjugation (w_db w) a) as [[id|e] db']; cbn [lift ret throw snd];
    now apply limiterOk_frame with (w := w) (e := EInsertConjugation a).
Qed.

Create HintDb limiter.
#[local] Hint Resolve log_limiter modifyState_limiter saveState_limiter
  dbInsertVerb_limiter dbInsertConjugation_limiter apiRequest_limiter : limiter.

(** One step through the structure of a computation. *)
Ltac limiter_step :=
  match goal with
  | |- preserves _ _ => solve [eauto 2 with limiter nocore]
  | |- preserves _ (bind _ _) => apply preserves_bind; [|intros ?]
  | |- preserves _ (tryCatch _ _) => apply preserves_tryCatch; [|intros ?]
  | |- preserves _ (ret _) => apply preserves_ret
  | |- preserves _ (exit _) => apply preserves_exit
  | |- preserves _ (throw _) => apply preserves_throw
  | |- preserves _ outOfFuel => apply preserves_outOfFuel
  | |- preserves _ (lift _) => apply preserves_lift
  | |- preserves _ (get _) => apply preserves_get
  | |- preserves _ (update _) =>
      apply preserves_update; let w := fresh in let H := fresh in
                              intros w H; exact H
  | |- preserves _ (match ?x with _ => _ end) => destruct x
  | |- preserves _ (if ?x then _ else _) => destruct x
  | |- preserves _ (let _ := _ in _) => cbv zeta
  end.

Ltac limiter := repeat limiter_step.

Lemma checkpoint_limiter i : preserves limiterOk (checkpoint i).
Proof. unfold checkpoint. limiter. Qed.
#[local] Hint Resolve checkpoint_limiter : limiter.

Lemma insertValidTenses_limiter id l : preserves limiterOk (insertValidTenses id l).
Proof. induction l as [|vt l IH]; cbn [insertValidTenses]; limiter. Qed.
#[local] Hint Resolve insertValidTenses_limiter : limiter.

Lemma processTitle_limiter i total : preserves limiterOk (processTitle i total).
Proof. unfold processTitle, fetchAndStore, onTitleError, getPageText. limiter. Qed.
#[local] Hint Resolve processTitle_limiter : limiter.

Lemma processTitles_limiter total : forall n i,
  preserves limiterOk (processTitles n i total).
Proof. induction n as [|n IH]; intros i; cbn [processTitles]; limiter. Qed.
#[local] Hint Resolve processTitles_limiter : limiter.

Lemma enumeration_limiter category lang : forall fuel token allMembers,
  preserves limiterOk
    (getAllCategoryMembersLoop fuel category (Some onPage) token lang allMembers).
Proof.
  induction fuel as [|fuel IH]; intros token allMembers;
    cbn [getAllCategoryMembersLoop]; unfold getCategoryMembers, onPage; limiter.
Qed.
#[local] Hint Resolve enumeration_limiter : limiter.

Lemma main_limiter fuel resume im : preserves limiterOk (main fuel resume im).
Proof.
  unfold main, hasState, loadState, getDefaultState, whenPhase, fetchVerbList,
    fetchConjugations, report, onFatal, setPhase, getAllCategoryMembers.
  limiter.
Qed.



(** C7 (amended) on a database-driven run that is not resumed. *)
Lemma checkpoints_keep_invariant_witness :
  exists evs,
    w_trace (snd (main 0 false true (freshWorld [missingPage] gehenBare)))
    = w_trace (freshWorld [missingPage] gehenBare) ++ evs /\
    Forall stateInv (saves evs) /\
    chain (initialState false (freshWorld [missingPage] gehenBare) :: saves evs).
Proof.
  apply (checkpoints_keep_invariant 0 false true (freshWorld [missingPage] gehenBare)).
  - split; [vm_compute; reflexivity|]. intros H. now destruct H.
  - intros _ _. split; reflexivity.
Defined.

(** ** Looking a verb up *)

Lemma find_app_last {A} (p : A -> bool) l x :
  (forall v, In v l -> p v = false) -> find p (l ++ [x]) = find p [x].
Proof.
  induction l as [|u l IH]; intros H; [reflexivity|]. simpl.
  rewrite (H u (or_introl eq_refl)). apply IH. intros v Hv. apply H. now right.
Qed.

Lemma find_filter_implied {A} (p q : A -> bool) l :
  (forall v, p v = true -> q v = true) -> find p (filter q l) = find p l.
Proof.
  intros H. induction l as [|u l IH]; [reflexivity|]. simpl.
  destruct (p u) eqn:Pu.
  - rewrite (H u Pu). simpl. now rewrite Pu.
  - destruct (q u); simpl; [rewrite Pu|]; exact IH.
Qed.

Lemma str_eqb_neq a b : a <> b -> str_eqb a b = false.
Proof.
  intros H. destruct (str_eqb a b) eqn:E; [|reflexivity].
  apply str_eqb_eq in E. contradiction.
Qed.

Lemma insertVerb_run now db verb :
  insertVerb now db verb =
  (Normal (nextVerbId db),
   snd (insertOrReplaceVerb now db (a_infinitive verb) (a_separablePrefix verb)
          (if a_isIrregular verb then 1 else 0)%Z (a_usagePopularity verb))).
Proof. reflexivity. Qed.

Lemma insertVerb_lookup now db verb :
  fst (insertVerb now db verb) = Normal (nextVerbId db) /\
  getVerbIdByInfinitive (snd (insertVerb now db verb)) (a_infinitive verb)
  = Some (nextVerbId db) /\
  forall other, other <> a_infinitive verb ->
    getVerbIdByInfinitive (snd (insertVerb now db verb)) other
    = getVerbIdByInfinitive db other.
Proof.
  rewrite insertVerb_run. cbn [fst snd].
  unfold getVerbIdByInfinitive, selectIdByInfinitive, insertOrReplaceVerb.
  cbn [snd verbs]. split; [reflexivity|]. split.
  - rewrite find_app_last.
    + cbn [find v_infinitive]. rewrite str_eqb_refl. reflexivity.
    + intros v Hv. apply filter_In in Hv as [_ Hv]. now apply negb_true_iff in Hv.
  - intros other Hne.
    assert (E : forall l x,
       v_infinitive x = a_infinitive verb ->
       find (fun v => str_eqb (v_infinitive v) other)
            (filter (fun v => negb (str_eqb (v_infinitive v) (a_infinitive verb))) l
               ++ [x])
       = find (fun v => str_eqb (v_infinitive v) other) l).
    { intros l x Hx. induction l as [|u l IH]; simpl.
      - rewrite Hx, str_eqb_neq; [reflexivity|congruence].
      - destruct (str_eqb (v_infinitive u) other) eqn:Eu.
        + apply str_eqb_eq in Eu.
          rewrite str_eqb_neq by congruence. simpl.
          rewrite Eu, str_eqb_refl. reflexivity.
        + destruct (str_eqb (v_infinitive u) (a_infinitive verb)); simpl;
            [|rewrite Eu]; exact IH. }
    rewrite E by reflexivity. reflexivity.
Qed.


(** X15.  getVerbIdByInfinitive answers null exactly when no
    verb is stored under the infinitive, and an id it answers is the id
    of a verb stored under it. *)
Theorem getVerbIdByInfinitive_found db infinitive :
  (getVerbIdByInfinitive db infinitive = None <->
   forall v, In v (verbs db) -> v_infinitive v <> infinitive) /\
  (forall id, getVerbIdByInfinitive db infinitive = Some id ->
     exists v, In v (verbs db) /\ v_id v = id /\ v_infinitive v = infinitive).
Proof.
  unfold getVerbIdByInfinitive, selectIdByInfinitive.
  destruct (find _ (verbs db)) as [v|] eqn:E; cbn [option_map].
  - apply find_some in E as [Hin Hv]. apply str_eqb_eq in Hv. split.
    + split; [discriminate|]. intros H. exfalso. exact (H v Hin Hv).
    + intros id [= <-]. now exists v.
  - split; [|discriminate]. split; [|reflexivity]. intros _ v Hin Hv.
    pose proof (find_none _ _ E v Hin) as Hf. cbv beta in Hf.
    rewrite Hv, str_eqb_refl in Hf. discriminate.
Qed.

(** ** Writing a conjugation *)

Lemma conjKey_eqb r id tense :
  ((c_verb_id r =? id)%Z && String.eqb (c_tense r) tense) = true
  <-> conjKey r = (id, tense).
Proof.
  unfold conjKey. rewrite andb_true_iff, Z.eqb_eq, String.eqb_eq.
  split; [intros [-> ->]; reflexivity|intros [= -> ->]; auto].
Qed.

Lemma insertConjugation_ok db id tense f1 f2 f3 f4 f5 f6 notes :
  In id (List.map v_id (verbs db)) ->
  insertConjugation db
    (MkConjArgs id tense
       (MkForms (Some f1) (Some f2) (Some f3) (Some f4) (Some f5) (Some f6)) notes)
  = (Normal tt,
     MkDatabase (verbs db)
       (filter (fun r => negb ((c_verb_id r =? id)%Z && String.eqb (c_tense r) tense))
               (verb_conjugations db)
        ++ [MkConjRow id tense f1 f2 f3 f4 f5 f6 notes])
       (verb_translations db) (seq_verbs db)).
Proof.
  intros H. apply memZ_In in H. unfold insertConjugation.
  cbn [a_forms a_verbId a_tense a_notes sg1 sg2 sg3 pl1 pl2 pl3]. now rewrite H.
Qed.

Lemma insertConjugation_cases db c :
  (exists f1 f2 f3 f4 f5 f6,
     a_forms c = MkForms (Some f1) (Some f2) (Some f3) (Some f4) (Some f5) (Some f6) /\
     In (a_verbId c) (List.map v_id (verbs db)) /\
     insertConjugation db c =
     (Normal tt,
      MkDatabase (verbs db)
        (filter (fun r => negb ((c_verb_id r =? a_verbId c)%Z
                                && String.eqb (c_tense r) (a_tense c)))
                (verb_conjugations db)
         ++ [MkConjRow (a_verbId c) (a_tense c) f1 f2 f3 f4 f5 f6 (a_notes c)])
        (verb_translations db) (seq_verbs db)))
  \/
  (exists e, insertConjugation db c = (Thrown e, db) /\
             (In None (slotsOf (a_forms c)) \/
              ~ In (a_verbId c) (List.map v_id (verbs db)))).
Proof.
  destruct c as [id tense [[f1|] [f2|] [f3|] [f4|] [f5|] [f6|]] notes];
    try (right; eexists; split; [reflexivity|left; cbn; tauto]).
  destruct (memZ id (List.map v_id (verbs db))) eqn:E.
  - left. exists f1, f2, f3, f4, f5, f6. apply memZ_In in E.
    split; [reflexivity|]. split; [exact E|]. now apply insertConjugation_ok.
  - right. unfold insertConjugation.
    cbn [a_forms a_verbId a_tense a_notes sg1 sg2 sg3 pl1 pl2 pl3]. rewrite E.
    eexists. split; [reflexivity|]. right. intros H. apply memZ_In in H.
    cbn [a_verbId] in H. congruence.
Qed.

Lemma insertConjugation_effect db c :
  (fst (insertConjugation db c) = Normal tt <->
   ~ In None (slotsOf (a_forms c)) /\
   In (a_verbId c) (List.map v_id (verbs db))) /\
  match insertConjugation db c with
  | (Thrown e, db') => db' = db
  | (Normal _, db') =>
      verbs db' = verbs db /\
      verb_translations db' = verb_translations db /\
      (exists row,
          In row (verb_conjugations db') /\
          conjKey row = (a_verbId c, a_tense c) /\
          formsOfRow row = a_forms c /\ c_notes row = a_notes c /\
          forall r, In r (verb_conjugations db') ->
                    conjKey r = (a_verbId c, a_tense c) -> r = row) /\
      (forall r, conjKey r <> (a_verbId c, a_tense c) ->
                 (In r (verb_conjugations db') <-> In r (verb_conjugations db)))
  end.
Proof.
  destruct (insertConjugation_cases db c)
    as [(f1 & f2 & f3 & f4 & f5 & f6 & Hf & Hid & ->)|(e & -> & Hwhy)].
  - cbn [fst]. split.
    + split; [intros _|reflexivity]. split; [|exact Hid].
      rewrite Hf. cbn. intros [H|[H|[H|[H|[H|[H|[]]]]]]]; discriminate H.
    + cbn [verbs verb_conjugations verb_translations].
      split; [reflexivity|]. split; [reflexivity|]. split.
      * eexists. split; [apply in_or_app; right; left; reflexivity|].
        split; [reflexivity|]. split; [now rewrite Hf|]. split; [reflexivity|].
        intros r Hr Hk. apply in_app_or in Hr as [Hr|[<-|[]]]; [|reflexivity].
        apply filter_In in Hr as [_ Hr]. apply negb_true_iff in Hr.
        apply conjKey_eqb in Hk. congruence.
      * intros r Hk. rewrite in_app_iff, filter_In. split.
        -- intros [[Hr _]|[<-|[]]]; [exact Hr|]. now destruct Hk.
        -- intros Hr. left. split; [exact Hr|]. apply negb_true_iff.
           destruct (_ && _) eqn:E; [|reflexivity].
           apply conjKey_eqb in E. contradiction.
  - cbn [fst]. split; [|reflexivity]. split; [discriminate|].
    intros [H1 H2]. destruct Hwhy; contradiction.
Qed.

(** X16.  insertConjugation either fails and leaves the database
    as it was, which happens exactly when one of the six slots is
    missing or no verb has the id; or it succeeds, and then the table
    holds exactly one row for the verb and the tense, carrying the forms
    and the notes given, while the rows of every other verb or tense,
    the verbs and the translations are untouched. *)
Theorem insertConjugation_upserts db c :
  (fst (insertConjugation db c) = Normal tt <->
   ~ In None (slotsOf (a_forms c)) /\
   In (a_verbId c) (List.map v_id (verbs db))) /\
  match insertConjugation db c with
  | (Thrown e, db') => db' = db
  | (Normal _, db') =>
      verbs db' = verbs db /\
      verb_translations db' = verb_translations db /\
      (exists row,
          In row (verb_conjugations db') /\
          conjKey row = (a_verbId c, a_tense c) /\
          formsOfRow row = a_forms c /\ c_notes row = a_notes c /\
          forall r, In r (verb_conjugations db') ->
                    conjKey r = (a_verbId c, a_tense c) -> r = row) /\
      (forall r, conjKey r <> (a_verbId c, a_tense c) ->
                 (In r (verb_conjugations db') <-> In r (verb_conjugations db)))
  end.
Proof. apply insertConjugation_effect. Qed.

(** ** What insertVerb leaves alone *)

Lemma maxId_lt_next db v : In v (verbs db) -> (v_id v < nextVerbId db)%Z.
Proof. intros H. pose proof (maxId_ge _ _ H). unfold nextVerbId. lia. Qed.

Lemma NoDup_map_inj_in {A B} (f : A -> B) l x y :
  NoDup (List.map f l) -> In x l -> In y l -> f x = f y -> x = y.
Proof.
  induction l as [|a l IH]; intros Hn Hx Hy E; [destruct Hx|].
  cbn in Hn. inversion Hn as [|? ? Hnot Hn']; subst.
  destruct Hx as [->|Hx], Hy as [->|Hy]; auto.
  - exfalso. apply Hnot. rewrite E. now apply in_map.
  - exfalso. apply Hnot. rewrite <- E. now apply in_map.
Qed.

(** The ids the REPLACE of insertVerb deletes. *)
Lemma deleted_ids db inf id :
  In id (List.map v_id (filter (fun v => str_eqb (v_infinitive v) inf) (verbs db)))
  <-> exists u, In u (verbs db) /\ v_infinitive u = inf /\ v_id u = id.
Proof.
  rewrite in_map_iff. split.
  - intros (u & E & Hu). apply filter_In in Hu as [Hu Hi].
    apply str_eqb_eq in Hi. now exists u.
  - intros (u & Hu & Hi & E). exists u. split; [exact E|].
    apply filter_In. split; [exact Hu|]. rewrite Hi. apply str_eqb_refl.
Qed.

Lemma insertVerb_db now db verb :
  snd (insertVerb now db verb) =
  MkDatabase
    (filter (fun v => negb (str_eqb (v_infinitive v) (a_infinitive verb))) (verbs db)
     ++ [MkVerbRow (nextVerbId db) (a_infinitive verb) (a_separablePrefix verb)
                   (if a_isIrregular verb then 1 else 0)%Z (a_usagePopularity verb)
                   now now])
    (filter (fun c => negb (memZ (c_verb_id c)
               (List.map v_id (filter (fun v => str_eqb (v_infinitive v) (a_infinitive verb))
                                      (verbs db)))))
            (verb_conjugations db))
    (filter (fun t => negb (memZ (t_verb_id t)
               (List.map v_id (filter (fun v => str_eqb (v_infinitive v) (a_infinitive verb))
                                      (verbs db)))))
            (verb_translations db))
    (nextVerbId db).
Proof. reflexivity. Qed.

Lemma hasTense_In db id tense :
  hasTense db id tense = true <->
  exists c, In c (verb_conjugations db) /\ c_verb_id c = id /\ c_tense c = tense.
Proof.
  unfold hasTense. rewrite existsb_exists. split.
  - intros (c & Hc & E). apply andb_prop in E as [E1 E2].
    apply Z.eqb_eq in E1. apply String.eqb_eq in E2. now exists c.
  - intros (c & Hc & <- & <-). exists c. split; [exact Hc|].
    now rewrite Z.eqb_refl, String.eqb_refl.
Qed.

Lemma hasTense_ext db db' id :
  (forall c, c_verb_id c = id ->
             (In c (verb_conjugations db') <-> In c (verb_conjugations db))) ->
  forall tense, hasTense db' id tense = hasTense db id tense.
Proof.
  intros H tense. apply eq_true_iff_eq. rewrite !hasTense_In.
  split; intros (c & Hc & E1 & E2); exists c; (split; [apply (H c E1); exact Hc|auto]).
Qed.

Lemma insertVerb_frame now db verb v :
  NoDup (List.map v_id (verbs db)) ->
  In v (verbs db) ->
  v_infinitive v <> a_infinitive verb ->
  In v (verbs (snd (insertVerb now db verb))) /\
  (forall c, c_verb_id c = v_id v ->
     (In c (verb_conjugations (snd (insertVerb now db verb)))
      <-> In c (verb_conjugations db))) /\
  (forall t, t_verb_id t = v_id v ->
     (In t (verb_translations (snd (insertVerb now db verb)))
      <-> In t (verb_translations db))) /\
  (forall tense, hasTense (snd (insertVerb now db verb)) (v_id v) tense
                 = hasTense db (v_id v) tense).
Proof.
  intros Hn Hv Hne. rewrite insertVerb_db.
  cbn [verbs verb_conjugations verb_translations].
  assert (Hkeep : forall id, id = v_id v ->
            memZ id (List.map v_id
                       (filter (fun u => str_eqb (v_infinitive u) (a_infinitive verb))
                               (verbs db))) = false).
  { intros id ->. destruct (memZ _ _) eqn:E; [|reflexivity].
    apply memZ_In, deleted_ids in E as (u & Hu & Hi & E).
    assert (u = v) by (eapply NoDup_map_inj_in; eauto). subst u. contradiction. }
  assert (Hc : forall c, c_verb_id c = v_id v ->
     (In c (filter (fun c => negb (memZ (c_verb_id c)
               (List.map v_id (filter (fun v => str_eqb (v_infinitive v) (a_infinitive verb))
                                      (verbs db)))))
            (verb_conjugations db))
      <-> In c (verb_conjugations db))).
  { intros c Hc. rewrite filter_In, (Hkeep _ Hc). tauto. }
  split; [|split; [exact Hc|split]].
  - apply in_or_app. left. apply filter_In. split; [exact Hv|].
    now rewrite str_eqb_neq.
  - intros t Ht. rewrite filter_In, (Hkeep _ Ht). tauto.
  - apply hasTense_ext. exact Hc.
Qed.

(** X17.  In a table whose ids are distinct, insertVerb leaves
    every verb stored under another infinitive in place, with its
    conjugations and its translations. *)
Theorem insertVerb_keeps_other_verbs now db verb v :
  NoDup (List.map v_id (verbs db)) ->
  In v (verbs db) ->
  v_infinitive v <> a_infinitive verb ->
  In v (verbs (snd (insertVerb now db verb))) /\
  (forall c, c_verb_id c = v_id v ->
     (In c (verb_conjugations (snd (insertVerb now db verb)))
      <-> In c (verb_conjugations db))) /\
  (forall t, t_verb_id t = v_id v ->
     (In t (verb_translations (snd (insertVerb now db verb)))
      <-> In t (verb_translations db))) /\
  (forall tense, hasTense (snd (insertVerb now db verb)) (v_id v) tense
                 = hasTense db (v_id v) tense).
Proof. apply insertVerb_frame. Qed.

(** ** The constraints of the schema are kept *)

Lemma NoDup_map_filter {A B} (f : A -> B) (p : A -> bool) l :
  NoDup (List.map f l) -> NoDup (List.map f (filter p l)).
Proof.
  induction l as [|a l IH]; intros H; [constructor|].
  cbn in H. inversion H as [|? ? Hnot Hn]; subst. simpl.
  destruct (p a); [|now apply IH]. cbn. constructor; [|now apply IH].
  intros Hin. apply Hnot. apply in_map_iff in Hin as (x & E & Hx).
  apply filter_In in Hx as [Hx _]. apply in_map_iff. now exists x.
Qed.

Lemma NoDup_map_snoc {A B} (f : A -> B) l x :
  NoDup (List.map f l) -> ~ In (f x) (List.map f l) ->
  NoDup (List.map f (l ++ [x])).
Proof.
  intros Hn Hx. rewrite map_app. cbn [List.map].
  induction (List.map f l) as [|b m IH]; cbn.
  - constructor; [intros []|constructor].
  - inversion Hn as [|? ? Hb Hm]; subst. constructor.
    + rewrite in_app_iff. intros [H|[H|[]]]; [contradiction|].
      apply Hx. left. symmetry. exact H.
    + apply IH; [exact Hm|]. intros H. apply Hx. now right.
Qed.

Lemma schemaOk_insertVerb now db verb :
  schemaOk db -> schemaOk (snd (insertVerb now db verb)).
Proof.
  intros (Hid & Hinf & Hkey & Hfk & Hft). rewrite insertVerb_db.
  set (deleted := List.map v_id (filter _ (verbs db))).
  assert (Hkept : forall id,
            (exists v, In v (verbs db) /\ v_id v = id) ->
            memZ id deleted = false ->
            exists v, In v (filter (fun v => negb (str_eqb (v_infinitive v)
                                                     (a_infinitive verb))) (verbs db)
                            ++ [MkVerbRow (nextVerbId db) (a_infinitive verb)
                                          (a_separablePrefix verb)
                                          (if a_isIrregular verb then 1 else 0)%Z
                                          (a_usagePopularity verb) now now])
                      /\ v_id v = id).
  { intros id (v & Hv & E) Hd. exists v. split; [|exact E].
    apply in_or_app. left. apply filter_In. split; [exact Hv|].
    apply negb_true_iff. destruct (str_eqb _ _) eqn:Ei; [|reflexivity].
    apply str_eqb_eq in Ei.
    assert (Hin : In id deleted) by (apply deleted_ids; now exists v).
    apply memZ_In in Hin. congruence. }
  repeat split; cbn [verbs verb_conjugations verb_translations].
  - apply NoDup_map_snoc; [now apply NoDup_map_filter|]. cbn [v_id].
    intros Hin. apply in_map_iff in Hin as (v & E & Hv).
    apply filter_In in Hv as [Hv _]. pose proof (maxId_lt_next db v Hv). lia.
  - apply NoDup_map_snoc; [now apply NoDup_map_filter|]. cbn [v_infinitive].
    intros Hin. apply in_map_iff in Hin as (v & E & Hv).
    apply filter_In in Hv as [_ Hv]. rewrite E, str_eqb_refl in Hv. discriminate.
  - now apply NoDup_map_filter.
  - intros c Hc. apply filter_In in Hc as [Hc Hd]. apply negb_true_iff in Hd.
    apply Hkept; [now apply Hfk|exact Hd].
  - intros t Ht. apply filter_In in Ht as [Ht Hd]. apply negb_true_iff in Hd.
    apply Hkept; [now apply Hft|exact Hd].
Qed.

Lemma schemaOk_insertConjugation db c :
  schemaOk db -> schemaOk (snd (insertConjugation db c)).
Proof.
  intros H.
  destruct (insertConjugation_cases db c)
    as [(f1 & f2 & f3 & f4 & f5 & f6 & Hf & Hin & ->)|(e & -> & _)]; [|exact H].
  destruct H as (Hid & Hinf & Hkey & Hfk & Hft).
  repeat split; cbn [snd verbs verb_conjugations verb_translations]; auto.
  - apply NoDup_map_snoc; [now apply NoDup_map_filter|].
    intros Hk. apply in_map_iff in Hk as (r & E & Hr).
    apply filter_In in Hr as [_ Hr]. apply negb_true_iff in Hr.
    apply conjKey_eqb in E. exact (eq_true_false_abs _ E Hr).
  - intros r Hr. apply in_app_or in Hr as [Hr|[<-|[]]].
    + apply filter_In in Hr as [Hr _]. now apply Hfk.
    + cbn [c_verb_id]. apply in_map_iff in Hin as (v & E & Hv). now exists v.
Qed.

Lemma deleteVerbById_deleted db id x :
  In x (List.map v_id (filter (fun v => (v_id v =? id)%Z) (verbs db))) <->
  x = id /\ In id (List.map v_id (verbs db)).
Proof.
  rewrite !in_map_iff. split.
  - intros (v & <- & Hv). apply filter_In in Hv as [Hv E]. apply Z.eqb_eq in E.
    split; [exact E|]. now exists v.
  - intros (-> & v & E & Hv). exists v. split; [exact E|].
    apply filter_In. split; [exact Hv|]. now apply Z.eqb_eq.
Qed.

Lemma schemaOk_deleteVerbById db id :
  schemaOk db -> schemaOk (deleteVerbById db id).
Proof.
  intros (Hid & Hinf & Hkey & Hfk & Hft). unfold deleteVerbById.
  assert (Hkept : forall x,
            (exists v, In v (verbs db) /\ v_id v = x) ->
            memZ x (List.map v_id (filter (fun v => (v_id v =? id)%Z) (verbs db)))
            = false ->
            exists v, In v (filter (fun v => negb (v_id v =? id)%Z) (verbs db))
                      /\ v_id v = x).
  { intros x (v & Hv & E) Hd. exists v. split; [|exact E].
    apply filter_In. split; [exact Hv|]. apply negb_true_iff.
    destruct (Z.eqb_spec (v_id v) id) as [Ei|]; [|reflexivity].
    assert (Hin : memZ x (List.map v_id (filter (fun v => (v_id v =? id)%Z) (verbs db)))
                  = true).
    { apply memZ_In, deleteVerbById_deleted. split; [congruence|].
      apply in_map_iff. exists v. split; [exact Ei|exact Hv]. }
    congruence. }
  repeat split; cbn [verbs verb_conjugations verb_translations];
    try (now apply NoDup_map_filter).
  - intros c Hc. apply filter_In in Hc as [Hc Hd]. apply negb_true_iff in Hd.
    apply Hkept; [now apply Hfk|exact Hd].
  - intros t Ht. apply filter_In in Ht as [Ht Hd]. apply negb_true_iff in Hd.
    apply Hkept; [now apply Hft|exact Hd].
Qed.

(** X18.  Each write of db.js and the deletion of cleanup.js keep
    the constraints of schema.sql: distinct ids, distinct infinitives,
    one conjugation per verb and tense, and every conjugation and
    translation referring to a stored verb; whether the write succeeds
    or throws. *)
Theorem db_writes_keep_schema now db :
  schemaOk db ->
  (forall verb, schemaOk (snd (insertVerb now db verb))) /\
  (forall c, schemaOk (snd (insertConjugation db c))) /\
  (forall id, schemaOk (deleteVerbById db id)).
Proof.
  intros H. split; [|split].
  - intros verb. now apply schemaOk_insertVerb.
  - intros c. now apply schemaOk_insertConjugation.
  - intros id. now apply schemaOk_deleteVerbById.
Qed.

(** ** The verbs that lack a tense *)

Lemma insertSorted_In v l x : In x (insertSorted v l) <-> x = v \/ In x l.
Proof.
  induction l as [|u l IH]; simpl; [intuition|].
  destruct (str_leb _ _); simpl; [intuition|]. rewrite IH. intuition.
Qed.

Lemma orderByInfinitive_In l x : In x (orderByInfinitive l) <-> In x l.
Proof.
  induction l as [|u l IH]; simpl; [tauto|].
  rewrite insertSorted_In, IH. intuition.
Qed.

Lemma insertSorted_length v l : length (insertSorted v l) = S (length l).
Proof.
  induction l as [|u l IH]; simpl; [reflexivity|].
  destruct (str_leb _ _); simpl; [reflexivity|now rewrite IH].
Qed.

Lemma orderByInfinitive_length l : length (orderByInfinitive l) = length l.
Proof.
  induction l as [|u l IH]; simpl; [reflexivity|].
  now rewrite insertSorted_length, IH.
Qed.

Lemma hasTense_false db id tense :
  hasTense db id tense = false <->
  forall c, In c (verb_conjugations db) -> ~ (c_verb_id c = id /\ c_tense c = tense).
Proof.
  split.
  - intros H c Hc [E1 E2].
    assert (T : hasTense db id tense = true) by (apply hasTense_In; now exists c).
    congruence.
  - intros H. destruct (hasTense db id tense) eqn:E; [|reflexivity].
    apply hasTense_In in E as (c & Hc & E1 & E2). exfalso. exact (H c Hc (conj E1 E2)).
Qed.

Lemma requiredTenseCount_lacks db id :
  (requiredTenseCount db id <? 3)%nat = true <-> lacksTense db id.
Proof.
  unfold requiredTenseCount, lacksTense, requiredTenses. cbn [filter In].
  split.
  - intros H.
    destruct (hasTense db id "praesens") eqn:E1;
      [|exists "praesens"%string; split; [auto|now apply hasTense_false]].
    destruct (hasTense db id "praeteritum") eqn:E2;
      [|exists "praeteritum"%string; split; [auto|now apply hasTense_false]].
    destruct (hasTense db id "perfekt") eqn:E3;
      [|exists "perfekt"%string; split; [auto|now apply hasTense_false]].
    discriminate H.
  - intros (tense & [<-|[<-|[<-|[]]]] & H); apply hasTense_false in H; rewrite H;
      repeat match goal with |- context [if ?b then _ else _] => destruct b end;
      reflexivity.
Qed.

Lemma getIncompleteVerbs_In db id infinitive :
  In (id, infinitive) (getIncompleteVerbs db) <->
  exists v, In v (verbs db) /\ v_id v = id /\ v_infinitive v = infinitive
            /\ lacksTense db id.
Proof.
  unfold getIncompleteVerbs. rewrite in_map_iff. split.
  - intros (v & [= <- <-] & Hv). apply orderByInfinitive_In, filter_In in Hv as [Hv Hl].
    exists v. repeat split; auto. now apply requiredTenseCount_lacks.
  - intros (v & Hv & <- & <- & Hl). exists v. split; [reflexivity|].
    apply orderByInfinitive_In, filter_In. split; [exact Hv|].
    now apply requiredTenseCount_lacks.
Qed.

(** X19.  getIncompleteVerbs lists exactly the verbs stored
    for which one of praesens, praeteritum, perfekt has no conjugation
    row, each with its id and infinitive, and as many entries as there
    are such verbs. *)
Theorem getIncompleteVerbs_lists_verbs_lacking_a_tense db :
  (forall id infinitive,
     In (id, infinitive) (getIncompleteVerbs db) <->
     exists v, In v (verbs db) /\ v_id v = id /\ v_infinitive v = infinitive
               /\ lacksTense db id) /\
  length (getIncompleteVerbs db)
  = length (filter (fun v => negb (forallb (hasTense db (v_id v)) requiredTenses))
                   (verbs db)).
Proof.
  split; [intros id infinitive; apply getIncompleteVerbs_In|].
  unfold getIncompleteVerbs.
  - rewrite length_map, orderByInfinitive_length. f_equal.
    apply filter_ext. intros v. unfold requiredTenseCount, requiredTenses.
    cbn [filter forallb].
    destruct (hasTense db (v_id v) "praesens"),
      (hasTense db (v_id v) "praeteritum"),
      (hasTense db (v_id v) "perfekt"); reflexivity.
Qed.

(** ** cleanup.js *)

Lemma filter_filter {A} (p q : A -> bool) l :
  filter p (filter q l) = filter (fun x => q x && p x) l.
Proof.
  induction l as [|a l IH]; [reflexivity|]. simpl.
  destruct (q a); simpl; [destruct (p a)|]; now rewrite IH.
Qed.

Lemma filter_none {A} (p : A -> bool) l :
  (forall x, In x l -> p x = false) -> filter p l = [].
Proof.
  induction l as [|a l IH]; intros H; [reflexivity|]. simpl.
  rewrite (H a (or_introl eq_refl)). apply IH. intros x Hx. apply H. now right.
Qed.

Lemma deleteEach_lines l : forall db,
  fst (Cleanup.deleteEach l db)
  = List.map (fun verb => Cleanup.Deleting (snd verb)) l.
Proof.
  induction l as [|x l IH]; intros db; [reflexivity|]. cbn [Cleanup.deleteEach].
  specialize (IH (deleteVerbById db (fst x))).
  destruct (Cleanup.deleteEach l _) as [lines db']. cbn [fst] in *. now rewrite IH.
Qed.

Lemma deleteEach_step x l db :
  snd (Cleanup.deleteEach (x :: l) db)
  = snd (Cleanup.deleteEach l (deleteVerbById db (fst x))).
Proof.
  cbn [Cleanup.deleteEach]. now destruct (Cleanup.deleteEach l _).
Qed.

Lemma deleteEach_verbs l : forall db,
  verbs (snd (Cleanup.deleteEach l db))
  = filter (fun v => negb (memZ (v_id v) (List.map fst l))) (verbs db).
Proof.
  induction l as [|x l IH]; intros db.
  - cbn. induction (verbs db) as [|v vs IHv]; [reflexivity|]. cbn. now f_equal.
  - rewrite deleteEach_step, IH. cbn [deleteVerbById verbs].
    rewrite filter_filter. apply filter_ext. intros v.
    cbn [List.map memZ existsb]. unfold memZ. now rewrite negb_orb.
Qed.

Lemma deleteEach_conjugations l : forall db c,
  In c (verb_conjugations (snd (Cleanup.deleteEach l db))) <->
  In c (verb_conjugations db) /\
  ~ (In (c_verb_id c) (List.map fst l)
     /\ In (c_verb_id c) (List.map v_id (verbs db))).
Proof.
  induction l as [|x l IH]; intros db c.
  - cbn. tauto.
  - rewrite deleteEach_step, IH. cbn [deleteVerbById verbs verb_conjugations].
    rewrite filter_In, negb_true_iff.
    assert (Hd : memZ (c_verb_id c)
                   (List.map v_id (filter (fun v => (v_id v =? fst x)%Z) (verbs db)))
                 = false <->
                 ~ (c_verb_id c = fst x /\ In (fst x) (List.map v_id (verbs db)))).
    { rewrite <- deleteVerbById_deleted, <- memZ_In.
      destruct (memZ _ _); split; intros H; try reflexivity; try discriminate.
      now destruct H. }
    rewrite Hd. clear Hd.
    assert (Hv : In (c_verb_id c)
                   (List.map v_id (filter (fun v => negb (v_id v =? fst x)%Z) (verbs db)))
                 <-> In (c_verb_id c) (List.map v_id (verbs db))
                     /\ c_verb_id c <> fst x).
    { rewrite !in_map_iff. split.
      - intros (v & E & Hv). apply filter_In in Hv as [Hv Hn].
        apply negb_true_iff, Z.eqb_neq in Hn. split; [now exists v|congruence].
      - intros ((v & E & Hv) & Hn). exists v. split; [exact E|].
        apply filter_In. split; [exact Hv|]. apply negb_true_iff, Z.eqb_neq. congruence. }
    rewrite Hv. clear Hv. cbn [List.map In].
    destruct (Z.eq_dec (c_verb_id c) (fst x)) as [E|E].
    + rewrite E. intuition.
    + intuition.
Qed.

Lemma schemaOk_deleteEach l : forall db,
  schemaOk db -> schemaOk (snd (Cleanup.deleteEach l db)).
Proof.
  induction l as [|x l IH]; intros db H; [exact H|].
  rewrite deleteEach_step. apply IH. now apply schemaOk_deleteVerbById.
Qed.

(** The ids getIncompleteVerbs lists are the ids of the verbs that lack
    a tense. *)
Lemma incomplete_ids db v :
  In v (verbs db) ->
  memZ (v_id v) (List.map fst (getIncompleteVerbs db))
  = (requiredTenseCount db (v_id v) <? 3)%nat.
Proof.
  intros Hv. apply eq_true_iff_eq. rewrite memZ_In, in_map_iff. split.
  - intros ([id inf] & E & Hin). cbn [fst] in E. subst id.
    unfold getIncompleteVerbs in Hin. apply in_map_iff in Hin as (u & [= E1 E2] & Hu).
    apply orderByInfinitive_In, filter_In in Hu as [_ Hu]. now rewrite <- E1.
  - intros H. exists (v_id v, v_infinitive v). split; [reflexivity|].
    unfold getIncompleteVerbs. apply in_map_iff. exists v. split; [reflexivity|].
    apply orderByInfinitive_In, filter_In. now split.
Qed.

Lemma requiredTenseCount_ext db db' id :
  (forall tense, hasTense db' id tense = hasTense db id tense) ->
  requiredTenseCount db' id = requiredTenseCount db id.
Proof.
  intros H. unfold requiredTenseCount. f_equal. apply filter_ext. exact H.
Qed.

Lemma getIncompleteVerbs_nil db :
  (forall v, In v (verbs db) -> (requiredTenseCount db (v_id v) <? 3)%nat = false) ->
  getIncompleteVerbs db = [].
Proof.
  intros H. unfold getIncompleteVerbs. now rewrite (filter_none _ _ H).
Qed.

(** What the loop of deleteIncompleteVerbs leaves. *)
Lemma deleteEach_incomplete db :
  let db' := snd (Cleanup.deleteEach (getIncompleteVerbs db) db) in
  verbs db' = filter (fun v => negb (requiredTenseCount db (v_id v) <? 3)%nat) (verbs db) /\
  (forall v c, In v (verbs db') -> c_verb_id c = v_id v ->
     (In c (verb_conjugations db') <-> In c (verb_conjugations db))) /\
  getIncompleteVerbs db' = [].
Proof.
  cbv zeta. set (db' := snd _).
  assert (Hverbs : verbs db'
            = filter (fun v => negb (requiredTenseCount db (v_id v) <? 3)%nat) (verbs db)).
  { unfold db'. rewrite deleteEach_verbs. apply filter_ext_in. intros v Hv.
    now rewrite incomplete_ids. }
  assert (Hconj : forall v c, In v (verbs db') -> c_verb_id c = v_id v ->
     (In c (verb_conjugations db') <-> In c (verb_conjugations db))).
  { intros v c Hv Hc. unfold db'. rewrite deleteEach_conjugations.
    rewrite Hverbs in Hv. apply filter_In in Hv as [Hv Hcomplete].
    apply negb_true_iff in Hcomplete. rewrite <- (incomplete_ids db v Hv) in Hcomplete.
    split; [tauto|]. intros Hin. split; [exact Hin|]. intros [Hl _].
    rewrite Hc in Hl. apply memZ_In in Hl. congruence. }
  split; [exact Hverbs|]. split; [exact Hconj|].
  apply getIncompleteVerbs_nil. intros v Hv.
  rewrite (requiredTenseCount_ext db db' (v_id v)).
  - rewrite Hverbs in Hv. apply filter_In in Hv as [_ Hv]. now apply negb_true_iff in Hv.
  - apply hasTense_ext. intros c Hc. now apply (Hconj v).
Qed.

(** X20.  deleteIncompleteVerbs removes exactly the verbs that
    lack one of the three tenses, and keeps the others with their
    conjugations: afterwards getIncompleteVerbs finds nothing, the
    number returned is the number of verbs gone, one line is printed per
    verb listed, the constraints of the schema still hold, and a second
    run deletes nothing. *)
Theorem cleanup_deletes_exactly_the_incomplete_verbs db :
  let '(deletedCount, lines, db') := Cleanup.deleteIncompleteVerbs db in
  getIncompleteVerbs db' = [] /\
  (forall v, In v (verbs db') <-> In v (verbs db) /\ ~ lacksTense db (v_id v)) /\
  (forall v c, In v (verbs db') -> c_verb_id c = v_id v ->
     (In c (verb_conjugations db') <-> In c (verb_conjugations db))) /\
  deletedCount = Z.of_nat (length (verbs db) - length (verbs db')) /\
  lines = List.map (fun verb => Cleanup.Deleting (snd verb)) (getIncompleteVerbs db) /\
  (schemaOk db -> schemaOk db') /\
  Cleanup.deleteIncompleteVerbs db' = (0%Z, [], db').
Proof.
  destruct (deleteEach_incomplete db) as (Hverbs & Hconj & Hnil).
  pose proof (deleteEach_lines (getIncompleteVerbs db) db) as Hlines.
  pose proof (schemaOk_deleteEach (getIncompleteVerbs db) db) as Hschema.
  assert (Hlen : length (getIncompleteVerbs db)
                 = length (filter (fun v => (requiredTenseCount db (v_id v) <? 3)%nat)
                                  (verbs db))).
  { unfold getIncompleteVerbs. now rewrite length_map, orderByInfinitive_length. }
  unfold Cleanup.deleteIncompleteVerbs.
  destruct (length (getIncompleteVerbs db) =? 0)%nat eqn:E0.
  - apply Nat.eqb_eq in E0.
    assert (Hg : getIncompleteVerbs db = [])
      by (destruct (getIncompleteVerbs db); [reflexivity|discriminate E0]).
    rewrite Hg in Hverbs, Hconj. cbn [Cleanup.deleteEach snd] in Hverbs, Hconj.
    split; [exact Hg|]. split; [|split; [|split; [|split; [|split]]]].
    + intros v. rewrite Hverbs at 1. rewrite filter_In, negb_true_iff.
      rewrite <- requiredTenseCount_lacks.
      destruct (_ <? _)%nat; intuition congruence.
    + exact Hconj.
    + now rewrite Nat.sub_diag.
    + now rewrite Hg.
    + auto.
    + now rewrite Hg.
  - destruct (Cleanup.deleteEach (getIncompleteVerbs db) db) as [lines db'].
    cbn [fst snd] in *.
    split; [exact Hnil|]. split; [|split; [|split; [|split; [|split]]]].
    + intros v. rewrite Hverbs, filter_In, negb_true_iff.
      rewrite <- requiredTenseCount_lacks.
      destruct (_ <? _)%nat; intuition congruence.
    + exact Hconj.
    + rewrite Hlen, Hverbs. f_equal.
      pose proof (filter_length (fun v => (requiredTenseCount db (v_id v) <? 3)%nat)
                                (verbs db)).
      lia.
    + exact Hlines.
    + exact Hschema.
    + now rewrite Hnil.
Qed.

(** ** The database after an accepted verb *)

Lemma insertConjugation_verbs db c :
  verbs (snd (insertConjugation db c)) = verbs db.
Proof.
  destruct (insertConjugation_cases db c)
    as [(f1 & f2 & f3 & f4 & f5 & f6 & _ & _ & ->)|(e & -> & _)]; reflexivity.
Qed.

Lemma dbInsertConjugation_ok id tense f w :
  hasAllForms f = true ->
  In id (List.map v_id (verbs (w_db w))) ->
  dbInsertConjugation (MkConjArgs id tense f None) w
  = (Ret tt,
     setDb (snd (insertConjugation (w_db w) (MkConjArgs id tense f None)))
           (emit (EInsertConjugation (MkConjArgs id tense f None)) w)).
Proof.
  intros Hf Hid. destruct (hasAllForms_some f Hf) as (f1 & f2 & f3 & f4 & f5 & f6 & ->).
  unfold dbInsertConjugation. now rewrite (insertConjugation_ok _ _ _ _ _ _ _ _ _ _ Hid).
Qed.

Lemma nextVerbId_stored now db verb :
  In (nextVerbId db) (List.map v_id (verbs (snd (insertVerb now db verb)))).
Proof.
  rewrite insertVerb_db. cbn [verbs]. rewrite map_app. apply in_or_app. right.
  now left.
Qed.

Lemma stored_db inf r w :
  trioComplete r = true ->
  w_db (stored inf r w) = storedDb (w_clock w) (w_db w) inf r.
Proof.
  intros T. unfold stored, storedDb. rewrite (validTensesOf_complete r T).
  unfold trioComplete in T.
  apply andb_prop in T as [T H3]. apply andb_prop in T as [H1 H2].
  cbv zeta. set (id := nextVerbId (w_db w)).
  set (db1 := snd (insertVerb (w_clock w) (w_db w) (verbArgs inf r))).
  assert (E0 : dbInsertVerb (verbArgs inf r) w
               = (Ret id, setDb db1 (emit (EInsertVerb (verbArgs inf r)) w)))
    by reflexivity.
  assert (I1 : In id (List.map v_id (verbs db1))) by apply nextVerbId_stored.
  rewrite (bind_run _ _ _ _ _ E0).
  cbn [insertValidTenses vt_tense vt_forms vt_label].
  set (w1 := setDb db1 _).
  rewrite (bind_run _ _ _ _ _ (dbInsertConjugation_ok id "praesens" _ w1 H1 I1)).
  rewrite (bind_run _ _ _ _ _ (log_run _ _)).
  set (db2 := snd (insertConjugation (w_db w1) _)).
  assert (I2 : In id (List.map v_id (verbs db2)))
    by (unfold db2; now rewrite insertConjugation_verbs).
  match goal with |- context [logged ?l (setDb db2 ?x)] =>
    set (w2 := logged l (setDb db2 x)) end.
  rewrite (bind_run _ _ _ _ _ (dbInsertConjugation_ok id "praeteritum" _ w2 H2 I2)).
  rewrite (bind_run _ _ _ _ _ (log_run _ _)).
  set (db3 := snd (insertConjugation (w_db w2) _)).
  assert (I3 : In id (List.map v_id (verbs db3)))
    by (unfold db3; now rewrite insertConjugation_verbs).
  match goal with |- context [logged ?l (setDb db3 ?x)] =>
    set (w3 := logged l (setDb db3 x)) end.
  rewrite (bind_run _ _ _ _ _ (dbInsertConjugation_ok id "perfekt" _ w3 H3 I3)).
  rewrite (bind_run _ _ _ _ _ (log_run _ _)).
  reflexivity.
Qed.

Lemma schemaOk_storedDb now db inf r : schemaOk db -> schemaOk (storedDb now db inf r).
Proof.
  intros H. unfold storedDb. cbv zeta.
  repeat apply schemaOk_insertConjugation. now apply schemaOk_insertVerb.
Qed.

(** The tenses a verb has once a conjugation is written. *)
Lemma hasTense_insertConjugation db c id tense :
  fst (insertConjugation db c) = Normal tt ->
  hasTense (snd (insertConjugation db c)) id tense
  = hasTense db id tense
    || ((a_verbId c =? id)%Z && String.eqb (a_tense c) tense).
Proof.
  destruct (insertConjugation_cases db c)
    as [(f1 & f2 & f3 & f4 & f5 & f6 & _ & _ & ->)|(e & -> & _)]; [|discriminate].
  intros _. cbn [snd]. unfold hasTense. cbn [verb_conjugations].
  rewrite existsb_app. cbn [existsb c_verb_id c_tense]. rewrite orb_false_r.
  destruct ((a_verbId c =? id)%Z && String.eqb (a_tense c) tense) eqn:E.
  - now rewrite !orb_true_r.
  - rewrite !orb_false_r. apply eq_true_iff_eq. rewrite 2 existsb_exists. split.
    + intros (x & Hx & Ex). apply filter_In in Hx as [Hx _]. now exists x.
    + intros (x & Hx & Ex). exists x. split; [|exact Ex].
      apply filter_In. split; [exact Hx|]. apply negb_true_iff.
      apply andb_prop in Ex as [E1 E2].
      apply Z.eqb_eq in E1. apply String.eqb_eq in E2.
      destruct (Z.eqb_spec (c_verb_id x) (a_verbId c)) as [Ei|]; [|reflexivity].
      destruct (String.eqb_spec (c_tense x) (a_tense c)) as [Et|]; [|reflexivity].
      rewrite <- Ei, <- Et, E1, E2, Z.eqb_refl, String.eqb_refl in E. discriminate E.
Qed.

Lemma insertConjugation_succeeds db id tense f notes :
  hasAllForms f = true ->
  In id (List.map v_id (verbs db)) ->
  fst (insertConjugation db (MkConjArgs id tense f notes)) = Normal tt.
Proof.
  intros Hf Hid. destruct (hasAllForms_some f Hf) as (f1 & f2 & f3 & f4 & f5 & f6 & ->).
  now rewrite (insertConjugation_ok _ _ _ _ _ _ _ _ _ _ Hid).
Qed.

(** The tenses of every verb once an accepted verb is written: the new
    verb has the three, the others what they had. *)
Lemma storedDb_tenses now db inf r :
  trioComplete r = true ->
  verbs (storedDb now db inf r) = verbs (snd (insertVerb now db (verbArgs inf r))) /\
  forall id tense,
    hasTense (storedDb now db inf r) id tense
    = hasTense (snd (insertVerb now db (verbArgs inf r))) id tense
      || ((nextVerbId db =? id)%Z
          && existsb (String.eqb tense) requiredTenses).
Proof.
  intros T. unfold trioComplete in T.
  apply andb_prop in T as [T H3]. apply andb_prop in T as [H1 H2].
  unfold storedDb. cbv zeta.
  set (id0 := nextVerbId db).
  set (db1 := snd (insertVerb now db (verbArgs inf r))).
  set (db2 := snd (insertConjugation db1 _)).
  set (db3 := snd (insertConjugation db2 _)).
  assert (I1 : In id0 (List.map v_id (verbs db1))) by apply nextVerbId_stored.
  assert (V2 : verbs db2 = verbs db1) by apply insertConjugation_verbs.
  assert (V3 : verbs db3 = verbs db2) by apply insertConjugation_verbs.
  split; [now rewrite insertConjugation_verbs, V3, V2|].
  intros id tense.
  rewrite hasTense_insertConjugation
    by (apply insertConjugation_succeeds; [exact H3|now rewrite V3, V2]).
  unfold db3. rewrite hasTense_insertConjugation
    by (apply insertConjugation_succeeds; [exact H2|now rewrite V2]).
  unfold db2. rewrite hasTense_insertConjugation
    by (apply insertConjugation_succeeds; [exact H1|exact I1]).
  cbn [a_verbId a_tense requiredTenses existsb].
  rewrite (String.eqb_sym tense "praesens"), (String.eqb_sym tense "praeteritum"),
    (String.eqb_sym tense "perfekt").
  destruct (hasTense db1 id tense), (id0 =? id)%Z,
    (String.eqb "praesens" tense), (String.eqb "praeteritum" tense),
    (String.eqb "perfekt" tense); reflexivity.
Qed.

Lemma hasTense_fresh_id db id tense :
  foreignKeysHold db -> (forall v, In v (verbs db) -> v_id v <> id) ->
  hasTense db id tense = false.
Proof.
  intros FK Hid. apply hasTense_false. intros c Hc [E _].
  destruct (FK c Hc) as (v & Hv & Ev). apply (Hid v Hv). congruence.
Qed.

(** Writing an accepted verb adds no incomplete verb. *)
Lemma storedDb_incomplete now db inf r x :
  schemaOk db -> trioComplete r = true ->
  In x (getIncompleteVerbs (storedDb now db inf r)) ->
  In x (getIncompleteVerbs db).
Proof.
  intros Hs T Hx. destruct (storedDb_tenses now db inf r T) as (HV & HT).
  destruct x as [id infinitive].
  apply getIncompleteVerbs_In in Hx as (v & Hv & <- & <- & Hl).
  apply requiredTenseCount_lacks in Hl.
  rewrite HV, insertVerb_db in Hv. cbn [verbs] in Hv.
  apply in_app_or in Hv as [Hv|[<-|[]]].
  - apply filter_In in Hv as [Hv Hne]. apply negb_true_iff in Hne.
    assert (Hne' : v_infinitive v <> a_infinitive (verbArgs inf r)).
    { intros E. rewrite E, str_eqb_refl in Hne. discriminate. }
    destruct Hs as (Hid & _).
    destruct (insertVerb_frame now db (verbArgs inf r) v Hid Hv Hne')
      as (_ & _ & _ & Hsame).
    apply getIncompleteVerbs_In.
    exists v. repeat split; auto. apply requiredTenseCount_lacks.
    rewrite <- Hl. symmetry. f_equal. apply requiredTenseCount_ext. intros tense.
    rewrite HT, Hsame.
    pose proof (maxId_lt_next db v Hv) as Hlt.
    destruct (Z.eqb_spec (nextVerbId db) (v_id v)); [lia|].
    now rewrite orb_false_r.
  - exfalso. cbn [v_id] in Hl.
    assert (Hall : forall tense, In tense requiredTenses ->
              hasTense (storedDb now db inf r) (nextVerbId db) tense = true).
    { intros tense [<-|[<-|[<-|[]]]]; rewrite HT, Z.eqb_refl; cbn; apply orb_true_r. }
    unfold requiredTenseCount in Hl. cbn [filter] in Hl.
    rewrite !Hall in Hl by (cbn; auto). discriminate Hl.
Qed.

Lemma insertConjugation_row db id tense f notes :
  hasAllForms f = true ->
  In id (List.map v_id (verbs db)) ->
  exists row,
    In row (verb_conjugations (snd (insertConjugation db (MkConjArgs id tense f notes))))
    /\ conjKey row = (id, tense) /\ formsOfRow row = f.
Proof.
  intros Hf Hid. destruct (hasAllForms_some f Hf) as (f1 & f2 & f3 & f4 & f5 & f6 & ->).
  rewrite (insertConjugation_ok _ _ _ _ _ _ _ _ _ _ Hid). cbn [snd verb_conjugations].
  eexists. split; [apply in_or_app; right; left; reflexivity|]. split; reflexivity.
Qed.

Lemma insertConjugation_keeps db c r :
  conjKey r <> (a_verbId c, a_tense c) ->
  In r (verb_conjugations db) ->
  In r (verb_conjugations (snd (insertConjugation db c))).
Proof.
  intros Hk Hr.
  pose proof (insertConjugation_effect db c) as (_ & H).
  destruct (insertConjugation db c) as [[[]|e] db']; cbn [snd].
  - destruct H as (_ & _ & _ & H). now apply H.
  - now subst db'.
Qed.

(** The verb main has just accepted: found under its infinitive, with
    its three tenses as parsed. *)
Lemma storedDb_verb now db inf r :
  trioComplete r = true ->
  getVerbIdByInfinitive (storedDb now db inf r) inf = Some (nextVerbId db) /\
  (forall tense forms,
     In (tense, forms) [("praesens"%string, praesens r);
                        ("praeteritum"%string, praeteritum r);
                        ("perfekt"%string, perfekt r)] ->
     exists row, In row (verb_conjugations (storedDb now db inf r)) /\
                 conjKey row = (nextVerbId db, tense) /\ formsOfRow row = forms).
Proof.
  intros T. split.
  - destruct (storedDb_tenses now db inf r T) as (HV & _).
    unfold getVerbIdByInfinitive, selectIdByInfinitive. rewrite HV.
    pose proof (insertVerb_lookup now db (verbArgs inf r)) as (_ & H & _).
    exact H.
  - unfold trioComplete in T.
    apply andb_prop in T as [T H3]. apply andb_prop in T as [H1 H2].
    unfold storedDb. cbv zeta.
    set (id := nextVerbId db).
    set (db1 := snd (insertVerb now db (verbArgs inf r))).
    set (db2 := snd (insertConjugation db1 _)).
    set (db3 := snd (insertConjugation db2 _)).
    assert (I1 : In id (List.map v_id (verbs db1))) by apply nextVerbId_stored.
    assert (I2 : In id (List.map v_id (verbs db2)))
      by (unfold db2; now rewrite insertConjugation_verbs).
    assert (I3 : In id (List.map v_id (verbs db3)))
      by (unfold db3; now rewrite insertConjugation_verbs).
    intros tense forms [[= <- <-]|[[= <- <-]|[[= <- <-]|[]]]].
    + destruct (insertConjugation_row db1 id "praesens" _ None H1 I1)
        as (row & Hr & Hk & Hf).
      exists row. split; [|now split].
      apply insertConjugation_keeps; [rewrite Hk; discriminate|].
      apply insertConjugation_keeps; [rewrite Hk; discriminate|exact Hr].
    + destruct (insertConjugation_row db2 id "praeteritum" _ None H2 I2)
        as (row & Hr & Hk & Hf).
      exists row. split; [|now split].
      apply insertConjugation_keeps; [rewrite Hk; discriminate|exact Hr].
    + destruct (insertConjugation_row db3 id "perfekt" _ None H3 I3)
        as (row & Hr & Hk & Hf).
      exists row. split; [|now split]. exact Hr.
Qed.

(** ** What a run does to the database *)

Lemma dbInv_frame P w w' : w_db w' = w_db w -> dbInv P w -> dbInv P w'.
Proof. unfold dbInv. now intros ->. Qed.

Lemma requested_db req w : w_db (requested req w) = w_db w.
Proof. apply requested_frame. Qed.

Lemma apiRequest_db P req : preserves (dbInv P) (apiRequest req).
Proof.
  intros w H. rewrite apiRequest_run. cbn [snd].
  eapply dbInv_frame; [|exact H]. apply requested_db.
Qed.

Lemma saveState_db P : preserves (dbInv P) saveState.
Proof. intros w H. exact H. Qed.

Lemma log_db P l : preserves (dbInv P) (log l).
Proof. intros w H. exact H. Qed.

Lemma modifyState_db P f : preserves (dbInv P) (modifyState f).
Proof. intros w H. exact H. Qed.

Lemma checkpoint_db P i : preserves (dbInv P) (checkpoint i).
Proof. intros w H. exact H. Qed.

(** One iteration keeps what writing an accepted verb keeps. *)
Lemma processTitle_db P i total :
  keptByStore P -> preserves (dbInv P) (processTitle i total).
Proof.
  intros HP w H.
  destruct (skipped (titleInfinitive i w)) eqn:Sk.
  - rewrite (processTitle_skip i total w Sk). exact H.
  - destruct (titleInfinitive i w) as [inf|] eqn:Ti; [|discriminate Sk].
    rewrite (processTitle_fetch i total w inf Ti Sk).
    set (w1 := logged (LogProcessing i total inf) w).
    assert (H2 : dbInv P (requested (pageRequest inf) w1)).
    { eapply dbInv_frame; [|exact H]. exact (requested_db _ w1). }
    assert (HE : forall e, dbInv P (snd (afterError i inf e (requested (pageRequest inf) w1)))).
    { intros e. unfold afterError. destruct (startsWith _ _); exact H2. }
    unfold afterAnnounce.
    destruct (replyOutcome _) as [d|e|c|]; [|apply HE|exact H2|exact H2].
    destruct (orNull _) as [t|]; [|exact H2].
    destruct (parseConjugations (Some t)) as [[r|]|e]; [|exact H2|apply HE].
    destruct (trioComplete r) eqn:T; [|exact H2].
    cbn [snd]. unfold dbInv.
    change (w_db (checkpointed i ?x)) with (w_db x).
    rewrite (stored_db inf r _ T). apply HP; [exact T|exact H2].
Qed.

Create HintDb dbinv.
#[local] Hint Resolve apiRequest_db saveState_db log_db modifyState_db
  checkpoint_db processTitle_db : dbinv.

(** One step through the structure of a computation. *)
Ltac dbinv_step :=
  match goal with
  | |- preserves _ _ => solve [eauto 2 with dbinv nocore]
  | |- preserves _ (bind _ _) => apply preserves_bind; [|intros ?]
  | |- preserves _ (tryCatch _ _) => apply preserves_tryCatch; [|intros ?]
  | |- preserves _ (ret _) => apply preserves_ret
  | |- preserves _ (exit _) => apply preserves_exit
  | |- preserves _ (throw _) => apply preserves_throw
  | |- preserves _ outOfFuel => apply preserves_outOfFuel
  | |- preserves _ (lift _) => apply preserves_lift
  | |- preserves _ (get _) => apply preserves_get
  | |- preserves _ (update _) =>
      apply preserves_update; let w := fresh in let H := fresh in
                              intros w H; exact H
  | |- preserves _ (match ?x with _ => _ end) => destruct x
  | |- preserves _ (if ?x then _ else _) => destruct x
  | |- preserves _ (let _ := _ in _) => cbv zeta
  end.

Ltac dbinv := repeat dbinv_step.

Lemma processTitles_db P total :
  keptByStore P -> forall n i, preserves (dbInv P) (processTitles n i total).
Proof.
  intros HP. induction n as [|n IH]; intros i; cbn [processTitles]; dbinv.
Qed.
#[local] Hint Resolve processTitles_db : dbinv.

Lemma enumeration_db P category lang : forall fuel token allMembers,
  preserves (dbInv P)
    (getAllCategoryMembersLoop fuel category (Some onPage) token lang allMembers).
Proof.
  induction fuel as [|fuel IH]; intros token allMembers;
    cbn [getAllCategoryMembersLoop]; unfold getCategoryMembers, onPage; dbinv.
Qed.
#[local] Hint Resolve enumeration_db : dbinv.

Lemma main_db P fuel resume im :
  keptByStore P -> preserves (dbInv P) (main fuel resume im).
Proof.
  intros HP.
  unfold main, hasState, loadState, getDefaultState, whenPhase, fetchVerbList,
    fetchConjugations, report, onFatal, setPhase, getAllCategoryMembers.
  dbinv.
Qed.

Lemma noNewIncomplete_kept db0 : keptByStore (noNewIncomplete db0).
Proof.
  intros now db inf r T (Hs & Hi). split; [now apply schemaOk_storedDb|].
  intros x Hx. apply Hi. eapply storedDb_incomplete; eauto.
Qed.



(** ** What stops the loop *)

Lemma afterError_result i inf e w :
  fst (afterError i inf e w)
  = if startsWith (err_message e) (lit "RATE_LIMIT") then Exit 1 else Ret tt.
Proof. unfold afterError. now destruct (startsWith _ _). Qed.

(** How an iteration ends. *)
Lemma processTitle_result i total w :
  (fst (processTitle i total w) = Exit 1 /\ stopsAt i w) \/
  (fst (processTitle i total w) = Ret tt /\ ~ stopsAt i w).
Proof.
  destruct (skipped (titleInfinitive i w)) eqn:Sk.
  - right. rewrite (processTitle_skip i total w Sk). split; [reflexivity|].
    intros (inf & e & Ti & Sk' & _). rewrite Ti in Sk. congruence.
  - destruct (titleInfinitive i w) as [inf|] eqn:Ti; [|discriminate Sk].
    rewrite (processTitle_fetch i total w inf Ti Sk). unfold afterAnnounce.
    rewrite replyTo_logged.
    assert (Hno : forall d, replyOutcome (replyTo (pageRequest inf) w) = Ret d ->
                            ~ stopsAt i w).
    { intros d Hd (inf' & e & Ti' & _ & He & _). congruence. }
    destruct (replyOutcome_cases (replyTo (pageRequest inf) w)) as [(d & Hd)|(e & He)].
    + right. split; [|now apply (Hno d)]. rewrite Hd.
      destruct (orNull _) as [t|]; [|reflexivity].
      destruct (parseConjugations_total (Some t)) as (v & -> & _).
      destruct v as [r|]; [|reflexivity]. now destruct (trioComplete r).
    + rewrite He, afterError_result.
      destruct (startsWith (err_message e) (lit "RATE_LIMIT")) eqn:Es.
      * left. split; [reflexivity|]. now exists inf, e.
      * right. split; [reflexivity|].
        intros (inf' & e' & Ti' & _ & He' & Es'). congruence.
Qed.

(** X9.  An iteration of the processing loop ends the run, with
    exit code 1, exactly when the request for its title fails with an
    error whose message starts with RATE_LIMIT; in every other case it
    returns and the loop goes on: it never throws.  The error apiRequest
    raises for a status other than 429 is none of those. *)
Theorem loop_stops_only_on_rate_limit i total w :
  (fst (processTitle i total w) = Exit 1 <-> stopsAt i w) /\
  (fst (processTitle i total w) = Ret tt <-> ~ stopsAt i w) /\
  (forall status statusText,
     startsWith (err_message (HTTP_error status statusText)) (lit "RATE_LIMIT")
     = false).
Proof.
  split; [|split].
  - destruct (processTitle_result i total w) as [[E H]|[E H]]; rewrite E.
    + tauto.
    + split; [discriminate|contradiction].
  - destruct (processTitle_result i total w) as [[E H]|[E H]]; rewrite E.
    + split; [discriminate|contradiction].
    + tauto.
  - reflexivity.
Qed.

(** ** What an iteration costs *)

Lemma checkpointed_requests i w : w_requests (checkpointed i w) = w_requests w.
Proof. reflexivity. Qed.

Lemma stored_requests inf r w :
  trioComplete r = true -> w_requests (stored inf r w) = w_requests w.
Proof. intros T. now destruct (store_run inf r w T) as (_ & _ & _ & _ & _ & H & _). Qed.

Lemma afterError_frame i inf e w :
  w_requests (snd (afterError i inf e w)) = w_requests w /\
  w_db (snd (afterError i inf e w)) = w_db w.
Proof. unfold afterError. now destruct (startsWith _ _). Qed.

(** X10.  An iteration on a title that is skipped issues no request
    and leaves the database alone; on any other title it issues exactly
    one request, whatever the outcome, and the database changes only if
    the page is parsed with its three tenses complete, in which case it
    is the database with the accepted verb written. *)
Theorem title_costs_one_request i total w :
  w_requests (snd (processTitle i total w))
  = (if skipped (titleInfinitive i w) then w_requests w else S (w_requests w)) /\
  (skipped (titleInfinitive i w) = true ->
   w_db (snd (processTitle i total w)) = w_db w) /\
  (w_db (snd (processTitle i total w)) = w_db w \/
   exists inf r now,
     parsedAt i w inf r /\ trioComplete r = true /\
     w_db (snd (processTitle i total w)) = storedDb now (w_db w) inf r).
Proof.
  destruct (skipped (titleInfinitive i w)) eqn:Sk.
  - rewrite (processTitle_skip i total w Sk). cbn [snd]. auto.
  - destruct (titleInfinitive i w) as [inf|] eqn:Ti; [|discriminate Sk].
    rewrite (processTitle_fetch i total w inf Ti Sk). unfold afterAnnounce.
    rewrite replyTo_logged.
    set (w1 := logged (LogProcessing i total inf) w).
    destruct (requested_frame (pageRequest inf) w1) as (_ & _ & D2 & _ & R2 & _).
    change (w_db w1) with (w_db w) in D2.
    change (w_requests w1) with (w_requests w) in R2.
    set (w2 := requested (pageRequest inf) w1) in *.
    split; [|split; [discriminate|]].
    + destruct (replyOutcome _) as [d|e|c|]; [|now rewrite (proj1 (afterError_frame _ _ _ _))|exact R2|exact R2].
      destruct (orNull _) as [t|]; [|exact R2].
      destruct (parseConjugations (Some t)) as [[r|]|e];
        [|exact R2|now rewrite (proj1 (afterError_frame _ _ _ _))].
      destruct (trioComplete r) eqn:T; [|exact R2].
      cbn [snd]. now rewrite checkpointed_requests, stored_requests.
    + destruct (replyOutcome (replyTo (pageRequest inf) w)) as [d|e|c|] eqn:Hd;
        [|left; now rewrite (proj2 (afterError_frame _ _ _ _))|left; exact D2|left; exact D2].
      destruct (orNull (d_parse_text d)) as [t|] eqn:Ht; [|left; exact D2].
      destruct (parseConjugations (Some t)) as [[r|]|e] eqn:Hp;
        [|left; exact D2|left; now rewrite (proj2 (afterError_frame _ _ _ _))].
      destruct (trioComplete r) eqn:T; [|left; exact D2].
      right. exists inf, r, (w_clock w2). split; [|split; [exact T|]].
      * now exists d, t.
      * cbn [snd]. change (w_db (checkpointed i ?x)) with (w_db x).
        now rewrite (stored_db inf r _ T), D2.
Qed.

(** ** Crawling the category *)

Lemma getCategoryMembers_run category token w :
  getCategoryMembers category token "de" w =
  (match replyOutcome (replyTo (categoryRequest category token) w) with
   | Ret d => Ret (membersOf d, tokenOf d)
   | Throw e => Throw e
   | Exit c => Exit c
   | OutOfFuel => OutOfFuel
   end, requested (categoryRequest category token) w).
Proof.
  unfold getCategoryMembers. rewrite (bind_run _ _ _ _ _ (apiRequest_run _ w)).
  fold (categoryRequest category token). now destruct (replyOutcome _).
Qed.

(** One turn of the do-while loop on a page that is served. *)
Lemma loop_page fuel category token allMembers w d :
  replyOutcome (replyTo (categoryRequest category token) w) = Ret d ->
  getAllCategoryMembersLoop (S fuel) category (Some onPage) token "de" allMembers w
  = match tokenOf d with
    | Some t =>
        getAllCategoryMembersLoop fuel category (Some onPage) (Some t) "de"
          (allMembers ++ membersOf d) (pageDone category token d allMembers w)
    | None => (Ret (allMembers ++ membersOf d), pageDone category token d allMembers w)
    end.
Proof.
  intros H. cbn [getAllCategoryMembersLoop].
  rewrite (bind_run _ _ _ _ _ (getCategoryMembers_run category token w)), H.
  cbv beta iota.
  assert (E : onPage (membersOf d) (tokenOf d)
                (requested (categoryRequest category token) w)
              = (Ret tt, snd (onPage (membersOf d) (tokenOf d)
                                (requested (categoryRequest category token) w))))
    by reflexivity.
  rewrite (bind_run _ _ _ _ _ E). cbv beta iota.
  rewrite (bind_run _ _ _ _ _ (log_run _ _)). cbv beta iota.
  unfold pageDone. cbv zeta. now destruct (tokenOf d).
Qed.

(** One turn of the loop on a request that fails. *)
Lemma loop_failure fuel category token allMembers w e :
  replyOutcome (replyTo (categoryRequest category token) w) = Throw e ->
  getAllCategoryMembersLoop (S fuel) category (Some onPage) token "de" allMembers w
  = (Throw e, requested (categoryRequest category token) w).
Proof.
  intros H. cbn [getAllCategoryMembersLoop].
  now rewrite (bind_run _ _ _ _ _ (getCategoryMembers_run category token w)), H.
Qed.

Lemma pageDone_frame category token d allMembers w :
  let w' := pageDone category token d allMembers w in
  phase (w_state w') = phase (w_state w) /\
  verbListContinueToken (w_state w') = tokenOf d /\
  verbList (w_state w') = verbList (w_state w) ++ membersOf d /\
  processedVerbIndex (w_state w') = processedVerbIndex (w_state w) /\
  w_file w' = Some (Some (w_state w')) /\
  w_net w' = w_net w /\ w_requests w' = S (w_requests w) /\ w_db w' = w_db w /\
  exists t l,
    w_trace w' = w_trace w ++ [EFetch t (categoryRequest category token);
                               ESave (w_state w'); ELog l].
Proof.
  cbv zeta. unfold pageDone. cbv zeta.
  destruct (requested_frame (categoryRequest category token) w)
    as (S1 & F1 & D1 & N1 & R1 & t & T1).
  set (w1 := requested (categoryRequest category token) w) in *.
  change (snd (onPage (membersOf d) (tokenOf d) w1))
    with (saved (setState (MkState (phase (w_state w1)) (tokenOf d)
                                   (verbList (w_state w1) ++ membersOf d)
                                   (processedVerbIndex (w_state w1))
                                   (lastUpdated (w_state w1))) w1)).
  cbn [logged emit saved saveState snd bind get modifyState update w_state w_file
       w_net w_requests w_db w_trace setState setFile w_clock phase
       verbListContinueToken verbList processedVerbIndex].
  rewrite S1, N1, R1, D1, T1. repeat split. eexists. eexists.
  repeat rewrite <- app_assoc. reflexivity.
Qed.

(** The loop over pages that each carry a token. *)
Lemma loop_pages category : forall pages fuel token allMembers w,
  crawled (w_net w) category (w_requests w) token pages ->
  verbListContinueToken (w_state w) = token ->
  exists w' evs,
    getAllCategoryMembersLoop (length pages + fuel) category (Some onPage) token "de"
      allMembers w
    = getAllCategoryMembersLoop fuel category (Some onPage) (lastToken token pages)
        "de" (allMembers ++ concat (List.map membersOf pages)) w' /\
    phase (w_state w') = phase (w_state w) /\
    verbListContinueToken (w_state w') = lastToken token pages /\
    verbList (w_state w') = verbList (w_state w) ++ concat (List.map membersOf pages) /\
    processedVerbIndex (w_state w') = processedVerbIndex (w_state w) /\
    (pages <> [] -> w_file w' = Some (Some (w_state w'))) /\
    (pages = [] -> w' = w) /\
    w_net w' = w_net w /\ w_requests w' = (w_requests w + length pages)%nat /\
    w_db w' = w_db w /\
    w_trace w' = w_trace w ++ evs /\
    List.map (fun st => (verbList st, verbListContinueToken st)) (saves evs)
    = pageCheckpoints (verbList (w_state w)) pages.
Proof.
  induction pages as [|d rest IH]; intros fuel token allMembers w Hc Htok.
  - exists w, []. cbn [length Nat.add lastToken fold_left List.map concat].
    rewrite !app_nil_r, Nat.add_0_r. repeat split; auto. intros H. now destruct H.
  - destruct Hc as (Hd & Hnext & Hrest).
    cbn [length Nat.add]. rewrite (loop_page _ _ _ _ _ d Hd).
    destruct (tokenOf d) as [t|] eqn:Et; [|now destruct Hnext].
    destruct (pageDone_frame category token d allMembers w)
      as (P1 & K1 & V1 & I1 & F1 & N1 & R1 & D1 & tm & l & T1).
    set (w1 := pageDone category token d allMembers w) in *.
    rewrite Et in K1.
    destruct (IH fuel (Some t) (allMembers ++ membersOf d) w1) as
      (w' & evs & E & P2 & K2 & V2 & I2 & F2 & Z2 & N2 & R2 & D2 & T2 & C2).
    { rewrite N1, R1. exact Hrest. }
    { exact K1. }
    exists w', ([EFetch tm (categoryRequest category token); ESave (w_state w1); ELog l]
                ++ evs).
    cbn [lastToken fold_left List.map concat]. fold (lastToken (tokenOf d) rest).
    rewrite Et, E, <- app_assoc.
    split; [reflexivity|]. split; [congruence|]. split; [exact K2|].
    split; [now rewrite V2, V1, <- app_assoc|]. split; [congruence|].
    split.
    { intros _. destruct rest as [|d' rest'].
      - now rewrite (Z2 eq_refl).
      - apply F2. discriminate. }
    split; [discriminate|]. split; [congruence|]. split; [lia|].
    split; [congruence|]. split; [now rewrite T2, T1, <- app_assoc|].
    cbn [app saves List.map pageCheckpoints]. rewrite C2, V1, K1, Et. reflexivity.
Qed.


Lemma fetchVerbList_category_run fuel w :
  fetchVerbList fuel false w =
  match getAllCategoryMembersLoop fuel CATEGORY_NAME (Some onPage)
          (verbListContinueToken (w_state w)) "de" [] w with
  | (Ret _, w1) => (Ret tt, enumerated w1)
  | (Throw e, w1) => (Throw e, w1)
  | (Exit c, w1) => (Exit c, w1)
  | (OutOfFuel, w1) => (OutOfFuel, w1)
  end.
Proof.
  unfold fetchVerbList, getAllCategoryMembers, enumerated.
  unfold bind at 1. unfold bind at 1. unfold bind at 1. cbn [get].
  destruct (getAllCategoryMembersLoop _ _ _ _ _ _ w) as [[all|e|c|] w1]; reflexivity.
Qed.

Lemma enumerated_frame w :
  phase (w_state (enumerated w)) = fetching_conjugations /\
  verbListContinueToken (w_state (enumerated w)) = verbListContinueToken (w_state w) /\
  verbList (w_state (enumerated w)) = verbList (w_state w) /\
  processedVerbIndex (w_state (enumerated w)) = processedVerbIndex (w_state w) /\
  w_file (enumerated w) = Some (Some (w_state (enumerated w))) /\
  w_net (enumerated w) = w_net w /\ w_requests (enumerated w) = w_requests w /\
  w_db (enumerated w) = w_db w /\
  w_trace (enumerated w)
  = w_trace w ++ [ELog (LogTotalFound (length (verbList (w_state w))));
                  ESave (w_state (enumerated w))].
Proof.
  repeat split. unfold enumerated.
  cbn [snd bind get log update setPhase modifyState saveState w_trace emit setState
       setFile w_state w_clock].
  now rewrite <- app_assoc.
Qed.

Lemma fatal_frame e w :
  onFatal e w = (Exit 1, fatal e w) /\
  phase (w_state (fatal e w)) = phase (w_state w) /\
  verbListContinueToken (w_state (fatal e w)) = verbListContinueToken (w_state w) /\
  verbList (w_state (fatal e w)) = verbList (w_state w) /\
  processedVerbIndex (w_state (fatal e w)) = processedVerbIndex (w_state w) /\
  w_file (fatal e w) = Some (Some (w_state (fatal e w))) /\
  w_requests (fatal e w) = w_requests w /\ w_db (fatal e w) = w_db w /\
  w_trace (fatal e w)
  = w_trace w ++ [ELog (fatalLine e); ESave (w_state (fatal e w))].
Proof.
  unfold fatal, onFatal, fatalLine.
  destruct (startsWith _ _); repeat split;
    cbn [snd bind get log update modifyState saveState w_trace emit setState
         setFile w_state w_clock exit];
    now rewrite <- app_assoc.
Qed.

Lemma pageCheckpoints_snoc : forall pages titles d,
  pageCheckpoints titles (pages ++ [d])
  = pageCheckpoints titles pages
    ++ [(titles ++ concat (List.map membersOf (pages ++ [d])), tokenOf d)].
Proof.
  induction pages as [|p pages IH]; intros titles d.
  - cbn. now rewrite app_nil_r.
  - cbn [app pageCheckpoints List.map concat]. rewrite IH, <- app_assoc. reflexivity.
Qed.

(** X7.  When the remote side serves the category as a sequence
    of pages, each but the last carrying a continuation token, the
    enumeration of main requests them one after the other from the
    token of the state, appends the titles of each page to the list in
    order, checkpoints the list and the token after every page, and
    ends in the processing phase with the token cleared and the state
    saved; getAllCategoryMembers returns the titles of the pages in
    order. *)
Theorem enumeration_collects_pages fuel w pages d :
  crawled (w_net w) CATEGORY_NAME (w_requests w)
          (verbListContinueToken (w_state w)) pages ->
  nextOutcome (w_net w) CATEGORY_NAME (w_requests w)
              (verbListContinueToken (w_state w)) pages = Ret d ->
  tokenOf d = None ->
  (length pages < fuel)%nat ->
  fst (getAllCategoryMembers fuel CATEGORY_NAME (Some onPage)
         (verbListContinueToken (w_state w)) w)
  = Ret (concat (List.map membersOf (pages ++ [d]))) /\
  exists w' evs final,
    fetchVerbList fuel false w = (Ret tt, w') /\
    w_trace w' = w_trace w ++ evs /\
    List.map (fun st => (verbList st, verbListContinueToken st)) (saves evs)
    = pageCheckpoints (verbList (w_state w)) (pages ++ [d]) ++ [(final, None)] /\
    final = verbList (w_state w) ++ concat (List.map membersOf (pages ++ [d])) /\
    verbList (w_state w') = final /\
    verbListContinueToken (w_state w') = None /\
    phase (w_state w') = fetching_conjugations /\
    processedVerbIndex (w_state w') = processedVerbIndex (w_state w) /\
    w_file w' = Some (Some (w_state w')) /\
    w_requests w' = (w_requests w + length (pages ++ [d]))%nat /\
    w_db w' = w_db w.
Proof.
  intros Hc Hn Hd Hfuel.
  set (token := verbListContinueToken (w_state w)) in *.
  destruct (loop_pages CATEGORY_NAME pages (fuel - length pages) token [] w Hc eq_refl)
    as (w1 & evs1 & E & P1 & K1 & V1 & I1 & F1 & Z1 & N1 & R1 & D1 & T1 & C1).
  replace (length pages + (fuel - length pages))%nat with fuel in E by lia.
  destruct (fuel - length pages)%nat as [|k] eqn:Ek; [lia|].
  unfold nextOutcome in Hn. rewrite <- N1, <- R1 in Hn.
  fold (replyTo (categoryRequest CATEGORY_NAME (lastToken token pages)) w1) in Hn.
  rewrite (loop_page _ _ _ _ _ d Hn), Hd in E. cbn [app] in E.
  destruct (pageDone_frame CATEGORY_NAME (lastToken token pages) d
              (concat (List.map membersOf pages)) w1)
    as (P2 & K2 & V2 & I2 & F2 & N2 & R2 & D2 & tm & l & T2).
  set (w2 := pageDone _ _ _ _ w1) in *.
  destruct (enumerated_frame w2) as (P3 & K3 & V3 & I3 & F3 & N3 & R3 & D3 & T3).
  assert (Hall : concat (List.map membersOf pages) ++ membersOf d
                 = concat (List.map membersOf (pages ++ [d]))).
  { rewrite map_app, concat_app. cbn. now rewrite app_nil_r. }
  split.
  { unfold getAllCategoryMembers. rewrite E. cbn [fst]. now rewrite Hall. }
  exists (enumerated w2),
    (evs1 ++ [EFetch tm (categoryRequest CATEGORY_NAME (lastToken token pages));
              ESave (w_state w2); ELog l]
          ++ [ELog (LogTotalFound (length (verbList (w_state w2))));
              ESave (w_state (enumerated w2))]),
    (verbList (w_state w) ++ concat (List.map membersOf (pages ++ [d]))).
  assert (Hfinal : verbList (w_state w2)
                   = verbList (w_state w) ++ concat (List.map membersOf (pages ++ [d]))).
  { rewrite V2, V1, <- app_assoc, Hall. reflexivity. }
  split; [rewrite fetchVerbList_category_run; fold token; now rewrite E|].
  split; [rewrite T3, T2, T1; now rewrite <- !app_assoc|].
  split.
  { rewrite !saves_app, !map_app, C1. cbn [saves List.map app].
    rewrite pageCheckpoints_snoc, <- app_assoc. cbn [app].
    rewrite V3, K3, K2, Hd, Hfinal. now rewrite !map_app. }
  split; [reflexivity|]. split; [now rewrite V3|].
  split; [now rewrite K3, K2|]. split; [exact P3|].
  split; [congruence|]. split; [exact F3|].
  split; [rewrite R3, R2, R1, length_app; cbn; lia|congruence].
Qed.

(** X8.  When a request of the enumeration fails, after some
    pages were served, main reports the failure, saves the state and
    exits with code 1: the state saved is still in the enumeration
    phase and holds the titles of the pages served and the token of the
    last of them, so that a resumed run asks for the page that failed;
    the database is untouched. *)
Theorem enumeration_failure_is_checkpointed fuel resume w pages e :
  phase (w_state (tryEntry resume w)) = fetching_verbs ->
  crawled (w_net w) CATEGORY_NAME (w_requests w)
          (verbListContinueToken (w_state (tryEntry resume w))) pages ->
  nextOutcome (w_net w) CATEGORY_NAME (w_requests w)
              (verbListContinueToken (w_state (tryEntry resume w))) pages = Throw e ->
  (length pages < fuel)%nat ->
  fst (main fuel resume false w) = Exit 1 /\
  exists st evs,
    w_file (snd (main fuel resume false w)) = Some (Some st) /\
    w_trace (snd (main fuel resume false w)) = evs ++ [ELog (fatalLine e); ESave st] /\
    phase st = fetching_verbs /\
    verbList st = verbList (w_state (tryEntry resume w))
                  ++ concat (List.map membersOf pages) /\
    verbListContinueToken st
    = lastToken (verbListContinueToken (w_state (tryEntry resume w))) pages /\
    processedVerbIndex st = processedVerbIndex (w_state (tryEntry resume w)) /\
    w_db (snd (main fuel resume false w)) = w_db w.
Proof.
  intros Hp Hc Hn Hfuel.
  set (w0 := tryEntry resume w) in *.
  assert (N0 : w_net w0 = w_net w) by (unfold w0, tryEntry; destruct resume; [destruct (w_file w) as [[?|]|]|]; reflexivity).
  assert (R0 : w_requests w0 = w_requests w) by (unfold w0, tryEntry; destruct resume; [destruct (w_file w) as [[?|]|]|]; reflexivity).
  assert (D0 : w_db w0 = w_db w) by (unfold w0, tryEntry; destruct resume; [destruct (w_file w) as [[?|]|]|]; reflexivity).
  set (token := verbListContinueToken (w_state w0)) in *.
  rewrite <- N0, <- R0 in Hc, Hn.
  destruct (loop_pages CATEGORY_NAME pages (fuel - length pages) token [] w0 Hc eq_refl)
    as (w1 & evs1 & E & P1 & K1 & V1 & I1 & F1 & Z1 & N1 & R1 & D1 & T1 & C1).
  replace (length pages + (fuel - length pages))%nat with fuel in E by lia.
  destruct (fuel - length pages)%nat as [|k] eqn:Ek; [lia|].
  unfold nextOutcome in Hn. rewrite <- N1, <- R1 in Hn.
  fold (replyTo (categoryRequest CATEGORY_NAME (lastToken token pages)) w1) in Hn.
  rewrite (loop_failure _ _ _ _ _ e Hn) in E.
  destruct (requested_frame (categoryRequest CATEGORY_NAME (lastToken token pages)) w1)
    as (S2 & F2 & D2 & N2 & R2 & tm & T2).
  set (w2 := requested _ w1) in *.
  destruct (fatal_frame e w2) as (E3 & P3 & K3 & V3 & I3 & F3 & R3 & D3 & T3).
  assert (Em : main fuel resume false w = (Exit 1, fatal e w2)).
  { rewrite main_enters. fold w0. unfold tryCatch, mainBody.
    unfold bind at 1. unfold whenPhase at 1. unfold bind at 1. cbn [get].
    rewrite Hp. cbn [phase_eqb].
    rewrite fetchVerbList_category_run. fold token. rewrite E. exact E3. }
  rewrite Em. cbn [fst snd]. split; [reflexivity|].
  exists (w_state (fatal e w2)), (w_trace w2). repeat split; auto.
  - rewrite P3, S2, P1. exact Hp.
  - rewrite V3, S2. exact V1.
  - rewrite K3, S2. exact K1.
  - rewrite I3, S2. exact I1.
  - congruence.
Qed.

(** ** When a call starts *)


(** ** The state file *)


(** ** Resuming at the boundaries *)

(** X13.  A run asked to resume when there is no state file
    says so and then runs exactly as a run that is not resumed; a run
    resumed on a state whose phase is completed only prints its report:
    it issues no request, writes nothing to the database and does not
    save the state. *)
Theorem resume_without_work fuel im w :
  (w_file w = None ->
   main fuel true im w = main fuel false im (logged LogNoSavedState w)) /\
  (forall st,
     w_file w = Some (Some st) -> phase st = completed ->
     main fuel true im w
     = (Ret tt,
        logged (LogCompleted (length (verbList st)) (length (verbs (w_db w)))
                             (length (verb_conjugations (w_db w))))
               (logged (LogResuming st) (setState st w)))).
Proof.
  split.
  - intros Hf. rewrite !main_enters. unfold tryEntry. now rewrite Hf.
  - intros st Hf Hp. rewrite main_enters. unfold tryEntry. rewrite Hf.
    unfold tryCatch, mainBody, whenPhase, bind, get, report, log, update, ret.
    do 3 (cbn [phase_eqb w_state logged emit setState]; rewrite ?Hp).
    reflexivity.
Qed.

(** ** The infinitive of a title *)


Lemma lastOr_cons prev c t : lastOr prev (c :: t) = lastOr (Some c) t.
Proof.
  unfold lastOr. cbn [rev]. destruct (rev t) as [|x l]; reflexivity.
Qed.

(** A greedy repetition reaches the end of the input only by consuming
    all of it, and tries that first. *)
Lemma star_greedy_ends p : forall s prev,
  filter atEnd (star true p prev s)
  = if forallb p s then [(lastOr prev s, [])] else [].
Proof.
  induction s as [|c t IH]; intros prev; [reflexivity|].
  cbn [star forallb]. destruct (p c); [|reflexivity].
  rewrite filter_app, IH, lastOr_cons. cbn [filter atEnd snd andb].
  now rewrite app_nil_r.
Qed.

Lemma flat_map_end l :
  flat_map (rmatch REnd) l
  = filter (fun st => match m_rest st with [] => true | _ :: _ => false end) l.
Proof.
  induction l as [|st l IH]; [reflexivity|]. cbn [flat_map filter].
  rewrite IH. cbn [rmatch]. now destruct (m_rest st).
Qed.

Lemma filter_map {A B} (f : A -> B) (p : B -> bool) l :
  filter p (List.map f l) = List.map f (filter (fun x => p (f x)) l).
Proof.
  induction l as [|a l IH]; [reflexivity|]. cbn [List.map filter].
  destruct (p (f a)); cbn [List.map]; now rewrite IH.
Qed.

Lemma stripPrefix_Some p : forall s rest,
  stripPrefix false p s = Some rest <-> s = p ++ rest.
Proof.
  induction p as [|a p IH]; intros s rest; cbn [stripPrefix app].
  - split; [now intros [= ->]|now intros ->].
  - destruct s as [|b s]; [split; discriminate|].
    unfold cu_eqb. destruct (N.eqb_spec a b) as [->|Hne].
    + rewrite IH. split; [now intros ->|now intros [= ->]].
    + split; [discriminate|]. intros [= E _]. now destruct Hne.
Qed.

(** The title pattern matches at the start of the input only. *)
Lemma titleRe_later : forall s idx c, searchFrom titleRe idx (Some c) s = None.
Proof.
  induction s as [|d t IH]; intros idx c; [reflexivity|].
  cbn [searchFrom]. unfold matchHere. cbn. apply IH.
Qed.

Lemma titleRe_here t :
  matchHere titleRe None t
  = match stripPrefix false (lit "Flexion:") t with
    | Some (c :: r) =>
        if forallb notLT (c :: r)
        then Some (MState (lastOr (Some c) r) [] [(1%nat, c :: r)])
        else None
    | _ => None
    end.
Proof.
  unfold matchHere, titleRe. cbn [seqs rmatch m_prev m_rest m_caps flat_map].
  rewrite app_nil_r.
  destruct (stripPrefix false (lit "Flexion:") t) as [rest|]; [|reflexivity].
  cbn [flat_map]. rewrite app_nil_r. cbn [rmatch].
  rewrite flat_map_end. unfold RPlus. cbn [rmatch m_rest m_prev m_caps].
  destruct rest as [|c r]; [reflexivity|]. cbn [forallb].
  destruct (notLT c); [|reflexivity]. cbn [flat_map andb]. rewrite app_nil_r.
  cbn [rmatch m_rest m_prev m_caps].
  rewrite map_map, filter_map.
  rewrite (filter_ext _ atEnd)
    by (intros [pv s']; reflexivity).
  rewrite star_greedy_ends.
  destruct (forallb notLT r); [|reflexivity].
  cbn [List.map hd_error m_rest m_prev m_caps]. unfold consumed.
  change (length (@nil cu)) with 0%nat. now rewrite Nat.sub_0_r, firstn_all.
Qed.

Lemma extractInfinitiveFromTitle_eq t :
  extractInfinitiveFromTitle (Some t)
  = match stripPrefix false (lit "Flexion:") t with
    | Some (c :: r) => if forallb notLT (c :: r) then Some (c :: r) else None
    | _ => None
    end.
Proof.
  unfold extractInfinitiveFromTitle, exec.
  destruct t as [|a t']; [reflexivity|].
  cbn [searchFrom]. rewrite titleRe_here, titleRe_later.
  destruct (stripPrefix false (lit "Flexion:") (a :: t')) as [[|c r]|]; try reflexivity.
  destruct (forallb notLT (c :: r)); [|reflexivity].
  cbn [mr_caps m_caps group Nat.eqb]. reflexivity.
Qed.

Lemma extractInfinitiveFromTitle_iff t inf :
  extractInfinitiveFromTitle (Some t) = Some inf <->
  t = lit "Flexion:" ++ inf /\ inf <> [] /\ forallb notLT inf = true.
Proof.
  rewrite extractInfinitiveFromTitle_eq. split.
  - destruct (stripPrefix false (lit "Flexion:") t) as [[|c r]|] eqn:E;
      try discriminate.
    destruct (forallb notLT (c :: r)) eqn:F; [|discriminate].
    intros [= <-]. apply stripPrefix_Some in E. split; [exact E|].
    split; [discriminate|exact F].
  - intros (-> & Hne & F).
    assert (E : stripPrefix false (lit "Flexion:") (lit "Flexion:" ++ inf) = Some inf)
      by now apply stripPrefix_Some.
    rewrite E. destruct inf as [|c r]; [congruence|]. now rewrite F.
Qed.

(** X1.  extractInfinitiveFromTitle answers the text that follows
    the prefix "Flexion:" exactly for the titles that start with the
    prefix and go on with at least one character and no line
    terminator; it answers null for every other title and for a missing
    one.  So the page main requests for an infinitive has the title the
    infinitive came from. *)
Theorem extractInfinitiveFromTitle_inverts_prefix t inf :
  extractInfinitiveFromTitle None = None /\
  (extractInfinitiveFromTitle (Some t) = Some inf <->
   t = lit "Flexion:" ++ inf /\ inf <> [] /\ forallb notLT inf = true) /\
  (extractInfinitiveFromTitle (Some t) = Some inf ->
   pageRequest inf = ParsePage "de" t "text").
Proof.
  split; [reflexivity|]. split; [apply extractInfinitiveFromTitle_iff|].
  intros H. apply extractInfinitiveFromTitle_iff in H as (-> & _). reflexivity.
Qed.

(** ** The text of a cell *)

Lemma tidy_app_clean a : forall b,
  tidy a = true -> tidy b = true -> startsClean b -> tidy (a ++ b) = true.
Proof.
  induction a as [|c a IH]; intros b Ha Hb Hs; [exact Hb|].
  cbn [app tidy] in *. apply andb_prop in Ha as [H1 H2].
  rewrite (IH b H2 Hb Hs), andb_true_r.
  destruct (isSpace c); [|reflexivity].
  apply andb_prop in H1 as [H1 H3]. rewrite H1. cbn [andb].
  destruct a as [|d a]; [|exact H3]. cbn [app].
  destruct b as [|d b]; [reflexivity|]. cbn in Hs. now rewrite Hs.
Qed.

Lemma startsClean_rev_app a b :
  b <> [] -> startsClean (rev b) -> startsClean (rev (a ++ b)).
Proof.
  intros Hb H. rewrite rev_app_distr.
  destruct (rev b) as [|x l] eqn:E.
  - apply (f_equal (@rev cu)) in E. rewrite rev_involutive in E. now destruct Hb.
  - exact H.
Qed.

Lemma isSpace_COMMA : isSpace COMMA = false.
Proof. reflexivity. Qed.

(** Alternatives joined by a comma and a space. *)
Lemma join_alternatives : forall ps,
  Forall alternative ps ->
  clean (join [COMMA; SPACE] ps) /\
  filter truthy (List.map trim (split COMMA (join [COMMA; SPACE] ps))) = ps.
Proof.
  induction ps as [|p ps IH]; intros H.
  - split; [repeat split|reflexivity].
  - inversion H as [|? ? (Hne & Hc & Hcomma) Hps]; subst.
    destruct (IH Hps) as (Hcj & Hsplit).
    assert (Tp : truthy p = true) by (destruct p; [congruence|reflexivity]).
    destruct ps as [|q qs].
    + cbn [join]. split; [exact Hc|].
      rewrite (split_no_sep_id COMMA p Hcomma). cbn [List.map filter].
      now rewrite (trim_id p Hc), Tp.
    + change (join [COMMA; SPACE] (p :: q :: qs))
        with (p ++ COMMA :: SPACE :: join [COMMA; SPACE] (q :: qs)).
      set (rest := join [COMMA; SPACE] (q :: qs)) in *.
      inversion Hps as [|? ? (Hq & _) _]; subst.
      assert (Hrest : rest <> []) by (apply join_nonempty; exact Hq).
      destruct Hc as (Tp1 & Tp2 & Tp3). destruct Hcj as (Tr1 & Tr2 & Tr3).
      split.
      * repeat split.
        -- apply tidy_app_clean; [exact Tp1| |].
           ++ cbn [tidy]. rewrite isSpace_COMMA. cbn [andb].
              change (isSpace SPACE) with true. rewrite N.eqb_refl, Tr1.
              destruct rest as [|d rest']; [congruence|].
              cbn in Tr2. now rewrite Tr2.
           ++ exact isSpace_COMMA.
        -- destruct p as [|c p']; [congruence|exact Tp2].
        -- change (p ++ COMMA :: SPACE :: rest) with (p ++ [COMMA; SPACE] ++ rest).
           rewrite app_assoc. now apply startsClean_rev_app.
      * rewrite (split_app_sep COMMA p (SPACE :: rest) Hcomma).
        cbn [List.map filter]. rewrite (trim_id p (conj Tp1 (conj Tp2 Tp3))), Tp.
        f_equal.
        assert (E : split COMMA (SPACE :: rest)
                    = match split COMMA rest with
                      | s :: ss => (SPACE :: s) :: ss
                      | [] => [[SPACE]]
                      end) by reflexivity.
        rewrite E. clear E.
        destruct (split COMMA rest) as [|s ss] eqn:Es;
          [now destruct (split_nonempty COMMA rest)|].
        cbn [List.map filter] in *.
        assert (Et : trim (SPACE :: s) = trim s) by reflexivity.
        now rewrite Et.
Qed.

Lemma extractTextFromCell_pieces cell :
  exists pieces,
    extractTextFromCell cell = join [COMMA; SPACE] pieces /\
    Forall alternative pieces.
Proof.
  eexists. split; [reflexivity|]. apply extract_pieces_clean.
Qed.

(** X2.  The text extractTextFromCell makes of a cell is a list
    of alternatives joined by a comma and a space: each alternative is
    non-empty, has no comma, no white space at its ends and none inside
    but single spaces.  So the text is its own trim, and splitting it
    at the commas and trimming gives the alternatives back. *)
Theorem extractTextFromCell_normal_form cell :
  exists pieces,
    extractTextFromCell cell = join [COMMA; SPACE] pieces /\
    Forall alternative pieces /\
    filter truthy (List.map trim (split COMMA (extractTextFromCell cell))) = pieces /\
    trim (extractTextFromCell cell) = extractTextFromCell cell /\
    tidy (extractTextFromCell cell) = true.
Proof.
  destruct (extractTextFromCell_pieces cell) as (pieces & E & H).
  destruct (join_alternatives pieces H) as (Hc & Hs).
  exists pieces. rewrite E. split; [reflexivity|]. split; [exact H|].
  split; [exact Hs|]. split; [now apply trim_id|apply Hc].
Qed.

(** ** The tenses of a record *)

(** X3.  In every record parseConjugations returns, each of the
    six tenses is either the empty object or has all its six slots,
    each the text extracted from a cell: no tense is ever filled in
    part.  The parser returns null only for a null or empty text and
    never throws. *)
Theorem parsed_tenses_are_all_or_nothing text :
  match parseConjugations text with
  | Normal (Some r) =>
      formsExtracted (praesens r) /\ formsExtracted (praeteritum r) /\
      formsExtracted (perfekt r) /\ formsExtracted (plusquamperfekt r) /\
      formsExtracted (futur1 r) /\ formsExtracted (futur2 r)
  | Normal None => text = None \/ text = Some []
  | Thrown _ => False
  end.
Proof.
  destruct text as [t|]; [|now left].
  destruct t as [|c t]; [now right|].
  cbn [parseConjugations truthy negb].
  destruct (parseTables_ok (c :: t)) as (r & -> & _ & H). exact H.
Qed.

(** ** What a group captures *)

Lemma group_sound r : forall n st st' g,
  In st' (rmatch r st) ->
  group n (m_caps st') = Some g ->
  group n (m_caps st) = Some g \/ exists a, In a (groupsOf n r) /\ lang a g.
Proof.
  induction r as [ci l|p|gr p|a IHa b IHb|a IHa b IHb|k a IHa| | |];
    intros n st st' g H G; simpl in H.
  - destruct (stripPrefix ci l (m_rest st)); [|destruct H].
    destruct H as [<-|[]]. now left.
  - destruct (m_rest st) as [|c t]; [destruct H|].
    destruct (p c); [|destruct H]. destruct H as [<-|[]]. now left.
  - apply in_map_iff in H as ([pv s'] & <- & _). now left.
  - apply in_flat_map in H as (mid & Ha & Hb).
    destruct (IHb n mid st' g Hb G) as [G'|(x & Hx & Lx)].
    + destruct (IHa n st mid g Ha G') as [G''|(x & Hx & Lx)]; [now left|].
      right. exists x. split; [|exact Lx]. cbn [groupsOf]. apply in_or_app. now left.
    + right. exists x. split; [|exact Lx]. cbn [groupsOf]. apply in_or_app. now right.
  - apply in_app_or in H as [H|H].
    + destruct (IHa n st st' g H G) as [G'|(x & Hx & Lx)]; [now left|].
      right. exists x. split; [|exact Lx]. cbn [groupsOf]. apply in_or_app. now left.
    + destruct (IHb n st st' g H G) as [G'|(x & Hx & Lx)]; [now left|].
      right. exists x. split; [|exact Lx]. cbn [groupsOf]. apply in_or_app. now right.
  - apply in_map_iff in H as (mid & <- & Hin). cbn [m_caps group] in G.
    cbn [groupsOf].
    destruct (Nat.eqb k n) eqn:E.
    + injection G as <-. right. exists a. split; [now left|].
      apply rmatch_sound in Hin as (m & Em & Lm). now rewrite Em, consumed_app.
    + destruct (IHa n st mid g Hin G) as [G'|(x & Hx & Lx)]; [now left|].
      right. exists x. split; [exact Hx|exact Lx].
  - destruct (m_prev st); [destruct H|]. destruct H as [<-|[]]. now left.
  - destruct (m_rest st); [|destruct H]. destruct H as [<-|[]]. now left.
  - destruct (xorb _ _); [|destruct H]. destruct H as [<-|[]]. now left.
Qed.

(** What a search captures as group [n]. *)
Lemma exec_group r s m n g :
  exec r s = Some m -> group n (mr_caps m) = Some g ->
  exists a, In a (groupsOf n r) /\ lang a g.
Proof.
  intros E G. apply searchFrom_sound in E as (pv & s' & st' & Hin & Hc & _).
  rewrite Hc in G.
  destruct (group_sound r n _ st' g Hin G) as [G'|H]; [discriminate G'|exact H].
Qed.

Lemma lang_plus p g : lang (RPlus p) g -> g <> [] /\ forallb p g = true.
Proof.
  intros (m1 & m2 & -> & (c & -> & Pc) & L2). cbn [lang] in L2.
  split; [discriminate|]. cbn. now rewrite Pc.
Qed.

(** ** The infinitive of the heading *)

Lemma parseTables_infinitive t tables :
  parseTables t = Normal tables -> infinitive tables = parseInfinitive t.
Proof.
  unfold parseTables.
  destruct (parseSection t label_praesens untilNextHeading); cbn [cbind]; [|discriminate].
  destruct (parseSection t label_praeteritum untilNextHeading); cbn [cbind]; [|discriminate].
  destruct (parseSection t (lit "Perfekt") untilNextHeading); cbn [cbind]; [|discriminate].
  destruct (parseSection t (lit "Plusquamperfekt") untilTableEnd); cbn [cbind]; [|discriminate].
  destruct (parseSection t (lit "Futur I") untilNextHeading); cbn [cbind]; [|discriminate].
  destruct (parseSection t (lit "Futur II") untilTableEnd); cbn [cbind]; [|discriminate].
  now intros [= <-].
Qed.

(** X4.  The infinitive parseConjugations reads from the h2
    heading is either the empty string, as when there is no heading
    of the expected form, or a non-empty string without white space
    and without opening parenthesis. *)
Theorem heading_infinitive_is_one_word text :
  forallb notSpaceNorParen (parseInfinitive text) = true /\
  (forall r, parseConjugations (Some text) = Normal (Some r) ->
             infinitive r = parseInfinitive text).
Proof.
  split.
  - unfold parseInfinitive.
    destruct (exec h2Re text) as [h2Match|]; [|reflexivity].
    destruct (group 1 (mr_caps h2Match)) as [g|]; [|reflexivity].
    destruct (exec infinitiveRe _) as [m|] eqn:E; [|reflexivity].
    destruct (group 1 (mr_caps m)) as [i|] eqn:G; [|reflexivity].
    destruct (exec_group _ _ _ _ _ E G) as (a & Ha & La).
    cbn in Ha. destruct Ha as [<-|[]]. now apply lang_plus in La.
  - intros r H. apply parseConjugations_some in H as (t & tables & [= <-] & E & -> & _).
    cbn [infinitive withSeparablePrefix]. now apply parseTables_infinitive.
Qed.

(** ** A tense without its heading *)

Lemma occurs_spec l : forall s, occurs l s = true <-> occursIn l s.
Proof.
  induction s as [|c t IH].
  - cbn [occurs]. destruct (stripPrefix false l []) as [rest|] eqn:E.
    + apply stripPrefix_Some in E. split; [intros _|reflexivity].
      exists [], rest. exact E.
    + split; [discriminate|]. intros (a & b & H).
      destruct a; [|discriminate H]. cbn in H.
      assert (E' : stripPrefix false l [] = Some b) by now apply stripPrefix_Some.
      congruence.
  - cbn [occurs]. destruct (stripPrefix false l (c :: t)) as [rest|] eqn:E.
    + apply stripPrefix_Some in E. split; [intros _|reflexivity].
      exists [], rest. exact E.
    + rewrite IH. split.
      * intros (a & b & ->). now exists (c :: a), b.
      * intros (a & b & H). destruct a as [|c' a].
        -- cbn in H.
           assert (E' : stripPrefix false l (c :: t) = Some b) by now apply stripPrefix_Some.
           congruence.
        -- injection H as _ ->. now exists a, b.
Qed.

Lemma occursIn_app l a s : occursIn l s -> occursIn l (a ++ s).
Proof. intros (x & y & ->). exists (a ++ x), y. now rewrite app_assoc. Qed.

Lemma occursIn_app_l l s b : occursIn l s -> occursIn l (s ++ b).
Proof.
  intros (x & y & ->). exists x, (y ++ b). now rewrite <- !app_assoc.
Qed.

(** A literal of a sequence occurs in whatever the sequence consumes. *)
Lemma lang_seqs_literal l : forall rs m,
  In (RLit false l) rs -> lang (seqs rs) m -> occursIn l m.
Proof.
  induction rs as [|r rs IH]; intros m Hin L; [destruct Hin|].
  destruct rs as [|r' rs'].
  - destruct Hin as [->|[]]. cbn [seqs] in L. apply lang_lit in L. subst m.
    exists [], []. now rewrite app_nil_r.
  - change (seqs (r :: r' :: rs')) with (RSeq r (seqs (r' :: rs'))) in L.
    destruct L as (m1 & m2 & -> & L1 & L2).
    destruct Hin as [->|Hin].
    + apply lang_lit in L1. subst m1. exists [], m2. reflexivity.
    + apply occursIn_app. now apply IH.
Qed.

(** Where a search finds its match. *)
Lemma searchFrom_suffix r : forall s idx prev mr,
  searchFrom r idx prev s = Some mr ->
  exists pre s' pv st', s = pre ++ s' /\ In st' (rmatch r (MState pv s' [])).
Proof.
  induction s as [|c t IH]; intros idx prev mr H; cbn [searchFrom] in H;
    unfold matchHere in H.
  - destruct (rmatch r (MState prev [] [])) as [|st' l] eqn:E; [discriminate H|].
    exists [], [], prev, st'. rewrite E. split; [reflexivity|now left].
  - destruct (rmatch r (MState prev (c :: t) [])) as [|st' l] eqn:E.
    + cbn [hd_error] in H. destruct (IH _ _ _ H) as (pre & s' & pv & st' & -> & Hin).
      now exists (c :: pre), s', pv, st'.
    + exists [], (c :: t), prev, st'. rewrite E. split; [reflexivity|now left].
Qed.

Lemma parseSection_without_heading text label closing :
  occurs (headingEnd label) text = false ->
  parseSection text label closing = Normal emptyForms.
Proof.
  intros H. unfold parseSection.
  destruct (exec (sectionRe label closing) text) as [sec|] eqn:E; [|reflexivity].
  exfalso. apply searchFrom_suffix in E as (pre & s' & pv & st' & -> & Hin).
  apply rmatch_sound in Hin as (m & Em & L). cbn [m_rest] in Em. subst s'.
  assert (Ho : occursIn (headingEnd label) m).
  { apply (lang_seqs_literal _ _ _) with (2 := L).
    apply in_or_app. right. apply in_or_app. left.
    right. right. right. left. reflexivity. }
  assert (T : occurs (headingEnd label) (pre ++ m ++ m_rest st') = true).
  { apply occurs_spec. apply occursIn_app. now apply occursIn_app_l. }
  congruence.
Qed.

Lemma parseTables_sections t tables :
  parseTables t = Normal tables ->
  parseSection t label_praesens untilNextHeading = Normal (praesens tables) /\
  parseSection t label_praeteritum untilNextHeading = Normal (praeteritum tables) /\
  parseSection t (lit "Perfekt") untilNextHeading = Normal (perfekt tables) /\
  parseSection t (lit "Plusquamperfekt") untilTableEnd = Normal (plusquamperfekt tables) /\
  parseSection t (lit "Futur I") untilNextHeading = Normal (futur1 tables) /\
  parseSection t (lit "Futur II") untilTableEnd = Normal (futur2 tables).
Proof.
  unfold parseTables.
  destruct (parseSection t label_praesens untilNextHeading); cbn [cbind]; [|discriminate].
  destruct (parseSection t label_praeteritum untilNextHeading); cbn [cbind]; [|discriminate].
  destruct (parseSection t (lit "Perfekt") untilNextHeading); cbn [cbind]; [|discriminate].
  destruct (parseSection t (lit "Plusquamperfekt") untilTableEnd); cbn [cbind]; [|discriminate].
  destruct (parseSection t (lit "Futur I") untilNextHeading); cbn [cbind]; [|discriminate].
  destruct (parseSection t (lit "Futur II") untilTableEnd); cbn [cbind]; [|discriminate].
  intros [= <-]. repeat split.
Qed.

(** X5.  A tense whose heading cell does not occur in the
    page as the section pattern spells its end (the label followed by
    the closing of the link, of the bold text, of the cell and of the
    row) is the empty object in the record parseConjugations returns;
    and when that tense is one of praesens, praeteritum, perfekt, main
    finds fewer than three valid tenses and rejects the verb. *)
Theorem tense_without_heading_is_empty t r :
  parseConjugations (Some t) = Normal (Some r) ->
  (occurs (headingEnd label_praesens) t = false -> praesens r = emptyForms) /\
  (occurs (headingEnd label_praeteritum) t = false -> praeteritum r = emptyForms) /\
  (occurs (headingEnd (lit "Perfekt")) t = false -> perfekt r = emptyForms) /\
  (occurs (headingEnd (lit "Plusquamperfekt")) t = false ->
   plusquamperfekt r = emptyForms) /\
  (occurs (headingEnd (lit "Futur I")) t = false -> futur1 r = emptyForms) /\
  (occurs (headingEnd (lit "Futur II")) t = false -> futur2 r = emptyForms) /\
  (occurs (headingEnd label_praesens) t = false \/
   occurs (headingEnd label_praeteritum) t = false \/
   occurs (headingEnd (lit "Perfekt")) t = false ->
   trioComplete r = false /\ (length (validTensesOf r) <? 3)%nat = true).
Proof.
  intros Hp.
  apply parseConjugations_some in Hp as (t' & tables & [= <-] & E & -> & _).
  destruct (parseTables_sections t tables E) as (S1 & S2 & S3 & S4 & S5 & S6).
  cbn [praesens praeteritum perfekt plusquamperfekt futur1 futur2 withSeparablePrefix].
  assert (H : forall label closing f,
            parseSection t label closing = Normal f ->
            occurs (headingEnd label) t = false -> f = emptyForms).
  { intros label closing f Hs Ho.
    rewrite (parseSection_without_heading _ _ _ Ho) in Hs. congruence. }
  split; [now apply (H _ _ _ S1)|]. split; [now apply (H _ _ _ S2)|].
  split; [now apply (H _ _ _ S3)|]. split; [now apply (H _ _ _ S4)|].
  split; [now apply (H _ _ _ S5)|]. split; [now apply (H _ _ _ S6)|].
  intros Hno.
  assert (T : trioComplete (withSeparablePrefix tables) = false).
  { unfold trioComplete.
    cbn [praesens praeteritum perfekt withSeparablePrefix].
    destruct Hno as [Ho|[Ho|Ho]].
    - now rewrite (H _ _ _ S1 Ho).
    - rewrite (H _ _ _ S2 Ho). change (hasAllForms emptyForms) with false.
      now rewrite andb_false_r.
    - rewrite (H _ _ _ S3 Ho). change (hasAllForms emptyForms) with false.
      now rewrite andb_false_r. }
  split; [exact T|]. now rewrite validTensesOf_length, T.
Qed.

(** ** The extras on sample data *)

Lemma schemaOk_twoVerbs : schemaOk twoVerbs.
Proof.
  unfold schemaOk, twoVerbs. cbn [verbs verb_conjugations verb_translations List.map].
  split; [|split; [|split; [|split]]].
  - repeat constructor; cbn; intuition discriminate.
  - repeat constructor; cbn; intuition discriminate.
  - repeat constructor; cbn; intuition discriminate.
  - intros c Hc. exists gehenRow. split; [now left|].
    destruct Hc as [<-|[<-|[<-|[]]]]; reflexivity.
  - intros t [].
Qed.

(** X17 on gehen while sehen is inserted again. *)
Lemma insertVerb_keeps_other_verbs_witness :
  In gehenRow
     (verbs (snd (insertVerb 2000 twoVerbs (MkVerbArgs (lit "sehen") None true 0)))) /\
  hasTense (snd (insertVerb 2000 twoVerbs (MkVerbArgs (lit "sehen") None true 0)))
           1 "perfekt" = true.
Proof.
  destruct (insertVerb_keeps_other_verbs 2000 twoVerbs
              (MkVerbArgs (lit "sehen") None true 0) gehenRow)
    as (H1 & _ & _ & H4).
  - repeat constructor; cbn; intuition discriminate.
  - now left.
  - discriminate.
  - split; [exact H1|].
    transitivity (hasTense twoVerbs (v_id gehenRow) "perfekt");
      [exact (H4 "perfekt"%string)|reflexivity].
Defined.

(** X18 on the two verbs. *)
Lemma db_writes_keep_schema_witness :
  schemaOk (snd (insertVerb 2000 twoVerbs (MkVerbArgs (lit "gehen") None true 0))) /\
  schemaOk (snd (insertConjugation twoVerbs
                   (MkConjArgs 2 "praesens" emptyForms None))) /\
  schemaOk (deleteVerbById twoVerbs 1).
Proof.
  destruct (db_writes_keep_schema 2000 twoVerbs schemaOk_twoVerbs) as (H1 & H2 & H3).
  split; [apply H1|]. split; [apply H2|apply H3].
Defined.



(** X7 on a category served in two pages. *)
Lemma enumeration_collects_pages_witness :
  exists w',
    fetchVerbList 2 false (freshWorld [answered firstPage; answered lastPage]
                                      emptyDatabase) = (Ret tt, w') /\
    verbList (w_state w')
    = [lit "Flexion:gehen"; lit "Flexion:sehen"; lit "Flexion:stehen"] /\
    verbListContinueToken (w_state w') = None /\
    phase (w_state w') = fetching_conjugations /\
    w_requests w' = 2%nat.
Proof.
  destruct (enumeration_collects_pages 2
              (freshWorld [answered firstPage; answered lastPage] emptyDatabase)
              [firstPage] lastPage)
    as (_ & w' & evs & final & E & _ & _ & Hf & V & K & P & _ & _ & R & _).
  - split; [reflexivity|]. split; [discriminate|exact I].
  - reflexivity.
  - reflexivity.
  - cbn. lia.
  - exists w'. split; [exact E|]. split; [rewrite V, Hf; reflexivity|].
    split; [exact K|]. split; [exact P|exact R].
Defined.

(** X8 on a crawl stopped by the rate limit after one page. *)
Lemma enumeration_failure_is_checkpointed_witness :
  fst (main 2 false false (freshWorld [answered firstPage; tooManyRequests]
                                      emptyDatabase)) = Exit 1 /\
  exists st,
    w_file (snd (main 2 false false (freshWorld [answered firstPage; tooManyRequests]
                                                emptyDatabase))) = Some (Some st) /\
    phase st = fetching_verbs /\
    verbList st = [lit "Flexion:gehen"; lit "Flexion:sehen"] /\
    verbListContinueToken st = Some (lit "page|2").
Proof.
  destruct (enumeration_failure_is_checkpointed 2 false
              (freshWorld [answered firstPage; tooManyRequests] emptyDatabase)
              [firstPage] RATE_LIMIT_error)
    as (H1 & st & evs & F & _ & P & V & K & _).
  - reflexivity.
  - split; [reflexivity|]. split; [discriminate|exact I].
  - reflexivity.
  - cbn. lia.
  - split; [exact H1|]. exists st. split; [exact F|]. split; [exact P|].
    split; [rewrite V; reflexivity|rewrite K; reflexivity].
Defined.

(** X5 on the page of gehen, which has no Plusquamperfekt
    table. *)
Lemma tense_without_heading_is_empty_witness :
  occurs (headingEnd (lit "Plusquamperfekt")) page_gehen = false /\
  plusquamperfekt (parsed page_gehen) = emptyForms /\
  occurs (headingEnd (lit "Perfekt")) page_gehen = true.
Proof.
  destruct (tense_without_heading_is_empty page_gehen (parsed page_gehen))
    as (_ & _ & _ & H4 & _).
  - vm_compute. reflexivity.
  - split; [vm_compute; reflexivity|]. split; [|vm_compute; reflexivity].
    apply H4. vm_compute. reflexivity.
Defined.

(** X13 on a run asked to resume without a state file and on
    one resumed on a completed state. *)
Lemma resume_without_work_witness :
  main 0 true true (freshWorld [] gehenBare)
  = main 0 false true (logged LogNoSavedState (freshWorld [] gehenBare)) /\
  w_requests (snd (main 0 true false
                     (worldOf [] (MkState completed None [lit "Flexion:gehen"] 0 900))))
  = 0%nat /\
  saves (w_trace (snd (main 0 true false
                         (worldOf [] (MkState completed None [lit "Flexion:gehen"] 0 900)))))
  = [].
Proof.
  destruct (resume_without_work 0 true (freshWorld [] gehenBare)) as (H1 & _).
  destruct (resume_without_work 0 false
              (worldOf [] (MkState completed None [lit "Flexion:gehen"] 0 900)))
    as (_ & H2).
  split; [apply H1; reflexivity|].
  rewrite (H2 _ eq_refl eq_refl). split; reflexivity.
Defined.

(** ** Repetitions that cannot give back *)

Lemma run_split p : forall s, s = leadingRun p s ++ afterRun p s.
Proof.
  induction s as [|c t IH]; [reflexivity|]. cbn [leadingRun afterRun].
  destruct (p c); [cbn; now f_equal|reflexivity].
Qed.

Lemma flat_map_map {A B C} (f : B -> list C) (g : A -> B) l :
  flat_map f (List.map g l) = flat_map (fun x => f (g x)) l.
Proof. induction l as [|a l IH]; [reflexivity|]. cbn. now rewrite IH. Qed.

(** When what follows a greedy repetition cannot start with a code unit
    of its class, only the longest repetition can be followed by it. *)
Lemma star_committed p (k : option cu -> jsstring -> list mstate) :
  (forall pv c t, p c = true -> k pv (c :: t) = []) ->
  forall s prev,
    flat_map (fun x => k (fst x) (snd x)) (star true p prev s)
    = k (lastOr prev (leadingRun p s)) (afterRun p s).
Proof.
  intros Hk. induction s as [|c t IH]; intros prev.
  - cbn. apply app_nil_r.
  - cbn [star leadingRun afterRun]. destruct (p c) eqn:Pc.
    + rewrite flat_map_app, IH, lastOr_cons. cbn [flat_map fst snd].
      rewrite (Hk prev c t Pc). now rewrite !app_nil_r.
    + cbn. apply app_nil_r.
Qed.

Lemma plus_committed p K st :
  (forall pv c t caps, p c = true -> rmatch K (MState pv (c :: t) caps) = []) ->
  rmatch (RSeq (RPlus p) K) st
  = match m_rest st with
    | c :: t =>
        if p c
        then rmatch K (MState (lastOr (Some c) (leadingRun p t)) (afterRun p t)
                              (m_caps st))
        else []
    | [] => []
    end.
Proof.
  intros HK. unfold RPlus. cbn [rmatch].
  destruct (m_rest st) as [|c t]; [reflexivity|].
  destruct (p c); [|reflexivity]. cbn [flat_map]. rewrite app_nil_r.
  cbn [rmatch m_rest m_prev m_caps]. rewrite flat_map_map.
  rewrite (flat_map_ext _ (fun x => rmatch K (MState (fst x) (snd x) (m_caps st))))
    by (intros [pv s']; reflexivity).
  apply (star_committed p (fun pv s' => rmatch K (MState pv s' (m_caps st)))).
  intros pv d u Pd. now apply HK.
Qed.

Lemma group_plus_committed n p K st :
  (forall pv c t caps, p c = true -> rmatch K (MState pv (c :: t) caps) = []) ->
  rmatch (RSeq (RGroup n (RPlus p)) K) st
  = match m_rest st with
    | c :: t =>
        if p c
        then rmatch K (MState (lastOr (Some c) (leadingRun p t)) (afterRun p t)
                              ((n, c :: leadingRun p t) :: m_caps st))
        else []
    | [] => []
    end.
Proof.
  intros HK. unfold RPlus. cbn [rmatch].
  destruct (m_rest st) as [|c t] eqn:Er; [reflexivity|].
  destruct (p c); [|reflexivity]. cbn [flat_map List.map]. rewrite app_nil_r.
  cbn [rmatch m_rest m_prev m_caps]. rewrite !map_map, flat_map_map.
  rewrite (flat_map_ext _
             (fun x => rmatch K (MState (fst x) (snd x)
                                        ((n, consumed (c :: t) (snd x)) :: m_caps st))))
    by (intros [pv s']; reflexivity).
  rewrite (star_committed p
             (fun pv s' => rmatch K (MState pv s'
                                            ((n, consumed (c :: t) s') :: m_caps st)))).
  - f_equal. f_equal. f_equal. f_equal.
    rewrite (run_split p t) at 1.
    change (c :: leadingRun p t ++ afterRun p t)
      with ((c :: leadingRun p t) ++ afterRun p t).
    apply consumed_app.
  - intros pv d u Pd. now apply HK.
Qed.

(** ** The line pattern of the frequency list *)

Lemma digit_cases c :
  isDigit c = true ->
  (c = 48 \/ c = 49 \/ c = 50 \/ c = 51 \/ c = 52 \/ c = 53 \/ c = 54 \/
   c = 55 \/ c = 56 \/ c = 57)%N.
Proof.
  unfold isDigit, inRange. rewrite andb_true_iff, !N.leb_le. lia.
Qed.

Lemma digit_not_space c : isDigit c = true -> isSpace c = false.
Proof.
  intros H. apply digit_cases in H.
  repeat (destruct H as [->|H]; [reflexivity|]). now subst.
Qed.

Lemma leadingRun_all p : forall s, forallb p (leadingRun p s) = true.
Proof.
  induction s as [|c t IH]; [reflexivity|]. cbn [leadingRun].
  destruct (p c) eqn:E; [|reflexivity]. cbn. now rewrite E.
Qed.

Lemma rmatch_seq a b st :
  rmatch (RSeq a b) st = flat_map (rmatch b) (rmatch a st).
Proof. reflexivity. Qed.

Lemma rmatch_lit ci l st :
  rmatch (RLit ci l) st
  = match stripPrefix ci l (m_rest st) with
    | Some rest' => [MState (lastOr (m_prev st) (consumed (m_rest st) rest'))
                            rest' (m_caps st)]
    | None => []
    end.
Proof. reflexivity. Qed.

Lemma literal_mismatch a l pv c t caps :
  a <> c -> rmatch (RLit false (a :: l)) (MState pv (c :: t) caps) = [].
Proof.
  intros H. cbn [rmatch m_rest stripPrefix]. unfold cu_eqb.
  destruct (N.eqb_spec a c) as [E|_]; [now destruct H|reflexivity].
Qed.

(** The pattern is anchored: it matches at the start of the line only. *)
Lemma lineRe_later : forall s idx c,
  searchFrom Frequency.lineRe idx (Some c) s = None.
Proof.
  induction s as [|d t IH]; intros idx c; [reflexivity|].
  cbn [searchFrom]. unfold matchHere. cbn. apply IH.
Qed.

(** Backtracking finds what the scan from the left finds. *)
Lemma lineRe_here line :
  List.map m_caps (rmatch Frequency.lineRe (MState None line []))
  = match lineFields line with
    | Some (digits, word) => [[(2%nat, word); (1%nat, digits)]]
    | None => []
    end.
Proof.
  unfold Frequency.lineRe. cbn [seqs].
  set (K3 := RLit false (lit "]]")).
  set (K2 := RSeq (RLit false (lit "[[")) (RSeq (RGroup 2 (RPlus (isNot 93%N))) K3)).
  set (K1 := RSeq (RPlus isSpace) K2).
  change (rmatch (RSeq RBegin (RSeq (RGroup 1 (RPlus isDigit)) K1))
                 (MState None line []))
    with (rmatch (RSeq (RGroup 1 (RPlus isDigit)) K1) (MState None line []) ++ []).
  rewrite app_nil_r.
  assert (H3 : forall pv c t caps, isNot 93%N c = true ->
                 rmatch K3 (MState pv (c :: t) caps) = []).
  { intros pv c t caps Hc. apply literal_mismatch. intros <-. discriminate Hc. }
  assert (H2 : forall pv c t caps, isSpace c = true ->
                 rmatch K2 (MState pv (c :: t) caps) = []).
  { intros pv c t caps Hc. unfold K2. rewrite rmatch_seq.
    change (lit "[[") with [91%N; 91%N].
    rewrite literal_mismatch; [reflexivity|]. intros <-. discriminate Hc. }
  assert (H1 : forall pv c t caps, isDigit c = true ->
                 rmatch K1 (MState pv (c :: t) caps) = []).
  { intros pv c t caps Hc. unfold K1, RPlus. rewrite !rmatch_seq.
    cbn [rmatch m_rest]. now rewrite (digit_not_space c Hc). }
  rewrite (group_plus_committed 1 isDigit K1 _ H1).
  unfold lineFields. cbn [m_rest m_caps].
  destruct line as [|c t]; [reflexivity|].
  cbn [leadingRun afterRun]. destruct (isDigit c) eqn:Dc; [|reflexivity].
  unfold K1 at 1. rewrite (plus_committed isSpace K2 _ H2). cbn [m_rest m_caps].
  destruct (afterRun isDigit t) as [|c1 t1]; [reflexivity|].
  cbn [leadingRun afterRun]. destruct (isSpace c1) eqn:Sc; [|reflexivity].
  unfold K2 at 1. rewrite rmatch_seq, rmatch_lit. cbn [m_rest m_caps m_prev].
  destruct (stripPrefix false (lit "[[") (afterRun isSpace t1)) as [inside|];
    [|reflexivity].
  cbn [flat_map]. rewrite app_nil_r.
  rewrite (group_plus_committed 2 (isNot 93%N) K3 _ H3). cbn [m_rest m_caps].
  destruct inside as [|c2 t2]; [reflexivity|].
  cbn [leadingRun afterRun]. destruct (isNot 93%N c2) eqn:Nc; [|reflexivity].
  unfold K3. rewrite rmatch_lit. cbn [m_rest m_caps m_prev].
  destruct (stripPrefix false (lit "]]") (afterRun (isNot 93%N) t2)); reflexivity.
Qed.

Lemma exec_lineRe line :
  option_map mr_caps (exec Frequency.lineRe line)
  = option_map (fun f => [(2%nat, snd f); (1%nat, fst f)]) (lineFields line).
Proof.
  pose proof (lineRe_here line) as H.
  unfold exec. destruct line as [|c t].
  - cbn [searchFrom]. unfold matchHere.
    destruct (rmatch Frequency.lineRe (MState None [] [])) as [|st l];
      destruct (lineFields []) as [[d w]|]; try discriminate H; [reflexivity|].
    cbn in H |- *. now injection H as -> _.
  - cbn [searchFrom]. unfold matchHere. rewrite lineRe_later.
    destruct (rmatch Frequency.lineRe (MState None (c :: t) [])) as [|st l];
      destruct (lineFields (c :: t)) as [[d w]|]; try discriminate H; [reflexivity|].
    cbn in H |- *. now injection H as -> _.
Qed.

(** ** What is made of the two groups *)

Lemma replaceAll_dots_digits : forall s prev,
  forallb isDigit s = true -> replaceFrom Frequency.dotRe [] 0 prev s = s.
Proof.
  induction s as [|c t IH]; intros prev H; [reflexivity|].
  cbn in H. apply andb_true_iff in H as [Hc Ht].
  cbn [replaceFrom]. unfold matchHere, Frequency.dotRe.
  change (lit ".") with [46%N].
  rewrite literal_mismatch by (intros <-; discriminate Hc).
  cbn [hd_error]. f_equal. now apply IH.
Qed.

Lemma takeDigits_all : forall s,
  forallb isDigit s = true -> Frequency.takeDigits s = s.
Proof.
  induction s as [|c t IH]; intros H; [reflexivity|].
  cbn in H. apply andb_true_iff in H as [Hc Ht].
  cbn. rewrite Hc. f_equal. now apply IH.
Qed.

Lemma decimalValue_nonneg_from : forall s acc,
  (0 <= acc)%Z ->
  (0 <= fold_left (fun a c => (a * 10 + Z.of_N (c - 48))%Z) s acc)%Z.
Proof.
  induction s as [|c t IH]; intros acc H; [exact H|]. cbn. apply IH. lia.
Qed.

(** parseInt of a run of digits is a number. *)
Lemma parseInt10_digits s :
  s <> [] -> forallb isDigit s = true ->
  Frequency.parseInt10 s = Some (Frequency.decimalValue s)
  /\ (0 <= Frequency.decimalValue s)%Z.
Proof.
  intros Hne H. split; [|now apply decimalValue_nonneg_from].
  destruct s as [|c t]; [now destruct Hne|].
  pose proof H as H'. cbn in H'. apply andb_true_iff in H' as [Hc Ht].
  unfold Frequency.parseInt10. cbn [trimStart].
  rewrite (digit_not_space c Hc).
  destruct (N.eqb_spec c 45) as [->|]; [discriminate Hc|].
  destruct (N.eqb_spec c 43) as [->|]; [discriminate Hc|].
  rewrite (takeDigits_all _ H).
  now rewrite Z.mul_1_l.
Qed.

Lemma run_app p d : forall x,
  forallb p d = true ->
  match x with c :: _ => p c = false | [] => True end ->
  leadingRun p (d ++ x) = d /\ afterRun p (d ++ x) = x.
Proof.
  induction d as [|c d IH]; intros x Hd Hx.
  - cbn [app]. destruct x as [|c t]; [now split|].
    cbn [leadingRun afterRun]. rewrite Hx. now split.
  - cbn in Hd. apply andb_true_iff in Hd as [Hc Hd].
    cbn [app leadingRun afterRun]. rewrite Hc.
    destruct (IH x Hd Hx) as [-> ->]. now split.
Qed.

(** The scan reads the two fields off exactly the lines of that shape. *)
Lemma lineFields_iff line digits word :
  lineFields line = Some (digits, word) <-> frequencyLine line digits word.
Proof.
  unfold lineFields, frequencyLine. split.
  - intros H.
    pose proof (run_split isDigit line) as E1.
    pose proof (leadingRun_all isDigit line) as A1.
    destruct (leadingRun isDigit line) as [|d0 ds] eqn:L1; [discriminate|].
    pose proof (run_split isSpace (afterRun isDigit line)) as E2.
    pose proof (leadingRun_all isSpace (afterRun isDigit line)) as A2.
    destruct (leadingRun isSpace (afterRun isDigit line)) as [|s0 ss] eqn:L2;
      [discriminate|].
    destruct (stripPrefix false (lit "[[") (afterRun isSpace (afterRun isDigit line)))
      as [inside|] eqn:P1; [|discriminate].
    apply stripPrefix_Some in P1.
    pose proof (run_split (isNot 93%N) inside) as E3.
    pose proof (leadingRun_all (isNot 93%N) inside) as A3.
    destruct (leadingRun (isNot 93%N) inside) as [|w0 ws] eqn:L3; [discriminate|].
    destruct (stripPrefix false (lit "]]") (afterRun (isNot 93%N) inside))
      as [rest|] eqn:P2; [|discriminate].
    apply stripPrefix_Some in P2. injection H as <- <-.
    exists (s0 :: ss), rest. repeat split; try discriminate; try assumption.
    rewrite E1 at 1. f_equal. rewrite E2 at 1. f_equal. rewrite P1. f_equal.
    rewrite E3 at 1. f_equal. exact P2.
  - intros (sp & rest & -> & Hd & Ad & Hs & As & Hw & Aw).
    destruct sp as [|s0 ss]; [now destruct Hs|].
    pose proof As as As'. cbn in As'. apply andb_true_iff in As' as [S0 _].
    destruct (run_app isDigit digits
                ((s0 :: ss) ++ lit "[[" ++ word ++ lit "]]" ++ rest) Ad) as [-> ->].
    { cbn [app]. destruct (isDigit s0) eqn:D; [|reflexivity].
      apply digit_not_space in D. congruence. }
    destruct digits as [|d0 ds]; [now destruct Hd|].
    destruct (run_app isSpace (s0 :: ss) (lit "[[" ++ word ++ lit "]]" ++ rest) As)
      as [-> ->]; [reflexivity|].
    replace (stripPrefix false (lit "[[") (lit "[[" ++ word ++ lit "]]" ++ rest))
      with (Some (word ++ lit "]]" ++ rest)) by (symmetry; now apply stripPrefix_Some).
    destruct (run_app (isNot 93%N) word (lit "]]" ++ rest) Aw) as [-> ->];
      [reflexivity|].
    destruct word as [|w0 ws]; [now destruct Hw|].
    replace (stripPrefix false (lit "]]") (lit "]]" ++ rest))
      with (Some rest) by (symmetry; now apply stripPrefix_Some).
    reflexivity.
Qed.

(** ** The loop body *)

Lemma lineFields_sound line digits word :
  lineFields line = Some (digits, word) ->
  digits <> [] /\ forallb isDigit digits = true.
Proof.
  intros H. apply lineFields_iff in H.
  destruct H as (sp & rest & _ & Hd & Ad & _). now split.
Qed.

Lemma addLine_fields line map :
  Frequency.addLine line map
  = Normal match lineFields line with
           | Some (digits, word) =>
               if truthy (trim word)
               then Frequency.mapSet (trim word)
                                     (Some (Frequency.decimalValue digits)) map
               else map
           | None => map
           end.
Proof.
  unfold Frequency.addLine.
  pose proof (exec_lineRe line) as H.
  destruct (lineFields line) as [[d w]|] eqn:F.
  - destruct (exec Frequency.lineRe line) as [m|]; [|discriminate H].
    cbn in H. injection H as ->. cbn [group Nat.eqb].
    destruct (lineFields_sound _ _ _ F) as [Hd Ad].
    unfold replaceAll. rewrite (replaceAll_dots_digits d None Ad).
    destruct (parseInt10_digits d Hd Ad) as [-> _].
    now destruct (truthy (trim w)).
  - destruct (exec Frequency.lineRe line) as [m|]; [discriminate H|reflexivity].
Qed.



(** ** The map of the frequencies *)

Lemma mapGet_mapSet_same k v : forall m,
  Frequency.mapGet k (Frequency.mapSet k v m) = Some v.
Proof.
  unfold Frequency.mapGet. induction m as [|[k0 v0] m IH].
  - cbn. now rewrite str_eqb_refl.
  - cbn [Frequency.mapSet]. destruct (str_eqb k0 k) eqn:E.
    + cbn. now rewrite E.
    + cbn [find fst]. rewrite E. exact IH.
Qed.

Lemma mapGet_mapSet_other k k' v : forall m,
  k' <> k ->
  Frequency.mapGet k' (Frequency.mapSet k v m) = Frequency.mapGet k' m.
Proof.
  unfold Frequency.mapGet. intros m Hne. induction m as [|[k0 v0] m IH].
  - cbn. rewrite str_eqb_neq; [reflexivity|]. intros E. now destruct Hne.
  - cbn [Frequency.mapSet]. destruct (str_eqb k0 k) eqn:E.
    + apply str_eqb_eq in E. subst k0. cbn [find fst].
      rewrite str_eqb_neq; [reflexivity|]. intros E. now destruct Hne.
    + cbn [find fst]. destruct (str_eqb k0 k'); [reflexivity|exact IH].
Qed.

Lemma mapSet_numeric k c : forall m,
  numeric m -> numeric (Frequency.mapSet k (Some c) m).
Proof.
  unfold numeric. induction m as [|[k0 v0] m IH]; intros H.
  - constructor; [discriminate|constructor].
  - cbn [Frequency.mapSet]. inversion H as [|? ? H1 H2]; subst.
    destruct (str_eqb k0 k).
    + constructor; [discriminate|exact H2].
    + constructor; [exact H1|now apply IH].
Qed.

(** A line leaves the map alone or gives the word of its shape a count. *)
Lemma addLine_cases line map :
  Frequency.addLine line map = Normal map \/
  exists digits word count,
    frequencyLine line digits word /\ truthy (trim word) = true /\
    Frequency.parseInt10 digits = Some count /\
    Frequency.addLine line map
    = Normal (Frequency.mapSet (trim word) (Some count) map).
Proof.
  rewrite addLine_fields.
  destruct (lineFields line) as [[d w]|] eqn:F; [|now left].
  destruct (truthy (trim w)) eqn:T; [|now left]. right.
  destruct (lineFields_sound _ _ _ F) as [Hd Ad].
  destruct (parseInt10_digits d Hd Ad) as [E _].
  exists d, w, (Frequency.decimalValue d). apply lineFields_iff in F.
  now repeat split.
Qed.

Lemma frequencyLine_fun line d w d' w' :
  frequencyLine line d w -> frequencyLine line d' w' -> d' = d /\ w' = w.
Proof.
  intros H H'. apply lineFields_iff in H, H'. rewrite H in H'.
  injection H' as -> ->. now split.
Qed.

Lemma addLines_app a : forall b map,
  Frequency.addLines (a ++ b) map
  = (map' <-! Frequency.addLines a map ;; Frequency.addLines b map').
Proof.
  induction a as [|l a IH]; intros b map; [reflexivity|].
  cbn [app Frequency.addLines]. destruct (Frequency.addLine l map) as [m|e];
    [|reflexivity].
  cbn [cbind]. apply IH.
Qed.

(** The lines never throw, and keep the counts numbers. *)
Lemma addLines_numeric lines : forall map,
  exists map', Frequency.addLines lines map = Normal map' /\
               (numeric map -> numeric map').
Proof.
  induction lines as [|l lines IH]; intros map.
  - exists map. now split.
  - cbn [Frequency.addLines].
    destruct (addLine_cases l map) as [E|(d & w & c & _ & _ & _ & E)];
      rewrite E; cbn [cbind].
    + apply IH.
    + destruct (IH (Frequency.mapSet (trim w) (Some c) map)) as (m' & E' & N).
      exists m'. split; [exact E'|]. intros H. apply N. now apply mapSet_numeric.
Qed.

(** Lines that do not name a word leave what the map holds for it. *)
Lemma addLines_other key lines : forall map,
  (forall l d w, In l lines -> frequencyLine l d w -> trim w <> key) ->
  exists map', Frequency.addLines lines map = Normal map' /\
               Frequency.mapGet key map' = Frequency.mapGet key map.
Proof.
  induction lines as [|l lines IH]; intros map H.
  - exists map. now split.
  - cbn [Frequency.addLines].
    assert (Hrest : forall l0 d w, In l0 lines -> frequencyLine l0 d w ->
                                   trim w <> key).
    { intros l0 d w Hin. apply H. now right. }
    destruct (addLine_cases l map) as [E|(d & w & c & F & _ & _ & E)];
      rewrite E; cbn [cbind].
    + now apply IH.
    + destruct (IH (Frequency.mapSet (trim w) (Some c) map) Hrest)
        as (m' & E' & G).
      exists m'. split; [exact E'|]. rewrite G.
      apply mapGet_mapSet_other. intros K. symmetry in K. revert K.
      apply (H l d w); [now left|exact F].
Qed.

(** X24.  The lines of a page never throw, and the map they
    leave holds, for a word, the count of the last line naming it: a
    line of the shape of the list whose trimmed word is not empty and is
    named by no later line gives that word the number its digits
    spell, whatever the earlier lines and the map before held. *)
Theorem last_line_naming_a_word_wins before line after digits word map :
  frequencyLine line digits word ->
  truthy (trim word) = true ->
  (forall l d w, In l after -> frequencyLine l d w -> trim w <> trim word) ->
  exists map' count,
    Frequency.addLines (before ++ line :: after) map = Normal map' /\
    Frequency.parseInt10 digits = Some count /\
    Frequency.mapGet (trim word) map' = Some (Some count).
Proof.
  intros F T Hafter. rewrite addLines_app.
  destruct (addLines_numeric before map) as (m1 & E1 & _). rewrite E1.
  cbn [cbind Frequency.addLines]. rewrite addLine_fields.
  pose proof F as (sp & rest & _ & Hd & Ad & _).
  apply lineFields_iff in F. rewrite F, T. cbn [cbind].
  destruct (parseInt10_digits digits Hd Ad) as [P _].
  destruct (addLines_other (trim word) after
              (Frequency.mapSet (trim word)
                 (Some (Frequency.decimalValue digits)) m1) Hafter)
    as (m' & E' & G).
  exists m', (Frequency.decimalValue digits).
  split; [exact E'|]. split; [exact P|].
  rewrite G. apply mapGet_mapSet_same.
Qed.

(** X24 on four lines, two of which name sein. *)
Lemma last_line_naming_a_word_wins_witness :
  exists map' count,
    Frequency.addLines ([lit "7 [[sein]]"; lit "no entry"]
                        ++ lit "12 [[ sein ]]" :: [lit "3 [[haben]]"]) []
    = Normal map' /\
    Frequency.parseInt10 (lit "12") = Some count /\
    Frequency.mapGet (trim (lit " sein ")) map' = Some (Some count).
Proof.
  apply (last_line_naming_a_word_wins
           [lit "7 [[sein]]"; lit "no entry"] (lit "12 [[ sein ]]")
           [lit "3 [[haben]]"] (lit "12") (lit " sein ") []).
  - exists (lit " "), []. repeat split; try discriminate; reflexivity.
  - reflexivity.
  - intros l d w [<-|[]] F K. apply lineFields_iff in F.
    vm_compute in F. injection F as <- <-. vm_compute in K. discriminate K.
Defined.

(** ** The pages of the frequency list *)

Lemma getPageText_db P title prop lang :
  preserves (dbInv P) (getPageText title prop lang).
Proof. unfold getPageText. dbinv. Qed.
#[local] Hint Resolve getPageText_db : dbinv.

Lemma addPages_db P titles : forall map,
  preserves (dbInv P) (Frequency.addPages titles map).
Proof.
  induction titles as [|t titles IH]; intros map; cbn [Frequency.addPages]; dbinv.
Qed.

Lemma frequences_db w :
  w_db (snd (Frequency.getGermanWordsFrequences w)) = w_db w.
Proof.
  symmetry.
  exact (addPages_db (eq (w_db w)) Frequency.titles [] w eq_refl).
Qed.

Lemma addPages_numeric titles : forall map w m,
  numeric map ->
  fst (Frequency.addPages titles map w) = Ret m -> numeric m.
Proof.
  induction titles as [|t titles IH]; intros map w m N.
  - cbn. now intros [= <-].
  - cbn [Frequency.addPages]. unfold bind at 1.
    destruct (getPageText t "wikitext" "en" w) as [[[text|]|e|c|] w1];
      cbn [fst]; try discriminate.
    + destruct (addLines_numeric (splitRe Frequency.lineBreakRe text) map)
        as (m1 & E & N1).
      rewrite E. cbn [lift]. unfold bind, ret. apply IH. now apply N1.
    + now apply IH.
Qed.

Lemma frequences_numeric w m :
  fst (Frequency.getGermanWordsFrequences w) = Ret m -> numeric m.
Proof. apply addPages_numeric. constructor. Qed.

Lemma mapGet_numeric key map count :
  numeric map -> Frequency.mapGet key map = Some count -> count <> None.
Proof.
  unfold Frequency.mapGet, numeric. intros N H.
  destruct (find (fun e => str_eqb (fst e) key) map) as [e|] eqn:F;
    [|discriminate H].
  injection H as <-. apply find_some in F as [Hin _].
  rewrite Forall_forall in N. now apply N.
Qed.

(** ** The updates of frequency.js *)

Lemma find_id_absent id : forall items : list (Z * option Z),
  ~ In id (List.map fst items) ->
  find (fun it => (fst it =? id)%Z) items = None.
Proof.
  induction items as [|[i c] items IH]; intros H; [reflexivity|].
  cbn [find fst]. destruct (Z.eqb_spec i id) as [->|_].
  - destruct H. now left.
  - apply IH. intros Hin. apply H. now right.
Qed.

Lemma updatedBy_nil l : List.map (updatedBy []) l = l.
Proof. now rewrite (map_ext _ (fun v => v)), map_id. Qed.

(** Updates with distinct ids and numeric counts act row by row. *)
Lemma updateMany_run : forall items db,
  Forall (fun it => snd it <> None) items ->
  NoDup (List.map fst items) ->
  Frequency.updateMany items db
  = Some (MkDatabase (List.map (updatedBy items) (verbs db))
                     (verb_conjugations db) (verb_translations db)
                     (seq_verbs db)).
Proof.
  induction items as [|[id [c|]] items IH]; intros db N D.
  - cbn [Frequency.updateMany]. rewrite updatedBy_nil. now destruct db.
  - cbn [Frequency.updateMany]. cbn [List.map fst] in D.
    inversion N as [|? ? _ N']; subst. inversion D as [|? ? Hid D']; subst.
    rewrite (IH _ N' D'). unfold Frequency.updatePopularity.
    cbn [verbs verb_conjugations verb_translations seq_verbs].
    f_equal. f_equal. rewrite map_map. apply map_ext. intros v.
    unfold updatedBy at 2. cbn [find fst].
    rewrite (Z.eqb_sym id (v_id v)).
    destruct (Z.eqb_spec (v_id v) id) as [E|E].
    + unfold updatedBy. cbn [v_id].
      rewrite (find_id_absent (v_id v) items) by (rewrite E; exact Hid).
      reflexivity.
    + reflexivity.
  - inversion N as [|? ? H _]; subst. now destruct H.
Qed.

Lemma find_app_or {A} (f : A -> bool) a b :
  find f (a ++ b) = match find f a with Some x => Some x | None => find f b end.
Proof.
  induction a as [|x a IH]; [reflexivity|]. cbn. now destruct (f x).
Qed.

Lemma pairs_ids freqMap l id :
  In id (List.map fst (flat_map (itemOf freqMap) l)) -> In id (List.map v_id l).
Proof.
  induction l as [|v l IH]; [intros []|].
  cbn [flat_map List.map]. rewrite map_app, in_app_iff. intros [H|H].
  - left. unfold itemOf in H.
    destruct (Frequency.mapGet (v_infinitive v) freqMap); [|destruct H].
    destruct H as [H|[]]. exact H.
  - right. now apply IH.
Qed.

Lemma pairs_NoDup freqMap l :
  NoDup (List.map v_id l) -> NoDup (List.map fst (flat_map (itemOf freqMap) l)).
Proof.
  induction l as [|v l IH]; intros D; [constructor|].
  cbn [List.map] in D. inversion D as [|? ? Hid D']; subst.
  cbn [flat_map]. rewrite map_app. unfold itemOf at 1.
  destruct (Frequency.mapGet (v_infinitive v) freqMap).
  - cbn [List.map app fst]. constructor; [|now apply IH].
    intros H. apply Hid. now apply (pairs_ids freqMap).
  - now apply IH.
Qed.

Lemma pairs_numeric freqMap l :
  numeric freqMap ->
  Forall (fun it => snd it <> None) (flat_map (itemOf freqMap) l).
Proof.
  intros N. induction l as [|v l IH]; [constructor|].
  cbn [flat_map]. apply Forall_app. split; [|exact IH].
  unfold itemOf. destruct (Frequency.mapGet (v_infinitive v) freqMap) eqn:G;
    constructor; [|constructor].
  cbn [snd]. exact (mapGet_numeric _ _ _ N G).
Qed.

Lemma pairs_length freqMap l :
  length (flat_map (itemOf freqMap) l) = length (filter (listed freqMap) l).
Proof.
  induction l as [|v l IH]; [reflexivity|].
  cbn [flat_map filter]. rewrite length_app, IH. unfold itemOf, listed.
  now destruct (Frequency.mapGet (v_infinitive v) freqMap).
Qed.

(** With distinct ids, each verb gets the count of its own infinitive. *)
Lemma pairs_rank freqMap l :
  NoDup (List.map v_id l) ->
  forall v, In v l ->
            updatedBy (flat_map (itemOf freqMap) l) v = ranked freqMap v.
Proof.
  induction l as [|v0 l IH]; intros D v Hin; [destruct Hin|].
  cbn [List.map] in D. inversion D as [|? ? Hid D']; subst.
  unfold updatedBy. cbn [flat_map]. rewrite find_app_or.
  destruct Hin as [->|Hin].
  - unfold itemOf at 1, ranked.
    destruct (Frequency.mapGet (v_infinitive v) freqMap) as [count|].
    + cbn [find fst]. now rewrite Z.eqb_refl.
    + cbn [find]. rewrite find_id_absent; [reflexivity|].
      intros H. apply Hid. now apply (pairs_ids freqMap).
  - assert (Hne : v_id v0 <> v_id v).
    { intros E. apply Hid. rewrite E. now apply in_map. }
    replace (find (fun it => (fst it =? v_id v)%Z) (itemOf freqMap v0)) with
      (@None (Z * option Z)).
    + exact (IH D' v Hin).
    + symmetry. unfold itemOf. destruct (Frequency.mapGet (v_infinitive v0) freqMap);
        [|reflexivity].
      cbn [find fst]. now destruct (Z.eqb_spec (v_id v0) (v_id v)).
Qed.

Lemma toUpdate_items fm db :
  Frequency.toUpdate fm db = flat_map (itemOf fm) (verbs db).
Proof. reflexivity. Qed.

Lemma ranked_id fm v : v_id (ranked fm v) = v_id v.
Proof. unfold ranked. now destruct (Frequency.mapGet _ fm) as [[c|]|]. Qed.

Lemma ranked_infinitive fm v : v_infinitive (ranked fm v) = v_infinitive v.
Proof. unfold ranked. now destruct (Frequency.mapGet _ fm) as [[c|]|]. Qed.

Lemma schemaOk_ranked fm db :
  schemaOk db ->
  schemaOk (MkDatabase (List.map (ranked fm) (verbs db))
                       (verb_conjugations db) (verb_translations db)
                       (seq_verbs db)).
Proof.
  intros (H1 & H2 & H3 & H4 & H5). unfold schemaOk, foreignKeysHold.
  cbn [verbs verb_conjugations verb_translations].
  rewrite !map_map.
  rewrite (map_ext (fun v => v_id (ranked fm v)) v_id) by apply ranked_id.
  rewrite (map_ext (fun v => v_infinitive (ranked fm v)) v_infinitive)
    by apply ranked_infinitive.
  repeat split; try assumption.
  - intros c Hc. destruct (H4 c Hc) as (v & Hv & E).
    exists (ranked fm v). split; [now apply in_map|]. now rewrite ranked_id.
  - intros t Ht. destruct (H5 t Ht) as (v & Hv & E).
    exists (ranked fm v). split; [now apply in_map|]. now rewrite ranked_id.
Qed.



Lemma getWikitext_run title w :
  getPageText title "wikitext" "en" w =
  (match replyOutcome (replyTo (ParsePage "en" title "wikitext") w) with
   | Ret d => Ret (orNull (d_parse_wikitext d))
   | Throw e => Throw e
   | Exit c => Exit c
   | OutOfFuel => OutOfFuel
   end, requested (ParsePage "en" title "wikitext") w).
Proof.
  unfold getPageText. rewrite (bind_run _ _ _ _ _ (apiRequest_run _ w)).
  now destruct (replyOutcome _).
Qed.

(** A page that has been served is read without failure. *)
Lemma addPages_served title rest map w d :
  replyOutcome (replyTo (ParsePage "en" title "wikitext") w) = Ret d ->
  exists map',
    Frequency.addPages (title :: rest) map w
    = Frequency.addPages rest map' (requested (ParsePage "en" title "wikitext") w).
Proof.
  intros H. cbn [Frequency.addPages].
  rewrite (bind_run _ _ _ _ _ (getWikitext_run title w)), H.
  destruct (orNull (d_parse_wikitext d)) as [text|]; [|now exists map].
  destruct (addLines_numeric (splitRe Frequency.lineBreakRe text) map)
    as (m1 & E & _).
  exists m1. unfold bind at 1. now rewrite E.
Qed.

Lemma addPages_failed title rest map w e :
  replyOutcome (replyTo (ParsePage "en" title "wikitext") w) = Throw e ->
  Frequency.addPages (title :: rest) map w
  = (Throw e, requested (ParsePage "en" title "wikitext") w).
Proof.
  intros H. cbn [Frequency.addPages].
  now rewrite (bind_run _ _ _ _ _ (getWikitext_run title w)), H.
Qed.

Lemma updateMany_some : forall items db,
  Forall (fun it => snd it <> None) items ->
  exists db', Frequency.updateMany items db = Some db'.
Proof.
  induction items as [|[id [c|]] items IH]; intros db N.
  - now exists db.
  - cbn [Frequency.updateMany]. apply IH. now inversion N.
  - inversion N as [|? ? H _]; subst. now destruct H.
Qed.

Lemma toUpdate_numeric fm db :
  numeric fm -> Forall (fun it => snd it <> None) (Frequency.toUpdate fm db).
Proof. intros N. exact (pairs_numeric fm (verbs db) N). Qed.

(** X26.  main of frequency.js ends in one of two ways.  It
    reports the number of verbs it matched; or it throws what one of the
    two page requests threw, the second being made only when the first
    was answered, and then the database is as it was: the updates come
    after both pages.  Reading the lines never throws, and no count that
    is not a number reaches the database. *)
Theorem frequency_main_fails_only_with_a_request w :
  (exists n, fst (Frequency.main w) = Ret (Some n)) \/
  (exists e,
     fst (Frequency.main w) = Throw e /\
     w_db (snd (Frequency.main w)) = w_db w /\
     (replyOutcome (replyTo (listRequest 0) w) = Throw e \/
      exists d,
        replyOutcome (replyTo (listRequest 0) w) = Ret d /\
        replyOutcome (replyTo (listRequest 1) (requested (listRequest 0) w))
        = Throw e)).
Proof.
  pose proof (frequences_db w) as Hdb.
  pose proof (frequences_numeric w) as Hnum.
  assert (G : (exists m, fst (Frequency.getGermanWordsFrequences w) = Ret m) \/
              (exists e,
                 fst (Frequency.getGermanWordsFrequences w) = Throw e /\
                 (replyOutcome (replyTo (listRequest 0) w) = Throw e \/
                  exists d,
                    replyOutcome (replyTo (listRequest 0) w) = Ret d /\
                    replyOutcome (replyTo (listRequest 1)
                                          (requested (listRequest 0) w))
                    = Throw e))).
  { unfold Frequency.getGermanWordsFrequences, Frequency.titles.
    change (listRequest 0) with
      (ParsePage "en"
         (lit "User:Matthias_Buchmeier/German_frequency_list-1-5000") "wikitext").
    change (listRequest 1) with
      (ParsePage "en"
         (lit "User:Matthias_Buchmeier/German_frequency_list-5001-10000")
         "wikitext").
    set (t1 := lit "User:Matthias_Buchmeier/German_frequency_list-1-5000").
    set (t2 := lit "User:Matthias_Buchmeier/German_frequency_list-5001-10000").
    destruct (replyOutcome_cases (replyTo (ParsePage "en" t1 "wikitext") w))
      as [[d1 E1]|[e1 E1]].
    - destruct (addPages_served t1 [t2] [] w d1 E1) as (m1 & ->).
      set (w1 := requested (ParsePage "en" t1 "wikitext") w).
      destruct (replyOutcome_cases (replyTo (ParsePage "en" t2 "wikitext") w1))
        as [[d2 E2]|[e2 E2]].
      + destruct (addPages_served t2 [] m1 w1 d2 E2) as (m2 & ->).
        left. now exists m2.
      + rewrite (addPages_failed t2 [] m1 w1 e2 E2). right. exists e2.
        split; [reflexivity|]. right. now exists d1.
    - rewrite (addPages_failed t1 [t2] [] w e1 E1). right. exists e1.
      split; [reflexivity|]. now left. }
  unfold Frequency.main, bind.
  destruct (Frequency.getGermanWordsFrequences w) as [r w1].
  cbn [fst snd] in G, Hdb, Hnum.
  destruct G as [[m ->]|(e & -> & He)].
  - left. cbn [get].
    destruct (0 <? _)%nat; [|eexists; reflexivity].
    destruct (updateMany_some (Frequency.toUpdate m (w_db w1)) (w_db w1)
                (toUpdate_numeric m (w_db w1) (Hnum m eq_refl))) as (db' & ->).
    eexists. reflexivity.
  - right. exists e. cbn [fst snd]. now repeat split.
Qed.

Lemma split_cons sep c t :
  split sep (c :: t)
  = if (c =? sep)%N then [] :: split sep t else continuing [c] (split sep t).
Proof.
  cbn [split]. destruct (c =? sep)%N; [reflexivity|].
  now destruct (split sep t).
Qed.

Lemma split_not_nil sep s : split sep s <> [].
Proof.
  destruct s as [|c t]; [discriminate|]. rewrite split_cons.
  destruct (c =? sep)%N; [discriminate|]. now destruct (split sep t).
Qed.

Lemma butLast_cons {A} (f : A -> A) x l :
  l <> [] -> butLast f (x :: l) = f x :: butLast f l.
Proof. destruct l; [now intros []|reflexivity]. Qed.

Lemma literal_match l pv t caps :
  rmatch (RLit false l) (MState pv (l ++ t) caps) = [MState (lastOr pv l) t caps].
Proof.
  rewrite rmatch_lit. cbn [m_rest m_prev m_caps].
  replace (stripPrefix false l (l ++ t)) with (Some t)
    by (symmetry; now apply stripPrefix_Some).
  now rewrite consumed_app.
Qed.

Lemma literal_empty st :
  rmatch (RLit false []) st
  = [MState (lastOr (m_prev st) (consumed (m_rest st) (m_rest st)))
            (m_rest st) (m_caps st)].
Proof. reflexivity. Qed.

(** Where the line-break pattern matches, and how much. *)
Lemma lineBreak_here prev s :
  option_map (fun st => length (consumed s (m_rest st)))
             (matchHere Frequency.lineBreakRe prev s)
  = match s with
    | 10%N :: _ => Some 1%nat
    | 13%N :: 10%N :: _ => Some 2%nat
    | _ => None
    end.
Proof.
  unfold matchHere, Frequency.lineBreakRe, LF. cbn [seqs]. rewrite rmatch_seq.
  change (rmatch (RAlt ?a ?b) ?st) with (rmatch a st ++ rmatch b st).
  rewrite flat_map_app, literal_empty. cbn [flat_map m_rest m_prev m_caps].
  rewrite app_nil_r.
  destruct s as [|c t]; [reflexivity|].
  destruct (N.eqb_spec c 10) as [->|N10].
  - rewrite literal_mismatch by congruence. cbn [flat_map app].
    rewrite (literal_match [10%N] _ t []). cbn [hd_error option_map m_rest].
    f_equal. exact (f_equal (@length _) (consumed_app [10%N] t)).
  - rewrite (literal_mismatch 10%N [] _ c t) by congruence. rewrite app_nil_r.
    destruct (N.eqb_spec c 13) as [->|N13].
    + rewrite (literal_match [13%N] _ t _). cbn [flat_map]. rewrite app_nil_r.
      destruct t as [|c1 t1]; [reflexivity|].
      destruct (N.eqb_spec c1 10) as [->|M10].
      * rewrite (literal_match [10%N] _ t1 _). cbn [hd_error option_map m_rest].
        f_equal. exact (f_equal (@length _) (consumed_app [13%N; 10%N] t1)).
      * rewrite literal_mismatch by congruence. cbn [hd_error option_map].
        destruct c1 as [|p]; [reflexivity|].
        do 4 (destruct p as [p|p|]; try reflexivity). now destruct M10.
    + rewrite literal_mismatch by congruence. cbn [flat_map hd_error option_map].
      destruct c as [|p]; [reflexivity|].
      do 4 (destruct p as [p|p|]; try reflexivity);
        try (now destruct N10); now destruct N13.
Qed.

Lemma lineBreak_LF prev t :
  exists st', matchHere Frequency.lineBreakRe prev (10%N :: t) = Some st' /\
              length (consumed (10%N :: t) (m_rest st')) = 1%nat.
Proof.
  pose proof (lineBreak_here prev (10%N :: t)) as H.
  destruct (matchHere Frequency.lineBreakRe prev (10%N :: t)) as [st'|];
    [|discriminate H].
  exists st'. split; [reflexivity|]. now injection H.
Qed.

Lemma lineBreak_CRLF prev t :
  exists st', matchHere Frequency.lineBreakRe prev (13%N :: 10%N :: t) = Some st' /\
              length (consumed (13%N :: 10%N :: t) (m_rest st')) = 2%nat.
Proof.
  pose proof (lineBreak_here prev (13%N :: 10%N :: t)) as H.
  destruct (matchHere Frequency.lineBreakRe prev (13%N :: 10%N :: t)) as [st'|];
    [|discriminate H].
  exists st'. split; [reflexivity|]. now injection H.
Qed.

Lemma lineBreak_none prev c t :
  c <> 10%N -> (c = 13%N -> forall t', t <> 10%N :: t') ->
  matchHere Frequency.lineBreakRe prev (c :: t) = None.
Proof.
  intros N10 N13. pose proof (lineBreak_here prev (c :: t)) as H.
  destruct (matchHere Frequency.lineBreakRe prev (c :: t)) as [st'|];
    [exfalso|reflexivity].
  cbn [option_map] in H.
  destruct (N.eqb_spec c 13) as [->|M13].
  - destruct t as [|c1 t1]; [discriminate H|].
    destruct (N.eqb_spec c1 10) as [->|M10]; [now destruct (N13 eq_refl t1)|].
    destruct c1 as [|p]; [discriminate H|].
    do 4 (destruct p as [p|p|]; try discriminate H). now destruct M10.
  - destruct c as [|p]; [discriminate H|].
    do 4 (destruct p as [p|p|]; try discriminate H);
      try (now destruct N10); now destruct M13.
Qed.

Lemma continuing_twice a b (l : list jsstring) :
  l <> [] -> continuing a (continuing b l) = continuing (a ++ b) l.
Proof.
  destruct l as [|p ps]; [now intros []|]. intros _. cbn. now rewrite app_assoc.
Qed.

Lemma continuing_nil (l : list jsstring) : l <> [] -> continuing [] l = l.
Proof. destruct l; [now intros []|reflexivity]. Qed.

Lemma withoutCR_snoc p : withoutCR (p ++ [13%N]) = p.
Proof. unfold withoutCR. rewrite rev_app_distr. cbn. apply rev_involutive. Qed.

Lemma withoutCR_keeps piece :
  (forall r, piece <> 13%N :: r) -> withoutCR (rev piece) = rev piece.
Proof.
  intros H. unfold withoutCR. rewrite rev_involutive.
  destruct piece as [|c r]; [reflexivity|].
  destruct (N.eqb_spec c 13) as [->|_]; [now destruct (H r)|reflexivity].
Qed.

(** The pieces the pattern cuts, while a piece is being collected. *)
Lemma splitFrom_lines : forall n s piece prev,
  (length s <= n)%nat ->
  (forall r t, piece = 13%N :: r -> s <> 10%N :: t) ->
  splitFrom Frequency.lineBreakRe 0 prev piece s
  = butLast withoutCR (continuing (rev piece) (split LF s)).
Proof.
  induction n as [|n IH]; intros s piece prev Hlen Hinv.
  - destruct s; [|cbn in Hlen; lia]. cbn. now rewrite app_nil_r.
  - destruct s as [|c t]; [cbn; now rewrite app_nil_r|].
    cbn [length] in Hlen. rewrite split_cons. cbn [splitFrom]. unfold LF.
    destruct (N.eqb_spec c 10) as [->|N10].
    + destruct (lineBreak_LF prev t) as (st' & -> & ->).
      cbn [continuing]. rewrite butLast_cons by apply split_not_nil.
      rewrite app_nil_r, withoutCR_keeps.
      * f_equal. rewrite IH; [|lia|discriminate].
        cbn [rev]. now rewrite continuing_nil by apply split_not_nil.
      * intros r E. exact (Hinv r t E eq_refl).
    + rewrite continuing_twice by apply split_not_nil.
      destruct (N.eqb_spec c 13) as [->|N13].
      * destruct t as [|c1 t1].
        { rewrite lineBreak_none; [|exact N10|discriminate].
          rewrite IH; [|cbn; lia|discriminate].
          reflexivity. }
        destruct (N.eqb_spec c1 10) as [->|M10].
        { destruct (lineBreak_CRLF prev t1) as (st' & -> & ->).
          cbn [splitFrom]. rewrite split_cons. unfold LF.
          change (10 =? 10)%N with true. cbn [continuing app].
          rewrite butLast_cons by apply split_not_nil.
          rewrite app_nil_r, withoutCR_snoc. f_equal.
          rewrite IH; [|cbn in Hlen; lia|discriminate].
          cbn [rev]. now rewrite continuing_nil by apply split_not_nil. }
        rewrite lineBreak_none; [|exact N10|].
        2:{ intros _ t' [= E _]. now destruct M10. }
        rewrite IH; [reflexivity|lia|].
        intros r t' _ [= E _]. now destruct M10.
      * rewrite lineBreak_none; [|exact N10|now intros E; destruct N13].
        rewrite IH; [reflexivity|lia|].
        intros r t' [= E _]. now destruct N13.
Qed.

(** X22.  The wikitext is cut at every line feed, and a carriage
    return right before a line feed goes with it: the lines are those
    of a cut at the line feeds alone, each but the last without the
    carriage return it ends with.  Other carriage returns stay. *)
Theorem page_is_cut_at_line_feeds text :
  splitRe Frequency.lineBreakRe text = butLast withoutCR (split LF text).
Proof.
  destruct text as [|c t].
  - unfold splitRe. pose proof (lineBreak_here None []) as H.
    now destruct (matchHere Frequency.lineBreakRe None []).
  - unfold splitRe.
    rewrite (splitFrom_lines (length (c :: t)) (c :: t) _ _ (le_n _));
      [|discriminate].
    cbn [rev]. now rewrite continuing_nil by apply split_not_nil.
Qed.
